(** * Verification of the table pricing engine

    Shallow embedding of [src/services/pricingCalculator.ts]:
    [isHeaderRow], [mergeCompatibleTables] and [processTablesWithPricing]
    with the local closures of the latter ([getScore], [formatPrice],
    [getTreatmentCount]), and of the pure functions of the application
    that calls it ([src/services/geminiService.ts]): [recalculateTotals],
    [handleDeleteColumn], [formatNumberWithSpaces], [getColumnWidths],
    [slugify], [cleanDuplicateText] and [isLocationRedundant].

    Conventions of the embedding.
    - A JavaScript string is the list of its UTF-16 code units ([str]).
    - A JavaScript number is an IEEE-754 binary64 value ([float], Rocq's
      primitive floats), with the operations of the language on it.
    - Regular expressions are kept as syntax ([regex]) and run by a
      backtracking matcher that follows the ECMAScript matcher.
    - [String.prototype.toLowerCase] is a parameter of the development
      (the Unicode case tables are not reproduced); closed examples use
      [toLowerCaseLatin], which agrees with it on Basic Latin, Latin-1 and
      the Polish letters. *)

From Stdlib Require Import String Ascii.
From Stdlib Require Import List ZArith NArith Bool Lia Floats DecimalPos.
Import ListNotations.

#[local] Set Warnings "-inexact-float".
#[local] Open Scope N_scope.

(** ** Strings as UTF-16 code units *)

Definition str := list N.

Fixpoint utf8_decode (bs : list N) : str :=
  match bs with
  | [] => []
  | b :: t =>
      if b <? 128 then b :: utf8_decode t
      else if b <? 224 then
        match t with
        | c :: t' => ((b - 192) * 64 + (c - 128)) :: utf8_decode t'
        | [] => []
        end
      else
        match t with
        | c :: d :: t' =>
            ((b - 224) * 4096 + (c - 128) * 64 + (d - 128)) :: utf8_decode t'
        | _ => []
        end
  end.

(** [js "..."] is the string literal of the source: the file is UTF-8, a
    literal is decoded to its code units (all literals are in the BMP). *)
Definition js (s : String.string) : str :=
  utf8_decode (map (fun a => N.of_nat (Ascii.nat_of_ascii a)) (String.list_ascii_of_string s)).
Arguments js s%_string.

Definition str_eqb (a b : str) : bool :=
  if list_eq_dec N.eq_dec a b then true else false.

Fixpoint startsWith (p s : str) : bool :=
  match p, s with
  | [], _ => true
  | a :: p', b :: s' => (a =? b) && startsWith p' s'
  | _ :: _, [] => false
  end.

(** [s.includes(sub)] *)
Fixpoint includes (s sub : str) : bool :=
  startsWith sub s ||
  match s with
  | [] => false
  | _ :: s' => includes s' sub
  end.

(** [s.endsWith(suffix)] *)
Definition endsWith (s suffix : str) : bool :=
  startsWith (rev suffix) (rev s).

(** [s.slice(0, -n)] *)
Definition dropLast (n : nat) (s : str) : str :=
  firstn (length s - n) s.

(** [cells.join(sep)] *)
Fixpoint join (sep : str) (cells : list str) : str :=
  match cells with
  | [] => []
  | [c] => c
  | c :: rest => c ++ sep ++ join sep rest
  end.

(** [arr.includes(x)] on an array of strings *)
Definition arrIncludes (arr : list str) (x : str) : bool :=
  existsb (str_eqb x) arr.

(** A non-empty string is truthy. *)
Definition truthy (s : str) : bool :=
  match s with [] => false | _ => true end.

(** WhiteSpace and LineTerminator code units: what [trim] strips and what
    [\s] matches. *)
Definition isSpace (c : N) : bool :=
  ((9 <=? c) && (c <=? 13)) || (c =? 32) || (c =? 160) || (c =? 5760)
  || ((8192 <=? c) && (c <=? 8202)) || (c =? 8232) || (c =? 8233)
  || (c =? 8239) || (c =? 8287) || (c =? 12288) || (c =? 65279).

Fixpoint trimStart (s : str) : str :=
  match s with
  | c :: s' => if isSpace c then trimStart s' else s
  | [] => []
  end.

Definition trimEnd (s : str) : str := rev (trimStart (rev s)).

Definition trim (s : str) : str := trimEnd (trimStart s).

Definition isDigit (c : N) : bool := (48 <=? c) && (c <=? 57).

(** The word characters of [\w] and [\b]: [A-Za-z0-9_]. *)
Definition isWordChar (c : N) : bool :=
  ((97 <=? c) && (c <=? 122)) || ((65 <=? c) && (c <=? 90)) || isDigit c || (c =? 95).

(** The example instance of [toLowerCase]: exact on Basic Latin, Latin-1
    Supplement and the Polish capitals. *)
Definition lowerUnit (c : N) : N :=
  if (65 <=? c) && (c <=? 90) then c + 32
  else if (192 <=? c) && (c <=? 222) && negb (c =? 215) then c + 32
  else if (c =? 260) || (c =? 262) || (c =? 280) || (c =? 321) || (c =? 323)
          || (c =? 346) || (c =? 377) || (c =? 379) then c + 1
  else c.

Definition toLowerCaseLatin (s : str) : str := map lowerUnit s.

(** ** Regular expressions

    The patterns of the source are kept as syntax and run by a backtracking
    matcher in continuation-passing style, as the ECMAScript specification
    defines matching: alternatives are tried left to right, [Star] is greedy
    and gives up an iteration that consumed nothing. *)

Inductive regex : Type :=
| Eps
| Chr (p : N -> bool)
| Seq (r1 r2 : regex)
| Alt (r1 r2 : regex)
| Star (r : regex)
| Group (n : nat) (r : regex)
| Bol
| Eol
| WordB.

Definition Plus (r : regex) : regex := Seq r (Star r).
Definition Opt (r : regex) : regex := Alt r Eps.

Fixpoint Lit (eqc : N -> N -> bool) (s : str) : regex :=
  match s with
  | [] => Eps
  | c :: s' => Seq (Chr (eqc c)) (Lit eqc s')
  end.

(** Where the matcher stands: the code unit before the position (none at
    the start of the input), the input from the position on, and the
    captures made so far, latest first. *)
Record mstate := MState { prev : option N; rest : str; caps : list (nat * str) }.

Definition isWordAt (c : option N) : bool :=
  match c with Some x => isWordChar x | None => false end.

(** The greedy loop of [r*], for the matcher [m] of [r]: one more
    iteration first, which must consume something, then the continuation.
    Each iteration shortens the input, so its length is fuel enough. *)
Fixpoint starLoop (m : (mstate -> option mstate) -> mstate -> option mstate)
    (k : mstate -> option mstate) (fuel : nat) (s : mstate) : option mstate :=
  match fuel with
  | O => k s
  | S fuel' =>
      match m (fun s' => if (length (rest s') <? length (rest s))%nat
                         then starLoop m k fuel' s' else None) s with
      | Some res => Some res
      | None => k s
      end
  end.

Fixpoint rmatch (r : regex) (k : mstate -> option mstate) (s : mstate) : option mstate :=
  match r with
  | Eps => k s
  | Chr p =>
      match rest s with
      | c :: t => if p c then k (MState (Some c) t (caps s)) else None
      | [] => None
      end
  | Seq r1 r2 => rmatch r1 (rmatch r2 k) s
  | Alt r1 r2 =>
      match rmatch r1 k s with
      | Some res => Some res
      | None => rmatch r2 k s
      end
  | Star r1 => starLoop (rmatch r1) k (length (rest s)) s
  | Group n r1 =>
      rmatch r1
        (fun s' => k (MState (prev s') (rest s')
                        ((n, firstn (length (rest s) - length (rest s')) (rest s)) :: caps s')))
        s
  | Bol => match prev s with None => k s | Some _ => None end
  | Eol => match rest s with [] => k s | _ :: _ => None end
  | WordB => if xorb (isWordAt (prev s)) (isWordAt (hd_error (rest s))) then k s else None
  end.

(** A successful match: the text skipped before it, the matched text and
    the matcher's final state. *)
Record found := Found { skipped : str; matched : str; final : mstate }.

(** [re.exec]: the leftmost position at which the pattern matches. *)
Fixpoint search (r : regex) (p : option N) (text : str) : option found :=
  match rmatch r Some (MState p text []) with
  | Some s' => Some (Found [] (firstn (length text - length (rest s')) text) s')
  | None =>
      match text with
      | [] => None
      | c :: t =>
          match search r (Some c) t with
          | Some f => Some (Found (c :: skipped f) (matched f) (final f))
          | None => None
          end
      end
  end.

(** The capture with number [n] of a match ([undefined] when the group
    took no part in it). *)
Fixpoint capture (n : nat) (cs : list (nat * str)) : option str :=
  match cs with
  | [] => None
  | (m, v) :: cs' => if Nat.eqb m n then Some v else capture n cs'
  end.

(** [regex.test(text)] *)
Definition test (r : regex) (text : str) : bool :=
  match search r None text with Some _ => true | None => false end.

(** [text.matchAll(regex)] for a global pattern: the successive matches,
    each search resuming where the last match ended (one code unit further
    after an empty match). *)
Fixpoint matchAllFrom (fuel : nat) (r : regex) (p : option N) (text : str) : list found :=
  match fuel with
  | O => []
  | S fuel' =>
      match search r p text with
      | None => []
      | Some f =>
          f :: match matched f, rest (final f) with
               | [], [] => []
               | [], c :: t => matchAllFrom fuel' r (Some c) t
               | _ :: _, t => matchAllFrom fuel' r (prev (final f)) t
               end
      end
  end.

Definition matchAll (r : regex) (text : str) : list found :=
  matchAllFrom (S (length text)) r None text.

(** [text.replace(regex, '')] for a pattern without the global flag. *)
Definition replaceFirst (r : regex) (text : str) : str :=
  match search r None text with
  | Some f => skipped f ++ rest (final f)
  | None => text
  end.

(** [text.replace(regex, '')] for a global pattern. *)
Fixpoint removeAllFrom (fuel : nat) (r : regex) (p : option N) (text : str) : str :=
  match fuel with
  | O => text
  | S fuel' =>
      match search r p text with
      | None => text
      | Some f =>
          skipped f ++
          match matched f, rest (final f) with
          | [], [] => []
          | [], c :: t => c :: removeAllFrom fuel' r (Some c) t
          | _ :: _, t => removeAllFrom fuel' r (prev (final f)) t
          end
      end
  end.

Definition removeAll (r : regex) (text : str) : str :=
  removeAllFrom (S (length text)) r None text.

Definition eqUnit (c x : N) : bool := x =? c.

(** Matching a pattern character under the [i] flag.  The pattern
    characters of the source are Basic Latin; for those, Canonicalize
    relates exactly the two cases of a letter, since a code unit of 128 or
    more is never canonicalized to one below 128. *)
Definition upperAscii (c : N) : N :=
  if (97 <=? c) && (c <=? 122) then c - 32 else c.

Definition eqUnitCI (c x : N) : bool := upperAscii x =? upperAscii c.

Definition isDot (c : N) : bool := c =? 46.

(** ** Numbers

    A number of the source is a binary64 value.  Arithmetic and comparison
    are the primitive ones; the conversions between numbers and decimal
    text are defined on the exact value [m * 2^e] of a finite number. *)

#[local] Open Scope Z_scope.

(** The number nearest to an integer (ties to even, infinity on overflow). *)
Definition floatOfZ (z : Z) : float :=
  SF2Prim (binary_normalize prec emax z 0 false).

(** The number nearest to [n / d], for positive [n] and [d]. *)
Definition floatOfRatio (n d : positive) : float :=
  SF2Prim (SFdiv prec emax (S754_finite false n 0) (S754_finite false d 0)).

Fixpoint uintDigits (u : Decimal.uint) : str :=
  match u with
  | Decimal.Nil => []
  | Decimal.D0 u' => 48%N :: uintDigits u'
  | Decimal.D1 u' => 49%N :: uintDigits u'
  | Decimal.D2 u' => 50%N :: uintDigits u'
  | Decimal.D3 u' => 51%N :: uintDigits u'
  | Decimal.D4 u' => 52%N :: uintDigits u'
  | Decimal.D5 u' => 53%N :: uintDigits u'
  | Decimal.D6 u' => 54%N :: uintDigits u'
  | Decimal.D7 u' => 55%N :: uintDigits u'
  | Decimal.D8 u' => 56%N :: uintDigits u'
  | Decimal.D9 u' => 57%N :: uintDigits u'
  end.

(** The decimal numeral of a natural number, without leading zeros. *)
Definition decimal (n : N) : str := uintDigits (N.to_uint n).

(** The value of a run of decimal digits. *)
Definition digitsValue (ds : str) : Z :=
  fold_left (fun acc c => 10 * acc + (Z.of_N c - 48)) ds 0.

Fixpoint takeWhile (p : N -> bool) (s : str) : str :=
  match s with
  | c :: s' => if p c then c :: takeWhile p s' else []
  | [] => []
  end.

Fixpoint dropWhile (p : N -> bool) (s : str) : str :=
  match s with
  | c :: s' => if p c then dropWhile p s' else s
  | [] => []
  end.

(** [parseInt(s, 10)]: the number nearest to the value of the leading
    digits, every digit counted (the language lets an implementation read
    the digits behind the twentieth as zeros; the program gives it runs of
    digits taken from the cells of a table). *)
Definition parseInt (s : str) : float :=
  let t := trimStart s in
  let '(neg, body) :=
    match t with
    | 45%N :: b => (true, b)
    | 43%N :: b => (false, b)
    | _ => (false, t)
    end in
  match takeWhile isDigit body with
  | [] => nan
  | ds => let v := floatOfZ (digitsValue ds) in
          if neg then PrimFloat.opp v else v
  end.

(** [Math.ceil] *)
Definition ceil (x : float) : float :=
  match Prim2SF x with
  | S754_finite s m e =>
      if 0 <=? e then x
      else
        let d := 2 ^ (- e) in
        if s then
          let q := Z.pos m / d in
          if q =? 0 then neg_zero else floatOfZ (- q)
        else floatOfZ ((Z.pos m + d - 1) / d)
  | _ => x
  end.

(** [Number::toString] for a finite number of magnitude at least 10^21,
    given as [m * 2^e] with [0 <= e]: the shortest digit string [s] with
    [s * 10^p] rounding to the number, the closest such one, the even one
    on a tie; written in exponent form. *)
Definition inRoundingInterval (m : positive) (e : Z) (c : Z) : bool :=
  let v := Z.pos m * 2 ^ e in
  let below := if (Z.pos m =? 2 ^ 52) && (e <? 971) then 2 ^ (e - 2) else 2 ^ (e - 1) in
  let low := v - below in
  let high := v + 2 ^ (e - 1) in
  if Z.even (Z.pos m) then (low <=? c) && (c <=? high)
  else (low <? c) && (c <? high).

Fixpoint shortestDigits (fuel : nat) (k : Z) (m : positive) (e : Z) (nd : Z) : Z * Z :=
  let v := Z.pos m * 2 ^ e in
  match fuel with
  | O => (v, 0)
  | S fuel' =>
      let p := nd - k in
      let a := v / 10 ^ p in
      let lo := a * 10 ^ p in
      let hi := (a + 1) * 10 ^ p in
      let okLo := inRoundingInterval m e lo in
      let okHi := inRoundingInterval m e hi in
      if okLo && okHi then
        match (v - lo) ?= (hi - v) with
        | Lt => (a, p)
        | Gt => (a + 1, p)
        | Eq => if Z.even a then (a, p) else (a + 1, p)
        end
      else if okLo then (a, p)
      else if okHi then (a + 1, p)
      else shortestDigits fuel' (k + 1) m e nd
  end.

Fixpoint stripZeros (fuel : nat) (s p : Z) : Z * Z :=
  match fuel with
  | O => (s, p)
  | S fuel' => if (0 <? s) && (s mod 10 =? 0) then stripZeros fuel' (s / 10) (p + 1) else (s, p)
  end.

Definition zDecimal (z : Z) : str := decimal (Z.to_N z).

Definition toStringLarge (m : positive) (e : Z) : str :=
  let v := Z.pos m * 2 ^ e in
  let nd := Z.of_nat (length (zDecimal v)) in
  let '(s0, p0) := shortestDigits 17 1 m e nd in
  let '(s, p) := stripZeros 400 s0 p0 in
  let ds := zDecimal s in
  let n := Z.of_nat (length ds) + p in
  match ds with
  | [d] => [d] ++ js "e+" ++ zDecimal (n - 1)
  | d :: more => [d] ++ js "." ++ more ++ js "e+" ++ zDecimal (n - 1)
  | [] => []
  end.

(** [x.toFixed(2)] *)
Definition fixedDigits (n : Z) : str :=
  let ds := zDecimal n in
  let padded := repeat 48%N (3 - length ds) ++ ds in
  firstn (length padded - 2) padded ++ js "." ++ skipn (length padded - 2) padded.

Definition toFixed2 (x : float) : str :=
  match Prim2SF x with
  | S754_nan => js "NaN"
  | S754_infinity false => js "Infinity"
  | S754_infinity true => js "-Infinity"
  | S754_zero _ => js "0.00"
  | S754_finite s m e =>
      (if s then js "-" else []) ++
      (if (0 <=? e) && (10 ^ 21 <=? Z.pos m * 2 ^ e) then toStringLarge m e
       else if 0 <=? e then fixedDigits (100 * Z.pos m * 2 ^ e)
       else fixedDigits ((200 * Z.pos m + 2 ^ (- e)) / 2 ^ (- e + 1)))
  end.

(** [parseFloat(s)]: the longest prefix that is a decimal literal. *)
Definition parseFloat (s : str) : float :=
  let t := trimStart s in
  let '(neg, body) :=
    match t with
    | 45%N :: b => (true, b)
    | 43%N :: b => (false, b)
    | _ => (false, t)
    end in
  let signed := fun v : float => if neg then PrimFloat.opp v else v in
  if startsWith (js "Infinity") body then signed infinity
  else
    let ip := takeWhile isDigit body in
    let r1 := dropWhile isDigit body in
    let '(fp, r2) :=
      match r1 with
      | 46%N :: r => (takeWhile isDigit r, dropWhile isDigit r)
      | _ => ([], r1)
      end in
    match ip ++ fp with
    | [] => nan
    | ds =>
        let ex :=
          match r2 with
          | c :: r =>
              if (c =? 101)%N || (c =? 69)%N then
                let '(eneg, eb) :=
                  match r with
                  | 45%N :: b => (true, b)
                  | 43%N :: b => (false, b)
                  | _ => (false, r)
                  end in
                match takeWhile isDigit eb with
                | [] => 0
                | eds => if eneg then - digitsValue eds else digitsValue eds
                end
              else 0
          | [] => 0
          end in
        let p := ex - Z.of_nat (length fp) in
        signed match digitsValue ds with
               | Z.pos mant =>
                   if 0 <=? p then floatOfZ (Z.pos mant * 10 ^ p)
                   else floatOfRatio mant (Z.to_pos (10 ^ (- p)))
               | _ => zero
               end
    end.

#[local] Close Scope Z_scope.
#[local] Close Scope N_scope.

(** ** The data of the program *)

Record ExtractedTable := {
  title : option str;
  headers : list str;
  rows : list (list str)
}.

Record CalculatedTotals := { totalNetto : float; totalBrutto : float }.

Record PricingTier := { min : float; max : float; price : float }.

(** An absent option is [None]; an absent flag counts as false. *)
Record ProcessingOptions := {
  removeUoRows : option bool;
  removeZeroPriceRows : option bool;
  preserveLp : option bool;
  wePrice : option float;
  w2tPrice : option float;
  w4tPrice : option float;
  kuPrice : option float;
  csMultiplier : option float;
  customCsPrices : option (list float)
}.

Definition noOptions : ProcessingOptions :=
  {| removeUoRows := None; removeZeroPriceRows := None; preserveLp := None;
     wePrice := None; w2tPrice := None; w4tPrice := None; kuPrice := None;
     csMultiplier := None; customCsPrices := None |}.

Record ProcessingResult := {
  processedTables : list ExtractedTable;
  totals : CalculatedTotals
}.

Definition isTrue (flag : option bool) : bool :=
  match flag with Some b => b | None => false end.

(** [x ?? d] *)
Definition orDefault (x : option float) (d : float) : float :=
  match x with Some v => v | None => d end.

Definition tier (lo hi p : float) : PricingTier := {| min := lo; max := hi; price := p |}.

Definition DEFAULT_PRICING_SCHEDULE : list PricingTier :=
  [ tier 0 100 730;     tier 101 150 792;   tier 151 200 848;
    tier 201 250 912;   tier 251 300 1164;  tier 301 350 1296;
    tier 351 400 1462;  tier 401 450 1628;  tier 451 500 1650;
    tier 501 550 1766;  tier 551 600 1880;  tier 601 650 1996;
    tier 651 700 2112 ]%float.

Definition VAT_RATE : float := 0.08%float.

Definition nl : str := [10%N].

Definition strongHeaderKeywords : list str :=
  [ js "lp."; js "lp"; js "nr na mapie"; js "nazwa gatunku"; js "obwód";
    js "obwod"; js "zabiegi"; js "pielęgnacyjne"; js "wartość"; js "netto";
    js "brutto"; js "kod" ].

(** The canonical labels of the report. *)
Definition circLabel : str :=
  js "Obwód pnia" ++ nl ++ js "mierz." ++ nl ++ js "na wys. 130 cm" ++ nl ++ js "[cm]".
Definition treatLabel : str := js "Zabiegi" ++ nl ++ js "pielęgnacyjne".
Definition lpLabel : str := js "Lp.".
Definition speciesLabel : str := js "Nazwa gatunku" ++ nl ++ js "[polska/łacińska]".
Definition nettoLabel : str :=
  js "Wartość" ++ nl ++ js "zabiegów" ++ nl ++ js "pielęgnacyjnych" ++ nl
  ++ js "[netto]" ++ nl ++ js "[PLN]".
Definition bruttoLabel : str :=
  js "Wartość" ++ nl ++ js "zabiegów" ++ nl ++ js "pielęgnacyjnych" ++ nl
  ++ js "[brutto]" ++ nl ++ js "[PLN]".

(** ** The patterns of the source *)

Definition seqs (rs : list regex) : regex := fold_right Seq Eps rs.

(** [/[\s\r\n\t.,;:]/g] *)
Definition separatorClass (c : N) : bool :=
  (isSpace c || (c =? 13) || (c =? 10) || (c =? 9)
   || (c =? 46) || (c =? 44) || (c =? 59) || (c =? 58))%N.
Definition separatorPattern : regex := Chr separatorClass.

(** [/\bwe\b/] *)
Definition weWordPattern : regex := seqs [WordB; Lit eqUnit (js "we"); WordB].

(** [/^(\d+)/] *)
Definition leadingNumberPattern : regex := seqs [Bol; Group 1 (Plus (Chr isDigit))].

(** [/(\d+)/] *)
Definition numberPattern : regex := Group 1 (Plus (Chr isDigit)).

(** [/\.$/] *)
Definition trailingDotPattern : regex := seqs [Chr isDot; Eol].

(** [/^[\d.]+$/] *)
Definition numeralPattern : regex :=
  seqs [Bol; Plus (Chr (fun c => isDigit c || isDot c)); Eol].

(** The pattern of [getTreatmentCount], built with flags [ig] from three
    parts: an optional group made of digits (capture 1), spaces, [x] and
    spaces; the code as a whole word (capture 2); an optional group made of
    spaces, [x], spaces and digits (capture 3). *)
Definition treatmentPattern (code : str) : regex :=
  seqs [ Opt (seqs [Group 1 (Plus (Chr isDigit)); Star (Chr isSpace);
                    Chr (eqUnitCI 120%N); Star (Chr isSpace)]);
         WordB; Group 2 (Lit eqUnitCI code); WordB;
         Opt (seqs [Star (Chr isSpace); Chr (eqUnitCI 120%N); Star (Chr isSpace);
                    Group 3 (Plus (Chr isDigit))]) ].

(** [a || b] on possibly undefined strings *)
Definition orElse (a : option str) (b : str) : str :=
  match a with
  | Some (c :: s) => c :: s
  | _ => b
  end.

(** [String(match[n])]: the text of a capture as an argument of [parseInt]. *)
Definition captureText (n : nat) (f : found) : str :=
  match capture n (caps (final f)) with
  | Some v => v
  | None => js "undefined"
  end.

(** [arr.findIndex(p)] *)
Fixpoint findIndexFrom {A : Type} (p : A -> bool) (l : list A) (i : nat) : option nat :=
  match l with
  | [] => None
  | x :: l' => if p x then Some i else findIndexFrom p l' (S i)
  end.
Definition findIndex {A : Type} (p : A -> bool) (l : list A) : option nat := findIndexFrom p l 0.

(** The elements of an array with their indices, as [forEach] and [map] pass them. *)
Definition indexed {A : Type} (l : list A) : list (nat * A) := combine (seq 0 (length l)) l.

(** [arr[i] = v] for an index within the array *)
Fixpoint setNth (i : nat) (v : str) (l : list str) : list str :=
  match l, i with
  | [], _ => []
  | _ :: l', O => v :: l'
  | x :: l', S i' => x :: setNth i' v l'
  end.

(** [row[i] || ""] *)
Definition cellAt (row : list str) (i : nat) : str := nth i row [].

(** [formatPrice]: two decimals, a trailing [.00] removed. *)
Definition formatPrice (val : float) : str :=
  let fixed := toFixed2 val in
  if endsWith fixed (js ".00") then dropLast 3 fixed else fixed.

(** ** The program *)

Section PricingCalculator.

(** [String.prototype.toLowerCase] *)
Variable toLowerCase : str -> str.

(** *** Header detection *)

Definition normalizeText (text : str) : str :=
  removeAll separatorPattern (toLowerCase text).

(** One round of the comparison loop of [isHeaderRow]; the state is
    ([matchScore], [comparisons]). *)
Definition compareColumn (referenceHeaders row : list str)
    (st : float * float) (i : nat) : float * float :=
  let '(matchScore, comparisons) := st in
  let h := normalizeText (cellAt referenceHeaders i) in
  let r := normalizeText (cellAt row i) in
  if negb (truthy h) && negb (truthy r) then st
  else
    let comparisons := (comparisons + 1)%float in
    if str_eqb h r then ((matchScore + 1)%float, comparisons)
    else if ((3 <? length h) || (3 <? length r)) && (includes h r || includes r h)
    then ((matchScore + 0.8)%float, comparisons)
    else (matchScore, comparisons).

Definition isHeaderRow (row referenceHeaders : list str) : bool :=
  let rowText := toLowerCase (join (js " ") row) in
  let keywordHits :=
    fold_left (fun hits kw => if includes rowText kw then S hits else hits)
      strongHeaderKeywords 0 in
  if 3 <=? keywordHits then true
  else if (2 <=? keywordHits) && (includes rowText (js "lp") || includes rowText (js "nr"))
  then true
  else
    if 0 <? length referenceHeaders then
      let colsToCheck := Nat.min (length referenceHeaders) (length row) in
      let '(matchScore, comparisons) :=
        fold_left (compareColumn referenceHeaders row) (seq 0 colsToCheck)
          (0%float, 0%float) in
      (0 <? comparisons)%float && (0.5 <? matchScore / comparisons)%float
    else false.

(** *** Table merging *)

Definition withRows (t : ExtractedTable) (rs : list (list str)) : ExtractedTable :=
  {| title := title t; headers := headers t; rows := rs |}.

Definition absDiff (a b : nat) : nat := (a - b) + (b - a).

(** Two arrays of strings have the same [JSON.stringify] text exactly when
    they are equal. *)
Definition sameHeaders (a b : list str) : bool :=
  if list_eq_dec (list_eq_dec N.eq_dec) a b then true else false.

Definition compatible (currentTable nextTable : ExtractedTable) : bool :=
  let colDiff := absDiff (length (headers currentTable)) (length (headers nextTable)) in
  let headersLookSimilar := isHeaderRow (headers nextTable) (headers currentTable) in
  sameHeaders (headers currentTable) (headers nextTable)
  || headersLookSimilar
  || ((colDiff <=? 1) && (3 <? length (headers nextTable))).

(** One round of the loop of [mergeCompatibleTables]; the state is
    ([merged], [currentTable]). *)
Definition mergeStep (st : list ExtractedTable * ExtractedTable) (nextTable : ExtractedTable)
    : list ExtractedTable * ExtractedTable :=
  let '(merged, currentTable) := st in
  if compatible currentTable nextTable
  then (merged, withRows currentTable (rows currentTable ++ rows nextTable))
  else (merged ++ [currentTable], withRows nextTable (rows nextTable)).

Definition mergeCompatibleTables (tables : list ExtractedTable) : list ExtractedTable :=
  match tables with
  | [] => []
  | first :: others =>
      let '(merged, currentTable) :=
        fold_left mergeStep others ([], withRows first (rows first)) in
      merged ++ [currentTable]
  end.

(** *** Column classification

    [columnScores] is a [Map] from column index to a pair of scores; it is
    iterated in insertion order, so it is kept as an association list in
    that order.  The scores are integers far below 2^53 (at most one cell
    per row adds to a column), hence exact; they are kept in [Z]. *)

Record score := { circ : Z; treat : Z }.

Definition columnScoresT := list (nat * score).

Definition hasKey (m : columnScoresT) (idx : nat) : bool :=
  existsb (fun e => Nat.eqb (fst e) idx) m.

(** [getScore]: the entry of [idx], created with zero scores when missing. *)
Definition getScore (m : columnScoresT) (idx : nat) : columnScoresT :=
  if hasKey m idx then m else m ++ [(idx, {| circ := 0; treat := 0 |})].

Definition updateScore (idx : nat) (f : score -> score) (m : columnScoresT) : columnScoresT :=
  map (fun e => if Nat.eqb (fst e) idx then (fst e, f (snd e)) else e) m.

Definition addCirc (d : Z) (s : score) : score := {| circ := circ s + d; treat := treat s |}.
Definition addTreat (d : Z) (s : score) : score := {| circ := circ s; treat := treat s + d |}.

Definition anyIncludes (s : str) (kws : list str) : bool := existsb (includes s) kws.

(** Strategy 1: the callback of [table.headers.forEach]. *)
Definition scoreHeader (m : columnScoresT) (e : nat * str) : columnScoresT :=
  let '(idx, header) := e in
  let h := trim (toLowerCase header) in
  let m := getScore m idx in
  let m :=
    if anyIncludes h [js "obw"; js "cm"; js "wymiar"; js "srednica"; js "średnica"]
    then updateScore idx (addCirc 50) m else m in
  if anyIncludes h [js "zabieg"; js "czynnoś"; js "czynnos"; js "opis"; js "kod"]
  then updateScore idx (addTreat 50) m else m.

(** Strategy 2: the callback of [row.forEach]. *)
Definition scoreCell (m : columnScoresT) (e : nat * str) : columnScoresT :=
  let '(idx, cell) := e in
  if negb (truthy cell) then m
  else
    let val := trim cell in
    let valLower := toLowerCase val in
    let m := getScore m idx in
    let m :=
      if anyIncludes valLower [js "cs"; js "cięc"; js "ciec"; js "cr"; js "cp"]
      then updateScore idx (addTreat 5) m
      else if includes valLower (js "w2t") || includes valLower (js "w4t")
              || test weWordPattern valLower
      then updateScore idx (addTreat 5) m
      else if includes valLower (js "ku")
      then updateScore idx (addTreat 5) m
      else if arrIncludes [js "uo"; js "u"; js "uo."; js "u."] valLower
      then updateScore idx (addTreat 2) m
      else m in
    match search leadingNumberPattern None val with
    | Some numberMatch =>
        let num := parseInt (captureText 1 numberMatch) in
        if negb (is_nan num) && (0 <=? num)%float && (num <=? 900)%float
        then updateScore idx (addCirc 1) m else m
    | None => m
    end.

Definition scoreColumns (table : ExtractedTable) : columnScoresT :=
  let m := [] in
  let m := if 0 <? length (headers table)
           then fold_left scoreHeader (indexed (headers table)) m else m in
  fold_left (fun m row => fold_left scoreCell (indexed row) m) (rows table) m.

(** The four variables of the selection loop; [None] is the index [-1]. *)
Record selection := {
  bestCircIdx : option nat;
  maxCircScore : Z;
  bestTreatIdx : option nat;
  maxTreatScore : Z
}.

Definition selectStep (s : selection) (e : nat * score) : selection :=
  let '(idx, sc) := e in
  let s :=
    if (maxCircScore s <? circ sc)%Z
    then {| bestCircIdx := Some idx; maxCircScore := circ sc;
            bestTreatIdx := bestTreatIdx s; maxTreatScore := maxTreatScore s |}
    else s in
  if (maxTreatScore s <? treat sc)%Z
  then {| bestCircIdx := bestCircIdx s; maxCircScore := maxCircScore s;
          bestTreatIdx := Some idx; maxTreatScore := treat sc |}
  else s.

Definition selectBest (m : columnScoresT) : selection :=
  fold_left selectStep m
    {| bestCircIdx := None; maxCircScore := 0; bestTreatIdx := None; maxTreatScore := 0 |}.

Definition sameIndex (a b : option nat) : bool :=
  match a, b with
  | Some i, Some j => Nat.eqb i j
  | None, None => true
  | _, _ => false
  end.

(** The conflict resolution; the result is ([bestCircIdx], [bestTreatIdx]). *)
Definition resolveConflict (s : selection) : option nat * option nat :=
  match bestCircIdx s with
  | Some _ =>
      if sameIndex (bestCircIdx s) (bestTreatIdx s) then
        if (maxCircScore s <=? maxTreatScore s)%Z
        then (None, bestTreatIdx s)
        else (bestCircIdx s, None)
      else (bestCircIdx s, bestTreatIdx s)
  | None => (bestCircIdx s, bestTreatIdx s)
  end.

Definition classifyColumns (table : ExtractedTable) : option nat * option nat :=
  resolveConflict (selectBest (scoreColumns table)).

(** *** Row filtering before pricing *)

Definition dropHeaderRows (table : ExtractedTable) : list (list str) :=
  filter (fun row => negb (isHeaderRow row (headers table))) (rows table).

Definition isUoRow (bestTreatIdx : nat) (row : list str) : bool :=
  let treatCell := cellAt row bestTreatIdx in
  let normalized := replaceFirst trailingDotPattern (toLowerCase (trim treatCell)) in
  arrIncludes [js "uo"; js "u"] normalized.

Definition rowsToProcess (options : ProcessingOptions) (bestTreatIdx : option nat)
    (table : ExtractedTable) : list (list str) :=
  let rs := dropHeaderRows table in
  match bestTreatIdx with
  | Some t => if isTrue (removeUoRows options)
              then filter (fun row => negb (isUoRow t row)) rs else rs
  | None => rs
  end.

(** *** Header renaming *)

Definition renameAt (idx : nat) (label : str) (hs : list str) : list str :=
  match nth_error hs idx with
  | Some h => if truthy h then setNth idx label hs else hs
  | None => hs
  end.

Definition renameLp (hs : list str) : list str :=
  match hs with
  | first :: _ =>
      let h0 := toLowerCase first in
      if includes h0 (js "lp") || str_eqb h0 (js "1") || str_eqb h0 [] || str_eqb h0 (js "no")
      then setNth 0 lpLabel hs else hs
  | [] => hs
  end.

Definition renameSpecies (bestCircIdx bestTreatIdx : nat) (hs : list str) : list str :=
  match hs with
  | _ :: second :: _ =>
      if negb (Nat.eqb bestCircIdx 1) && negb (Nat.eqb bestTreatIdx 1) then
        let h1 := toLowerCase second in
        if includes h1 (js "gatun") || includes h1 (js "nazwa") || str_eqb h1 []
        then setNth 1 speciesLabel hs else hs
      else hs
  | _ => hs
  end.

(** The four relabelling steps, without the appended labels. *)
Definition relabelHeaders (bestCircIdx bestTreatIdx : nat) (hs : list str) : list str :=
  renameSpecies bestCircIdx bestTreatIdx
    (renameLp (renameAt bestTreatIdx treatLabel (renameAt bestCircIdx circLabel hs))).

Definition appendPriceHeaders (hs : list str) : list str :=
  if 0 <? length hs then hs ++ [nettoLabel; bruttoLabel] else hs.

(** [newHeaders] of a table whose two columns are resolved. *)
Definition renameHeaders (bestCircIdx bestTreatIdx : nat) (hs : list str) : list str :=
  appendPriceHeaders (relabelHeaders bestCircIdx bestTreatIdx hs).

(** *** Pricing of a row *)

Definition csFamilyTreatmentCount (tLower : str) : float :=
  let c := 0%float in
  let c := if anyIncludes tLower [js "cs"; js "cięc"; js "ciec"] then (c + 1)%float else c in
  let c := if anyIncludes tLower [js "cr"] then (c + 1)%float else c in
  if anyIncludes tLower [js "cp"] then (c + 1)%float else c.

Definition inTier (cm : float) (t : PricingTier) : bool :=
  ((min t <=? cm) && (cm <=? max t))%float.

(** Step 1 of the row loop: the price of the CS, CR and CP treatments. *)
Definition addCsPrice (options : ProcessingOptions) (circCell tLower : str)
    (rowPriceNetto : float) : float :=
  let count := csFamilyTreatmentCount tLower in
  if (0 <? count)%float then
    match search numberPattern None circCell with
    | Some m =>
        let cm := parseInt (captureText 1 m) in
        match findIndex (inTier cm) DEFAULT_PRICING_SCHEDULE with
        | Some tierIndex =>
            match nth_error DEFAULT_PRICING_SCHEDULE tierIndex with
            | Some t =>
                let basePrice := price t in
                let basePrice :=
                  match customCsPrices options with
                  | Some custom =>
                      match nth_error custom tierIndex with
                      | Some p => p
                      | None => basePrice
                      end
                  | None => basePrice
                  end in
                let basePrice :=
                  match csMultiplier options with
                  | Some k => ceil (basePrice * k)
                  | None => basePrice
                  end in
                (rowPriceNetto + basePrice * count)%float
            | None => rowPriceNetto
            end
        | None => rowPriceNetto
        end
    | None => rowPriceNetto
    end
  else rowPriceNetto.

(** [getTreatmentCount] *)
Definition getTreatmentCount (text code : str) : float :=
  let matches := matchAll (treatmentPattern code) text in
  match matches with
  | [] => 0%float
  | _ =>
      fold_left
        (fun totalCount m =>
           (totalCount
            + parseInt (orElse (capture 1 (caps (final m)))
                          (orElse (capture 3 (caps (final m))) (js "1"))))%float)
        matches 0%float
  end.

(** Step 2 of the row loop: WE, W2t and W4t, the highest tier only. *)
Definition addCrownPrice (options : ProcessingOptions) (treatCell : str)
    (rowPriceNetto : float) : float :=
  let w4tCount := getTreatmentCount treatCell (js "w4t") in
  let w2tCount := getTreatmentCount treatCell (js "w2t") in
  let weCount := getTreatmentCount treatCell (js "we") in
  if (0 <? w4tCount)%float
  then (rowPriceNetto + orDefault (w4tPrice options) 1200 * w4tCount)%float
  else if (0 <? w2tCount)%float
  then (rowPriceNetto + orDefault (w2tPrice options) 800 * w2tCount)%float
  else if (0 <? weCount)%float
  then (rowPriceNetto + orDefault (wePrice options) 800 * weCount)%float
  else rowPriceNetto.

(** Step 3 of the row loop: KU. *)
Definition addKuPrice (options : ProcessingOptions) (treatCell : str)
    (rowPriceNetto : float) : float :=
  let kuCount := getTreatmentCount treatCell (js "ku") in
  if (0 <? kuCount)%float
  then (rowPriceNetto + orDefault (kuPrice options) 500 * kuCount)%float
  else rowPriceNetto.

(** [rowPriceNetto] at the end of the three steps. *)
Definition rowPrice (options : ProcessingOptions) (bestCircIdx bestTreatIdx : nat)
    (row : list str) : float :=
  let circCell := cellAt row bestCircIdx in
  let treatCell := cellAt row bestTreatIdx in
  let tLower := toLowerCase treatCell in
  addKuPrice options treatCell
    (addCrownPrice options treatCell
       (addCsPrice options circCell tLower 0%float)).

(** The state of the row loop: the two running totals (shared by all
    tables) and [newRows]. *)
Definition priceRow (options : ProcessingOptions) (bestCircIdx bestTreatIdx : nat)
    (st : float * float * list (list str)) (row : list str)
    : float * float * list (list str) :=
  let '(totalNetto, totalBrutto, newRows) := st in
  let rowPriceNetto := rowPrice options bestCircIdx bestTreatIdx row in
  if (0 <? rowPriceNetto)%float then
    let rowPriceBrutto := (rowPriceNetto * (1 + VAT_RATE))%float in
    ((totalNetto + rowPriceNetto)%float, (totalBrutto + rowPriceBrutto)%float,
     newRows ++ [row ++ [formatPrice rowPriceNetto; formatPrice rowPriceBrutto]])
  else if isTrue (removeZeroPriceRows options) then st
  else (totalNetto, totalBrutto, newRows ++ [row ++ [[]; []]]).

(** *** Final cleanup *)

Definition hasContent (row : list str) : bool :=
  existsb (fun cell => truthy cell && negb (str_eqb (trim cell) [])) (tl row).

Definition renumberRow (e : nat * list str) : list str :=
  let '(index, row) := e in
  match row with
  | firstCell :: others =>
      if truthy firstCell && test numeralPattern (trim firstCell)
      then decimal (N.of_nat (index + 1)) :: others
      else row
  | [] => row
  end.

Definition finalCleanup (options : ProcessingOptions) (newRows : list (list str))
    : list (list str) :=
  let nonEmptyRows := filter hasContent newRows in
  if negb (isTrue (preserveLp options)) && (0 <? length nonEmptyRows)
  then map renumberRow (indexed nonEmptyRows)
  else nonEmptyRows.

(** *** The callback of [tables.map] and the whole function

    The callback adds to the two totals of the enclosing function: it
    takes them and gives them back. *)
Definition processTable (options : ProcessingOptions) (tot : float * float)
    (table : ExtractedTable) : ExtractedTable * (float * float) :=
  let '(bestCircIdx, bestTreatIdx) := classifyColumns table in
  let rs := rowsToProcess options bestTreatIdx table in
  match bestCircIdx, bestTreatIdx with
  | Some c, Some t =>
      let newHeaders := renameHeaders c t (headers table) in
      let '(totalNetto, totalBrutto, newRows) :=
        fold_left (priceRow options c t) rs (fst tot, snd tot, []) in
      ({| title := title table; headers := newHeaders;
          rows := finalCleanup options newRows |},
       (totalNetto, totalBrutto))
  | _, _ => (withRows table rs, tot)
  end.

Definition processTables (options : ProcessingOptions) (tables : list ExtractedTable)
    : list ExtractedTable * (float * float) :=
  fold_left
    (fun st table =>
       let '(t', tot') := processTable options (snd st) table in
       (fst st ++ [t'], tot'))
    tables ([], (0%float, 0%float)).

Definition processTablesWithPricing (rawTables : list ExtractedTable)
    (options : ProcessingOptions) : ProcessingResult :=
  let tables := mergeCompatibleTables rawTables in
  let '(processed, (totalNetto, totalBrutto)) := processTables options tables in
  {| processedTables := processed;
     totals := {| totalNetto := parseFloat (toFixed2 totalNetto);
                  totalBrutto := parseFloat (toFixed2 totalBrutto) |} |}.

End PricingCalculator.

(** ** The program with its abrupt completions

    The same functions once more, with what can raise written out: an
    array read outside the array gives [undefined], and reading a property
    or calling a method of [undefined] or [null] throws a [TypeError].
    Every guard of the source is kept where the source has it. *)

Module Throwing.

Inductive completion (A : Type) : Type :=
| Normal (a : A)
| TypeError.
Arguments Normal {A} a.
Arguments TypeError {A}.

Definition bind {A B : Type} (c : completion A) (f : A -> completion B) : completion B :=
  match c with
  | Normal a => f a
  | TypeError => TypeError
  end.

Notation "x <- c ;; k" := (bind c (fun x => k))
  (at level 61, c at next level, right associativity).
Notation "' p <- c ;; k" := (bind c (fun x => let p := x in k))
  (at level 61, p pattern, c at next level, right associativity).

(** [arr[i]] *)
Definition index {A : Type} (arr : list A) (i : nat) : option A := nth_error arr i.

(** The receiver of a property read or a method call. *)
Definition defined {A : Type} (x : option A) : completion A :=
  match x with
  | Some a => Normal a
  | None => TypeError
  end.

(** [x || ''] *)
Definition orEmpty (x : option str) : str :=
  match x with Some s => s | None => [] end.

Fixpoint foldM {A B : Type} (f : A -> B -> completion A) (l : list B) (a : A) : completion A :=
  match l with
  | [] => Normal a
  | b :: l' => a' <- f a b ;; foldM f l' a'
  end.

Fixpoint mapM {A B : Type} (f : A -> completion B) (l : list A) : completion (list B) :=
  match l with
  | [] => Normal []
  | a :: l' => b <- f a ;; bs <- mapM f l' ;; Normal (b :: bs)
  end.

Section Program.

Variable toLowerCase : str -> str.

Definition compareColumn (referenceHeaders row : list str)
    (st : float * float) (i : nat) : float * float :=
  let '(matchScore, comparisons) := st in
  let h := normalizeText toLowerCase (orEmpty (index referenceHeaders i)) in
  let r := normalizeText toLowerCase (orEmpty (index row i)) in
  if negb (truthy h) && negb (truthy r) then st
  else
    let comparisons := (comparisons + 1)%float in
    if str_eqb h r then ((matchScore + 1)%float, comparisons)
    else if ((3 <? length h) || (3 <? length r)) && (includes h r || includes r h)
    then ((matchScore + 0.8)%float, comparisons)
    else (matchScore, comparisons).

Definition isHeaderRow (row referenceHeaders : list str) : completion bool :=
  let rowText := toLowerCase (join (js " ") row) in
  let keywordHits :=
    fold_left (fun hits kw => if includes rowText kw then S hits else hits)
      strongHeaderKeywords 0 in
  if 3 <=? keywordHits then Normal true
  else if (2 <=? keywordHits) && (includes rowText (js "lp") || includes rowText (js "nr"))
  then Normal true
  else
    if 0 <? length referenceHeaders then
      let colsToCheck := Nat.min (length referenceHeaders) (length row) in
      let '(matchScore, comparisons) :=
        fold_left (compareColumn referenceHeaders row) (seq 0 colsToCheck)
          (0%float, 0%float) in
      Normal ((0 <? comparisons)%float && (0.5 <? matchScore / comparisons)%float)
    else Normal false.

(** One round of the loop of [mergeCompatibleTables], reading [tables[i]]. *)
Definition mergeStep (tables : list ExtractedTable)
    (st : list ExtractedTable * ExtractedTable) (i : nat)
    : completion (list ExtractedTable * ExtractedTable) :=
  let '(merged, currentTable) := st in
  nextTable <- defined (index tables i) ;;
  let colDiff := absDiff (length (headers currentTable)) (length (headers nextTable)) in
  headersLookSimilar <- isHeaderRow (headers nextTable) (headers currentTable) ;;
  if sameHeaders (headers currentTable) (headers nextTable) || headersLookSimilar
     || ((colDiff <=? 1) && (3 <? length (headers nextTable)))
  then Normal (merged, withRows currentTable (rows currentTable ++ rows nextTable))
  else Normal (merged ++ [currentTable], withRows nextTable (rows nextTable)).

Definition mergeCompatibleTables (tables : list ExtractedTable)
    : completion (list ExtractedTable) :=
  if Nat.eqb (length tables) 0 then Normal []
  else
    first <- defined (index tables 0) ;;
    '(merged, currentTable) <-
      foldM (mergeStep tables) (seq 1 (length tables - 1)) ([], withRows first (rows first)) ;;
    Normal (merged ++ [currentTable]).

Definition dropHeaderRows (table : ExtractedTable) : completion (list (list str)) :=
  keep <- mapM (fun row => b <- isHeaderRow row (headers table) ;; Normal (negb b)) (rows table) ;;
  Normal (map snd (filter fst (combine keep (rows table)))).

Definition rowsToProcess (options : ProcessingOptions) (bestTreatIdx : option nat)
    (table : ExtractedTable) : completion (list (list str)) :=
  rs <- dropHeaderRows table ;;
  match bestTreatIdx with
  | Some t =>
      if isTrue (removeUoRows options)
      then Normal (filter (fun row =>
                     let treatCell := orEmpty (index row t) in
                     let normalized :=
                       replaceFirst trailingDotPattern (toLowerCase (trim treatCell)) in
                     negb (arrIncludes [js "uo"; js "u"] normalized)) rs)
      else Normal rs
  | None => Normal rs
  end.

Definition renameAt (idx : nat) (label : str) (hs : list str) : list str :=
  if truthy (orEmpty (index hs idx)) then setNth idx label hs else hs.

Definition renameLp (hs : list str) : completion (list str) :=
  if 0 <? length hs then
    first <- defined (index hs 0) ;;
    let h0 := toLowerCase first in
    if includes h0 (js "lp") || str_eqb h0 (js "1") || str_eqb h0 [] || str_eqb h0 (js "no")
    then Normal (setNth 0 lpLabel hs) else Normal hs
  else Normal hs.

Definition renameSpecies (bestCircIdx bestTreatIdx : nat) (hs : list str)
    : completion (list str) :=
  if (1 <? length hs) && negb (Nat.eqb bestCircIdx 1) && negb (Nat.eqb bestTreatIdx 1) then
    second <- defined (index hs 1) ;;
    let h1 := toLowerCase second in
    if includes h1 (js "gatun") || includes h1 (js "nazwa") || str_eqb h1 []
    then Normal (setNth 1 speciesLabel hs) else Normal hs
  else Normal hs.

Definition renameHeaders (bestCircIdx bestTreatIdx : nat) (hs : list str)
    : completion (list str) :=
  let hs := renameAt bestCircIdx circLabel hs in
  let hs := renameAt bestTreatIdx treatLabel hs in
  hs <- renameLp hs ;;
  hs <- renameSpecies bestCircIdx bestTreatIdx hs ;;
  Normal (if 0 <? length hs then hs ++ [nettoLabel; bruttoLabel] else hs).

(** [match[n]] of a match object: the capture, [undefined] when the group
    took no part. *)
Definition group (n : nat) (f : found) : option str := capture n (caps (final f)).

(** [String(x)] as [parseInt] applies it to its argument. *)
Definition toText (x : option str) : str :=
  match x with Some s => s | None => js "undefined" end.

Definition addCsPrice (options : ProcessingOptions) (circCell tLower : str)
    (rowPriceNetto : float) : completion float :=
  let count := csFamilyTreatmentCount tLower in
  if (0 <? count)%float then
    match search numberPattern None circCell with
    | Some m =>
        let cm := parseInt (toText (group 1 m)) in
        match findIndex (inTier cm) DEFAULT_PRICING_SCHEDULE with
        | Some tierIndex =>
            t <- defined (index DEFAULT_PRICING_SCHEDULE tierIndex) ;;
            let basePrice := price t in
            let basePrice :=
              match customCsPrices options with
              | Some custom =>
                  match index custom tierIndex with
                  | Some p => p
                  | None => basePrice
                  end
              | None => basePrice
              end in
            let basePrice :=
              match csMultiplier options with
              | Some k => ceil (basePrice * k)
              | None => basePrice
              end in
            Normal (rowPriceNetto + basePrice * count)%float
        | None => Normal rowPriceNetto
        end
    | None => Normal rowPriceNetto
    end
  else Normal rowPriceNetto.

Definition priceRow (options : ProcessingOptions) (bestCircIdx bestTreatIdx : nat)
    (st : float * float * list (list str)) (row : list str)
    : completion (float * float * list (list str)) :=
  let '(totalNetto, totalBrutto, newRows) := st in
  let circCell := orEmpty (index row bestCircIdx) in
  let treatCell := orEmpty (index row bestTreatIdx) in
  let tLower := toLowerCase treatCell in
  rowPriceNetto <- addCsPrice options circCell tLower 0%float ;;
  let rowPriceNetto := addCrownPrice options treatCell rowPriceNetto in
  let rowPriceNetto := addKuPrice options treatCell rowPriceNetto in
  if (0 <? rowPriceNetto)%float then
    let rowPriceBrutto := (rowPriceNetto * (1 + VAT_RATE))%float in
    Normal ((totalNetto + rowPriceNetto)%float, (totalBrutto + rowPriceBrutto)%float,
            newRows ++ [row ++ [formatPrice rowPriceNetto; formatPrice rowPriceBrutto]])
  else if isTrue (removeZeroPriceRows options) then Normal st
  else Normal (totalNetto, totalBrutto, newRows ++ [row ++ [[]; []]]).

Definition renumberRow (e : nat * list str) : completion (list str) :=
  let '(index_, row) := e in
  match index row 0 with
  | Some firstCell =>
      if truthy firstCell && test numeralPattern (trim firstCell)
      then Normal (setNth 0 (decimal (N.of_nat (index_ + 1))) row)
      else Normal row
  | None => Normal row
  end.

Definition finalCleanup (options : ProcessingOptions) (newRows : list (list str))
    : completion (list (list str)) :=
  let nonEmptyRows := filter hasContent newRows in
  if negb (isTrue (preserveLp options)) && (0 <? length nonEmptyRows)
  then mapM renumberRow (indexed nonEmptyRows)
  else Normal nonEmptyRows.

Definition processTable (options : ProcessingOptions) (tot : float * float)
    (table : ExtractedTable) : completion (ExtractedTable * (float * float)) :=
  let '(bestCircIdx, bestTreatIdx) := classifyColumns toLowerCase table in
  rs <- rowsToProcess options bestTreatIdx table ;;
  match bestCircIdx, bestTreatIdx with
  | Some c, Some t =>
      newHeaders <- renameHeaders c t (headers table) ;;
      '(totalNetto, totalBrutto, newRows) <-
        foldM (priceRow options c t) rs (fst tot, snd tot, []) ;;
      finalRows <- finalCleanup options newRows ;;
      Normal ({| title := title table; headers := newHeaders; rows := finalRows |},
              (totalNetto, totalBrutto))
  | _, _ => Normal (withRows table rs, tot)
  end.

Definition processTablesWithPricing (rawTables : list ExtractedTable)
    (options : ProcessingOptions) : completion ProcessingResult :=
  tables <- mergeCompatibleTables rawTables ;;
  '(processed, (totalNetto, totalBrutto)) <-
    foldM (fun st table =>
             '(t', tot') <- processTable options (snd st) table ;;
             Normal (fst st ++ [t'], tot'))
      tables ([], (0%float, 0%float)) ;;
  Normal {| processedTables := processed;
            totals := {| totalNetto := parseFloat (toFixed2 totalNetto);
                         totalBrutto := parseFloat (toFixed2 totalBrutto) |} |}.

End Program.

End Throwing.

(** ** The application that calls the engine *)

(** *** The settings

    The state of the settings panel and the options object that the
    recalculation effect passes to [processTablesWithPricing]. *)
Record Settings := {
  sRemoveUoRows : bool;
  sRemoveZeroPriceRows : bool;
  sPreserveLp : bool;
  sWePrice : float;
  sW2tPrice : float;
  sW4tPrice : float;
  sKuPrice : float;
  sCsMultiplier : float;
  sCustomCsPrices : list float
}.

(** The initial values of the [useState] calls. *)
Definition initialSettings : Settings :=
  {| sRemoveUoRows := true; sRemoveZeroPriceRows := true; sPreserveLp := true;
     sWePrice := 800; sW2tPrice := 800; sW4tPrice := 1200; sKuPrice := 500;
     sCsMultiplier := 1; sCustomCsPrices := map price DEFAULT_PRICING_SCHEDULE |}.

Definition optionsOf (s : Settings) : ProcessingOptions :=
  {| removeUoRows := Some (sRemoveUoRows s);
     removeZeroPriceRows := Some (sRemoveZeroPriceRows s);
     preserveLp := Some (sPreserveLp s);
     wePrice := Some (sWePrice s); w2tPrice := Some (sW2tPrice s);
     w4tPrice := Some (sW4tPrice s); kuPrice := Some (sKuPrice s);
     csMultiplier := Some (sCsMultiplier s);
     customCsPrices := Some (sCustomCsPrices s) |}.

(** *** Totals recalculated from the cells

    [recalculateTotals] reads the totals back from the tables on the
    screen, after a row or a column was deleted by hand. *)

(** [s.replace(pat, rep)] for a string pattern: the first occurrence. *)
Fixpoint replaceString (pat rep s : str) : str :=
  if startsWith pat s then rep ++ skipn (length pat) s
  else match s with
       | [] => []
       | c :: t => c :: replaceString pat rep t
       end.

(** [parseFloat(valStr.replace(/\s/g, '').replace(',', '.'))] *)
Definition parseCell (valStr : str) : float :=
  parseFloat (replaceString (js ",") (js ".") (removeAll (Chr isSpace) valStr)).

(** [arr.splice(i, 1)] on a copy of the array *)
Definition removeAt {A : Type} (i : nat) (l : list A) : list A :=
  firstn i l ++ skipn (S i) l.

Section Application.

Variable toLowerCase : str -> str.

(** One of the two loops over the rows of a table: the cells of the first
    column whose header holds [label] are added to [acc]. *)
Definition addColumn (label : str) (acc : float) (table : ExtractedTable) : float :=
  match findIndex (fun h => includes (toLowerCase h) label) (headers table) with
  | Some idx =>
      fold_left
        (fun acc row =>
           match nth_error row idx with
           | Some valStr =>
               if truthy valStr then
                 let val := parseCell valStr in
                 if is_nan val then acc else (acc + val)%float
               else acc
           | None => acc
           end)
        (rows table) acc
  | None => acc
  end.

Definition recalculateTotals (tables : list ExtractedTable) : CalculatedTotals :=
  let '(net, gross) :=
    fold_left
      (fun '(net, gross) table =>
         (addColumn (js "[netto]") net table, addColumn (js "[brutto]") gross table))
      tables (0%float, 0%float) in
  {| totalNetto := net; totalBrutto := gross |}.

End Application.

(** [handleDeleteColumn]: the tables after the deletion, from which the
    totals are recalculated; nothing when there is no table at
    [tableIndex] (copying its headers throws). *)
Definition deleteColumn (colIndex : nat) (table : ExtractedTable) : ExtractedTable :=
  {| title := title table; headers := removeAt colIndex (headers table);
     rows := map (removeAt colIndex) (rows table) |}.

Definition replaceTable (tableIndex : nat) (f : ExtractedTable -> ExtractedTable)
    (tables : list ExtractedTable) : option (list ExtractedTable) :=
  match nth_error tables tableIndex with
  | Some table => Some (firstn tableIndex tables ++ f table :: skipn (S tableIndex) tables)
  | None => None
  end.

Definition handleDeleteColumn (tableIndex colIndex : nat) (tables : list ExtractedTable)
    : option (list ExtractedTable) :=
  replaceTable tableIndex (deleteColumn colIndex) tables.

(** *** Totals on the page

    [formatNumberWithSpaces] writes a total with two decimals, a final
    [.00] removed, and the digits before the point in groups of three.
    Its argument is a number: the answer for [null] and [undefined] is
    left out. *)

(** [s.split(sep)] for a separator of one code unit *)
Fixpoint splitOn (sep : N) (s : str) : list str :=
  match s with
  | [] => [[]]
  | c :: t =>
      if (c =? sep)%N then [] :: splitOn sep t
      else match splitOn sep t with
           | part :: parts => (c :: part) :: parts
           | [] => [[c]]
           end
  end.

Definition threeDigits : regex := seqs [Chr isDigit; Chr isDigit; Chr isDigit].

(** What must hold behind the groups of three digits: no digit follows. *)
Definition noDigitFollows (s : mstate) : option mstate :=
  match rest s with
  | c :: _ => if isDigit c then None else Some s
  | [] => Some s
  end.

Definition isSome {A : Type} (o : option A) : bool :=
  match o with Some _ => true | None => false end.

(** The pattern of the grouping, which takes no input: not at a word
    boundary, and in front of one or more groups of three digits that no
    digit follows. *)
Definition groupingPoint (p : option N) (text : str) : bool :=
  negb (xorb (isWordAt p) (isWordAt (hd_error text)))
  && isSome (rmatch (Plus (Group 1 threeDigits)) noDigitFollows (MState p text [])).

(** [text.replace(pattern, ins)] for a global pattern that takes no input:
    [ins] is put in at every position where the pattern holds. *)
Fixpoint insertWhere (holds : option N -> str -> bool) (ins : str) (p : option N) (text : str)
    : str :=
  (if holds p text then ins else []) ++
  match text with
  | [] => []
  | c :: t => c :: insertWhere holds ins (Some c) t
  end.

Definition formatNumberWithSpaces (num : float) : str :=
  let fixed := toFixed2 num in
  let clean := if endsWith fixed (js ".00") then dropLast 3 fixed else fixed in
  match splitOn 46 clean with
  | first :: others => join (js ".") (insertWhere groupingPoint (js " ") None first :: others)
  | [] => []
  end.

(** [Math.floor] *)
Definition floor (x : float) : float :=
  match Prim2SF x with
  | S754_finite s m e =>
      if (0 <=? e)%Z then x
      else
        let d := (2 ^ (- e))%Z in
        if s then floatOfZ (- ((Z.pos m + d - 1) / d))
        else
          let q := (Z.pos m / d)%Z in
          if (q =? 0)%Z then 0%float else floatOfZ q
  | _ => x
  end.

(** *** Column widths of the exported document *)

Definition TOTAL_PAGE_WIDTH_DXA : float := 15400.

(** [widths.reduce((acc, val) => acc + val, 0)] *)
Definition sumWidths (widths : list float) : float := fold_left PrimFloat.add widths 0%float.

Definition getColumnWidths (colCount : nat) : list float :=
  if colCount =? 0 then []
  else if colCount =? 6 then
    let percentages := [0.05; 0.35; 0.15; 0.15; 0.15; 0.15]%float in
    let widths := map (fun p => floor (TOTAL_PAGE_WIDTH_DXA * p)) percentages in
    widths ++ [(TOTAL_PAGE_WIDTH_DXA - sumWidths widths)%float]
  else
    let equalWidth := floor (TOTAL_PAGE_WIDTH_DXA / floatOfZ (Z.of_nat colCount)) in
    let widths := repeat equalWidth (colCount - 1) in
    widths ++ [(TOTAL_PAGE_WIDTH_DXA - sumWidths widths)%float].

(** *** The name of the exported file

    [slugify] turns the place name of the document into a part of a file
    name. *)

(** [text.replace(regex, f)] for a global pattern, [f] being given the
    matched text: the successive matches replaced, each search resuming
    where the last match ended (one code unit further after an empty
    match). *)
Fixpoint replaceAllFrom (fuel : nat) (r : regex) (f : str -> str) (p : option N) (text : str)
    : str :=
  match fuel with
  | O => text
  | S fuel' =>
      match search r p text with
      | None => text
      | Some m =>
          skipped m ++ f (matched m) ++
          match matched m, rest (final m) with
          | [], [] => []
          | [], c :: t => c :: replaceAllFrom fuel' r f (Some c) t
          | _ :: _, t => replaceAllFrom fuel' r f (prev (final m)) t
          end
      end
  end.

Definition replaceAll (r : regex) (f : str -> str) (text : str) : str :=
  replaceAllFrom (S (length text)) r f None text.

(** [s.indexOf(c)] for a string [c] of one code unit, and [s.charAt(i)] *)
Fixpoint indexOfFrom (c : N) (s : str) (i : nat) : option nat :=
  match s with
  | [] => None
  | x :: s' => if (x =? c)%N then Some i else indexOfFrom c s' (S i)
  end.

Definition charAt (s : str) (i : option nat) : str :=
  match i with
  | Some n => match nth_error s n with Some c => [c] | None => [] end
  | None => []
  end.

(** The pattern made of the code units of [s] joined by [|]. *)
Fixpoint oneOf (s : str) : regex :=
  match s with
  | [] => Eps
  | [c] => Chr (eqUnit c)
  | c :: s' => Alt (Chr (eqUnit c)) (oneOf s')
  end.

Definition slugFrom : str := Eval vm_compute in
  js "àáâäæãåāăąçćčđďèéêëēėęěğǵḧîïíīįìłḿñńǹňôöòóœøōõőṕŕřßśšşșťțûüùúūǘůűųẃẍÿýžźż·/_,:;".
Definition slugTo : str := Eval vm_compute in
  js "aaaaaaaaaacccddeeeeeeeegghiiiiiilmnnnnoooooooooprrsssssttuuuuuuuuuwxyyzzz------".

Definition isHyphen (c : N) : bool := (c =? 45)%N.
Definition isAmpersand (c : N) : bool := (c =? 38)%N.

(** [[^\w\-]] *)
Definition notWordOrHyphen (c : N) : bool := negb (isWordChar c || isHyphen c).

Definition transliterate (matched : str) : str :=
  match matched with
  | c :: _ => charAt slugTo (indexOfFrom c slugFrom 0)
  | [] => charAt slugTo (Some 0)
  end.

Section Slug.

Variable toLowerCase : str -> str.

Definition slugify (text : str) : str :=
  if negb (truthy text) then js "document"
  else
    let s := toLowerCase text in
    let s := replaceAll (Plus (Chr isSpace)) (fun _ => js "-") s in
    let s := replaceAll (oneOf slugFrom) transliterate s in
    let s := replaceAll (Chr isAmpersand) (fun _ => js "-and-") s in
    let s := replaceAll (Plus (Chr notWordOrHyphen)) (fun _ => []) s in
    let s := replaceAll (Seq (Chr isHyphen) (Plus (Chr isHyphen))) (fun _ => js "-") s in
    let s := replaceFirst (seqs [Bol; Plus (Chr isHyphen)]) s in
    replaceFirst (seqs [Plus (Chr isHyphen); Eol]) s.

End Slug.

(** *** The title and the place of the document *)

(** [text.split(regex)] for a pattern without groups: the pieces between
    the successive matches.  [piece] holds what the current piece has so
    far.  A match that takes no input ends the piece only when the piece
    is not empty, and is not looked for at the end of the text. *)
Fixpoint splitFrom (fuel : nat) (r : regex) (p : option N) (piece text : str) : list str :=
  match fuel with
  | O => [piece ++ text]
  | S fuel' =>
      match search r p text with
      | None => [piece ++ text]
      | Some m =>
          match matched m, rest (final m) with
          | _ :: _, t => (piece ++ skipped m) :: splitFrom fuel' r (prev (final m)) [] t
          | [], [] => [piece ++ skipped m]
          | [], c :: t =>
              match piece ++ skipped m with
              | [] => splitFrom fuel' r (Some c) [c] t
              | done => done :: splitFrom fuel' r (Some c) [c] t
              end
          end
      end
  end.

Definition split (r : regex) (text : str) : list str :=
  match text with
  | [] => match rmatch r Some (MState None [] []) with Some _ => [] | None => [[]] end
  | _ :: _ => splitFrom (S (length text)) r None [] text
  end.

(** [/[.,;:]$/] *)
Definition finalMark (c : N) : bool := (c =? 46)%N || (c =? 44)%N || (c =? 59)%N || (c =? 58)%N.
Definition finalMarkPattern : regex := seqs [Chr finalMark; Eol].

(** [[^a-z0-9ąęćłńóśźż\s]] *)
Definition notPlain (c : N) : bool :=
  negb (((97 <=? c) && (c <=? 122))%N || isDigit c
        || existsb (fun x => (c =? x)%N) (js "ąęćłńóśźż") || isSpace c).

Section Metadata.

Variable toLowerCase : str -> str.

(** The loop over the words of step 3; the state is [uniqueAdjacent]. *)
Definition keepUnlessRepeated (uniqueAdjacent : list str) (word : str) : list str :=
  let current := replaceFirst finalMarkPattern word in
  let prev :=
    match uniqueAdjacent with
    | [] => None
    | _ :: _ => Some (replaceFirst finalMarkPattern (last uniqueAdjacent []))
    end in
  let noPrev := match prev with None => true | Some v => negb (truthy v) end in
  if noPrev
     || negb (str_eqb (toLowerCase current)
                (match prev with Some v => toLowerCase v | None => [] end))
  then uniqueAdjacent ++ [word] else uniqueAdjacent.

Definition cleanDuplicateText (text : str) : str :=
  if negb (truthy text) then []
  else
    let cleanText := trim text in
    let words := split (Plus (Chr isSpace)) cleanText in
    let mid := length words / 2 in
    let firstHalf := join (js " ") (firstn mid words) in
    let secondHalf := join (js " ") (skipn mid words) in
    if (1 <? length words) && (length words mod 2 =? 0)
       && str_eqb (toLowerCase firstHalf) (toLowerCase secondHalf)
    then firstHalf
    else
      let lowerText := toLowerCase cleanText in
      let repeated (i : nat) : bool :=
        let suffix := trim (skipn i lowerText) in
        if length suffix <? 5 then false
        else endsWith (trim (firstn i lowerText)) suffix in
      match find repeated
              (seq (length cleanText / 2) (length cleanText - length cleanText / 2)) with
      | Some i => trim (firstn i cleanText)
      | None => join (js " ") (fold_left keepUnlessRepeated words [])
      end.

Definition normalizePlace (s : str) : str :=
  trim (removeAll (Chr notPlain) (toLowerCase s)).

Definition isLocationRedundant (title location : str) : bool :=
  if negb (truthy location) || (length location <? 3) then false
  else
    let tNorm := normalizePlace title in
    let lNorm := normalizePlace location in
    if includes tNorm lNorm then true
    else
      let lTokens := filter (fun w => 2 <? length w) (split (Plus (Chr isSpace)) lNorm) in
      if length lTokens =? 0 then false
      else
        let matchCount :=
          fold_left (fun n token => if includes tNorm token then S n else n) lTokens 0 in
        let overlap :=
          (floatOfZ (Z.of_nat matchCount) / floatOfZ (Z.of_nat (length lTokens)))%float in
        (0.6 <? overlap)%float.

End Metadata.

(** ** Definitions used to state the properties *)

(** The sum a loop accumulates from zero, in order. *)
Definition sumFloats (l : list float) : float := fold_left PrimFloat.add l 0%float.

(** [parseFloat(x.toFixed(2))] *)
Definition roundTo2 (x : float) : float := parseFloat (toFixed2 x).

(** The exact value of a finite number, in units of 2^-1074 (every finite
    number is a whole multiple of it). *)
Definition exactValue (x : float) : option Z :=
  match Prim2SF x with
  | S754_zero _ => Some 0%Z
  | S754_finite s m e => Some ((if s then -1 else 1) * (Z.pos m * 2 ^ (e + 1074)))%Z
  | _ => None
  end.

(** [x] is a finite number with [0 <= x < 2^k]. *)
Definition nonNegativeBelow (k : Z) (x : float) : Prop :=
  exists v, exactValue x = Some v /\ (0 <= v < 2 ^ (k + 1074))%Z.

(** [x] and [y] are finite numbers that differ by at most 0.01. *)
Definition withinOneCent (x y : float) : Prop :=
  exists v w, exactValue x = Some v /\ exactValue y = Some w
              /\ (100 * Z.abs (v - w) <= 2 ^ 1074)%Z.

(** A positive number or positive infinity. *)
Definition isPositive (s : spec_float) : Prop :=
  match s with
  | S754_finite false _ _ | S754_infinity false => True
  | _ => False
  end.

(** A zero, a positive number or positive infinity. *)
Definition isNonNegative (s : spec_float) : Prop :=
  match s with
  | S754_zero _ | S754_finite false _ _ | S754_infinity false => True
  | _ => False
  end.

(** The gross price of a net price. *)
Definition grossOf (net : float) : float := (net * (1 + VAT_RATE))%float.

(** The totals at the start of a call. *)
Definition zeroTotals : float * float := (0%float, 0%float).

(** The cell before the last: where the net price of an annotated row stands. *)
Definition netCell (cells : list str) : str := nth (length cells - 2) cells [].

(** A string with a code unit that is not white space. *)
Definition nonBlank (s : str) : bool := existsb (fun c => negb (isSpace c)) s.

(** [out] is [cells], at most with another number in its first cell. *)
Definition renumbered (out cells : list str) : Prop :=
  out = cells \/ exists k first rest, cells = first :: rest /\ out = decimal k :: rest.

(** The output row [out] is the source row with its net price and its
    gross price, net times 1.08, appended as cells. *)
Definition pricedFrom (out : list str) (e : list str * float) : Prop :=
  renumbered out (fst e ++ [formatPrice (snd e); formatPrice (snd e * 1.08)%float]).

(** Insertion of a score entry by ascending column index, and the entries
    of a score map in ascending index order. *)
Fixpoint insertByIndex (e : nat * score) (m : columnScoresT) : columnScoresT :=
  match m with
  | [] => [e]
  | e' :: m' => if fst e <=? fst e' then e :: m else e' :: insertByIndex e m'
  end.

Definition ascendingIndexOrder (m : columnScoresT) : columnScoresT :=
  fold_right insertByIndex [] m.

(** *** Occurrence counting by scanning

    The count of [getTreatmentCount] described without a pattern: the text
    is scanned from left to right for occurrences of the code, each taken
    with the multiplier written before it and the multiplier written after
    it, and the scan resumes behind what an occurrence took. *)

(** Past the longest run of code units of a class: the code unit before the
    position reached, and the text from there. *)
Fixpoint skipClass (p : N -> bool) (pv : option N) (text : str) : option N * str :=
  match text with
  | c :: t => if p c then skipClass p (Some c) t else (pv, text)
  | [] => (pv, text)
  end.

(** The code at the head of the text, letter case ignored. *)
Fixpoint matchCode (code : str) (pv : option N) (text : str) : option (option N * str) :=
  match code with
  | [] => Some (pv, text)
  | c :: code' =>
      match text with
      | x :: t => if eqUnitCI c x then matchCode code' (Some x) t else None
      | [] => None
      end
  end.

(** A word boundary: a word character on exactly one side of the position. *)
Definition atBoundary (pv : option N) (text : str) : bool :=
  xorb (isWordAt pv) (isWordAt (hd_error text)).

(** The code as a whole word at the head of the text. *)
Definition wholeWord (code : str) (pv : option N) (text : str) : option (option N * str) :=
  if atBoundary pv text then
    match matchCode code pv text with
    | Some (pv', t') => if atBoundary pv' t' then Some (pv', t') else None
    | None => None
    end
  else None.

Definition isX (c : N) : bool := eqUnitCI 120%N c.

(** A multiplier before the code: digits, then [x], with optional spaces
    on both sides of the [x]. *)
Definition multiplierBefore (pv : option N) (text : str) : option (str * (option N * str)) :=
  match takeWhile isDigit text with
  | [] => None
  | ds =>
      let '(p1, t1) := skipClass isDigit pv text in
      let '(p2, t2) := skipClass isSpace p1 t1 in
      match t2 with
      | x :: t3 => if isX x then Some (ds, skipClass isSpace (Some x) t3) else None
      | [] => None
      end
  end.

(** A multiplier after the code: [x], then digits, with optional spaces on
    both sides of the [x]. *)
Definition multiplierAfter (pv : option N) (text : str) : option (str * (option N * str)) :=
  let '(p1, t1) := skipClass isSpace pv text in
  match t1 with
  | x :: t2 =>
      if isX x then
        let '(p2, t3) := skipClass isSpace (Some x) t2 in
        match takeWhile isDigit t3 with
        | [] => None
        | ds => Some (ds, skipClass isDigit p2 t3)
        end
      else None
  | [] => None
  end.

(** An occurrence of the code: the multiplier before it, the multiplier
    after it, and where the scan resumes. *)
Record occurrence := {
  before : option str;
  after : option str;
  resume : option N * str
}.

(** The occurrence that starts at the head of the text: the code with a
    multiplier before it or, failing that, the code alone; then the
    multiplier after it, if there is one. *)
Definition occurrenceAt (code : str) (pv : option N) (text : str) : option occurrence :=
  let withBefore :=
    match multiplierBefore pv text with
    | Some (ds, (p, t)) =>
        match wholeWord code p t with
        | Some st => Some (Some ds, st)
        | None => None
        end
    | None => None
    end in
  let start :=
    match withBefore with
    | Some r => Some r
    | None =>
        match wholeWord code pv text with
        | Some st => Some (None, st)
        | None => None
        end
    end in
  match start with
  | Some (b, (p, t)) =>
      match multiplierAfter p t with
      | Some (ds, st) => Some {| before := b; after := Some ds; resume := st |}
      | None => Some {| before := b; after := None; resume := (p, t) |}
      end
  | None => None
  end.

(** The first occurrence from the head of the text on. *)
Fixpoint nextOccurrence (code : str) (pv : option N) (text : str) : option occurrence :=
  match occurrenceAt code pv text with
  | Some o => Some o
  | None =>
      match text with
      | [] => None
      | c :: t => nextOccurrence code (Some c) t
      end
  end.

Fixpoint occurrencesFrom (fuel : nat) (code : str) (pv : option N) (text : str)
    : list occurrence :=
  match fuel with
  | O => []
  | S fuel' =>
      match nextOccurrence code pv text with
      | None => []
      | Some o => o :: occurrencesFrom fuel' code (fst (resume o)) (snd (resume o))
      end
  end.

(** The multiplier of an occurrence: the number before it, else the number
    after it, else 1. *)
Definition multiplierText (b a : option str) : str := orElse b (orElse a (js "1")).

Definition multiplierOf (o : occurrence) : float :=
  parseInt (multiplierText (before o) (after o)).

(** A code that starts with a word character, as the four codes of the
    program do. *)
Definition startsWithWordChar (code : str) : bool :=
  match code with
  | c0 :: _ => isWordChar c0
  | [] => false
  end.

(** A continuation that accepts where it stands: the end of a pattern. *)
Definition acceptAll (k : mstate -> option mstate) : Prop := forall s, k s = Some s.

Definition countByScanning (text code : str) : float :=
  fold_left (fun total o => (total + multiplierOf o)%float)
    (occurrencesFrom (S (length text)) code None text) 0%float.

(** The count as the claim words it: every whole-word occurrence of the
    code counts, with the number that stands immediately before it, an [x]
    between the two or not, else with the number after it behind an [x],
    else with 1.  [revBefore] is the text before the position, reversed. *)
Definition numberBefore (revBefore : str) : option str :=
  let r := dropWhile isSpace revBefore in
  let r := match r with
           | x :: r' => if isX x then dropWhile isSpace r' else r
           | [] => r
           end in
  match takeWhile isDigit r with
  | [] => None
  | ds => Some (rev ds)
  end.

Definition numberAfter (text : str) : option str :=
  match multiplierAfter None text with
  | Some (ds, _) => Some ds
  | None => None
  end.

Fixpoint statedMultipliers (code : str) (revBefore : str) (text : str) : list str :=
  let here :=
    match wholeWord code (hd_error revBefore) text with
    | Some (_, t') => [orElse (numberBefore revBefore) (orElse (numberAfter t') (js "1"))]
    | None => []
    end in
  match text with
  | [] => here
  | c :: t => here ++ statedMultipliers code (c :: revBefore) t
  end.

Definition countAsStated (text code : str) : float :=
  fold_left (fun total m => (total + parseInt m)%float)
    (statedMultipliers code [] text) 0%float.

(** The occurrences of a code that the scan finds in a text. *)
Definition occurrencesOf (code text : str) : list occurrence :=
  occurrencesFrom (S (length text)) code None text.

(** A run of digits that is not empty. *)
Definition digitRun (s : str) : Prop := s <> [] /\ forallb isDigit s = true.

(** The options with other flat prices for the two lower crown codes. *)
Definition withLowerCrownPrices (options : ProcessingOptions) (w2t we : option float)
    : ProcessingOptions :=
  {| removeUoRows := removeUoRows options;
     removeZeroPriceRows := removeZeroPriceRows options;
     preserveLp := preserveLp options;
     wePrice := we;
     w2tPrice := w2t;
     w4tPrice := w4tPrice options;
     kuPrice := kuPrice options;
     csMultiplier := csMultiplier options;
     customCsPrices := customCsPrices options |}.

(** [best] is the first entry of [m], in the order of [m], whose score [f]
    is the greatest of all and positive; there is none when no score is
    positive. *)
Definition firstMaximum (f : score -> Z) (m : columnScoresT) (best : option nat) : Prop :=
  match best with
  | None => forall e, In e m -> (f (snd e) <= 0)%Z
  | Some i =>
      exists pre sc post,
        m = pre ++ (i, sc) :: post
        /\ (0 < f sc)%Z
        /\ (forall e, In e pre -> (f (snd e) < f sc)%Z)
        /\ (forall e, In e post -> (f (snd e) <= f sc)%Z)
  end.

(** One of the two running maxima of the selection loop, on its own. *)
Definition track (f : score -> Z) (st : option nat * Z) (e : nat * score) : option nat * Z :=
  if (snd st <? f (snd e))%Z then (Some (fst e), f (snd e)) else st.

(** What holds of a running maximum after the entries [done]. *)
Definition trackInvariant (f : score -> Z) (done : columnScoresT) (st : option nat * Z) : Prop :=
  match fst st with
  | None => snd st = 0%Z /\ forall e, In e done -> (f (snd e) <= 0)%Z
  | Some i =>
      exists pre sc post,
        done = pre ++ (i, sc) :: post
        /\ snd st = f sc
        /\ (0 < f sc)%Z
        /\ (forall e, In e pre -> (f (snd e) < f sc)%Z)
        /\ (forall e, In e post -> (f (snd e) <= f sc)%Z)
  end.

(** The keys of a map after an entry for [idx] was asked for. *)
Definition addKey (keys : list nat) (idx : nat) : list nat :=
  if existsb (fun k => Nat.eqb k idx) keys then keys else keys ++ [idx].

(** The columns of the cells of a row that are not empty, from left to right. *)
Definition filledColumns (row : list str) : list nat :=
  map fst (filter (fun e => truthy (snd e)) (indexed row)).

(** A list with each of its elements kept where it first stands. *)
Fixpoint firstOccurrences (l : list nat) : list nat :=
  match l with
  | [] => []
  | k :: l' => k :: filter (fun j => negb (Nat.eqb j k)) (firstOccurrences l')
  end.

(** The order in which the columns enter the score map: the header
    positions in ascending order, then each further column at its first
    non-empty cell, the rows taken in order and each row from left to
    right. *)
Definition entryOrder (table : ExtractedTable) : list nat :=
  firstOccurrences (seq 0 (length (headers table)) ++ flat_map filledColumns (rows table)).

(** The score of a column in the map, zero for a column without entry. *)
Definition scoreOf (f : score -> Z) (m : columnScoresT) (idx : nat) : Z :=
  match find (fun e => Nat.eqb (fst e) idx) m with
  | Some e => f (snd e)
  | None => 0%Z
  end.

(** [best] is the first column of [order] whose score is the greatest of
    all and positive; there is none when no score is positive. *)
Definition firstGreatest (order : list nat) (s : nat -> Z) (best : option nat) : Prop :=
  match best with
  | None => forall j, In j order -> (s j <= 0)%Z
  | Some i =>
      exists pre post,
        order = pre ++ i :: post
        /\ (0 < s i)%Z
        /\ (forall j, In j pre -> (s j < s i)%Z)
        /\ (forall j, In j post -> (s j <= s i)%Z)
  end.

(** [f i x] for each element [x] of a list with its index [i], counted from [s]. *)
Definition mapWithIndexFrom {A B : Type} (s : nat) (f : nat -> A -> B) (l : list A) : list B :=
  map (fun p => f (fst p) (snd p)) (combine (seq s (length l)) l).

Section Statements.

Variable toLowerCase : str -> str.

(** What the row loop appends to [newRows] for one row, with the net price
    computed for it: nothing for a dropped row. *)
Definition annotate (options : ProcessingOptions) (c t : nat) (row : list str)
    : list (list str * float) :=
  let net := rowPrice toLowerCase options c t row in
  if (0 <? net)%float
  then [(row ++ [formatPrice net; formatPrice (grossOf net)], net)]
  else if isTrue (removeZeroPriceRows options) then []
  else [(row ++ [[]; []], net)].

(** The annotated rows of a table, none when a column is unresolved. *)
Definition annotatedRows (options : ProcessingOptions) (table : ExtractedTable)
    : list (list str * float) :=
  match classifyColumns toLowerCase table with
  | (Some c, Some t) =>
      flat_map (annotate options c t) (rowsToProcess toLowerCase options (Some t) table)
  | _ => []
  end.

(** The net prices of the rows that received a non-empty net price cell. *)
Definition pricedNets (rs : list (list str * float)) : list float :=
  map snd (filter (fun e => truthy (netCell (fst e))) rs).

(** The rows of a processed table that received a non-empty net price
    cell; a table left unpriced received none. *)
Definition rowsWithNetPrice (table out : ExtractedTable) : list (list str) :=
  match classifyColumns toLowerCase table with
  | (Some _, Some _) => filter (fun row => truthy (netCell row)) (rows out)
  | _ => []
  end.

(** The rows of a merged table that the row loop prices, each with the net
    price computed for it. *)
Definition pricedSources (options : ProcessingOptions) (table : ExtractedTable)
    : list (list str * float) :=
  match classifyColumns toLowerCase table with
  | (Some c, Some t) =>
      map (fun row => (row, rowPrice toLowerCase options c t row))
        (filter (fun row => (0 <? rowPrice toLowerCase options c t row)%float)
           (rowsToProcess toLowerCase options (Some t) table))
  | _ => []
  end.

(** What the relabelling does to the header at position [i]. *)
Definition relabelCell (c t i : nat) (v : str) : str :=
  let v := if Nat.eqb i c && truthy v then circLabel else v in
  let v := if Nat.eqb i t && truthy v then treatLabel else v in
  match i with
  | 0 =>
      let h0 := toLowerCase v in
      if includes h0 (js "lp") || str_eqb h0 (js "1") || str_eqb h0 [] || str_eqb h0 (js "no")
      then lpLabel else v
  | 1 =>
      if negb (Nat.eqb c 1) && negb (Nat.eqb t 1) then
        let h1 := toLowerCase v in
        if includes h1 (js "gatun") || includes h1 (js "nazwa") || str_eqb h1 []
        then speciesLabel else v
      else v
  | _ => v
  end.

End Statements.

(** No table of the list can be merged with the one before it. *)
Fixpoint separated (toLowerCase : str -> str) (l : list ExtractedTable) : bool :=
  match l with
  | a :: (b :: _) as l' => negb (compatible toLowerCase a b) && separated toLowerCase l'
  | _ => true
  end.

(** The price schedule as a table of whole numbers, and the price it gives
    to a circumference; 0 outside every compartment. *)
Definition scheduleTable : list (Z * Z * Z) :=
  [(0, 100, 730); (101, 150, 792); (151, 200, 848); (201, 250, 912); (251, 300, 1164);
   (301, 350, 1296); (351, 400, 1462); (401, 450, 1628); (451, 500, 1650);
   (501, 550, 1766); (551, 600, 1880); (601, 650, 1996); (651, 700, 2112)]%Z.

Definition priceByTable (cm : Z) : Z :=
  match find (fun '(lo, hi, _) => (lo <=? cm) && (cm <=? hi))%Z scheduleTable with
  | Some (_, _, p) => p
  | None => 0%Z
  end.

(** An ordinal cell that looks like a number: digits and dots only, once
    trimmed. *)
Definition numeralShaped (cell : str) : bool :=
  truthy cell && test numeralPattern (trim cell).

(** [k] times 1 added to 0, as the comparison loop of [isHeaderRow] counts. *)
Definition ones (k : nat) : float := Nat.iter k (fun c => (c + 1)%float) 0%float.

(** The test at the end of the comparison loop, for a match score equal
    to the number of comparisons. *)
Definition headerLikeRatio (c : float) : bool := ((0 <? c) && (0.5 <? c / c))%float.

(** The reference header at position [i] has text left once normalized. *)
Definition hasText (toLowerCase : str -> str) (referenceHeaders : list str) (i : nat) : bool :=
  truthy (normalizeText toLowerCase (cellAt referenceHeaders i)).

(** Two tables under the same title and headers. *)
Definition sameLabels (a b : ExtractedTable) : Prop :=
  title a = title b /\ headers a = headers b.

(** The three switches set, the prices as at the start. *)
Definition withSwitches (removeUo removeZero preserve : bool) : Settings :=
  {| sRemoveUoRows := removeUo; sRemoveZeroPriceRows := removeZero; sPreserveLp := preserve;
     sWePrice := sWePrice initialSettings; sW2tPrice := sW2tPrice initialSettings;
     sW4tPrice := sW4tPrice initialSettings; sKuPrice := sKuPrice initialSettings;
     sCsMultiplier := sCsMultiplier initialSettings;
     sCustomCsPrices := sCustomCsPrices initialSettings |}.

(** Options that give the three flags and nothing else. *)
Definition flagsOnly (removeUo removeZero preserve : bool) : ProcessingOptions :=
  {| removeUoRows := Some removeUo; removeZeroPriceRows := Some removeZero;
     preserveLp := Some preserve;
     wePrice := None; w2tPrice := None; w4tPrice := None; kuPrice := None;
     csMultiplier := None; customCsPrices := None |}.

(** [n] is a multiple of three. *)
Fixpoint multipleOfThree (n : nat) : bool :=
  match n with
  | 0 => true
  | S (S (S m)) => multipleOfThree m
  | _ => false
  end.

(** The digits with a space behind each digit that a positive multiple of
    three digits follows. *)
Fixpoint spaced (digits : str) : str :=
  match digits with
  | [] => []
  | c :: t =>
      c :: (if (0 <? length t) && multipleOfThree (length t) then js " " else []) ++ spaced t
  end.

(** [p] holds of the [2^k] whole numbers from [lo] on. *)
Fixpoint allFrom (k : nat) (lo : Z) (p : Z -> bool) : bool :=
  match k with
  | O => p lo
  | S k' => allFrom k' lo p && allFrom k' (lo + 2 ^ Z.of_nat k') p
  end.

(** A whole net price is written with its digits alone and read back as
    it is; its gross price is read back rounded to two decimals. *)
Definition readsBack (n : Z) : bool :=
  let net := floatOfZ n in
  str_eqb (formatPrice net) (zDecimal n)
  && PrimFloat.Leibniz.eqb (parseCell (formatPrice net)) net
  && PrimFloat.Leibniz.eqb (parseCell (formatPrice (grossOf net))) (roundTo2 (grossOf net)).

(** The widths of [colCount] columns, as whole numbers: equal shares
    rounded down, the last column taking what is left. *)
Definition sharedWidths (colCount : nat) : list Z :=
  let share := (15400 / Z.of_nat colCount)%Z in
  repeat share (colCount - 1) ++ [(15400 - share * Z.of_nat (colCount - 1))%Z].

(** Two lists of the same numbers. *)
Fixpoint sameFloats (a b : list float) : bool :=
  match a, b with
  | [], [] => true
  | x :: a', y :: b' => PrimFloat.Leibniz.eqb x y && sameFloats a' b'
  | _, _ => false
  end.

(** The widths of [getColumnWidths] are the shared widths, six columns
    apart. *)
Definition widthsAsShared (colCount : nat) : bool :=
  (colCount =? 6) || sameFloats (getColumnWidths colCount) (map floatOfZ (sharedWidths colCount)).

(** Column [i] exists in the table: under a header, or as a non-empty
    cell of a row. *)
Definition columnExists (table : ExtractedTable) (i : nat) : Prop :=
  i < length (headers table)
  \/ exists row cell, In row (rows table) /\ nth_error row i = Some cell /\ truthy cell = true.

(** Each run of code units of a class replaced by [rep]. *)
Fixpoint collapse (cls : N -> bool) (rep : str) (inRun : bool) (text : str) : str :=
  match text with
  | [] => []
  | c :: t =>
      if cls c then (if inRun then [] else rep) ++ collapse cls rep true t
      else c :: collapse cls rep false t
  end.

(** The text without the run of code units of a class at its end. *)
Fixpoint stripEnd (cls : N -> bool) (text : str) : str :=
  match text with
  | [] => []
  | c :: t => if forallb cls (c :: t) then [] else c :: stripEnd cls t
  end.

(** A letter of Basic Latin, a digit or a hyphen. *)
Definition slugUnit (c : N) : bool :=
  (isWordChar c && negb (c =? 95)%N) || isHyphen c.

(** No two hyphens side by side. *)
Fixpoint noDoubleHyphen (text : str) : bool :=
  match text with
  | c :: (d :: _) as t => negb (isHyphen c && isHyphen d) && noDoubleHyphen t
  | _ => true
  end.

(** [r] matches exactly one code unit of the class [cls]. *)
Definition unitPattern (r : regex) (cls : N -> bool) : Prop :=
  forall k pv text cs,
  rmatch r k (MState pv text cs)
  = match text with
    | c :: t => if cls c then k (MState (Some c) t cs) else None
    | [] => None
    end.

(** [c] is one of the code units of [s]. *)
Definition memberOf (s : str) (c : N) : bool := existsb (fun x => (c =? x)%N) s.

(** A text without the low line. *)
Definition noUnderscore (s : str) : bool := forallb (fun c => negb (c =? 95)%N) s.

(** The first code unit is a hyphen. *)
Definition startsWithHyphen (s : str) : bool :=
  match s with c :: _ => isHyphen c | [] => false end.

(** A word: not empty, without white space. *)
Definition isWord (w : str) : bool := truthy w && forallb (fun c => negb (isSpace c)) w.

(** ** Example inputs *)

Definition mkTable (hs : list str) (rs : list (list str)) : ExtractedTable :=
  {| title := None; headers := hs; rows := rs |}.

(** The end-to-end example of the specification. *)
Definition oakTable : ExtractedTable :=
  mkTable [js "Lp"; js "Gatunek"; js "Obwód"; js "Zabiegi"]
          [[js "1"; js "Dąb"; js "120"; js "CS"]].

(** A table without headers whose first row leaves column 0 empty. *)
Definition staggeredTable : ExtractedTable :=
  mkTable [] [[[]; js "5"]; [js "7"; []]].

(** A table with short header labels and one row marked for removal. *)
Definition removalTable : ExtractedTable :=
  mkTable [js "cm"; js "kod"] [[js "1"; js "Uo"]].

(** A table without headers, classified from its cells alone. *)
Definition bareTable : ExtractedTable :=
  mkTable [] [[js "120"; js "CS"]; [js "95"; js "W4t"]].

(** A table whose first column wins both roles. *)
Definition conflictTable : ExtractedTable :=
  mkTable [js "Obwód, kod"; js "Uwagi"] [[js "120 CS"; js "x"]].

(** A table without any evidence for a column. *)
Definition plainTable : ExtractedTable :=
  mkTable [js "A"; js "B"] [[js "x"; js "y"]].

(** A table with a priced row, a row marked for removal and a row without
    a treatment, and options that remove the last two. *)
Definition mixedTable : ExtractedTable :=
  mkTable [js "Lp"; js "Gatunek"; js "Obwód"; js "Zabiegi"]
          [[js "1"; js "Dąb"; js "120"; js "CS"];
           [js "2"; js "Lipa"; js "90"; js "Uo."];
           [js "3"; js "Klon"; js "75"; js "brak"]].

Definition cleaningOptions : ProcessingOptions :=
  {| removeUoRows := Some true; removeZeroPriceRows := Some true; preserveLp := None;
     wePrice := None; w2tPrice := None; w4tPrice := None; kuPrice := None;
     csMultiplier := None; customCsPrices := None |}.

(** ** Proof tools *)

Arguments isSpace : simpl never.
Arguments isDigit : simpl never.
Arguments isWordChar : simpl never.

(** Case analysis on the conditions of nested conditionals, innermost
    first, rewriting with what is known of them. *)
Ltac crush_ifs :=
  repeat (cbn [andb negb];
          match goal with
          | H : ?x = _ |- context [?x] => rewrite H
          | |- context [if ?b then _ else _] =>
              lazymatch b with
              | context [if _ then _ else _] => fail
              | _ => destruct b eqn:?
              end
          end);
  cbn [andb negb]; try reflexivity; try congruence.

(** * Properties *)

#[local] Open Scope nat_scope.

(** ** The end-to-end example *)

(** C4. The table with headers Lp, Gatunek, Obwód, Zabiegi and the single
    row 1, Dąb, 120, CS, processed with no options: the row comes out with
    the net cell 792 and the gross cell 855.36 appended, and the totals are
    792 and 855.36. *)
Theorem oak_example_priced :
  let r := processTablesWithPricing toLowerCaseLatin [oakTable] noOptions in
  map rows (processedTables r)
    = [[[js "1"; js "Dąb"; js "120"; js "CS"; js "792"; js "855.36"]]]
  /\ totalNetto (totals r) = 792%float
  /\ totalBrutto (totals r) = 855.36%float.
Proof.
  vm_compute. repeat split; reflexivity.
Qed.

(** ** Strings and price cells *)

Lemma digit_not_space (c : N) : isDigit c = true -> isSpace c = false /\ c <> 46%N.
Proof.
  unfold isDigit, isSpace. intros H.
  apply andb_true_iff in H as [H1 H2].
  apply N.leb_le in H1. apply N.leb_le in H2.
  split; [|lia].
  repeat rewrite orb_false_iff. repeat split;
    try (apply N.eqb_neq; lia);
    apply andb_false_iff; first [left; apply N.leb_gt; lia | right; apply N.leb_gt; lia].
Qed.

Lemma trimStart_fixed (c : N) (t : str) : isSpace c = false -> trimStart (c :: t) = c :: t.
Proof. intros H. cbn [trimStart]. now rewrite H. Qed.

Lemma uintDigits_digits (u : Decimal.uint) : forallb isDigit (uintDigits u) = true.
Proof. induction u; cbn [uintDigits forallb]; try reflexivity; exact IHu. Qed.

Lemma nonBlank_cons (c : N) (s : str) :
  isSpace c = false -> nonBlank (c :: s) = true.
Proof. intros H. unfold nonBlank. cbn [existsb]. now rewrite H. Qed.

Lemma nonBlank_app_r (a b : str) : nonBlank b = true -> nonBlank (a ++ b) = true.
Proof. unfold nonBlank. rewrite existsb_app. intros ->. apply orb_true_r. Qed.

Lemma nonBlank_app_l (a b : str) : nonBlank a = true -> nonBlank (a ++ b) = true.
Proof. unfold nonBlank. rewrite existsb_app. now intros ->. Qed.

Lemma nonBlank_rev (s : str) : nonBlank (rev s) = nonBlank s.
Proof.
  unfold nonBlank. induction s as [|c s IH]; simpl; [reflexivity|].
  rewrite existsb_app, IH. simpl. rewrite orb_false_r. apply orb_comm.
Qed.

Lemma nonBlank_trimStart (s : str) : nonBlank (trimStart s) = nonBlank s.
Proof.
  induction s as [|c s IH]; [reflexivity|].
  cbn [trimStart]. unfold nonBlank at 2. cbn [existsb].
  destruct (isSpace c) eqn:E.
  - rewrite IH. reflexivity.
  - unfold nonBlank. cbn [existsb]. rewrite E. reflexivity.
Qed.

Lemma nonBlank_trim (s : str) : nonBlank (trim s) = nonBlank s.
Proof.
  unfold trim, trimEnd.
  now rewrite nonBlank_rev, nonBlank_trimStart, nonBlank_rev, nonBlank_trimStart.
Qed.

Lemma nonBlank_not_nil (s : str) : nonBlank s = true -> s <> [].
Proof. intros H ->. discriminate. Qed.

(** A cell with a code unit that is not white space counts as content. *)
Lemma nonBlank_content (s : str) :
  nonBlank s = true -> truthy s && negb (str_eqb (trim s) []) = true.
Proof.
  intros H. apply andb_true_iff. split.
  - destruct s; [discriminate | reflexivity].
  - unfold str_eqb. destruct (list_eq_dec N.eq_dec (trim s) []) as [E|E]; [|reflexivity].
    rewrite <- nonBlank_trim, E in H. discriminate.
Qed.

Lemma uintDigits_head (u : Decimal.uint) :
  u <> Decimal.Nil -> exists d rest, uintDigits u = d :: rest /\ isDigit d = true.
Proof.
  destruct u; intros H; try congruence; simpl; eexists; eexists; split; reflexivity.
Qed.

Lemma decimal_head (n : N) : exists d rest, decimal n = d :: rest /\ isDigit d = true.
Proof.
  unfold decimal. apply uintDigits_head.
  destruct n as [|p]; simpl; [discriminate | apply Unsigned.to_uint_nonnil].
Qed.

Lemma fixedDigits_head (n : Z) :
  exists d rest, fixedDigits n = d :: rest /\ isDigit d = true.
Proof.
  unfold fixedDigits, zDecimal.
  destruct (decimal_head (Z.to_N n)) as (d & rest & -> & Hd).
  destruct rest as [|b [|c l]].
  - exists 48%N. eexists. split; reflexivity.
  - exists 48%N. eexists. split; reflexivity.
  - exists d. eexists. split; [|exact Hd].
    cbn [length repeat Nat.sub app]. reflexivity.
Qed.

Lemma toStringLarge_head (m : positive) (e : Z) :
  exists d rest, toStringLarge m e = d :: rest /\ isDigit d = true.
Proof.
  unfold toStringLarge.
  destruct (shortestDigits _ _ _ _ _) as [s0 p0].
  destruct (stripZeros _ _ _) as [s p].
  unfold zDecimal.
  destruct (decimal_head (Z.to_N s)) as (d & rest & -> & Hd).
  destruct rest; exists d; eexists; (split; [reflexivity | exact Hd]).
Qed.

(** [toFixed(2)] never yields a text that starts with white space or a dot. *)
Lemma toFixed2_head (x : float) :
  exists c rest, toFixed2 x = c :: rest /\ isSpace c = false /\ c <> 46%N.
Proof.
  unfold toFixed2.
  destruct (Prim2SF x) as [s|s| |s m e].
  - eexists; eexists; split; [reflexivity | split; [reflexivity | discriminate]].
  - destruct s; eexists; eexists; (split; [reflexivity | split; [reflexivity | discriminate]]).
  - eexists; eexists; split; [reflexivity | split; [reflexivity | discriminate]].
  - destruct s.
    + eexists; eexists; split; [reflexivity | split; [reflexivity | discriminate]].
    + cbn [app].
      destruct ((0 <=? e)%Z && (10 ^ 21 <=? Z.pos m * 2 ^ e)%Z).
      * destruct (toStringLarge_head m e) as (d & rest & -> & Hd).
        exists d, rest. split; [reflexivity | now apply digit_not_space].
      * destruct (0 <=? e)%Z.
        -- destruct (fixedDigits_head (100 * Z.pos m * 2 ^ e)) as (d & rest & -> & Hd).
           exists d, rest. split; [reflexivity | now apply digit_not_space].
        -- destruct (fixedDigits_head ((200 * Z.pos m + 2 ^ (- e)) / 2 ^ (- e + 1)))
             as (d & rest & -> & Hd).
           exists d, rest. split; [reflexivity | now apply digit_not_space].
Qed.

Lemma dropLast_keeps_head (c : N) (rest : str) :
  c <> 46%N -> endsWith (c :: rest) (js ".00") = true ->
  exists rest', dropLast 3 (c :: rest) = c :: rest'.
Proof.
  intros Hc H. unfold endsWith in H. unfold dropLast.
  assert (L : 3 <= length rest).
  { change (rev (js ".00")) with [48%N; 48%N; 46%N] in H.
    rewrite <- length_rev. simpl rev in H.
    destruct (rev rest) as [|a [|b [|d l]]]; cbn [app startsWith length] in *; try lia.
    apply andb_true_iff in H as [_ H]. apply andb_true_iff in H as [_ H].
    apply andb_true_iff in H as [H _]. apply N.eqb_eq in H. congruence. }
  simpl length. replace (S (length rest) - 3) with (S (length rest - 3)) by lia.
  simpl. eexists. reflexivity.
Qed.

(** A formatted price always has a code unit that is not white space. *)
Lemma formatPrice_nonBlank (x : float) : nonBlank (formatPrice x) = true.
Proof.
  unfold formatPrice.
  destruct (toFixed2_head x) as (c & rest & -> & Hs & Hd).
  destruct (endsWith (c :: rest) (js ".00")) eqn:E.
  - destruct (dropLast_keeps_head c rest Hd E) as [rest' ->].
    now apply nonBlank_cons.
  - now apply nonBlank_cons.
Qed.

Lemma formatPrice_truthy (x : float) : truthy (formatPrice x) = true.
Proof.
  pose proof (formatPrice_nonBlank x) as H.
  destruct (formatPrice x); [discriminate | reflexivity].
Qed.

(** ** The row loop *)

Lemma netCell_app (row : list str) (a b : str) : netCell (row ++ [a; b]) = a.
Proof.
  unfold netCell. rewrite length_app. cbn [length].
  replace (length row + 2 - 2) with (length row) by lia.
  rewrite app_nth2 by lia. now rewrite Nat.sub_diag.
Qed.

Lemma pricedNets_app (a b : list (list str * float)) :
  pricedNets (a ++ b) = pricedNets a ++ pricedNets b.
Proof. unfold pricedNets. now rewrite filter_app, map_app. Qed.

Lemma vat_factor : (1 + VAT_RATE)%float = 1.08%float.
Proof. reflexivity. Qed.

Lemma In_indexed {A : Type} (x : A) (l : list A) :
  In x l -> exists i, In (i, x) (indexed l).
Proof.
  unfold indexed. generalize 0 as s.
  induction l as [|y l IH]; intros s H; [contradiction|].
  destruct H as [->|H].
  - exists s. now left.
  - destruct (IH (S s) H) as [i Hi]. exists i. now right.
Qed.

Lemma indexed_In {A : Type} (i : nat) (x : A) (l : list A) :
  In (i, x) (indexed l) -> In x l.
Proof. unfold indexed. intros H. now apply in_combine_r in H. Qed.

Section RowLoop.

Variable toLowerCase : str -> str.
Variable options : ProcessingOptions.

Lemma priceRow_annotate (c t : nat) (tn tb : float) (acc : list (list str)) (row : list str) :
  priceRow toLowerCase options c t (tn, tb, acc) row
  = (fold_left PrimFloat.add (pricedNets (annotate toLowerCase options c t row)) tn,
     fold_left PrimFloat.add (map grossOf (pricedNets (annotate toLowerCase options c t row))) tb,
     acc ++ map fst (annotate toLowerCase options c t row)).
Proof.
  unfold priceRow, annotate.
  destruct (0 <? rowPrice toLowerCase options c t row)%float.
  - unfold pricedNets. cbn [filter fst snd map].
    rewrite netCell_app, formatPrice_truthy. reflexivity.
  - destruct (isTrue (removeZeroPriceRows options)).
    + cbn. now rewrite app_nil_r.
    + unfold pricedNets. cbn [filter fst snd map]. rewrite netCell_app. reflexivity.
Qed.

(** The row loop adds up the net and gross prices of the rows it prices and
    appends the annotated rows, in order. *)
Lemma fold_priceRow (c t : nat) (rs : list (list str)) :
  forall (tn tb : float) (acc : list (list str)),
  fold_left (priceRow toLowerCase options c t) rs (tn, tb, acc)
  = (fold_left PrimFloat.add (pricedNets (flat_map (annotate toLowerCase options c t) rs)) tn,
     fold_left PrimFloat.add
       (map grossOf (pricedNets (flat_map (annotate toLowerCase options c t) rs))) tb,
     acc ++ map fst (flat_map (annotate toLowerCase options c t) rs)).
Proof.
  induction rs as [|row rs IH]; intros tn tb acc.
  - cbn. now rewrite app_nil_r.
  - cbn [fold_left flat_map]. rewrite priceRow_annotate, IH.
    rewrite pricedNets_app, !map_app, !fold_left_app, app_assoc. reflexivity.
Qed.

Lemma processTable_resolved (tot : float * float) (table : ExtractedTable) (c t : nat) :
  classifyColumns toLowerCase table = (Some c, Some t) ->
  processTable toLowerCase options tot table
  = ({| title := title table;
        headers := renameHeaders toLowerCase c t (headers table);
        rows := finalCleanup options (map fst (annotatedRows toLowerCase options table)) |},
     (fold_left PrimFloat.add (pricedNets (annotatedRows toLowerCase options table)) (fst tot),
      fold_left PrimFloat.add
        (map grossOf (pricedNets (annotatedRows toLowerCase options table))) (snd tot))).
Proof.
  intros H. unfold processTable, annotatedRows. rewrite H.
  rewrite fold_priceRow. reflexivity.
Qed.

Lemma processTable_unresolved (tot : float * float) (table : ExtractedTable) :
  fst (classifyColumns toLowerCase table) = None
  \/ snd (classifyColumns toLowerCase table) = None ->
  processTable toLowerCase options tot table
  = (withRows table
       (rowsToProcess toLowerCase options (snd (classifyColumns toLowerCase table)) table),
     tot)
  /\ annotatedRows toLowerCase options table = [].
Proof.
  unfold processTable, annotatedRows.
  destruct (classifyColumns toLowerCase table) as [[c|] [t|]]; cbn [fst snd];
    intros [H|H]; try discriminate; split; reflexivity.
Qed.

(** The totals after a table: the nets and the grosses of its priced rows
    added, in order, to the totals before it. *)
Lemma processTable_totals (tot : float * float) (table : ExtractedTable) :
  snd (processTable toLowerCase options tot table)
  = (fold_left PrimFloat.add (pricedNets (annotatedRows toLowerCase options table)) (fst tot),
     fold_left PrimFloat.add
       (map grossOf (pricedNets (annotatedRows toLowerCase options table))) (snd tot)).
Proof.
  destruct (classifyColumns toLowerCase table) as [[c|] [t|]] eqn:E.
  - now rewrite (processTable_resolved tot table c t E).
  - destruct (processTable_unresolved tot table) as [-> ->];
      [rewrite E; now right | now destruct tot].
  - destruct (processTable_unresolved tot table) as [-> ->];
      [rewrite E; now left | now destruct tot].
  - destruct (processTable_unresolved tot table) as [-> ->];
      [rewrite E; now left | now destruct tot].
Qed.

(** The table a call of the callback returns does not depend on the totals. *)
Lemma processTable_table (tot tot' : float * float) (table : ExtractedTable) :
  fst (processTable toLowerCase options tot table)
  = fst (processTable toLowerCase options tot' table).
Proof.
  destruct (classifyColumns toLowerCase table) as [[c|] [t|]] eqn:E.
  - now rewrite (processTable_resolved tot table c t E), (processTable_resolved tot' table c t E).
  - destruct (processTable_unresolved tot table) as [-> _]; [rewrite E; now right|].
    destruct (processTable_unresolved tot' table) as [-> _]; [rewrite E; now right|].
    reflexivity.
  - destruct (processTable_unresolved tot table) as [-> _]; [rewrite E; now left|].
    destruct (processTable_unresolved tot' table) as [-> _]; [rewrite E; now left|].
    reflexivity.
  - destruct (processTable_unresolved tot table) as [-> _]; [rewrite E; now left|].
    destruct (processTable_unresolved tot' table) as [-> _]; [rewrite E; now left|].
    reflexivity.
Qed.

Lemma fold_processTable (tables : list ExtractedTable) :
  forall (acc : list ExtractedTable) (tn tb : float),
  fold_left
    (fun st table =>
       let '(t', tot') := processTable toLowerCase options (snd st) table in
       (fst st ++ [t'], tot'))
    tables (acc, (tn, tb))
  = (acc ++ map (fun table => fst (processTable toLowerCase options zeroTotals table)) tables,
     (fold_left PrimFloat.add
        (flat_map (fun table => pricedNets (annotatedRows toLowerCase options table)) tables) tn,
      fold_left PrimFloat.add
        (map grossOf
           (flat_map (fun table => pricedNets (annotatedRows toLowerCase options table)) tables))
        tb)).
Proof.
  induction tables as [|table tables IH]; intros acc tn tb.
  - cbn. now rewrite app_nil_r.
  - cbn [fold_left flat_map map snd fst].
    pose proof (processTable_totals (tn, tb) table) as Ht.
    pose proof (processTable_table (tn, tb) zeroTotals table) as Hf.
    destruct (processTable toLowerCase options (tn, tb) table) as [t' tot'].
    cbn [fst snd] in Ht, Hf. subst t' tot'.
    rewrite IH, map_app, !fold_left_app, <- app_assoc. reflexivity.
Qed.

Lemma processTablesWithPricing_unfold (rawTables : list ExtractedTable) :
  let tables := mergeCompatibleTables toLowerCase rawTables in
  let nets := flat_map (fun table => pricedNets (annotatedRows toLowerCase options table)) tables in
  processTablesWithPricing toLowerCase rawTables options
  = {| processedTables :=
         map (fun table => fst (processTable toLowerCase options zeroTotals table)) tables;
       totals := {| totalNetto := roundTo2 (sumFloats nets);
                    totalBrutto := roundTo2 (sumFloats (map grossOf nets)) |} |}.
Proof.
  intros tables nets. unfold processTablesWithPricing, processTables.
  fold tables. rewrite fold_processTable. reflexivity.
Qed.

End RowLoop.

(** ** Rows through the two filtering passes *)

Section Rows.

Variable toLowerCase : str -> str.
Variable options : ProcessingOptions.

Lemma cellAt_nil (i : nat) : cellAt [] i = [].
Proof. unfold cellAt. now destruct i. Qed.

(** An empty row is never priced. *)
Lemma rowPrice_nil (c t : nat) : rowPrice toLowerCase options c t [] = 0%float.
Proof.
  unfold rowPrice. rewrite !cellAt_nil.
  assert (H : addCsPrice options [] (toLowerCase []) 0 = 0%float).
  { unfold addCsPrice. now destruct (0 <? csFamilyTreatmentCount (toLowerCase []))%float. }
  rewrite H. reflexivity.
Qed.

Lemma rowsToProcess_origin (bestTreatIdx : option nat) (table : ExtractedTable)
    (row : list str) :
  In row (rowsToProcess toLowerCase options bestTreatIdx table) ->
  In row (rows table) /\ isHeaderRow toLowerCase row (headers table) = false.
Proof.
  unfold rowsToProcess, dropHeaderRows. intros H.
  assert (H' : In row (filter (fun row => negb (isHeaderRow toLowerCase row (headers table)))
                         (rows table))).
  { destruct bestTreatIdx as [t|]; [|exact H].
    destruct (isTrue (removeUoRows options)); [|exact H].
    now apply filter_In in H. }
  apply filter_In in H' as [Hin Hh]. split; [exact Hin|].
  now apply negb_true_iff in Hh.
Qed.

Lemma annotate_origin (c t : nat) (rs : list (list str)) (cells : list str) :
  In cells (map fst (flat_map (annotate toLowerCase options c t) rs)) ->
  exists row n g, In row rs /\ cells = row ++ [n; g].
Proof.
  intros H. apply in_map_iff in H as ([cells' net] & <- & H).
  apply in_flat_map in H as (row & Hrow & H).
  exists row. unfold annotate in H.
  destruct (0 <? rowPrice toLowerCase options c t row)%float.
  - destruct H as [H|[]]. inversion H. eexists. eexists. split; [exact Hrow | reflexivity].
  - destruct (isTrue (removeZeroPriceRows options)); [contradiction|].
    destruct H as [H|[]]. inversion H. eexists. eexists. split; [exact Hrow | reflexivity].
Qed.

Lemma annotate_priced (c t : nat) (rs : list (list str)) (row : list str) :
  In row rs ->
  (0 <? rowPrice toLowerCase options c t row)%float = true ->
  In (row ++ [formatPrice (rowPrice toLowerCase options c t row);
              formatPrice (grossOf (rowPrice toLowerCase options c t row))])
     (map fst (flat_map (annotate toLowerCase options c t) rs)).
Proof.
  intros Hin Hp. apply in_map_iff.
  exists (row ++ [formatPrice (rowPrice toLowerCase options c t row);
                  formatPrice (grossOf (rowPrice toLowerCase options c t row))],
          rowPrice toLowerCase options c t row).
  split; [reflexivity|]. apply in_flat_map. exists row. split; [exact Hin|].
  unfold annotate. rewrite Hp. now left.
Qed.

Lemma hasContent_priced (row : list str) (a b : str) :
  nonBlank b = true -> hasContent (row ++ [a; b]) = true.
Proof.
  intros Hb. unfold hasContent. apply existsb_exists. exists b. split.
  - destruct row as [|x row]; cbn [app tl].
    + now left.
    + apply in_or_app. right. right. now left.
  - now apply nonBlank_content.
Qed.

Lemma renumberRow_cases (i : nat) (cells : list str) :
  renumberRow (i, cells) = cells
  \/ exists x rest, cells = x :: rest
       /\ renumberRow (i, cells) = decimal (N.of_nat (i + 1)) :: rest.
Proof.
  unfold renumberRow. destruct cells as [|x rest]; [now left|].
  destruct (truthy x && test numeralPattern (trim x)).
  - right. now exists x, rest.
  - now left.
Qed.

(** A row with content stays through the final cleanup, at most with its
    first cell renumbered. *)
Lemma finalCleanup_keeps (newRows : list (list str)) (cells : list str) :
  In cells newRows -> hasContent cells = true ->
  exists i, In (renumberRow (i, cells)) (finalCleanup options newRows)
            \/ In cells (finalCleanup options newRows).
Proof.
  intros Hin Hc. unfold finalCleanup.
  assert (Hf : In cells (filter hasContent newRows)) by now apply filter_In.
  destruct (negb (isTrue (preserveLp options)) && (0 <? length (filter hasContent newRows))).
  - destruct (In_indexed _ _ Hf) as [i Hi]. exists i. left.
    apply in_map_iff. now exists (i, cells).
  - exists 0. now right.
Qed.

(** Every row after the final cleanup is a row from before it, at most with
    its first cell renumbered. *)
Lemma finalCleanup_origin (newRows : list (list str)) (row' : list str) :
  In row' (finalCleanup options newRows) ->
  exists cells, In cells newRows
    /\ (row' = cells
        \/ exists k x rest, cells = x :: rest /\ row' = decimal k :: rest).
Proof.
  unfold finalCleanup. intros H.
  destruct (negb (isTrue (preserveLp options)) && (0 <? length (filter hasContent newRows))).
  - apply in_map_iff in H as ([i cells] & <- & H).
    apply indexed_In in H. apply filter_In in H as [H _].
    exists cells. split; [exact H|].
    destruct (renumberRow_cases i cells) as [->|(x & rest & -> & ->)].
    + now left.
    + right. now exists (N.of_nat (i + 1)), x, rest.
  - apply filter_In in H as [H _]. exists row'. split; [exact H | now left].
Qed.

(** C9. In a table whose two columns are resolved, a row with a strictly
    positive net price is in the final row list with its two formatted
    price cells appended; the cleanup of empty rows keeps it and the
    renumbering changes at most its first cell. *)
Theorem priced_row_is_kept (tot : float * float) (table : ExtractedTable)
    (c t : nat) (row : list str) :
  classifyColumns toLowerCase table = (Some c, Some t) ->
  In row (rowsToProcess toLowerCase options (Some t) table) ->
  (0 <? rowPrice toLowerCase options c t row)%float = true ->
  let net := rowPrice toLowerCase options c t row in
  let prices := [formatPrice net; formatPrice (net * (1 + VAT_RATE))%float] in
  let out := rows (fst (processTable toLowerCase options tot table)) in
  In (row ++ prices) out
  \/ exists k first rest, row = first :: rest /\ In (decimal k :: rest ++ prices) out.
Proof.
  intros Hc Hin Hp net prices out.
  subst out. rewrite (processTable_resolved toLowerCase options tot table c t Hc).
  cbn [fst rows]. unfold annotatedRows. rewrite Hc.
  pose proof (annotate_priced c t _ row Hin Hp) as Ha.
  fold net in Ha. change (grossOf net) with (net * (1 + VAT_RATE))%float in Ha.
  fold prices in Ha.
  assert (Hh : hasContent (row ++ prices) = true)
    by (apply hasContent_priced, formatPrice_nonBlank).
  destruct (finalCleanup_keeps _ _ Ha Hh) as [i [H|H]]; [|now left].
  destruct (renumberRow_cases i (row ++ prices)) as [E|(x & rest' & E1 & E2)].
  - left. now rewrite <- E.
  - right. destruct row as [|first rest].
    + exfalso. subst net. rewrite rowPrice_nil in Hp. discriminate.
    + cbn [app] in E1. inversion E1. subst x rest'.
      exists (N.of_nat (i + 1)), first, rest. split; [reflexivity|].
      now rewrite <- E2.
Qed.

(** C10. A table with an empty header list whose two columns are resolved
    from its cells keeps an empty header list, while each of its output
    rows is a retained row with the two price cells appended (the first
    cell possibly renumbered): two cells longer than the row it comes from. *)
Theorem headerless_table_rows_gain_cells (tot : float * float) (table : ExtractedTable)
    (c t : nat) :
  headers table = [] ->
  classifyColumns toLowerCase table = (Some c, Some t) ->
  let out := fst (processTable toLowerCase options tot table) in
  headers out = []
  /\ forall row', In row' (rows out) ->
       exists row n g,
         In row (rowsToProcess toLowerCase options (Some t) table)
         /\ length row' = length row + 2
         /\ tl row' = tl (row ++ [n; g]).
Proof.
  intros Hh Hc out. subst out.
  rewrite (processTable_resolved toLowerCase options tot table c t Hc).
  cbn [fst rows headers]. split.
  - rewrite Hh. unfold renameHeaders, relabelHeaders, renameAt.
    now destruct c, t.
  - intros row' H. unfold annotatedRows in H. rewrite Hc in H.
    apply finalCleanup_origin in H as (cells & Hcells & Hrow').
    apply annotate_origin in Hcells as (row & n & g & Hrow & ->).
    exists row, n, g. split; [exact Hrow|].
    destruct Hrow' as [->|(k & x & rest & E & ->)].
    + split; [|reflexivity]. rewrite length_app. reflexivity.
    + rewrite E. cbn [tl length]. split; [|reflexivity].
      apply (f_equal (@length str)) in E. rewrite length_app in E. cbn [length] in E. lia.
Qed.

End Rows.

Lemma priced_row_is_kept_witness :
  In ([js "1"; js "Dąb"; js "120"; js "CS"] ++ [js "792"; js "855.36"])
     (rows (fst (processTable toLowerCaseLatin noOptions zeroTotals oakTable)))
  \/ exists k first rest,
       [js "1"; js "Dąb"; js "120"; js "CS"] = first :: rest
       /\ In (decimal k :: rest ++ [js "792"; js "855.36"])
             (rows (fst (processTable toLowerCaseLatin noOptions zeroTotals oakTable))).
Proof.
  apply (priced_row_is_kept toLowerCaseLatin noOptions zeroTotals oakTable 2 3
           [js "1"; js "Dąb"; js "120"; js "CS"]).
  - vm_compute. reflexivity.
  - vm_compute. left. reflexivity.
  - vm_compute. reflexivity.
Defined.

Lemma headerless_table_rows_gain_cells_witness :
  headers (fst (processTable toLowerCaseLatin noOptions zeroTotals bareTable)) = []
  /\ forall row',
       In row' (rows (fst (processTable toLowerCaseLatin noOptions zeroTotals bareTable))) ->
       exists row n g,
         In row (rowsToProcess toLowerCaseLatin noOptions (Some 1) bareTable)
         /\ length row' = length row + 2
         /\ tl row' = tl (row ++ [n; g]).
Proof.
  apply (headerless_table_rows_gain_cells toLowerCaseLatin noOptions zeroTotals bareTable 0 1).
  - reflexivity.
  - vm_compute. reflexivity.
Defined.

(** ** Binary64 rounding

    What the program needs of the arithmetic of its numbers: a sum of
    numbers that are not negative is not negative, and positive when one of
    them is; a number read back from its two-decimal numeral is within a
    cent of it.  Values are taken from [Prim2SF], and the roundings of
    [SpecFloat] are followed through their shifts. *)

#[local] Open Scope Z_scope.

Lemma fexp_eq (x : Z) : fexp prec emax x = Z.max (x - 53) (-1074).
Proof. reflexivity. Qed.

Lemma digits2_pos_spec (p : positive) :
  2 ^ (Z.pos (digits2_pos p) - 1) <= Z.pos p < 2 ^ Z.pos (digits2_pos p).
Proof.
  induction p as [p IH|p IH|].
  - cbn [digits2_pos]. rewrite Pos2Z.inj_succ. change (Z.pos p~1) with (2 * Z.pos p + 1).
    replace (Z.succ (Z.pos (digits2_pos p)) - 1) with (Z.succ (Z.pos (digits2_pos p) - 1)) by lia.
    rewrite !Z.pow_succ_r by lia. lia.
  - cbn [digits2_pos]. rewrite Pos2Z.inj_succ. change (Z.pos p~0) with (2 * Z.pos p).
    replace (Z.succ (Z.pos (digits2_pos p)) - 1) with (Z.succ (Z.pos (digits2_pos p) - 1)) by lia.
    rewrite !Z.pow_succ_r by lia. lia.
  - cbn. lia.
Qed.

Lemma Zdigits2_spec (z : Z) :
  0 < z -> 0 < Zdigits2 z /\ 2 ^ (Zdigits2 z - 1) <= z < 2 ^ Zdigits2 z.
Proof.
  destruct z as [|p|p]; try lia. intros _. cbn [Zdigits2].
  split; [lia | apply digits2_pos_spec].
Qed.

Lemma Zdigits2_unique (z k : Z) : 2 ^ (k - 1) <= z < 2 ^ k -> 0 < z -> Zdigits2 z = k.
Proof.
  intros Hk Hz. destruct (Zdigits2_spec z Hz) as [Hd Hs].
  assert (Hk1 : 0 < k).
  { destruct (Z.ltb_spec 0 k) as [H|H]; [exact H|].
    assert (2 ^ k <= 2 ^ 0) by (apply Z.pow_le_mono_r; lia).
    change (2 ^ 0) with 1 in *. lia. }
  destruct (Z.lt_trichotomy (Zdigits2 z) k) as [H|[H|H]]; [|exact H|].
  - assert (2 ^ Zdigits2 z <= 2 ^ (k - 1)) by (apply Z.pow_le_mono_r; lia). lia.
  - assert (2 ^ k <= 2 ^ (Zdigits2 z - 1)) by (apply Z.pow_le_mono_r; lia). lia.
Qed.

Lemma Zdigits2_le (z k : Z) : 0 < z -> z < 2 ^ k -> 0 <= k -> Zdigits2 z <= k.
Proof.
  intros Hz Hk Hk0. destruct (Zdigits2_spec z Hz) as [Hd Hs].
  destruct (Z.leb_spec (Zdigits2 z) k) as [H|H]; [exact H|].
  assert (2 ^ k <= 2 ^ (Zdigits2 z - 1)) by (apply Z.pow_le_mono_r; lia). lia.
Qed.

(** *** Shifting to the right *)

Lemma shr_1_m (mrs : shr_record) : 0 <= shr_m mrs -> shr_m (shr_1 mrs) = shr_m mrs / 2.
Proof.
  destruct mrs as [m r s]. cbn [shr_m]. intros H.
  destruct m as [|[p|p|]|p]; cbn [shr_1 shr_m]; try lia.
  - reflexivity.
  - change (Z.pos p~1) with (2 * Z.pos p + 1). apply Z.div_unique with (r := 1); lia.
  - change (Z.pos p~0) with (2 * Z.pos p). apply Z.div_unique with (r := 0); lia.
  - reflexivity.
Qed.

Lemma shr_1_nonneg (mrs : shr_record) : 0 <= shr_m mrs -> 0 <= shr_m (shr_1 mrs).
Proof. intros H. rewrite shr_1_m by exact H. apply Z.div_pos; lia. Qed.

Lemma iter_shr (p : positive) :
  forall mrs, 0 <= shr_m mrs ->
  shr_m (iter_pos shr_1 p mrs) = shr_m mrs / 2 ^ Z.pos p.
Proof.
  induction p as [p IH|p IH|]; intros mrs H; cbn [iter_pos].
  - assert (H1 : 0 <= shr_m (shr_1 mrs)) by now apply shr_1_nonneg.
    assert (H2 : 0 <= shr_m (iter_pos shr_1 p (shr_1 mrs)))
      by (rewrite IH by exact H1; apply Z.div_pos; lia).
    rewrite IH by exact H2. rewrite IH by exact H1. rewrite shr_1_m by exact H.
    rewrite !Z.div_div by lia. f_equal.
    change (Z.pos p~1) with (2 * Z.pos p + 1). replace (2 * Z.pos p + 1) with (1 + Z.pos p + Z.pos p) by lia.
    rewrite !Z.pow_add_r by lia. change (2 ^ 1) with 2. lia.
  - assert (H2 : 0 <= shr_m (iter_pos shr_1 p mrs))
      by (rewrite IH by exact H; apply Z.div_pos; lia).
    rewrite IH by exact H2. rewrite IH by exact H.
    rewrite !Z.div_div by lia. f_equal.
    change (Z.pos p~0) with (2 * Z.pos p). replace (2 * Z.pos p) with (Z.pos p + Z.pos p) by lia.
    rewrite !Z.pow_add_r by lia. lia.
  - rewrite shr_1_m by exact H. reflexivity.
Qed.

Lemma shr_m_record_of_loc (m : Z) (l : location) : shr_m (shr_record_of_loc m l) = m.
Proof. now destruct l as [|[]]. Qed.

Lemma loc_of_record_of_loc (m : Z) (l : location) :
  loc_of_shr_record (shr_record_of_loc m l) = l.
Proof. now destruct l as [|[]]. Qed.

Lemma round_nearest_even_cases (m : Z) (l : location) :
  round_nearest_even m l = m \/ round_nearest_even m l = m + 1.
Proof.
  destruct l as [|[]]; cbn [round_nearest_even]; auto.
  destruct (Z.even m); auto.
Qed.

(** The first shift of a rounding: what is left of the mantissa and the
    exponent it is left at. *)
Lemma shr_fexp_spec (mx ex : Z) (lx : location) :
  0 < mx -> -1074 <= ex -> ex <= fexp prec emax (Zdigits2 mx + ex) ->
  let d := Zdigits2 mx in
  let mrs := fst (shr_fexp prec emax mx ex lx) in
  let e1 := snd (shr_fexp prec emax mx ex lx) in
  (d <= 53 /\ mrs = shr_record_of_loc mx lx /\ e1 = ex
   /\ (ex = -1074 \/ d = 53))
  \/ (53 < d /\ shr_m mrs = mx / 2 ^ (d - 53) /\ e1 = ex + (d - 53)
      /\ 2 ^ 52 <= shr_m mrs < 2 ^ 53).
Proof.
  intros Hm He Hc d mrs e1. subst mrs e1. unfold shr_fexp. fold d.
  rewrite fexp_eq in *. fold d in Hc.
  destruct (Zdigits2_spec mx Hm) as [Hd Hs]. fold d in Hd, Hs.
  destruct (Z.max (d + ex - 53) (-1074) - ex) as [|p|p] eqn:E; cbn [shr fst snd].
  - left. repeat split; lia.
  - right. assert (Hp : Z.pos p = d - 53) by lia.
    rewrite iter_shr by (rewrite shr_m_record_of_loc; lia).
    rewrite shr_m_record_of_loc, Hp.
    assert (Hpow : 2 ^ d = 2 ^ 53 * 2 ^ (d - 53))
      by (rewrite <- Z.pow_add_r by lia; f_equal; lia).
    assert (Hpow' : 2 ^ (d - 1) = 2 ^ 52 * 2 ^ (d - 53))
      by (rewrite <- Z.pow_add_r by lia; f_equal; lia).
    assert (Hpos : 0 < 2 ^ (d - 53)) by (apply Z.pow_pos_nonneg; lia).
    repeat split; try lia.
    + apply Z.div_le_lower_bound; lia.
    + apply Z.div_lt_upper_bound; lia.
  - lia.
Qed.

(** A rounding from [mx * 2^ex], for a mantissa that has digits enough:
    the value is the rounded mantissa at the exponent of the first shift,
    written with a mantissa of at most 53 digits; it is a number of the
    format, or infinity when the exponent is too large. *)
Lemma binary_round_aux_spec (mx ex : Z) (lx : location) :
  0 < mx -> -1074 <= ex -> ex <= fexp prec emax (Zdigits2 mx + ex) ->
  let mrs := fst (shr_fexp prec emax mx ex lx) in
  let e1 := snd (shr_fexp prec emax mx ex lx) in
  let M1 := round_nearest_even (shr_m mrs) (loc_of_shr_record mrs) in
  exists (M : positive) (E : Z),
    (E = e1 \/ E = e1 + 1)
    /\ M1 = Z.pos M * 2 ^ (E - e1)
    /\ canonical_mantissa prec emax M E = true
    /\ binary_round_aux prec emax false mx ex lx
       = if E <=? 971 then S754_finite false M E else S754_infinity false.
Proof.
  intros Hm He Hc. cbv zeta.
  pose proof (shr_fexp_spec mx ex lx Hm He Hc) as H1. cbv zeta in H1.
  unfold binary_round_aux.
  destruct (shr_fexp prec emax mx ex lx) as [mrs e1]. cbn [fst snd] in *.
  set (M1 := round_nearest_even (shr_m mrs) (loc_of_shr_record mrs)).
  assert (F : 0 < shr_m mrs < 2 ^ 53 /\ -1074 <= e1 /\ (e1 = -1074 \/ 2 ^ 52 <= shr_m mrs)).
  { destruct (Zdigits2_spec mx Hm) as [Hd Hs].
    destruct H1 as [(Hd53 & -> & -> & Hor)|(Hd53 & Hq & -> & Hb)].
    - rewrite shr_m_record_of_loc. split; [split; [exact Hm|]|split; [exact He|]].
      + assert (2 ^ Zdigits2 mx <= 2 ^ 53) by (apply Z.pow_le_mono_r; lia). lia.
      + destruct Hor as [->|Hor]; [now left|]. right. rewrite Hor in Hs. exact (proj1 Hs).
    - change (2 ^ 52) with 4503599627370496 in *. lia. }
  destruct F as (Hm1 & He1 & Hnorm).
  assert (HM1 : (shr_m mrs <= M1 /\ M1 < 2 ^ 53) \/ M1 = 2 ^ 53).
  { subst M1. destruct (round_nearest_even_cases (shr_m mrs) (loc_of_shr_record mrs)) as [->| ->];
      change (2 ^ 53) with 9007199254740992 in *; lia. }
  destruct HM1 as [[Hlo Hhi]|Hcarry].
  - assert (HM : 0 < M1) by lia.
    assert (Hd' : Zdigits2 M1 <= 53) by (apply Zdigits2_le; lia).
    assert (Hcanon : fexp prec emax (Zdigits2 M1 + e1) = e1).
    { rewrite fexp_eq. destruct Hnorm as [->|Hnorm]; [lia|].
      rewrite (Zdigits2_unique M1 53); [lia | | exact HM].
      change (2 ^ (53 - 1)) with (2 ^ 52). lia. }
    pose proof (shr_fexp_spec M1 e1 loc_Exact HM He1 ltac:(lia)) as H2. cbv zeta in H2.
    destruct H2 as [(_ & H2m & H2e & _)|(H2 & _)]; [|lia].
    destruct (shr_fexp prec emax M1 e1 loc_Exact) as [mrs2 e2]. cbn [fst snd] in H2m, H2e.
    subst mrs2 e2. cbn [shr_record_of_loc shr_m].
    destruct M1 as [|M|M] eqn:EM; try lia.
    exists M, e1. split; [now left|]. rewrite Z.sub_diag. split; [cbn; lia|].
    split; [|reflexivity].
    unfold canonical_mantissa. apply Z.eqb_eq. exact Hcanon.
  - rewrite Hcarry.
    assert (Hs : shr_fexp prec emax (2 ^ 53) e1 loc_Exact
                 = ({| shr_m := 2 ^ 52; shr_r := false; shr_s := false |}, e1 + 1)).
    { unfold shr_fexp. change (Zdigits2 (2 ^ 53)) with 54. rewrite fexp_eq.
      replace (Z.max (54 + e1 - 53) (-1074) - e1) with 1 by lia. reflexivity. }
    rewrite Hs. cbn [shr_m]. change (2 ^ 52) with (Z.pos 4503599627370496).
    exists 4503599627370496%positive, (e1 + 1). split; [now right|].
    replace (e1 + 1 - e1) with 1 by lia. split; [reflexivity|]. split; [|reflexivity].
    unfold canonical_mantissa. apply Z.eqb_eq.
    change (Z.pos (digits2_pos 4503599627370496)) with 53. rewrite fexp_eq. lia.
Qed.

Lemma iter_xO (d m : positive) : Z.pos (Pos.iter xO m d) = Z.pos m * 2 ^ Z.pos d.
Proof.
  induction d as [|d IH] using Pos.peano_ind.
  - cbn [Pos.iter]. change (Z.pos m~0) with (2 * Z.pos m). change (2 ^ 1) with 2. lia.
  - rewrite Pos.iter_succ. change (Z.pos (Pos.iter xO m d)~0) with (2 * Z.pos (Pos.iter xO m d)).
    rewrite IH, Pos2Z.inj_succ, Z.pow_succ_r by lia. lia.
Qed.

(** The rounding of a positive integer multiple of a power of two is a
    positive number of the format, or positive infinity. *)
Lemma binary_round_spec (mx : positive) (ex : Z) :
  -1074 <= ex ->
  valid_binary (binary_round prec emax false mx ex) = true
  /\ isPositive (binary_round prec emax false mx ex).
Proof.
  intros He. unfold binary_round, shl_align.
  pose proof (digits2_pos_spec mx) as Hd.
  set (d := Z.pos (digits2_pos mx)) in *.
  assert (Hres : forall mz ez,
             0 < mz -> -1074 <= ez -> ez <= fexp prec emax (Zdigits2 mz + ez) ->
             valid_binary (binary_round_aux prec emax false mz ez loc_Exact) = true
             /\ isPositive (binary_round_aux prec emax false mz ez loc_Exact)).
  { intros mz ez H1 H2 H3.
    destruct (binary_round_aux_spec mz ez loc_Exact H1 H2 H3) as (M & E & _ & _ & Hc & ->).
    destruct (E <=? 971) eqn:HE; [|split; [reflexivity | exact I]].
    split; [|exact I]. cbn [valid_binary]. unfold bounded. rewrite Hc. exact HE. }
  destruct (fexp prec emax (d + ex) - ex) as [|p|p] eqn:E.
  - apply Hres; [lia | exact He |]. change (Zdigits2 (Z.pos mx)) with d. lia.
  - apply Hres; [lia | exact He |]. change (Zdigits2 (Z.pos mx)) with d. lia.
  - apply Hres; [lia | rewrite fexp_eq; lia |].
    change (Zdigits2 (Z.pos (Pos.iter xO mx p))) with (Zdigits2 (Z.pos (Pos.iter xO mx p))).
    rewrite (Zdigits2_unique (Z.pos (Pos.iter xO mx p)) (d + Z.pos p)); [| |lia].
    + replace (d + Z.pos p + fexp prec emax (d + ex)) with (d + ex) by lia. lia.
    + rewrite iter_xO.
      replace (d + Z.pos p - 1) with ((d - 1) + Z.pos p) by lia.
      rewrite !Z.pow_add_r by lia.
      assert (0 < 2 ^ Z.pos p) by (apply Z.pow_pos_nonneg; lia). nia.
Qed.

Lemma valid_exponent (s : bool) (m : positive) (e : Z) :
  valid_binary (S754_finite s m e) = true -> -1074 <= e.
Proof.
  cbn [valid_binary]. unfold bounded, canonical_mantissa. intros H.
  apply andb_true_iff in H as [H _]. apply Z.eqb_eq in H. rewrite fexp_eq in H. lia.
Qed.

(** The sum of two positive numbers is positive. *)
Lemma SFadd_positive (mx my : positive) (ex ey : Z) :
  -1074 <= ex -> -1074 <= ey ->
  isPositive (SFadd prec emax (S754_finite false mx ex) (S754_finite false my ey)).
Proof.
  intros Hx Hy. cbn [SFadd cond_Zopp].
  set (a := fst (shl_align mx ex (Z.min ex ey))).
  set (b := fst (shl_align my ey (Z.min ex ey))).
  change (Z.pos a + Z.pos b) with (Z.pos (a + b)). cbn [binary_normalize].
  apply binary_round_spec. lia.
Qed.

#[local] Close Scope Z_scope.

Lemma Prim2SF_zero : Prim2SF 0%float = S754_zero false.
Proof. reflexivity. Qed.

Lemma positive_iff (x : float) : (0 <? x)%float = true <-> isPositive (Prim2SF x).
Proof.
  rewrite ltb_spec, Prim2SF_zero. unfold SFltb.
  destruct (Prim2SF x) as [s|s| |s m e]; cbn; try destruct s; intuition congruence.
Qed.

Lemma positive_nonNegative (s : spec_float) : isPositive s -> isNonNegative s.
Proof. destruct s as [s|s| |s m e]; cbn; try destruct s; tauto. Qed.

(** Sums of numbers that are not negative: the sum is not negative, and it
    is positive exactly when one of the two is. *)
Lemma add_nonNegative (x y : float) :
  isNonNegative (Prim2SF x) -> isNonNegative (Prim2SF y) ->
  isNonNegative (Prim2SF (x + y))
  /\ (isPositive (Prim2SF (x + y)) <-> isPositive (Prim2SF x) \/ isPositive (Prim2SF y)).
Proof.
  rewrite add_spec. unfold SF64add.
  pose proof (Prim2SF_valid x) as Vx. pose proof (Prim2SF_valid y) as Vy.
  destruct (Prim2SF x) as [sx|sx| |sx mx ex]; destruct (Prim2SF y) as [sy|sy| |sy my ey];
    try (cbn; tauto);
    try (destruct sx; destruct sy; cbn; tauto);
    try (destruct sx; cbn; tauto);
    try (destruct sy; cbn; tauto).
  destruct sx; [cbn; tauto|]. destruct sy; [cbn; tauto|]. intros _ _.
  apply valid_exponent in Vx. apply valid_exponent in Vy.
  pose proof (SFadd_positive mx my ex ey Vx Vy) as H.
  split; [now apply positive_nonNegative|]. split; [now left | intros _; exact H].
Qed.

(** *** Integers as numbers *)

Lemma floatOfZ_nonNegative (z : Z) :
  (0 <= z)%Z ->
  isNonNegative (Prim2SF (floatOfZ z))
  /\ (isPositive (Prim2SF (floatOfZ z)) <-> (0 < z)%Z).
Proof.
  intros Hz. unfold floatOfZ. destruct z as [|p|p]; [| |lia].
  - cbn. split; [exact I | split; [tauto | lia]].
  - cbn [binary_normalize].
    destruct (binary_round_spec p 0 ltac:(lia)) as [Hv Hp].
    rewrite Prim2SF_SF2Prim by exact Hv.
    split; [now apply positive_nonNegative | split; [lia | intros _; exact Hp]].
Qed.

Lemma digitsValue_nonneg (ds : str) :
  forallb isDigit ds = true ->
  forall acc, (0 <= acc)%Z ->
  (acc <= fold_left (fun acc c => 10 * acc + (Z.of_N c - 48)) ds acc)%Z.
Proof.
  induction ds as [|c ds IH]; intros H acc Hacc; [cbn; lia|].
  cbn [forallb] in H. apply andb_true_iff in H as [Hc H].
  cbn [fold_left]. unfold isDigit in Hc. apply andb_true_iff in Hc as [H1 H2].
  apply N.leb_le in H1. apply N.leb_le in H2.
  specialize (IH H (10 * acc + (Z.of_N c - 48))%Z ltac:(lia)). lia.
Qed.

Lemma takeWhile_all (p : N -> bool) (s : str) : forallb p s = true -> takeWhile p s = s.
Proof.
  induction s as [|c s IH]; [reflexivity|]. cbn [forallb takeWhile].
  intros H. apply andb_true_iff in H as [-> H]. now rewrite IH.
Qed.

Lemma takeWhile_forallb (p : N -> bool) (s : str) : forallb p (takeWhile p s) = true.
Proof.
  induction s as [|c s IH]; [reflexivity|]. cbn [takeWhile].
  destruct (p c) eqn:E; [|reflexivity]. cbn [forallb]. now rewrite E, IH.
Qed.

Lemma digit_cases (c : N) :
  isDigit c = true ->
  c = 48%N \/ c = 49%N \/ c = 50%N \/ c = 51%N \/ c = 52%N
  \/ c = 53%N \/ c = 54%N \/ c = 55%N \/ c = 56%N \/ c = 57%N.
Proof.
  unfold isDigit. intros H. apply andb_true_iff in H as [H1 H2].
  apply N.leb_le in H1. apply N.leb_le in H2. lia.
Qed.

(** [parseInt] of a run of digits is the number nearest to its value. *)
Lemma parseInt_digits (ds : str) :
  ds <> [] -> forallb isDigit ds = true ->
  parseInt ds = floatOfZ (digitsValue ds) /\ (0 <= digitsValue ds)%Z.
Proof.
  intros Hne H. split; [|apply (digitsValue_nonneg ds H 0%Z); lia].
  destruct ds as [|c t]; [congruence|].
  pose proof H as H'. cbn [forallb] in H'. apply andb_true_iff in H' as [Hc _].
  unfold parseInt. rewrite trimStart_fixed by now apply digit_not_space.
  pose proof (takeWhile_all isDigit (c :: t) H) as Htw.
  destruct (digit_cases c Hc) as [E|[E|[E|[E|[E|[E|[E|[E|[E|E]]]]]]]]]; subst c;
    cbv beta iota zeta; rewrite Htw; reflexivity.
Qed.

#[local] Open Scope Z_scope.

(** *** A sum of cents divided by a hundred *)

(** The quotient that the division by 100 starts from. *)
Lemma div_core_100 (n : positive) :
  let d1 := Zdigits2 (Z.pos n) in
  d1 <= 53 ->
  SFdiv_core_binary prec emax (Z.pos n) 0 100 0
  = (Z.pos n * 2 ^ (60 - d1) / 100, d1 - 60,
     new_location_even 100 ((Z.pos n * 2 ^ (60 - d1)) mod 100)).
Proof.
  intros d1 Hd. unfold SFdiv_core_binary. fold d1.
  change (Zdigits2 100) with 7. rewrite fexp_eq.
  assert (Hd0 : 0 < d1) by (subst d1; cbn; lia).
  replace (Z.min (Z.max (d1 + 0 - (7 + 0) - 53) (-1074)) (0 - 0)) with (d1 - 60) by lia.
  replace (0 - 0 - (d1 - 60)) with (60 - d1) by lia.
  assert (Hs : Z.pos n * 2 ^ (60 - d1)
               = match 60 - d1 with
                 | 0 => Z.pos n
                 | Z.pos _ => Z.shiftl (Z.pos n) (60 - d1)
                 | Z.neg _ => 0
                 end).
  { destruct (60 - d1) as [|p|p] eqn:E; try lia.
    rewrite Z.shiftl_mul_pow2 by lia. reflexivity. }
  rewrite <- Hs.
  unfold Z.div, Z.modulo.
  destruct (Z.div_eucl (Z.pos n * 2 ^ (60 - d1)) 100) as [q r]. reflexivity.
Qed.

(** The rounding of a quotient by 100 that has 53 digits: the mantissa is
    within half a unit of the exact quotient. *)
Lemma round_quotient_53 (a q : Z) :
  q = a / 100 ->
  Z.abs (100 * round_nearest_even q (new_location_even 100 (a mod 100)) - a) <= 50.
Proof.
  intros ->. pose proof (Z.div_mod a 100 ltac:(lia)) as Hdm.
  pose proof (Z.mod_pos_bound a 100 ltac:(lia)) as Hr.
  set (q := a / 100) in *. set (r := a mod 100) in *.
  unfold new_location_even.
  destruct (r =? 0) eqn:E0.
  - apply Z.eqb_eq in E0. cbn [round_nearest_even]. lia.
  - apply Z.eqb_neq in E0.
    destruct (Z.compare_spec (2 * r) 100) as [H|H|H]; cbn [round_nearest_even].
    + destruct (Z.even q); lia.
    + lia.
    + lia.
Qed.

(** The same for a quotient that has 54 digits, shifted once. *)
Lemma round_quotient_54 (a q : Z) :
  q = a / 100 -> 0 < q ->
  let mrs := shr_1 (shr_record_of_loc q (new_location_even 100 (a mod 100))) in
  Z.abs (200 * round_nearest_even (shr_m mrs) (loc_of_shr_record mrs) - a) <= 100.
Proof.
  intros -> Hq. pose proof (Z.div_mod a 100 ltac:(lia)) as Hdm.
  pose proof (Z.mod_pos_bound a 100 ltac:(lia)) as Hr.
  set (q := a / 100) in *. set (r := a mod 100) in *.
  unfold new_location_even.
  destruct (r =? 0) eqn:E0.
  - apply Z.eqb_eq in E0. cbn [shr_record_of_loc].
    destruct q as [|[p|p|]|p]; try lia; cbn [shr_1 shr_m loc_of_shr_record orb round_nearest_even].
    + change (Z.pos p~1) with (2 * Z.pos p + 1) in *. destruct (Z.even (Z.pos p)); lia.
    + change (Z.pos p~0) with (2 * Z.pos p) in *. lia.
    + destruct (Z.even 0); lia.
  - apply Z.eqb_neq in E0.
    destruct (Z.compare_spec (2 * r) 100) as [H|H|H]; cbn [shr_record_of_loc];
      destruct q as [|[p|p|]|p]; try lia;
      cbn [shr_1 shr_m loc_of_shr_record orb round_nearest_even];
      try change (Z.pos p~1) with (2 * Z.pos p + 1) in *;
      try change (Z.pos p~0) with (2 * Z.pos p) in *; lia.
Qed.

Lemma pow2_split (a b : Z) : 0 <= a -> 0 <= b -> 2 ^ (a + b) = 2 ^ a * 2 ^ b.
Proof. intros. now apply Z.pow_add_r. Qed.

(** Cents divided by a hundred: the number nearest to the quotient, which
    for a quotient below 2^46 is within 2^-8 of it.  Values are given in
    units of 2^-1074. *)
Lemma floatOfRatio_100 (n : positive) :
  Z.pos n < 100 * 2 ^ 46 ->
  exists (M : positive) (E : Z),
    Prim2SF (floatOfRatio n 100) = S754_finite false M E
    /\ -1074 <= E
    /\ Z.abs (100 * (Z.pos M * 2 ^ (E + 1074)) - Z.pos n * 2 ^ 1074) <= 50 * 2 ^ 1067.
Proof.
  intros Hn. unfold floatOfRatio, SFdiv.
  destruct (Zdigits2_spec (Z.pos n) ltac:(lia)) as [Hd0 Hd].
  set (d1 := Zdigits2 (Z.pos n)) in *.
  assert (Hd53 : d1 <= 53).
  { apply Zdigits2_le; [lia| |lia]. change (2 ^ 53) with 9007199254740992.
    change (2 ^ 46) with 70368744177664 in Hn. lia. }
  rewrite (div_core_100 n Hd53). fold d1. cbn [xorb].
  set (a := Z.pos n * 2 ^ (60 - d1)).
  set (q := a / 100). set (loc := new_location_even 100 (a mod 100)).
  assert (Ha : 2 ^ 59 <= a < 2 ^ 60).
  { assert (H59 : 2 ^ 59 = 2 ^ (d1 - 1) * 2 ^ (60 - d1))
      by (rewrite <- pow2_split by lia; f_equal; lia).
    assert (H60 : 2 ^ 60 = 2 ^ d1 * 2 ^ (60 - d1))
      by (rewrite <- pow2_split by lia; f_equal; lia).
    assert (0 < 2 ^ (60 - d1)) by (apply Z.pow_pos_nonneg; lia).
    subst a. rewrite H59, H60.
    split; [apply Z.mul_le_mono_nonneg_r | apply Z.mul_lt_mono_pos_r]; lia. }
  assert (Hq : 2 ^ 52 <= q < 2 ^ 54).
  { subst q. change (2 ^ 59) with 576460752303423488 in Ha.
    change (2 ^ 60) with 1152921504606846976 in Ha.
    change (2 ^ 52) with 4503599627370496. change (2 ^ 54) with 18014398509481984.
    split; [apply Z.div_le_lower_bound; lia | apply Z.div_lt_upper_bound; lia]. }
  assert (Hq0 : 0 < q) by (change (2 ^ 52) with 4503599627370496 in Hq; lia).
  assert (Hascale : a * 2 ^ (d1 - 60 + 1074) = Z.pos n * 2 ^ 1074).
  { subst a. rewrite <- Z.mul_assoc, <- pow2_split by lia. do 2 f_equal. lia. }
  assert (Hcond : d1 - 60 <= fexp prec emax (Zdigits2 q + (d1 - 60))).
  { rewrite fexp_eq.
    assert (53 <= Zdigits2 q).
    { destruct (Zdigits2_spec q Hq0) as [_ [_ Hu]].
      destruct (Z.leb_spec 53 (Zdigits2 q)) as [H|H]; [exact H|].
      assert (2 ^ Zdigits2 q <= 2 ^ 52) by (apply Z.pow_le_mono_r; lia). lia. }
    lia. }
  destruct (binary_round_aux_spec q (d1 - 60) loc Hq0 ltac:(lia) Hcond)
    as (M & E & HE & HM & Hcanon & ->).
  (* the rounded mantissa, in both cases of the first shift *)
  assert (Hbound : exists e1 M1,
             (E = e1 \/ E = e1 + 1) /\ M1 = Z.pos M * 2 ^ (E - e1) /\ -59 <= e1 <= -7
             /\ Z.abs (100 * (M1 * 2 ^ (e1 + 1074)) - Z.pos n * 2 ^ 1074) <= 50 * 2 ^ 1067).
  { destruct (Z.ltb_spec q (2 ^ 53)) as [Hlt|Hge].
    - (* 53 digits: no shift *)
      assert (Hdq : Zdigits2 q = 53) by (apply Zdigits2_unique; [exact (conj (proj1 Hq) Hlt) | exact Hq0]).
      assert (Hs : shr_fexp prec emax q (d1 - 60) loc = (shr_record_of_loc q loc, d1 - 60)).
      { unfold shr_fexp. rewrite Hdq, fexp_eq.
        replace (Z.max (53 + (d1 - 60) - 53) (-1074) - (d1 - 60)) with 0 by lia. reflexivity. }
      rewrite Hs in HE, HM. cbn [fst snd] in HE, HM.
      rewrite shr_m_record_of_loc, loc_of_record_of_loc in HM.
      exists (d1 - 60), (round_nearest_even q loc).
      split; [exact HE|]. split; [exact HM|]. split; [lia|].
      pose proof (round_quotient_53 a q eq_refl) as Hr. fold loc in Hr.
      rewrite <- Hascale, Z.mul_assoc, <- Z.mul_sub_distr_r, Z.abs_mul.
      assert (Hp : 0 < 2 ^ (d1 - 60 + 1074)) by (apply Z.pow_pos_nonneg; lia).
      rewrite (Z.abs_eq (2 ^ (d1 - 60 + 1074))) by lia.
      assert (Hle : 2 ^ (d1 - 60 + 1074) <= 2 ^ 1067) by (apply Z.pow_le_mono_r; lia).
      clear Hascale.
      set (W := 2 ^ (d1 - 60 + 1074)) in *. set (P := 2 ^ 1067) in *.
      set (D := Z.abs (100 * round_nearest_even q loc - a)) in *.
      clearbody W P D. nia.
    - (* 54 digits: one shift *)
      assert (Hdq : Zdigits2 q = 54).
      { apply Zdigits2_unique; [|exact Hq0]. change (54 - 1) with 53. lia. }
      assert (Hs : shr_fexp prec emax q (d1 - 60) loc
                   = (shr_1 (shr_record_of_loc q loc), d1 - 60 + 1)).
      { unfold shr_fexp. rewrite Hdq, fexp_eq.
        replace (Z.max (54 + (d1 - 60) - 53) (-1074) - (d1 - 60)) with 1 by lia. reflexivity. }
      rewrite Hs in HE, HM. cbn [fst snd] in HE, HM.
      set (mrs := shr_1 (shr_record_of_loc q loc)) in *.
      assert (Hd52 : d1 <= 52).
      { destruct (Z.leb_spec d1 52) as [H|H]; [exact H|].
        assert (d1 = 53) by lia.
        assert (a = Z.pos n * 2 ^ 7) by (subst a; do 2 f_equal; lia).
        pose proof (Z.mul_div_le a 100 ltac:(lia)) as Hmd. fold q in Hmd.
        change (2 ^ 46) with 70368744177664 in Hn. change (2 ^ 7) with 128 in *.
        change (2 ^ 53) with 9007199254740992 in Hge. lia. }
      exists (d1 - 60 + 1), (round_nearest_even (shr_m mrs) (loc_of_shr_record mrs)).
      split; [exact HE|]. split; [exact HM|]. split; [lia|].
      pose proof (round_quotient_54 a q eq_refl Hq0) as Hr. cbv zeta in Hr.
      fold loc in Hr. fold mrs in Hr.
      set (M1 := round_nearest_even (shr_m mrs) (loc_of_shr_record mrs)) in *.
      rewrite <- Hascale.
      replace (d1 - 60 + 1 + 1074) with (1 + (d1 - 60 + 1074)) by lia.
      rewrite pow2_split by lia. change (2 ^ 1) with 2.
      replace (100 * (M1 * (2 * 2 ^ (d1 - 60 + 1074))) - a * 2 ^ (d1 - 60 + 1074))
        with ((200 * M1 - a) * 2 ^ (d1 - 60 + 1074)) by ring.
      rewrite Z.abs_mul.
      assert (Hp : 0 < 2 ^ (d1 - 60 + 1074)) by (apply Z.pow_pos_nonneg; lia).
      rewrite (Z.abs_eq (2 ^ (d1 - 60 + 1074))) by lia.
      assert (Hle : 2 * 2 ^ (d1 - 60 + 1074) <= 2 ^ 1067).
      { change 2 with (2 ^ 1) at 1. rewrite <- pow2_split by lia.
        apply Z.pow_le_mono_r; lia. }
      clear Hascale.
      set (W := 2 ^ (d1 - 60 + 1074)) in *. set (P := 2 ^ 1067) in *.
      set (D := Z.abs (200 * M1 - a)) in *.
      clearbody W P D. nia. }
  destruct Hbound as (e1 & M1 & HE' & HM' & He1 & Hb).
  assert (HEle : E <= 971) by lia.
  apply Z.leb_le in HEle. rewrite HEle.
  exists M, E. split; [|split; [lia|]].
  - apply Prim2SF_SF2Prim. cbn [valid_binary]. unfold bounded. now rewrite Hcanon.
  - replace (Z.pos M * 2 ^ (E + 1074)) with (M1 * 2 ^ (e1 + 1074)); [exact Hb|].
    rewrite HM', <- Z.mul_assoc, <- pow2_split by lia. do 2 f_equal. lia.
Qed.

(** *** Decimal numerals read back *)

Lemma digitsValue_acc (u : Decimal.uint) (acc : positive) :
  fold_left (fun acc c => 10 * acc + (Z.of_N c - 48)) (uintDigits u) (Z.pos acc)
  = Z.pos (Pos.of_uint_acc u acc).
Proof.
  revert acc. induction u; intros acc; cbn [uintDigits fold_left Pos.of_uint_acc];
    try reflexivity; rewrite <- IHu; f_equal; lia.
Qed.

Lemma digitsValue_uint (u : Decimal.uint) : digitsValue (uintDigits u) = Z.of_N (Pos.of_uint u).
Proof.
  unfold digitsValue. induction u; cbn [uintDigits fold_left Pos.of_uint];
    try reflexivity; try exact IHu;
    match goal with
    | |- fold_left _ _ ?z = _ => change z with (Z.pos (Z.to_pos z))
    end; rewrite digitsValue_acc; reflexivity.
Qed.

Lemma digitsValue_zDecimal (n : Z) : 0 <= n -> digitsValue (zDecimal n) = n.
Proof.
  intros Hn. unfold zDecimal, decimal. rewrite digitsValue_uint.
  destruct (Z.to_N n) as [|p] eqn:E.
  - cbn. lia.
  - cbn [N.to_uint]. rewrite Unsigned.of_to. lia.
Qed.

Lemma digitsValue_zeros (k : nat) (ds : str) :
  digitsValue (repeat 48%N k ++ ds) = digitsValue ds.
Proof.
  unfold digitsValue. rewrite fold_left_app.
  replace (fold_left (fun acc c => 10 * acc + (Z.of_N c - 48)) (repeat 48%N k) 0) with 0;
    [reflexivity|].
  induction k as [|k IH]; [reflexivity|]. cbn [repeat fold_left]. exact IH.
Qed.

Lemma forallb_repeat (p : N -> bool) (c : N) (k : nat) :
  p c = true -> forallb p (repeat c k) = true.
Proof. intros H. induction k; [reflexivity|]. cbn. now rewrite H. Qed.

Lemma forallb_firstn (p : N -> bool) (k : nat) (s : str) :
  forallb p s = true -> forallb p (firstn k s) = true.
Proof.
  revert k. induction s as [|c s IH]; intros [|k] H; try reflexivity.
  cbn [forallb firstn] in *. apply andb_true_iff in H as [-> H]. now apply IH.
Qed.

Lemma forallb_skipn (p : N -> bool) (k : nat) (s : str) :
  forallb p s = true -> forallb p (skipn k s) = true.
Proof.
  revert k. induction s as [|c s IH]; intros [|k] H; try reflexivity; [exact H|].
  cbn [forallb skipn] in *. apply andb_true_iff in H as [_ H]. now apply IH.
Qed.

Lemma zDecimal_digits (n : Z) : forallb isDigit (zDecimal n) = true.
Proof. apply uintDigits_digits. Qed.

(** The numeral of a number of cents: digits, a point, two digits. *)
Lemma fixedDigits_split (n : Z) :
  0 <= n ->
  exists whole frac,
    fixedDigits n = whole ++ 46%N :: frac
    /\ whole <> []
    /\ forallb isDigit whole = true
    /\ forallb isDigit frac = true
    /\ length frac = 2%nat
    /\ digitsValue (whole ++ frac) = n.
Proof.
  intros Hn. unfold fixedDigits.
  set (padded := repeat 48%N (3 - length (zDecimal n)) ++ zDecimal n).
  assert (Hlen : (3 <= length padded)%nat).
  { subst padded. rewrite length_app, repeat_length. lia. }
  assert (Hd : forallb isDigit padded = true).
  { subst padded. rewrite forallb_app, forallb_repeat by reflexivity. apply zDecimal_digits. }
  exists (firstn (length padded - 2) padded), (skipn (length padded - 2) padded).
  split; [reflexivity|]. split.
  - intros H. apply (f_equal (@length N)) in H. rewrite length_firstn in H. cbn [length] in H. lia.
  - split; [now apply forallb_firstn|]. split; [now apply forallb_skipn|]. split.
    + rewrite length_skipn. lia.
    + rewrite firstn_skipn. subst padded. rewrite digitsValue_zeros.
      now apply digitsValue_zDecimal.
Qed.

Lemma takeWhile_stop (p : N -> bool) (a : str) (c : N) (b : str) :
  forallb p a = true -> p c = false -> takeWhile p (a ++ c :: b) = a.
Proof.
  intros Ha Hc. induction a as [|x a IH]; cbn [app takeWhile].
  - now rewrite Hc.
  - cbn [forallb] in Ha. apply andb_true_iff in Ha as [-> Ha]. now rewrite IH.
Qed.

Lemma dropWhile_stop (p : N -> bool) (a : str) (c : N) (b : str) :
  forallb p a = true -> p c = false -> dropWhile p (a ++ c :: b) = c :: b.
Proof.
  intros Ha Hc. induction a as [|x a IH]; cbn [app dropWhile].
  - now rewrite Hc.
  - cbn [forallb] in Ha. apply andb_true_iff in Ha as [-> Ha]. now apply IH.
Qed.

Lemma dropWhile_all (p : N -> bool) (s : str) : forallb p s = true -> dropWhile p s = [].
Proof.
  induction s as [|c s IH]; [reflexivity|]. cbn [forallb dropWhile].
  intros H. apply andb_true_iff in H as [-> H]. now apply IH.
Qed.

(** [parseFloat] of digits, a point and two digits: the number nearest to
    the hundredth part of the value of the digits. *)
Lemma parseFloat_cents (whole frac : str) :
  whole <> [] -> forallb isDigit whole = true -> forallb isDigit frac = true ->
  length frac = 2%nat ->
  parseFloat (whole ++ 46%N :: frac)
  = match digitsValue (whole ++ frac) with
    | Z.pos cents => floatOfRatio cents 100
    | _ => 0%float
    end.
Proof.
  intros Hne Hw Hf Hlen. destruct whole as [|c w]; [congruence|].
  pose proof Hw as Hw'. cbn [forallb] in Hw'. apply andb_true_iff in Hw' as [Hc _].
  unfold parseFloat. cbn [app]. rewrite trimStart_fixed by now apply digit_not_space.
  assert (HI : startsWith (js "Infinity") (c :: w ++ 46%N :: frac) = false).
  { assert (E : js "Infinity" = 73%N :: js "nfinity") by (vm_compute; reflexivity).
    rewrite E. cbn [startsWith].
    unfold isDigit in Hc. apply andb_true_iff in Hc as [H1 H2]. apply N.leb_le in H2.
    replace (73 =? c)%N with false; [reflexivity|]. symmetry. apply N.eqb_neq. lia. }
  assert (Htw : takeWhile isDigit (c :: w ++ 46%N :: frac) = c :: w)
    by (apply (takeWhile_stop isDigit (c :: w) 46%N frac Hw); reflexivity).
  assert (Hdw : dropWhile isDigit (c :: w ++ 46%N :: frac) = 46%N :: frac)
    by (apply (dropWhile_stop isDigit (c :: w) 46%N frac Hw); reflexivity).
  destruct (digit_cases c Hc) as [E|[E|[E|[E|[E|[E|[E|[E|[E|E]]]]]]]]]; subst c;
    cbv beta iota zeta; rewrite HI, Htw, Hdw;
    cbv beta iota zeta; rewrite (takeWhile_all isDigit frac Hf), (dropWhile_all isDigit frac Hf);
    cbn [app]; rewrite Hlen;
    match goal with
    | |- context [digitsValue ?l] => destruct (digitsValue l); reflexivity
    end.
Qed.

(** *** The total read back from its two-decimal numeral *)

Lemma valid_finite (x : float) (s : bool) (m : positive) (e : Z) :
  Prim2SF x = S754_finite s m e -> -1074 <= e.
Proof.
  intros H. pose proof (Prim2SF_valid x) as V. rewrite H in V.
  exact (valid_exponent s m e V).
Qed.

(** The number of cents that [toFixed(2)] writes for a positive number
    below 2^45: the whole number nearest to a hundred times the number. *)
Lemma toFixed2_cents (m : positive) (e : Z) (x : float) :
  Prim2SF x = S754_finite false m e ->
  Z.pos m * 2 ^ (e + 1074) < 2 ^ (45 + 1074) ->
  exists n,
    toFixed2 x = fixedDigits n
    /\ 0 <= n
    /\ 2 * Z.abs (n * 2 ^ 1074 - 100 * (Z.pos m * 2 ^ (e + 1074))) <= 2 ^ 1074.
Proof.
  intros Hx Hlt. pose proof (valid_finite x false m e Hx) as He.
  unfold toFixed2. rewrite Hx. cbn [app].
  assert (Hp : 0 < 2 ^ 1074) by (apply Z.pow_pos_nonneg; lia).
  assert (Hs' : 2 ^ (45 + 1074) = 2 ^ 45 * 2 ^ 1074) by (apply pow2_split; lia).
  rewrite Hs' in Hlt. clear Hs'. change (2 ^ 45) with 35184372088832 in Hlt.
  destruct (0 <=? e) eqn:E0.
  - apply Z.leb_le in E0.
    assert (Hs : 2 ^ (e + 1074) = 2 ^ e * 2 ^ 1074) by (apply pow2_split; lia).
    assert (Hpe : 0 < 2 ^ e) by (apply Z.pow_pos_nonneg; lia).
    rewrite Hs in Hlt. rewrite Hs. clear Hs.
    set (P := 2 ^ 1074) in *. set (Q := 2 ^ e) in *. clearbody P Q.
    assert (Hv : Z.pos m * Q < 35184372088832) by nia.
    replace (10 ^ 21 <=? Z.pos m * Q) with false
      by (symmetry; apply Z.leb_gt; change (10 ^ 21) with 1000000000000000000000; lia).
    cbn [andb]. exists (100 * Z.pos m * Q). split; [reflexivity|]. split; [nia|].
    replace (100 * Z.pos m * Q * P - 100 * (Z.pos m * (Q * P))) with 0 by ring.
    change (Z.abs 0) with 0. lia.
  - apply Z.leb_gt in E0. cbn [andb].
    exists ((200 * Z.pos m + 2 ^ (- e)) / 2 ^ (- e + 1)). split; [reflexivity|].
    assert (Hd : 0 < 2 ^ (- e)) by (apply Z.pow_pos_nonneg; lia).
    assert (Hpe : 0 < 2 ^ (e + 1074)) by (apply Z.pow_pos_nonneg; lia).
    assert (Hs : 2 ^ 1074 = 2 ^ (- e) * 2 ^ (e + 1074)).
    { rewrite <- pow2_split by lia. f_equal. lia. }
    replace (- e + 1) with (Z.succ (- e)) by lia. rewrite Z.pow_succ_r by lia.
    rewrite Hs. clear Hs Hp Hlt.
    set (d := 2 ^ (- e)) in *. set (R := 2 ^ (e + 1074)) in *. clearbody d R.
    pose proof (Z.div_mod (200 * Z.pos m + d) (2 * d) ltac:(lia)) as Hdm.
    pose proof (Z.mod_pos_bound (200 * Z.pos m + d) (2 * d) ltac:(lia)) as Hb.
    assert (Hq : 0 <= (200 * Z.pos m + d) / (2 * d)) by (apply Z.div_pos; lia).
    set (q := (200 * Z.pos m + d) / (2 * d)) in *.
    set (r := (200 * Z.pos m + d) mod (2 * d)) in *. clearbody q r.
    split; [exact Hq|].
    replace (q * (d * R) - 100 * (Z.pos m * R)) with ((q * d - 100 * Z.pos m) * R) by ring.
    rewrite Z.abs_mul, (Z.abs_eq R) by lia.
    assert (2 * Z.abs (q * d - 100 * Z.pos m) <= d) by lia.
    nia.
Qed.

(** Rounding to two decimals moves a number below 2^45 (about 3.5e13)
    that is not negative by at most 0.01. *)
Lemma roundTo2_withinOneCent (x : float) :
  nonNegativeBelow 45 x -> withinOneCent (roundTo2 x) x.
Proof.
  intros (v & Hv & Hv0 & Hvlt). unfold withinOneCent, roundTo2.
  unfold exactValue in Hv. destruct (Prim2SF x) as [s|s| |s m e] eqn:Ex; try discriminate.
  - assert (Ev : v = 0) by congruence. subst v. exists 0, 0.
    unfold exactValue at 2. rewrite Ex. unfold toFixed2. rewrite Ex.
    split; [reflexivity|]. split; [reflexivity|].
    change (100 * Z.abs (0 - 0)) with 0. apply Z.pow_nonneg. lia.
  - assert (Ev : v = (if s then -1 else 1) * (Z.pos m * 2 ^ (e + 1074))) by congruence.
    subst v. clear Hv.
    pose proof (valid_finite x s m e Ex) as He.
    assert (Hpe : 0 < 2 ^ (e + 1074)) by (apply Z.pow_pos_nonneg; lia).
    destruct s; [nia|]. rewrite Z.mul_1_l in Hv0, Hvlt.
    destruct (toFixed2_cents m e x Ex Hvlt) as (n & -> & Hn & Hb).
    destruct (fixedDigits_split n Hn) as (whole & frac & -> & Hne & Hw & Hf & Hlen & Hval).
    rewrite (parseFloat_cents whole frac Hne Hw Hf Hlen), Hval.
    assert (H1074 : 2 ^ 1074 = 128 * 2 ^ 1067) by (apply (pow2_split 7 1067); lia).
    assert (H1119 : 2 ^ (45 + 1074) = 4503599627370496 * 2 ^ 1067)
      by (apply (pow2_split 52 1067); lia).
    assert (HP : 0 < 2 ^ 1067) by (apply Z.pow_pos_nonneg; lia).
    rewrite H1119 in Hvlt. clear H1119.
    destruct n as [|cents|cents]; [| |lia].
    + exists 0, (Z.pos m * 2 ^ (e + 1074)). unfold exactValue. rewrite Ex.
      split; [reflexivity|]. split; [now rewrite Z.mul_1_l|].
      rewrite H1074 in *. clear H1074.
      set (V := Z.pos m * 2 ^ (e + 1074)) in *. set (P := 2 ^ 1067) in *.
      clearbody V P. lia.
    + assert (Hc : Z.pos cents < 100 * 2 ^ 46).
      { change (2 ^ 46) with 70368744177664. rewrite H1074 in Hb.
        set (V := Z.pos m * 2 ^ (e + 1074)) in *. set (P := 2 ^ 1067) in *.
        clearbody V P. nia. }
      destruct (floatOfRatio_100 cents Hc) as (M & E & HM & HE & Hd).
      exists (Z.pos M * 2 ^ (E + 1074)), (Z.pos m * 2 ^ (e + 1074)).
      unfold exactValue. rewrite HM, Ex.
      split; [now rewrite Z.mul_1_l|]. split; [now rewrite Z.mul_1_l|].
      rewrite H1074 in *. clear H1074.
      set (T := Z.pos M * 2 ^ (E + 1074)) in *.
      set (V := Z.pos m * 2 ^ (e + 1074)) in *. set (P := 2 ^ 1067) in *.
      clearbody T V P. lia.
Qed.

#[local] Close Scope Z_scope.

(** ** Totals *)

(** Filters, maps and pairings of lists. *)

Lemma filter_filter {A : Type} (p q : A -> bool) (l : list A) :
  filter p (filter q l) = filter (fun x => q x && p x) l.
Proof.
  induction l as [|x l IH]; [reflexivity|]. cbn [filter].
  destruct (q x); cbn [filter andb]; [destruct (p x)|]; now rewrite IH.
Qed.

Lemma Forall2_filter {A B : Type} (R : A -> B -> Prop) (p : A -> bool) (q : B -> bool)
    (l1 : list A) (l2 : list B) :
  Forall2 R l1 l2 ->
  (forall a b, R a b -> In b l2 -> p a = q b) ->
  Forall2 R (filter p l1) (filter q l2).
Proof.
  induction 1 as [|a b l1 l2 Hab H IH]; intros Hpq; [constructor|].
  cbn [filter]. rewrite (Hpq a b Hab (or_introl eq_refl)).
  assert (IH' : Forall2 R (filter p l1) (filter q l2)).
  { apply IH. intros a' b' HR Hin. apply Hpq; [exact HR | now right]. }
  destruct (q b); [now constructor | exact IH'].
Qed.

Lemma Forall2_map_right {A B C : Type} (R : A -> C -> Prop) (f : B -> C)
    (l1 : list A) (l2 : list B) :
  Forall2 R l1 (map f l2) <-> Forall2 (fun a b => R a (f b)) l1 l2.
Proof.
  split.
  - revert l1. induction l2 as [|b l2 IH]; intros l1 H; inversion H; subst; constructor; auto.
  - induction 1; cbn; constructor; auto.
Qed.

Lemma Forall2_flat_map {A B C : Type} (R : B -> C -> Prop) (f : A -> list B) (g : A -> list C)
    (l : list A) :
  (forall x, In x l -> Forall2 R (f x) (g x)) ->
  Forall2 R (flat_map f l) (flat_map g l).
Proof.
  induction l as [|x l IH]; intros H; [constructor|].
  cbn [flat_map]. apply Forall2_app.
  - apply H. now left.
  - apply IH. intros y Hy. apply H. now right.
Qed.

Lemma flat_map_map {A B C : Type} (f : B -> list C) (g : A -> B) (l : list A) :
  flat_map f (map g l) = flat_map (fun x => f (g x)) l.
Proof. induction l as [|x l IH]; [reflexivity|]. cbn. now rewrite IH. Qed.

Lemma map_flat_map {A B C : Type} (f : B -> C) (g : A -> list B) (l : list A) :
  map f (flat_map g l) = flat_map (fun x => map f (g x)) l.
Proof. induction l as [|x l IH]; [reflexivity|]. cbn. now rewrite map_app, IH. Qed.

Lemma combine_map_same {A B : Type} (f : A -> B) (l : list A) :
  combine l (map f l) = map (fun x => (x, f x)) l.
Proof. induction l as [|x l IH]; [reflexivity|]. cbn. now rewrite IH. Qed.

Lemma netCell_renumbered (out cells : list str) :
  renumbered out cells -> 3 <= length cells -> netCell out = netCell cells.
Proof.
  intros [->|(k & first & rest & -> & ->)] Hlen; [reflexivity|].
  unfold netCell. cbn [length] in *.
  destruct (length rest) as [|[|n]] eqn:E; [lia | lia |].
  cbn [Nat.sub]. replace (S (S (S n)) - 2) with (S n) by lia. reflexivity.
Qed.

Section RowsAndTotals.

Variable toLowerCase : str -> str.
Variable options : ProcessingOptions.

(** Each row after the final cleanup is a row with content from before it,
    in order, at most renumbered. *)
Lemma finalCleanup_rows (newRows : list (list str)) :
  Forall2 renumbered (finalCleanup options newRows) (filter hasContent newRows).
Proof.
  unfold finalCleanup.
  assert (Hsame : forall l : list (list str), Forall2 renumbered l l).
  { induction l; constructor; [now left | assumption]. }
  destruct (negb (isTrue (preserveLp options)) && (0 <? length (filter hasContent newRows)));
    [|apply Hsame].
  unfold indexed. generalize 0 as s.
  induction (filter hasContent newRows) as [|cells l IH]; intros s; [constructor|].
  cbn [length seq combine map]. constructor; [|apply IH].
  destruct (renumberRow_cases s cells) as [->|(x & rest & -> & ->)].
  - now left.
  - right. now exists (N.of_nat (s + 1)), x, rest.
Qed.

(** An annotated row with content has three cells or more. *)
Lemma annotated_length (c t : nat) (rs : list (list str)) (cells : list str) :
  In cells (map fst (flat_map (annotate toLowerCase options c t) rs)) ->
  hasContent cells = true -> 3 <= length cells.
Proof.
  intros H Hc. apply in_map_iff in H as ([cells' net] & <- & H).
  apply in_flat_map in H as (row & _ & H). cbn [fst] in *.
  destruct row as [|x row].
  - unfold annotate in H. rewrite rowPrice_nil in H.
    change (0 <? 0)%float with false in H.
    destruct (isTrue (removeZeroPriceRows options)); [contradiction|].
    destruct H as [H|[]]. inversion H. subst. discriminate.
  - unfold annotate in H.
    destruct (0 <? rowPrice toLowerCase options c t (x :: row))%float.
    + destruct H as [H|[]]. inversion H. subst. cbn [app length]. rewrite length_app. cbn [length]. lia.
    + destruct (isTrue (removeZeroPriceRows options)); [contradiction|].
      destruct H as [H|[]]. inversion H. subst. cbn [app length]. rewrite length_app. cbn [length]. lia.
Qed.

(** An annotated row with a net price cell has content. *)
Lemma annotated_priced_content (c t : nat) (rs : list (list str)) (cells : list str) :
  In cells (map fst (flat_map (annotate toLowerCase options c t) rs)) ->
  truthy (netCell cells) = true -> hasContent cells = true.
Proof.
  intros H Hn. apply in_map_iff in H as ([cells' net] & <- & H).
  apply in_flat_map in H as (row & _ & H). cbn [fst] in *.
  unfold annotate in H.
  destruct (0 <? rowPrice toLowerCase options c t row)%float.
  - destruct H as [H|[]]. inversion H. apply hasContent_priced, formatPrice_nonBlank.
  - destruct (isTrue (removeZeroPriceRows options)); [contradiction|].
    destruct H as [H|[]]. inversion H. subst. rewrite netCell_app in Hn. discriminate.
Qed.

(** The annotated rows with a net price cell are the rows of positive
    price, each with its two price cells. *)
Lemma annotated_priced (c t : nat) (rs : list (list str)) :
  filter (fun cells => truthy (netCell cells))
    (map fst (flat_map (annotate toLowerCase options c t) rs))
  = map (fun row => row ++ [formatPrice (rowPrice toLowerCase options c t row);
                            formatPrice (rowPrice toLowerCase options c t row * 1.08)%float])
      (filter (fun row => (0 <? rowPrice toLowerCase options c t row)%float) rs).
Proof.
  induction rs as [|row rs IH]; [reflexivity|].
  cbn [flat_map filter]. rewrite map_app, filter_app, IH. unfold annotate.
  destruct (0 <? rowPrice toLowerCase options c t row)%float.
  - cbn [map fst filter]. rewrite netCell_app, formatPrice_truthy. cbn [app map].
    unfold grossOf. now rewrite vat_factor.
  - destruct (isTrue (removeZeroPriceRows options)); [reflexivity|].
    cbn [map fst filter]. now rewrite netCell_app.
Qed.

Lemma pricedNets_annotated (c t : nat) (rs : list (list str)) :
  pricedNets (flat_map (annotate toLowerCase options c t) rs)
  = map (rowPrice toLowerCase options c t)
      (filter (fun row => (0 <? rowPrice toLowerCase options c t row)%float) rs).
Proof.
  induction rs as [|row rs IH]; [reflexivity|].
  cbn [flat_map filter]. rewrite pricedNets_app, IH. unfold annotate, pricedNets.
  destruct (0 <? rowPrice toLowerCase options c t row)%float.
  - cbn [map fst snd filter]. now rewrite netCell_app, formatPrice_truthy.
  - destruct (isTrue (removeZeroPriceRows options)); [reflexivity|].
    cbn [map fst filter]. now rewrite netCell_app.
Qed.

(** The rows of a processed table that carry a net price are, in order, the
    rows that the row loop priced. *)
Lemma priced_rows_of_table (tot : float * float) (table : ExtractedTable) :
  Forall2 pricedFrom
    (rowsWithNetPrice toLowerCase table (fst (processTable toLowerCase options tot table)))
    (pricedSources toLowerCase options table).
Proof.
  unfold rowsWithNetPrice, pricedSources.
  destruct (classifyColumns toLowerCase table) as [[c|] [t|]] eqn:E; try constructor.
  rewrite (processTable_resolved toLowerCase options tot table c t E).
  cbn [fst rows]. unfold annotatedRows. rewrite E.
  set (rs := rowsToProcess toLowerCase options (Some t) table).
  set (A := map fst (flat_map (annotate toLowerCase options c t) rs)).
  apply (proj2 (Forall2_map_right _ _ _ _)).
  assert (H : Forall2 renumbered
                (filter (fun row => truthy (netCell row)) (finalCleanup options A))
                (filter (fun row => truthy (netCell row)) (filter hasContent A))).
  { apply Forall2_filter; [apply finalCleanup_rows|].
    intros out cells Hr Hin. apply filter_In in Hin as [Hin Hc].
    f_equal. apply netCell_renumbered; [exact Hr|].
    now apply (annotated_length c t rs). }
  assert (Hf : filter (fun row => truthy (netCell row)) (filter hasContent A)
               = filter (fun row => truthy (netCell row)) A).
  { rewrite filter_filter. apply filter_ext_in. intros cells Hin.
    destruct (truthy (netCell cells)) eqn:Hn; [|apply andb_false_r].
    now rewrite (annotated_priced_content c t rs cells Hin Hn). }
  rewrite Hf in H. subst A. rewrite annotated_priced in H.
  apply (proj1 (Forall2_map_right _ _ _ _)) in H. exact H.
Qed.

Lemma nets_of_table (table : ExtractedTable) :
  pricedNets (annotatedRows toLowerCase options table)
  = map snd (pricedSources toLowerCase options table).
Proof.
  unfold annotatedRows, pricedSources.
  destruct (classifyColumns toLowerCase table) as [[c|] [t|]]; try reflexivity.
  now rewrite pricedNets_annotated, map_map.
Qed.

(** C1. The rows of the processed tables that received a non-empty net
    price cell are, table by table and in order, the rows that the row
    loop priced, each with its net price and its gross price (net times
    1.08) appended as cells, the first cell at most renumbered.  The two
    totals are the sums of these net prices and of these gross prices,
    accumulated in that order and rounded to two decimals after the
    accumulation; a total that is not negative and below 2^45 (about
    3.5e13) is within 0.01 of the accumulated sum. *)
Theorem totals_are_rounded_sums (rawTables : list ExtractedTable) :
  let tables := mergeCompatibleTables toLowerCase rawTables in
  let r := processTablesWithPricing toLowerCase rawTables options in
  let priced :=
    flat_map (fun p => rowsWithNetPrice toLowerCase (fst p) (snd p))
      (combine tables (processedTables r)) in
  let sources := flat_map (pricedSources toLowerCase options) tables in
  let nets := map snd sources in
  let netSum := sumFloats nets in
  let grossSum := sumFloats (map (fun net => (net * 1.08)%float) nets) in
  length (processedTables r) = length tables
  /\ Forall2 pricedFrom priced sources
  /\ totalNetto (totals r) = roundTo2 netSum
  /\ totalBrutto (totals r) = roundTo2 grossSum
  /\ (nonNegativeBelow 45 netSum -> withinOneCent (totalNetto (totals r)) netSum)
  /\ (nonNegativeBelow 45 grossSum -> withinOneCent (totalBrutto (totals r)) grossSum).
Proof.
  intros tables r priced sources nets netSum grossSum.
  assert (Hn : nets = flat_map (fun table => pricedNets (annotatedRows toLowerCase options table))
                        tables).
  { subst nets sources. rewrite map_flat_map. apply flat_map_ext.
    intros table. symmetry. apply nets_of_table. }
  assert (Ht : totalNetto (totals r) = roundTo2 netSum
               /\ totalBrutto (totals r) = roundTo2 grossSum).
  { subst r netSum grossSum. rewrite processTablesWithPricing_unfold. fold tables.
    cbn [totals totalNetto totalBrutto]. rewrite Hn. split; [reflexivity|].
    apply (f_equal roundTo2), (f_equal sumFloats), map_ext.
    intros net. unfold grossOf. now rewrite vat_factor. }
  destruct Ht as [Htn Htb].
  split; [|split; [|split; [exact Htn|split; [exact Htb|split]]]].
  - subst r. rewrite processTablesWithPricing_unfold. apply length_map.
  - subst priced r. rewrite processTablesWithPricing_unfold. fold tables.
    cbn [processedTables]. rewrite combine_map_same, flat_map_map. cbn [fst snd].
    apply Forall2_flat_map. intros table _. apply priced_rows_of_table.
  - intros H. rewrite Htn. now apply roundTo2_withinOneCent.
  - intros H. rewrite Htb. now apply roundTo2_withinOneCent.
Qed.

End RowsAndTotals.

Lemma totals_are_rounded_sums_witness :
  let r := processTablesWithPricing toLowerCaseLatin [oakTable] noOptions in
  let netSum :=
    sumFloats
      (map snd
         (flat_map (pricedSources toLowerCaseLatin noOptions)
            (mergeCompatibleTables toLowerCaseLatin [oakTable]))) in
  nonNegativeBelow 45 netSum /\ withinOneCent (totalNetto (totals r)) netSum.
Proof.
  intros r netSum.
  assert (Hb : nonNegativeBelow 45 netSum).
  { eexists. split; [vm_compute; reflexivity|].
    split; [apply Z.leb_le | apply Z.ltb_lt]; vm_compute; reflexivity. }
  split; [exact Hb|].
  destruct (totals_are_rounded_sums toLowerCaseLatin noOptions [oakTable])
    as (_ & _ & _ & _ & H & _).
  exact (H Hb).
Defined.

(** ** Header rows *)

(** C6, as stated, fails: the output row 1, Uo with its two empty price
    cells is judged a header row against the renamed header list of its own
    output table. *)
Lemma header_purge_fails_on_renamed_headers :
  let r := processTablesWithPricing toLowerCaseLatin [removalTable] noOptions in
  exists out row,
    In out (processedTables r) /\ In row (rows out)
    /\ isHeaderRow toLowerCaseLatin row (headers out) = true.
Proof.
  intros r.
  exists (nth 0 (processedTables r) removalTable).
  exists (nth 0 (rows (nth 0 (processedTables r) removalTable)) []).
  vm_compute. split; [left; reflexivity|]. split; [left; reflexivity | reflexivity].
Qed.

Section HeaderPurge.

Variable toLowerCase : str -> str.
Variable options : ProcessingOptions.

Lemma processTable_rows_origin (tot : float * float) (table : ExtractedTable) (row' : list str) :
  In row' (rows (fst (processTable toLowerCase options tot table))) ->
  exists row,
    In row (rows table)
    /\ isHeaderRow toLowerCase row (headers table) = false
    /\ (row' = row
        \/ exists n g, length row' = length row + 2 /\ tl row' = tl (row ++ [n; g])).
Proof.
  destruct (classifyColumns toLowerCase table) as [bc bt] eqn:E.
  destruct bc as [c|]; [destruct bt as [t|]|].
  - rewrite (processTable_resolved toLowerCase options tot table c t E).
    cbn [fst rows]. unfold annotatedRows. rewrite E. intros H.
    apply finalCleanup_origin in H as (cells & Hcells & Hrow').
    apply annotate_origin in Hcells as (row & n & g & Hrow & ->).
    apply rowsToProcess_origin in Hrow as [Hin Hh].
    exists row. split; [exact Hin|]. split; [exact Hh|]. right. exists n, g.
    destruct Hrow' as [->|(k & x & rest & E' & ->)].
    + split; [|reflexivity]. rewrite length_app. reflexivity.
    + rewrite E'. cbn [tl length]. split; [|reflexivity].
      apply (f_equal (@length str)) in E'. rewrite length_app in E'. cbn [length] in E'. lia.
  - destruct (processTable_unresolved toLowerCase options tot table) as [-> _];
      [rewrite E; now right|].
    cbn [fst rows withRows]. intros H. apply rowsToProcess_origin in H as [Hin Hh].
    exists row'. split; [exact Hin|]. split; [exact Hh | now left].
  - destruct (processTable_unresolved toLowerCase options tot table) as [-> _];
      [rewrite E; now left|].
    cbn [fst rows withRows]. intros H. apply rowsToProcess_origin in H as [Hin Hh].
    exists row'. split; [exact Hin|]. split; [exact Hh | now left].
Qed.

(** C6, amended. Every row of a processed table comes from a row of the
    merged table it was made from that [isHeaderRow] does not judge a
    header row against the header list of that merged table: it is that
    row, or that row with the two price cells appended and the first cell
    possibly renumbered.  When the table is returned unpriced (a column
    unresolved) its header list is unchanged and its rows are such rows
    themselves, so no output row is a header row against the output header
    list. *)
Theorem output_rows_stem_from_non_header_rows (rawTables : list ExtractedTable)
    (out : ExtractedTable) :
  In out (processedTables (processTablesWithPricing toLowerCase rawTables options)) ->
  exists table,
    In table (mergeCompatibleTables toLowerCase rawTables)
    /\ (forall row', In row' (rows out) ->
          exists row,
            In row (rows table)
            /\ isHeaderRow toLowerCase row (headers table) = false
            /\ (row' = row
                \/ exists n g, length row' = length row + 2 /\ tl row' = tl (row ++ [n; g])))
    /\ (fst (classifyColumns toLowerCase table) = None
        \/ snd (classifyColumns toLowerCase table) = None ->
        headers out = headers table
        /\ forall row', In row' (rows out) ->
             isHeaderRow toLowerCase row' (headers out) = false).
Proof.
  rewrite processTablesWithPricing_unfold. cbn [processedTables].
  intros H. apply in_map_iff in H as (table & <- & Hin).
  exists table. split; [exact Hin|]. split.
  - intros row'. apply processTable_rows_origin.
  - intros Hu.
    destruct (processTable_unresolved toLowerCase options zeroTotals table Hu) as [-> _].
    cbn [fst headers rows withRows]. split; [reflexivity|].
    intros row' H. now apply rowsToProcess_origin in H as [_ Hh].
Qed.

End HeaderPurge.

Lemma output_rows_stem_from_non_header_rows_witness :
  let out := nth 0 (processedTables
                      (processTablesWithPricing toLowerCaseLatin [removalTable] noOptions))
                 removalTable in
  exists table,
    In table (mergeCompatibleTables toLowerCaseLatin [removalTable])
    /\ (forall row', In row' (rows out) ->
          exists row,
            In row (rows table)
            /\ isHeaderRow toLowerCaseLatin row (headers table) = false
            /\ (row' = row
                \/ exists n g, length row' = length row + 2 /\ tl row' = tl (row ++ [n; g])))
    /\ (fst (classifyColumns toLowerCaseLatin table) = None
        \/ snd (classifyColumns toLowerCaseLatin table) = None ->
        headers out = headers table
        /\ forall row', In row' (rows out) ->
             isHeaderRow toLowerCaseLatin row' (headers out) = false).
Proof.
  intros out.
  apply (output_rows_stem_from_non_header_rows toLowerCaseLatin noOptions [removalTable] out).
  vm_compute. left. reflexivity.
Defined.

(** ** Column selection *)

(** C5, as stated, fails: in the table without headers whose first row
    leaves column 0 empty, columns 0 and 1 tie for the circumference score;
    the scan in ascending index order takes column 0, the program takes
    column 1, whose entry entered the map first. *)
Lemma selection_is_not_in_ascending_index_order :
  let m := scoreColumns toLowerCaseLatin staggeredTable in
  bestCircIdx (selectBest (ascendingIndexOrder m)) = Some 0
  /\ bestCircIdx (selectBest m) = Some 1.
Proof. vm_compute. split; reflexivity. Qed.

Lemma track_step (f : score -> Z) (done : columnScoresT) (st : option nat * Z)
    (e : nat * score) :
  trackInvariant f done st -> trackInvariant f (done ++ [e]) (track f st e).
Proof.
  destruct st as [[i|] mx]; unfold trackInvariant, track; cbn [fst snd].
  - intros (pre & sc & post & -> & -> & Hpos & Hpre & Hpost).
    destruct (f sc <? f (snd e))%Z eqn:E; cbn [fst snd].
    + apply Z.ltb_lt in E.
      exists (pre ++ (i, sc) :: post), (snd e), [].
      split; [now destruct e|]. split; [reflexivity|]. split; [lia|]. split.
      * intros e' H. apply in_app_or in H as [H|[<-|H]].
        -- specialize (Hpre e' H). lia.
        -- cbn [snd]. lia.
        -- specialize (Hpost e' H). lia.
      * intros e' [].
    + apply Z.ltb_ge in E.
      exists pre, sc, (post ++ [e]).
      split; [now rewrite <- app_assoc|]. split; [reflexivity|]. split; [exact Hpos|].
      split; [exact Hpre|].
      intros e' H. apply in_app_or in H as [H|[<-|[]]]; [now apply Hpost | exact E].
  - intros [-> Hall].
    destruct (0 <? f (snd e))%Z eqn:E; cbn [fst snd].
    + apply Z.ltb_lt in E.
      exists done, (snd e), [].
      split; [now destruct e|]. split; [reflexivity|]. split; [exact E|]. split.
      * intros e' H. specialize (Hall e' H). lia.
      * intros e' [].
    + apply Z.ltb_ge in E. split; [reflexivity|].
      intros e' H. apply in_app_or in H as [H|[<-|[]]]; [now apply Hall | exact E].
Qed.

Lemma track_fold (f : score -> Z) (m : columnScoresT) :
  forall done st,
  trackInvariant f done st -> trackInvariant f (done ++ m) (fold_left (track f) m st).
Proof.
  induction m as [|e m IH]; intros done st H.
  - now rewrite app_nil_r.
  - cbn [fold_left]. replace (done ++ e :: m) with ((done ++ [e]) ++ m)
      by now rewrite <- app_assoc.
    apply IH. now apply track_step.
Qed.

Lemma trackInvariant_firstMaximum (f : score -> Z) (m : columnScoresT) (st : option nat * Z) :
  trackInvariant f m st -> firstMaximum f m (fst st).
Proof.
  unfold trackInvariant, firstMaximum. destruct (fst st) as [i|].
  - intros (pre & sc & post & H1 & _ & H2 & H3 & H4). now exists pre, sc, post.
  - now intros [_ H].
Qed.

Lemma selectBest_circ (m : columnScoresT) :
  forall s,
  (bestCircIdx (fold_left selectStep m s), maxCircScore (fold_left selectStep m s))
  = fold_left (track circ) m (bestCircIdx s, maxCircScore s).
Proof.
  induction m as [|[idx sc] m IH]; intros s; [reflexivity|].
  cbn [fold_left]. rewrite IH. f_equal.
  unfold selectStep, track. cbn [fst snd].
  destruct (maxCircScore s <? circ sc)%Z; cbn [maxTreatScore bestCircIdx maxCircScore];
    now destruct (maxTreatScore s <? treat sc)%Z.
Qed.

Lemma selectBest_treat (m : columnScoresT) :
  forall s,
  (bestTreatIdx (fold_left selectStep m s), maxTreatScore (fold_left selectStep m s))
  = fold_left (track treat) m (bestTreatIdx s, maxTreatScore s).
Proof.
  induction m as [|[idx sc] m IH]; intros s; [reflexivity|].
  cbn [fold_left]. rewrite IH. f_equal.
  unfold selectStep, track. cbn [fst snd].
  destruct (maxCircScore s <? circ sc)%Z; cbn [maxTreatScore bestTreatIdx];
    now destruct (maxTreatScore s <? treat sc)%Z.
Qed.

(** The selection loop takes, for each role, the first entry of the map
    with the greatest positive score. *)
Lemma selectBest_firstMaximum (m : columnScoresT) :
  firstMaximum circ m (bestCircIdx (selectBest m))
  /\ firstMaximum treat m (bestTreatIdx (selectBest m)).
Proof.
  unfold selectBest. split.
  - change (bestCircIdx ?s) with (fst (bestCircIdx s, maxCircScore s)).
    rewrite selectBest_circ. apply trackInvariant_firstMaximum.
    apply (track_fold circ m [] (None, 0%Z)). split; [reflexivity | intros e []].
  - change (bestTreatIdx ?s) with (fst (bestTreatIdx s, maxTreatScore s)).
    rewrite selectBest_treat. apply trackInvariant_firstMaximum.
    apply (track_fold treat m [] (None, 0%Z)). split; [reflexivity | intros e []].
Qed.

(** The order of the score map: the keys in the order of their creation. *)

Lemma existsb_on_map {A B : Type} (p : B -> bool) (f : A -> B) (l : list A) :
  existsb p (map f l) = existsb (fun x => p (f x)) l.
Proof. induction l as [|x l IH]; [reflexivity|]. cbn. now rewrite IH. Qed.

Lemma keys_getScore (m : columnScoresT) (idx : nat) :
  map fst (getScore m idx) = addKey (map fst m) idx.
Proof.
  unfold getScore, addKey, hasKey. rewrite existsb_on_map.
  destruct (existsb (fun e => fst e =? idx) m); [reflexivity|].
  now rewrite map_app.
Qed.

Lemma keys_updateScore (idx : nat) (f : score -> score) (m : columnScoresT) :
  map fst (updateScore idx f m) = map fst m.
Proof.
  unfold updateScore. rewrite map_map. apply map_ext.
  intros e. now destruct (fst e =? idx).
Qed.

Lemma addKey_present (keys : list nat) (idx : nat) : In idx keys -> addKey keys idx = keys.
Proof.
  intros H. unfold addKey.
  replace (existsb (fun k => k =? idx) keys) with true; [reflexivity|].
  symmetry. apply existsb_exists. exists idx. split; [exact H | apply Nat.eqb_refl].
Qed.

Lemma addKey_next (n : nat) : addKey (seq 0 n) n = seq 0 (S n).
Proof.
  unfold addKey.
  replace (existsb (fun k => k =? n) (seq 0 n)) with false; [now rewrite seq_S|].
  symmetry. apply not_true_is_false. intros H.
  apply existsb_exists in H as (k & Hk & E). apply Nat.eqb_eq in E. subst k.
  apply in_seq in Hk. lia.
Qed.

Lemma NoDup_addKey (keys : list nat) (idx : nat) : NoDup keys -> NoDup (addKey keys idx).
Proof.
  intros H. unfold addKey.
  destruct (existsb (fun k => k =? idx) keys) eqn:E; [exact H|].
  apply NoDup_app; [exact H | repeat constructor; intros [] |].
  intros k Hk [<-|[]].
  assert (existsb (fun k' => k' =? idx) keys = true); [|congruence].
  apply existsb_exists. exists idx. split; [exact Hk | apply Nat.eqb_refl].
Qed.

Lemma existsb_snoc {A : Type} (p : A -> bool) (l : list A) (x : A) :
  existsb p (l ++ [x]) = existsb p l || p x.
Proof. rewrite existsb_app. cbn. now rewrite orb_false_r. Qed.

(** The keys after entries were asked for one by one: the keys before, then
    the new ones where they first stand. *)
Lemma fold_addKey (l : list nat) :
  forall keys,
  fold_left addKey l keys
  = keys ++ filter (fun j => negb (existsb (fun k => Nat.eqb k j) keys)) (firstOccurrences l).
Proof.
  induction l as [|k l IH]; intros keys.
  - cbn. now rewrite app_nil_r.
  - cbn [fold_left firstOccurrences filter]. rewrite IH. unfold addKey.
    destruct (existsb (fun k' => Nat.eqb k' k) keys) eqn:E; cbn [negb].
    + f_equal. rewrite filter_filter. apply filter_ext_in. intros j _.
      destruct (Nat.eqb j k) eqn:Ej; cbn [negb andb]; [|reflexivity].
      apply Nat.eqb_eq in Ej. subst j. now rewrite E.
    + rewrite <- app_assoc. cbn [app]. f_equal. f_equal.
      rewrite filter_filter. apply filter_ext_in. intros j _.
      rewrite existsb_snoc, negb_orb, (Nat.eqb_sym k j). apply andb_comm.
Qed.

Lemma map_fst_indexed {A : Type} (l : list A) : map fst (indexed l) = seq 0 (length l).
Proof.
  unfold indexed. generalize 0 as s.
  induction l as [|x l IH]; intros s; [reflexivity|].
  cbn [length seq combine map fst]. now rewrite IH.
Qed.

Lemma filter_all {A : Type} (p : A -> bool) (l : list A) :
  (forall x, p x = true) -> filter p l = l.
Proof.
  intros H. induction l as [|x l IH]; [reflexivity|]. cbn. now rewrite H, IH.
Qed.

Lemma find_unique (m : columnScoresT) :
  NoDup (map fst m) ->
  forall pre i sc post, m = pre ++ (i, sc) :: post ->
  find (fun e => Nat.eqb (fst e) i) m = Some (i, sc).
Proof.
  intros Hnd pre i sc post ->. induction pre as [|e pre IH].
  - cbn. now rewrite Nat.eqb_refl.
  - cbn [app find]. cbn [app map] in Hnd. inversion Hnd as [|k ks Hk Hks]. subst.
    destruct (Nat.eqb (fst e) i) eqn:E.
    + apply Nat.eqb_eq in E. exfalso. apply Hk. rewrite map_app. apply in_or_app.
      right. left. now rewrite E.
    + now apply IH.
Qed.

Lemma scoreOf_In (f : score -> Z) (m : columnScoresT) (e : nat * score) :
  NoDup (map fst m) -> In e m -> scoreOf f m (fst e) = f (snd e).
Proof.
  intros Hnd H. destruct e as [i sc].
  apply in_split in H as (pre & post & E). unfold scoreOf. cbn [fst snd].
  now rewrite (find_unique m Hnd pre i sc post E).
Qed.

(** The first maximum of the map, said of the columns in their order. *)
Lemma firstMaximum_firstGreatest (f : score -> Z) (m : columnScoresT) (best : option nat) :
  NoDup (map fst m) ->
  firstMaximum f m best -> firstGreatest (map fst m) (scoreOf f m) best.
Proof.
  intros Hnd. unfold firstMaximum, firstGreatest. destruct best as [i|].
  - intros (pre & sc & post & E & Hpos & Hpre & Hpost).
    assert (Hi : scoreOf f m i = f sc).
    { apply (scoreOf_In f m (i, sc) Hnd). rewrite E. apply in_or_app. right. now left. }
    exists (map fst pre), (map fst post). rewrite Hi.
    split; [rewrite E, map_app; reflexivity|]. split; [exact Hpos|]. split.
    + intros j Hj. apply in_map_iff in Hj as (e & <- & He).
      rewrite (scoreOf_In f m e Hnd); [now apply Hpre|].
      rewrite E. apply in_or_app. now left.
    + intros j Hj. apply in_map_iff in Hj as (e & <- & He).
      rewrite (scoreOf_In f m e Hnd); [now apply Hpost|].
      rewrite E. apply in_or_app. right. now right.
  - intros H j Hj. apply in_map_iff in Hj as (e & <- & He).
    rewrite (scoreOf_In f m e Hnd); [now apply H | exact He].
Qed.

Section ScoreMap.

Variable toLowerCase : str -> str.

Lemma keys_scoreHeader (m : columnScoresT) (idx : nat) (header : str) :
  map fst (scoreHeader toLowerCase m (idx, header)) = addKey (map fst m) idx.
Proof.
  unfold scoreHeader.
  repeat match goal with
         | |- context [if ?b then _ else _] => destruct b
         end;
    rewrite ?keys_updateScore; apply keys_getScore.
Qed.

Lemma keys_scoreCell (m : columnScoresT) (idx : nat) (cell : str) :
  map fst (scoreCell toLowerCase m (idx, cell))
  = if truthy cell then addKey (map fst m) idx else map fst m.
Proof.
  unfold scoreCell. destruct (truthy cell); cbn [negb]; [|reflexivity].
  destruct (search leadingNumberPattern None (trim cell)) as [numberMatch|].
  - repeat match goal with
           | |- context [if ?b then _ else _] => destruct b
           end;
      rewrite ?keys_updateScore; apply keys_getScore.
  - repeat match goal with
           | |- context [if ?b then _ else _] => destruct b
           end;
      rewrite ?keys_updateScore; apply keys_getScore.
Qed.

Lemma keys_headers (hs : list str) :
  forall s m,
  map fst m = seq 0 s ->
  map fst (fold_left (scoreHeader toLowerCase) (combine (seq s (length hs)) hs) m)
  = seq 0 (s + length hs).
Proof.
  induction hs as [|h hs IH]; intros s m Hm.
  - cbn. now rewrite Nat.add_0_r.
  - cbn [length seq combine fold_left]. rewrite (IH (S s)).
    + f_equal. lia.
    + now rewrite keys_scoreHeader, Hm, addKey_next.
Qed.

Lemma keys_row_within (n : nat) (row : list str) :
  forall s m,
  map fst m = seq 0 n -> s + length row <= n ->
  map fst (fold_left (scoreCell toLowerCase) (combine (seq s (length row)) row) m) = seq 0 n.
Proof.
  induction row as [|cell row IH]; intros s m Hm Hn; [exact Hm|].
  cbn [length seq combine fold_left]. cbn [length] in Hn. apply IH; [|lia].
  rewrite keys_scoreCell. destruct (truthy cell); [|exact Hm].
  rewrite Hm. apply addKey_present. apply in_seq. lia.
Qed.

Lemma keys_rows_within (n : nat) (rs : list (list str)) :
  forall m,
  map fst m = seq 0 n ->
  (forall row, In row rs -> length row <= n) ->
  map fst (fold_left (fun m row => fold_left (scoreCell toLowerCase) (indexed row) m) rs m)
  = seq 0 n.
Proof.
  induction rs as [|row rs IH]; intros m Hm Hlen; [exact Hm|].
  cbn [fold_left]. apply IH.
  - unfold indexed. apply keys_row_within; [exact Hm|]. cbn. apply Hlen. now left.
  - intros row' H. apply Hlen. now right.
Qed.

Lemma NoDup_keys_row (row : list (nat * str)) :
  forall m, NoDup (map fst m) -> NoDup (map fst (fold_left (scoreCell toLowerCase) row m)).
Proof.
  induction row as [|[idx cell] row IH]; intros m H; [exact H|].
  cbn [fold_left]. apply IH. rewrite keys_scoreCell.
  destruct (truthy cell); [now apply NoDup_addKey | exact H].
Qed.

Lemma NoDup_keys_headers (hs : list (nat * str)) :
  forall m, NoDup (map fst m) -> NoDup (map fst (fold_left (scoreHeader toLowerCase) hs m)).
Proof.
  induction hs as [|[idx h] hs IH]; intros m H; [exact H|].
  cbn [fold_left]. apply IH. rewrite keys_scoreHeader. now apply NoDup_addKey.
Qed.

Lemma NoDup_keys_rows (rs : list (list str)) :
  forall m,
  NoDup (map fst m) ->
  NoDup (map fst (fold_left (fun m row => fold_left (scoreCell toLowerCase) (indexed row) m)
                    rs m)).
Proof.
  induction rs as [|row rs IH]; intros m H; [exact H|].
  cbn [fold_left]. apply IH. now apply NoDup_keys_row.
Qed.

Lemma keys_fold_scoreHeader (hs : list (nat * str)) :
  forall m,
  map fst (fold_left (scoreHeader toLowerCase) hs m)
  = fold_left addKey (map fst hs) (map fst m).
Proof.
  induction hs as [|[idx h] hs IH]; intros m; [reflexivity|].
  cbn [fold_left map fst]. now rewrite IH, keys_scoreHeader.
Qed.

Lemma keys_fold_scoreCell (row : list (nat * str)) :
  forall m,
  map fst (fold_left (scoreCell toLowerCase) row m)
  = fold_left addKey (map fst (filter (fun e => truthy (snd e)) row)) (map fst m).
Proof.
  induction row as [|[idx cell] row IH]; intros m; [reflexivity|].
  cbn [fold_left filter snd]. rewrite IH, keys_scoreCell.
  now destruct (truthy cell).
Qed.

Lemma keys_fold_rows (rs : list (list str)) :
  forall m,
  map fst (fold_left (fun m row => fold_left (scoreCell toLowerCase) (indexed row) m) rs m)
  = fold_left addKey (flat_map filledColumns rs) (map fst m).
Proof.
  induction rs as [|row rs IH]; intros m; [reflexivity|].
  cbn [fold_left flat_map]. rewrite IH, keys_fold_scoreCell, fold_left_app. reflexivity.
Qed.

(** The keys of the score map stand in the order of entry. *)
Lemma keys_scoreColumns (table : ExtractedTable) :
  map fst (scoreColumns toLowerCase table) = entryOrder table.
Proof.
  unfold scoreColumns, entryOrder. cbv zeta. rewrite keys_fold_rows.
  assert (Hh : map fst (if 0 <? length (headers table)
                        then fold_left (scoreHeader toLowerCase) (indexed (headers table)) []
                        else [])
               = fold_left addKey (seq 0 (length (headers table))) []).
  { destruct (headers table) as [|h hs] eqn:E; [reflexivity|].
    rewrite <- E. replace (0 <? length (headers table)) with true by (rewrite E; reflexivity).
    now rewrite keys_fold_scoreHeader, map_fst_indexed. }
  transitivity (fold_left addKey (flat_map filledColumns (rows table))
                  (fold_left addKey (seq 0 (length (headers table))) []));
    [f_equal; exact Hh|].
  rewrite <- fold_left_app, fold_addKey. cbn [app].
  now apply filter_all.
Qed.

Lemma NoDup_keys (table : ExtractedTable) : NoDup (map fst (scoreColumns toLowerCase table)).
Proof.
  unfold scoreColumns. apply NoDup_keys_rows.
  destruct (0 <? length (headers table)); [|constructor].
  apply NoDup_keys_headers. constructor.
Qed.

(** C5, amended. The columns stand in the score map in the order of
    their entry: the header positions in ascending order, then each
    further column at its first non-empty cell, the rows taken in order
    and each row from left to right.  For each of the two roles the
    classifier selects the first column, in that order, whose score is the
    greatest of all, provided it is positive (strict comparison against a
    maximum that starts at zero: a tie keeps the earlier entry, a column
    without evidence is never selected and the index stays unresolved when
    no score is positive).  Every column has one entry in the map.  The
    order of entry is the ascending index order whenever the header list
    is not empty and no row is longer than it. *)
Theorem selection_takes_first_maximum_of_score_map (table : ExtractedTable) :
  let m := scoreColumns toLowerCase table in
  map fst m = entryOrder table
  /\ firstGreatest (entryOrder table) (scoreOf circ m) (bestCircIdx (selectBest m))
  /\ firstGreatest (entryOrder table) (scoreOf treat m) (bestTreatIdx (selectBest m))
  /\ firstMaximum circ m (bestCircIdx (selectBest m))
  /\ firstMaximum treat m (bestTreatIdx (selectBest m))
  /\ NoDup (map fst m)
  /\ (headers table <> [] ->
      (forall row, In row (rows table) -> length row <= length (headers table)) ->
      entryOrder table = seq 0 (length (headers table))).
Proof.
  intros m. pose proof (keys_scoreColumns table) as Hk. fold m in Hk.
  pose proof (NoDup_keys table) as Hnd. fold m in Hnd.
  destruct (selectBest_firstMaximum m) as [Hc Ht].
  split; [exact Hk|]. rewrite <- Hk.
  split; [now apply firstMaximum_firstGreatest|].
  split; [now apply firstMaximum_firstGreatest|].
  split; [exact Hc|]. split; [exact Ht|]. split; [exact Hnd|].
  intros Hne Hlen. subst m. unfold scoreColumns. apply keys_rows_within; [|exact Hlen].
  destruct (headers table) as [|h hs] eqn:E; [congruence|].
  rewrite <- E. replace (0 <? length (headers table)) with true
    by (rewrite E; reflexivity).
  unfold indexed. now rewrite (keys_headers (headers table) 0 []).
Qed.

End ScoreMap.

Lemma selection_takes_first_maximum_of_score_map_witness :
  entryOrder oakTable = seq 0 (length (headers oakTable)).
Proof.
  destruct (selection_takes_first_maximum_of_score_map toLowerCaseLatin oakTable)
    as (_ & _ & _ & _ & _ & _ & H).
  apply H.
  - discriminate.
  - intros row [<-|[]]. cbn. lia.
Defined.

(** In the table of the counterexample column 1 enters the map before
    column 0, and is the one selected. *)
Example entry_order_of_the_staggered_table :
  entryOrder staggeredTable = [1; 0]
  /\ bestCircIdx (selectBest (scoreColumns toLowerCaseLatin staggeredTable)) = Some 1.
Proof. vm_compute. split; reflexivity. Qed.

(** ** Header renaming *)

(** C8, as stated, fails: the renamer appends the two value labels at each
    application, so renaming the already renamed headers of the example
    twice does not give the same list as renaming them once. *)
Lemma renaming_twice_appends_again :
  let canonical := renameHeaders toLowerCaseLatin 2 3 (headers oakTable) in
  renameHeaders toLowerCaseLatin 2 3 (renameHeaders toLowerCaseLatin 2 3 canonical)
  <> renameHeaders toLowerCaseLatin 2 3 canonical.
Proof.
  intros canonical H. apply (f_equal (@length str)) in H. vm_compute in H. discriminate.
Qed.

Lemma mapWithIndexFrom_cons {A B : Type} (s : nat) (f : nat -> A -> B) (x : A) (l : list A) :
  mapWithIndexFrom s f (x :: l) = f s x :: mapWithIndexFrom (S s) f l.
Proof. reflexivity. Qed.

Lemma mapWithIndexFrom_length {A B : Type} (f : nat -> A -> B) (l : list A) :
  forall s, length (mapWithIndexFrom s f l) = length l.
Proof.
  induction l as [|x l IH]; intros s; [reflexivity|].
  rewrite mapWithIndexFrom_cons. cbn [length]. now rewrite IH.
Qed.

Lemma mapWithIndexFrom_app {A B : Type} (f : nat -> A -> B) (a b : list A) :
  forall s,
  mapWithIndexFrom s f (a ++ b)
  = mapWithIndexFrom s f a ++ mapWithIndexFrom (s + length a) f b.
Proof.
  induction a as [|x a IH]; intros s.
  - cbn [app length]. now rewrite Nat.add_0_r.
  - cbn [app length]. rewrite !mapWithIndexFrom_cons, IH. cbn [app].
    now rewrite Nat.add_succ_r.
Qed.

Lemma mapWithIndexFrom_ext {A B : Type} (f g : nat -> A -> B) (l : list A) :
  forall s,
  (forall i v, s <= i -> f i v = g i v) ->
  mapWithIndexFrom s f l = mapWithIndexFrom s g l.
Proof.
  induction l as [|x l IH]; intros s H; [reflexivity|].
  rewrite !mapWithIndexFrom_cons. rewrite (H s x) by lia. f_equal.
  apply IH. intros i v Hi. apply H. lia.
Qed.

Lemma mapWithIndexFrom_id {A : Type} (f : nat -> A -> A) (l : list A) (s : nat) :
  (forall i v, s <= i -> f i v = v) -> mapWithIndexFrom s f l = l.
Proof.
  revert s. induction l as [|x l IH]; intros s H; [reflexivity|].
  rewrite mapWithIndexFrom_cons. rewrite (H s x) by lia. f_equal.
  apply IH. intros i v Hi. apply H. lia.
Qed.

Lemma mapWithIndexFrom_compose {A B C : Type} (f : nat -> B -> C) (g : nat -> A -> B)
    (l : list A) :
  forall s,
  mapWithIndexFrom s f (mapWithIndexFrom s g l)
  = mapWithIndexFrom s (fun i v => f i (g i v)) l.
Proof.
  induction l as [|x l IH]; intros s; [reflexivity|].
  rewrite !mapWithIndexFrom_cons. now rewrite IH.
Qed.

Lemma renameAt_pointwise (label : str) (l : list str) :
  forall idx s,
  renameAt idx label l
  = mapWithIndexFrom s (fun i v => if (i =? s + idx) && truthy v then label else v) l.
Proof.
  unfold renameAt.
  induction l as [|x l IH]; intros idx s.
  - now destruct idx.
  - rewrite mapWithIndexFrom_cons. destruct idx as [|idx].
    + cbn [nth_error]. rewrite Nat.add_0_r, Nat.eqb_refl. cbn [andb].
      rewrite mapWithIndexFrom_id.
      * now destruct (truthy x).
      * intros i v Hi. replace (i =? s) with false; [reflexivity|].
        symmetry. apply Nat.eqb_neq. lia.
    + cbn [nth_error]. replace (s =? s + S idx) with false
        by (symmetry; apply Nat.eqb_neq; lia).
      cbn [andb]. specialize (IH idx (S s)).
      replace (S s + idx) with (s + S idx) in IH by lia. rewrite <- IH.
      destruct (nth_error l idx) as [h|]; [|reflexivity].
      now destruct (truthy h).
Qed.

Section Relabelling.

Variable toLowerCase : str -> str.

Lemma relabelHeaders_pointwise (c t : nat) (hs : list str) :
  relabelHeaders toLowerCase c t hs = mapWithIndexFrom 0 (relabelCell toLowerCase c t) hs.
Proof.
  unfold relabelHeaders.
  rewrite (renameAt_pointwise circLabel hs c 0).
  rewrite (renameAt_pointwise treatLabel _ t 0).
  rewrite mapWithIndexFrom_compose. cbn [Nat.add].
  destruct hs as [|v0 [|v1 hs]].
  - reflexivity.
  - rewrite !mapWithIndexFrom_cons. cbn [mapWithIndexFrom length seq combine map].
    unfold renameLp, renameSpecies, relabelCell. cbn [setNth].
    match goal with |- context [if ?b then lpLabel :: _ else _] => now destruct b end.
  - rewrite !mapWithIndexFrom_cons.
    unfold renameLp, relabelCell at 1. cbn [setNth].
    match goal with
    | |- context [if ?b then lpLabel :: _ else _] => destruct b
    end;
      unfold renameSpecies, relabelCell at 1; cbn [setNth];
      (destruct (negb (c =? 1) && negb (t =? 1));
       [match goal with
        | |- context [if ?b then _ :: speciesLabel :: _ else _] => destruct b
        end|]);
      (f_equal; f_equal; apply mapWithIndexFrom_ext; intros i v Hi;
       unfold relabelCell; destruct i as [|[|i]]; [lia | lia | reflexivity]).
Qed.

(** The labels are not empty. *)
Lemma labels_truthy :
  truthy circLabel = true /\ truthy treatLabel = true
  /\ truthy lpLabel = true /\ truthy speciesLabel = true.
Proof. repeat split. Qed.

(** The relabelling of one header, with the tests and the labels abstract:
    a header at a position other than 0, then the header at position 0. *)
Lemma relabel_once_more (P : str -> bool) (bc bt s : bool) (LC LT LS v : str) :
  truthy LC = true -> truthy LT = true -> truthy LS = true ->
  let R := fun v =>
    let v1 := if bc && truthy v then LC else v in
    let v2 := if bt && truthy v1 then LT else v1 in
    if s then (if P v2 then LS else v2) else v2 in
  (s = true -> bc = false /\ bt = false) ->
  R (R v) = R v.
Proof.
  intros HC HT HS R Hs. subst R. cbv beta zeta.
  destruct s; [destruct (Hs eq_refl) as [-> ->]|]; [|destruct bc, bt]; crush_ifs.
Qed.

Lemma relabel_first_twice_more (P : str -> bool) (bc bt : bool) (LC LT LP v : str) :
  truthy LC = true -> truthy LT = true -> truthy LP = true ->
  let R := fun v =>
    let v1 := if bc && truthy v then LC else v in
    let v2 := if bt && truthy v1 then LT else v1 in
    if P v2 then LP else v2 in
  R (R (R v)) = R (R v).
Proof.
  intros HC HT HP R. subst R. cbv beta zeta.
  destruct bc, bt; crush_ifs.
Qed.

(** From position 1 on, relabelling a header a second time changes nothing. *)
Lemma relabelCell_idempotent (c t i : nat) (v : str) :
  1 <= i ->
  relabelCell toLowerCase c t i (relabelCell toLowerCase c t i v)
  = relabelCell toLowerCase c t i v.
Proof.
  intros Hi. destruct labels_truthy as (HC & HT & HL & HS).
  destruct i as [|[|i]]; [lia | |].
  - apply (relabel_once_more
             (fun v => includes (toLowerCase v) (js "gatun")
                       || includes (toLowerCase v) (js "nazwa")
                       || str_eqb (toLowerCase v) [])
             (1 =? c) (1 =? t) (negb (c =? 1) && negb (t =? 1))
             circLabel treatLabel speciesLabel v HC HT HS).
    intros H. apply andb_true_iff in H as [H1 H2].
    apply negb_true_iff in H1, H2. rewrite (Nat.eqb_sym 1 c), (Nat.eqb_sym 1 t).
    now split.
  - apply (relabel_once_more (fun _ => false) (S (S i) =? c) (S (S i) =? t) false
             circLabel treatLabel speciesLabel v HC HT HS).
    discriminate.
Qed.

(** At position 0, where the ordinal label can replace an empty header that
    marks a resolved column, the third relabelling changes nothing. *)
Lemma relabelCell_stable (c t i : nat) (v : str) :
  relabelCell toLowerCase c t i
    (relabelCell toLowerCase c t i (relabelCell toLowerCase c t i v))
  = relabelCell toLowerCase c t i (relabelCell toLowerCase c t i v).
Proof.
  destruct i as [|i]; [|now rewrite !relabelCell_idempotent by lia].
  destruct labels_truthy as (HC & HT & HL & HS).
  apply (relabel_first_twice_more
           (fun v => includes (toLowerCase v) (js "lp") || str_eqb (toLowerCase v) (js "1")
                     || str_eqb (toLowerCase v) [] || str_eqb (toLowerCase v) (js "no"))
           (0 =? c) (0 =? t) circLabel treatLabel lpLabel v HC HT HL).
Qed.

Lemma renameHeaders_shape (c t : nat) (hs : list str) :
  renameHeaders toLowerCase c t hs
  = relabelHeaders toLowerCase c t hs
    ++ match hs with [] => [] | _ :: _ => [nettoLabel; bruttoLabel] end.
Proof.
  unfold renameHeaders, appendPriceHeaders.
  rewrite relabelHeaders_pointwise, mapWithIndexFrom_length.
  destruct hs; [reflexivity|]. reflexivity.
Qed.

(** C8, amended. On an already renamed header list the four label
    substitutions are idempotent: applying them twice gives the same list
    as applying them once.  The renamer as a whole is not: unless the list
    is empty, each application appends the two value labels again. *)
Theorem relabelling_is_idempotent_on_renamed_headers (c t : nat) (hs : list str) :
  let canonical := renameHeaders toLowerCase c t hs in
  relabelHeaders toLowerCase c t (relabelHeaders toLowerCase c t canonical)
  = relabelHeaders toLowerCase c t canonical
  /\ renameHeaders toLowerCase c t canonical
     = relabelHeaders toLowerCase c t canonical
       ++ match hs with [] => [] | _ :: _ => [nettoLabel; bruttoLabel] end.
Proof.
  intros canonical.
  assert (E : canonical
              = mapWithIndexFrom 0 (relabelCell toLowerCase c t) hs
                ++ match hs with [] => [] | _ :: _ => [nettoLabel; bruttoLabel] end).
  { subst canonical. now rewrite renameHeaders_shape, relabelHeaders_pointwise. }
  split.
  - rewrite !relabelHeaders_pointwise, E.
    rewrite !mapWithIndexFrom_app, !mapWithIndexFrom_compose, !mapWithIndexFrom_length.
    f_equal.
    + apply mapWithIndexFrom_ext. intros i x _. apply relabelCell_stable.
    + destruct hs as [|v hs]; [reflexivity|].
      cbn [length Nat.add]. rewrite !mapWithIndexFrom_cons.
      cbn [mapWithIndexFrom length seq combine map].
      now rewrite !relabelCell_idempotent by lia.
  - rewrite renameHeaders_shape. f_equal. rewrite E.
    destruct hs as [|v hs]; [reflexivity|].
    rewrite mapWithIndexFrom_cons. reflexivity.
Qed.

End Relabelling.

(** ** The fuel of the matcher

    The loops of the matcher run on fuel.  The fuel they are given is
    enough: with any greater amount they return the same result, so no
    result of this development is cut short by it. *)

Lemma starLoop_ext (m : (mstate -> option mstate) -> mstate -> option mstate) :
  (forall k k', (forall s, k s = k' s) -> forall s, m k s = m k' s) ->
  forall k k', (forall s, k s = k' s) ->
  forall fuel s, starLoop m k fuel s = starLoop m k' fuel s.
Proof.
  intros Hm k k' Hk. induction fuel as [|fuel IH]; intros s; cbn [starLoop]; [apply Hk|].
  rewrite (Hm _ (fun s' => if length (rest s') <? length (rest s)
                           then starLoop m k' fuel s' else None)).
  - now rewrite Hk.
  - intros s'. destruct (length (rest s') <? length (rest s)); [apply IH | reflexivity].
Qed.

(** The result of a match depends on the continuation through its values only. *)
Lemma rmatch_ext (r : regex) :
  forall k k', (forall s, k s = k' s) -> forall s, rmatch r k s = rmatch r k' s.
Proof.
  induction r as [|p|r1 IH1 r2 IH2|r1 IH1 r2 IH2|r1 IH1|n r1 IH1| | |]; intros k k' Hk s;
    cbn [rmatch].
  - apply Hk.
  - destruct (rest s) as [|c t]; [reflexivity|]. destruct (p c); [apply Hk | reflexivity].
  - apply IH1. intros s'. now apply IH2.
  - rewrite (IH1 k k' Hk s). destruct (rmatch r1 k' s); [reflexivity | now apply IH2].
  - now apply starLoop_ext.
  - apply IH1. intros s'. apply Hk.
  - destruct (prev s); [reflexivity | apply Hk].
  - destruct (rest s); [apply Hk | reflexivity].
  - destruct (xorb _ _); [apply Hk | reflexivity].
Qed.

(** A match hands to its continuation a state with no more input left than
    it started with. *)
Lemma rmatch_shortens (r : regex) :
  forall k s res,
  rmatch r k s = Some res ->
  exists s', length (rest s') <= length (rest s) /\ k s' = Some res.
Proof.
  induction r as [|p|r1 IH1 r2 IH2|r1 IH1 r2 IH2|r1 IH1|n r1 IH1| | |]; intros k s res H;
    cbn [rmatch] in H.
  - exists s; split; [lia | assumption].
  - destruct s as [pv text cs]. cbn [rest caps] in *.
    destruct text as [|c t]; [discriminate|]. destruct (p c); [|discriminate].
    eexists. split; [|exact H]. cbn [rest length]. lia.
  - apply IH1 in H as (s1 & L1 & H). apply IH2 in H as (s2 & L2 & H).
    exists s2. split; [lia | exact H].
  - destruct (rmatch r1 k s) eqn:E.
    + rewrite <- H in *. now apply IH1.
    + now apply IH2.
  - revert H. generalize (length (rest s)) at 1. intros fuel. revert s res.
    induction fuel as [|fuel IHf]; intros s res H; cbn [starLoop] in H.
    + exists s; split; [lia | assumption].
    + destruct (rmatch r1 _ s) eqn:E.
      * rewrite <- H in *. apply IH1 in E as (s1 & L1 & E).
        destruct (length (rest s1) <? length (rest s)); [|discriminate].
        apply IHf in E as (s2 & L2 & E). exists s2. split; [lia | exact E].
      * exists s; split; [lia | assumption].
  - apply IH1 in H as (s1 & L1 & H). eexists. split; [|exact H]. exact L1.
  - destruct (prev s); [discriminate|]. exists s; split; [lia | assumption].
  - destruct (rest s) eqn:E; [|discriminate]. exists s. rewrite E. split; [cbn; lia | assumption].
  - destruct (xorb _ _); [|discriminate]. exists s; split; [lia | assumption].
Qed.

Lemma starLoop_fuel (r : regex) (k : mstate -> option mstate) :
  forall n s fuel fuel',
  length (rest s) <= n -> n <= fuel -> n <= fuel' ->
  starLoop (rmatch r) k fuel s = starLoop (rmatch r) k fuel' s.
Proof.
  assert (Hstuck : forall s fuel,
             length (rest s) = 0 -> starLoop (rmatch r) k fuel s = k s).
  { intros s [|fuel] Hs; cbn [starLoop]; [reflexivity|].
    destruct (rmatch r _ s) eqn:E; [|reflexivity].
    apply rmatch_shortens in E as (s1 & _ & E). rewrite Hs in E. discriminate. }
  induction n as [|n IH]; intros s fuel fuel' Hs Hf Hf'.
  - rewrite !Hstuck by lia. reflexivity.
  - destruct fuel as [|fuel]; [lia|]. destruct fuel' as [|fuel']; [lia|].
    cbn [starLoop].
    rewrite (rmatch_ext r _ (fun s' => if length (rest s') <? length (rest s)
                                       then starLoop (rmatch r) k fuel' s' else None)).
    + reflexivity.
    + intros s'. destruct (length (rest s') <? length (rest s)) eqn:E; [|reflexivity].
      apply Nat.ltb_lt in E. apply IH; lia.
Qed.

(** More fuel for a star changes nothing. *)
Lemma star_fuel_is_enough (r : regex) (k : mstate -> option mstate) (s : mstate) (extra : nat) :
  rmatch (Star r) k s = starLoop (rmatch r) k (length (rest s) + extra) s.
Proof. cbn [rmatch]. apply (starLoop_fuel r k (length (rest s))); lia. Qed.

Lemma search_unfold (r : regex) (p : option N) (text : str) :
  search r p text
  = match rmatch r Some (MState p text []) with
    | Some s' => Some (Found [] (firstn (length text - length (rest s')) text) s')
    | None =>
        match text with
        | [] => None
        | c :: t =>
            match search r (Some c) t with
            | Some f => Some (Found (c :: skipped f) (matched f) (final f))
            | None => None
            end
        end
    end.
Proof. destruct text; reflexivity. Qed.

Lemma search_shortens (r : regex) (text : str) :
  forall p f,
  search r p text = Some f ->
  length (rest (final f)) <= length text
  /\ (matched f <> [] -> length (rest (final f)) < length text).
Proof.
  induction text as [|c t IH]; intros p f H; rewrite search_unfold in H.
  - destruct (rmatch r Some (MState p [] [])) as [s'|] eqn:E; [|discriminate].
    injection H as Hf. subst f. cbn [final matched].
    apply rmatch_shortens in E as (s1 & L & E). injection E as E. subst s1.
    cbn [rest] in L. split; [exact L|]. intros Hm. now destruct Hm.
  - destruct (rmatch r Some (MState p (c :: t) [])) as [s'|] eqn:E.
    + injection H as Hf. subst f. cbn [final matched].
      apply rmatch_shortens in E as (s1 & L & E). injection E as E. subst s1.
      cbn [rest] in L. split; [exact L|]. intros Hm.
      destruct (Nat.eq_dec (length (rest s')) (length (c :: t))) as [Heq|Hne]; [|lia].
      rewrite Heq in Hm. cbn [length] in Hm. rewrite Nat.sub_diag in Hm. now destruct Hm.
    + destruct (search r (Some c) t) as [f'|] eqn:E'; [|discriminate].
      injection H as Hf. subst f. cbn [final matched].
      apply IH in E' as [L1 L2]. cbn [length]. split; [lia | intros _; lia].
Qed.

(** More fuel for [matchAll] changes nothing. *)
Lemma matchAll_fuel_is_enough (r : regex) :
  forall n text p fuel fuel',
  length text <= n -> n < fuel -> n < fuel' ->
  matchAllFrom fuel r p text = matchAllFrom fuel' r p text.
Proof.
  induction n as [|n IH]; intros text p fuel fuel' Hn Hf Hf';
    (destruct fuel as [|fuel]; [lia|]); (destruct fuel' as [|fuel']; [lia|]);
    cbn [matchAllFrom];
    (destruct (search r p text) as [f|] eqn:E; [|reflexivity]);
    apply search_shortens in E as [L1 L2]; f_equal;
    (destruct (matched f) as [|m ms]).
  - destruct (rest (final f)) as [|c t]; [reflexivity | cbn [length] in L1; lia].
  - assert (length (rest (final f)) < length text) by (apply L2; discriminate). lia.
  - destruct (rest (final f)) as [|c t]; [reflexivity|].
    cbn [length] in L1. apply IH; lia.
  - assert (length (rest (final f)) < length text) by (apply L2; discriminate).
    apply IH; lia.
Qed.

(** More fuel for the removal of all matches changes nothing. *)
Lemma removeAll_fuel_is_enough (r : regex) :
  forall n text p fuel fuel',
  length text <= n -> n < fuel -> n < fuel' ->
  removeAllFrom fuel r p text = removeAllFrom fuel' r p text.
Proof.
  induction n as [|n IH]; intros text p fuel fuel' Hn Hf Hf';
    (destruct fuel as [|fuel]; [lia|]); (destruct fuel' as [|fuel']; [lia|]);
    cbn [removeAllFrom];
    (destruct (search r p text) as [f|] eqn:E; [|reflexivity]);
    apply search_shortens in E as [L1 L2]; f_equal;
    (destruct (matched f) as [|m ms]).
  - destruct (rest (final f)) as [|c t]; [reflexivity | cbn [length] in L1; lia].
  - assert (length (rest (final f)) < length text) by (apply L2; discriminate). lia.
  - destruct (rest (final f)) as [|c t]; [reflexivity|].
    cbn [length] in L1. f_equal. apply IH; lia.
  - assert (length (rest (final f)) < length text) by (apply L2; discriminate).
    apply IH; lia.
Qed.

(** ** No abrupt completion *)

Lemma fold_left_ext_in {A B : Type} (f g : A -> B -> A) (l : list B) :
  (forall a b, In b l -> f a b = g a b) ->
  forall a, fold_left f l a = fold_left g l a.
Proof.
  induction l as [|b l IH]; intros H a; [reflexivity|].
  cbn [fold_left]. rewrite H by now left. apply IH.
  intros a' b' Hb. apply H. now right.
Qed.

Lemma foldM_normal {A B : Type} (f : A -> B -> Throwing.completion A) (g : A -> B -> A)
    (l : list B) :
  (forall a b, In b l -> f a b = Throwing.Normal (g a b)) ->
  forall a, Throwing.foldM f l a = Throwing.Normal (fold_left g l a).
Proof.
  induction l as [|b l IH]; intros H a; [reflexivity|].
  cbn [Throwing.foldM fold_left]. rewrite H by now left. cbn [Throwing.bind].
  apply IH. intros a' b' Hb. apply H. now right.
Qed.

Lemma mapM_normal {A B : Type} (f : A -> Throwing.completion B) (g : A -> B) (l : list A) :
  (forall a, f a = Throwing.Normal (g a)) ->
  Throwing.mapM f l = Throwing.Normal (map g l).
Proof.
  intros H. induction l as [|a l IH]; [reflexivity|].
  cbn [Throwing.mapM map]. now rewrite H, IH.
Qed.

Lemma orEmpty_index (l : list str) (i : nat) :
  Throwing.orEmpty (Throwing.index l i) = cellAt l i.
Proof.
  unfold Throwing.orEmpty, Throwing.index, cellAt. revert i.
  induction l as [|x l IH]; intros [|i]; cbn; auto.
Qed.

Lemma filter_by_flags {A : Type} (f : A -> bool) (l : list A) :
  map snd (filter fst (combine (map f l) l)) = filter f l.
Proof.
  induction l as [|x l IH]; [reflexivity|].
  cbn [map combine filter fst]. destruct (f x); cbn [map snd]; now rewrite IH.
Qed.

Lemma findIndexFrom_within {A : Type} (p : A -> bool) (l : list A) :
  forall s i, findIndexFrom p l s = Some i -> s <= i /\ i - s < length l.
Proof.
  induction l as [|x l IH]; intros s i H; [discriminate|].
  cbn [findIndexFrom] in H. destruct (p x).
  - inversion H. subst. cbn [length]. lia.
  - apply IH in H. cbn [length]. lia.
Qed.

Section NeverThrows.

Variable toLowerCase : str -> str.
Variable options : ProcessingOptions.

Lemma isHeaderRow_normal (row referenceHeaders : list str) :
  Throwing.isHeaderRow toLowerCase row referenceHeaders
  = Throwing.Normal (isHeaderRow toLowerCase row referenceHeaders).
Proof.
  unfold Throwing.isHeaderRow, isHeaderRow.
  destruct (3 <=? _); [reflexivity|].
  destruct (_ && _); [reflexivity|].
  destruct (0 <? length referenceHeaders); [|reflexivity].
  rewrite (fold_left_ext_in (Throwing.compareColumn toLowerCase referenceHeaders row)
             (compareColumn toLowerCase referenceHeaders row)).
  - now destruct (fold_left _ _ _).
  - intros st i _. unfold Throwing.compareColumn, compareColumn.
    now rewrite !orEmpty_index.
Qed.

Lemma mergeStep_normal (pre l : list ExtractedTable) :
  forall st,
  Throwing.foldM (Throwing.mergeStep toLowerCase (pre ++ l))
    (seq (length pre) (length l)) st
  = Throwing.Normal (fold_left (mergeStep toLowerCase) l st).
Proof.
  revert pre. induction l as [|nextTable l IH]; intros pre st; [reflexivity|].
  cbn [length seq Throwing.foldM fold_left].
  assert (E : Throwing.mergeStep toLowerCase (pre ++ nextTable :: l) st (length pre)
              = Throwing.Normal (mergeStep toLowerCase st nextTable)).
  { unfold Throwing.mergeStep, mergeStep, compatible. destruct st as [merged currentTable].
    unfold Throwing.index. rewrite nth_error_app2 by lia. rewrite Nat.sub_diag.
    cbn [nth_error Throwing.defined Throwing.bind].
    rewrite isHeaderRow_normal. cbn [Throwing.bind].
    now destruct (_ || _ || _). }
  rewrite E. cbn [Throwing.bind].
  specialize (IH (pre ++ [nextTable]) (mergeStep toLowerCase st nextTable)).
  rewrite <- app_assoc, length_app in IH. cbn [app length] in IH.
  rewrite Nat.add_1_r in IH. exact IH.
Qed.

Lemma mergeCompatibleTables_normal (tables : list ExtractedTable) :
  Throwing.mergeCompatibleTables toLowerCase tables
  = Throwing.Normal (mergeCompatibleTables toLowerCase tables).
Proof.
  unfold Throwing.mergeCompatibleTables, mergeCompatibleTables.
  destruct tables as [|first others]; [reflexivity|].
  replace (length (first :: others) - 1) with (length others) by (cbn [length]; lia).
  cbn [length Nat.eqb Throwing.index nth_error Throwing.defined Throwing.bind].
  rewrite (mergeStep_normal [first] others). cbn [Throwing.bind].
  now destruct (fold_left _ _ _).
Qed.

Lemma rowsToProcess_normal (bestTreatIdx : option nat) (table : ExtractedTable) :
  Throwing.rowsToProcess toLowerCase options bestTreatIdx table
  = Throwing.Normal (rowsToProcess toLowerCase options bestTreatIdx table).
Proof.
  unfold Throwing.rowsToProcess, Throwing.dropHeaderRows, rowsToProcess, dropHeaderRows.
  rewrite (mapM_normal _ (fun row => negb (isHeaderRow toLowerCase row (headers table)))).
  - cbn [Throwing.bind]. rewrite filter_by_flags.
    destruct bestTreatIdx as [t|]; [|reflexivity].
    destruct (isTrue (removeUoRows options)); [|reflexivity].
    f_equal. apply filter_ext. intros row. unfold isUoRow. now rewrite orEmpty_index.
  - intros row. now rewrite isHeaderRow_normal.
Qed.

Lemma renameAt_same (idx : nat) (label : str) (hs : list str) :
  Throwing.renameAt idx label hs = renameAt idx label hs.
Proof.
  unfold Throwing.renameAt, renameAt, Throwing.index, Throwing.orEmpty.
  now destruct (nth_error hs idx).
Qed.

Lemma renameHeaders_normal (c t : nat) (hs : list str) :
  Throwing.renameHeaders toLowerCase c t hs
  = Throwing.Normal (renameHeaders toLowerCase c t hs).
Proof.
  unfold Throwing.renameHeaders, renameHeaders, relabelHeaders, appendPriceHeaders.
  rewrite !renameAt_same.
  set (hs1 := renameAt t treatLabel (renameAt c circLabel hs)).
  assert (E1 : Throwing.renameLp toLowerCase hs1 = Throwing.Normal (renameLp toLowerCase hs1)).
  { unfold Throwing.renameLp, renameLp. destruct hs1 as [|first rest]; [reflexivity|].
    cbn [length Nat.ltb Nat.leb Throwing.index nth_error Throwing.defined Throwing.bind].
    now destruct (_ || _ || _ || _). }
  rewrite E1. cbn [Throwing.bind].
  set (hs2 := renameLp toLowerCase hs1).
  assert (E2 : Throwing.renameSpecies toLowerCase c t hs2
               = Throwing.Normal (renameSpecies toLowerCase c t hs2)).
  { unfold Throwing.renameSpecies, renameSpecies.
    destruct hs2 as [|first [|second rest]]; [reflexivity | reflexivity |].
    cbn [length Nat.ltb Nat.leb andb].
    destruct (negb (c =? 1) && negb (t =? 1)); [|reflexivity].
    cbn [Throwing.index nth_error Throwing.defined Throwing.bind].
    now destruct (_ || _ || _). }
  rewrite E2. reflexivity.
Qed.

Lemma addCsPrice_normal (circCell tLower : str) (rowPriceNetto : float) :
  Throwing.addCsPrice options circCell tLower rowPriceNetto
  = Throwing.Normal (addCsPrice options circCell tLower rowPriceNetto).
Proof.
  unfold Throwing.addCsPrice, addCsPrice.
  destruct (0 <? csFamilyTreatmentCount tLower)%float; [|reflexivity].
  destruct (search numberPattern None circCell) as [m|]; [|reflexivity].
  change (Throwing.toText (Throwing.group 1 m)) with (captureText 1 m).
  destruct (findIndex (inTier (parseInt (captureText 1 m))) DEFAULT_PRICING_SCHEDULE)
    as [tierIndex|] eqn:E; [|reflexivity].
  apply findIndexFrom_within in E as [_ E]. rewrite Nat.sub_0_r in E.
  unfold Throwing.index.
  destruct (nth_error DEFAULT_PRICING_SCHEDULE tierIndex) as [tr|] eqn:En.
  - reflexivity.
  - apply nth_error_None in En. lia.
Qed.

Lemma priceRow_normal (c t : nat) (st : float * float * list (list str)) (row : list str) :
  Throwing.priceRow toLowerCase options c t st row
  = Throwing.Normal (priceRow toLowerCase options c t st row).
Proof.
  unfold Throwing.priceRow, priceRow, rowPrice. destruct st as [[tn tb] newRows].
  rewrite !orEmpty_index, addCsPrice_normal. cbn [Throwing.bind].
  destruct (0 <? _)%float; [reflexivity|].
  now destruct (isTrue (removeZeroPriceRows options)).
Qed.

Lemma finalCleanup_normal (newRows : list (list str)) :
  Throwing.finalCleanup options newRows = Throwing.Normal (finalCleanup options newRows).
Proof.
  unfold Throwing.finalCleanup, finalCleanup.
  destruct (_ && _); [|reflexivity].
  apply mapM_normal. intros [i row]. unfold Throwing.renumberRow, renumberRow.
  destruct row as [|firstCell others]; [reflexivity|].
  cbn [Throwing.index nth_error setNth].
  now destruct (_ && _).
Qed.

Lemma processTable_normal (tot : float * float) (table : ExtractedTable) :
  Throwing.processTable toLowerCase options tot table
  = Throwing.Normal (processTable toLowerCase options tot table).
Proof.
  unfold Throwing.processTable, processTable.
  destruct (classifyColumns toLowerCase table) as [bc bt].
  rewrite rowsToProcess_normal. cbn [Throwing.bind].
  destruct bc as [c|]; [destruct bt as [t|]|]; try reflexivity.
  rewrite renameHeaders_normal. cbn [Throwing.bind].
  rewrite (foldM_normal _ (priceRow toLowerCase options c t))
    by (intros; apply priceRow_normal).
  cbn [Throwing.bind].
  destruct (fold_left _ _ _) as [[tn tb] newRows].
  rewrite finalCleanup_normal. reflexivity.
Qed.


End NeverThrows.


(** ** Occurrence counting *)

(** C3, as stated, fails: a number before the code counts as its
    multiplier only when an [x] follows it, and a number taken by one match
    is not looked at again for the next.  For the cell text 2 W4t the
    wording gives the count 2, the program gives 1; for W4t x 2x W4t the
    wording gives 4 (the 2 is adjacent to both occurrences), the program
    gives 3. *)
Lemma number_without_x_is_no_multiplier :
  countAsStated (js "2 W4t") (js "w4t") = 2%float
  /\ getTreatmentCount (js "2 W4t") (js "w4t") = 1%float
  /\ countAsStated (js "W4t x 2x W4t") (js "w4t") = 4%float
  /\ getTreatmentCount (js "W4t x 2x W4t") (js "w4t") = 3%float.
Proof. vm_compute. repeat split; reflexivity. Qed.

(** *** Runs of a class *)

Lemma skipClass_length (p : N -> bool) (text : str) :
  forall pv, length (snd (skipClass p pv text)) <= length text.
Proof.
  induction text as [|c t IH]; intros pv; cbn [skipClass]; [cbn; lia|].
  destruct (p c); [|cbn; lia]. specialize (IH (Some c)). cbn [length]. lia.
Qed.

Lemma skipClass_text (p : N -> bool) (text : str) :
  forall pv, snd (skipClass p pv text) = dropWhile p text.
Proof.
  induction text as [|c t IH]; intros pv; cbn [skipClass dropWhile]; [reflexivity|].
  destruct (p c); [apply IH | reflexivity].
Qed.

Lemma dropWhile_length (p : N -> bool) (text : str) :
  length (dropWhile p text) <= length text.
Proof.
  induction text as [|c t IH]; cbn [dropWhile length]; [lia|].
  destruct (p c); cbn [length]; lia.
Qed.

Lemma firstn_takeWhile (p : N -> bool) (text : str) :
  firstn (length text - length (dropWhile p text)) text = takeWhile p text.
Proof.
  induction text as [|c t IH]; [reflexivity|].
  cbn [dropWhile takeWhile]. destruct (p c).
  - pose proof (dropWhile_length p t) as H. cbn [length].
    replace (S (length t) - length (dropWhile p t))
      with (S (length t - length (dropWhile p t))) by lia.
    cbn [firstn]. now rewrite IH.
  - now rewrite Nat.sub_diag.
Qed.

(** *** The matcher on the parts of the pattern *)

(** The greedy loop over a class ends behind the longest run, provided the
    continuation, when it fails there, fails at the positions inside the
    run too. *)
Lemma starLoop_class (p : N -> bool) (k : mstate -> option mstate) :
  (forall pv c t cs,
      p c = true ->
      k (MState (fst (skipClass p (Some c) t)) (snd (skipClass p (Some c) t)) cs) = None ->
      k (MState pv (c :: t) cs) = None) ->
  forall fuel pv text cs,
  length text <= fuel ->
  starLoop (rmatch (Chr p)) k fuel (MState pv text cs)
  = k (MState (fst (skipClass p pv text)) (snd (skipClass p pv text)) cs).
Proof.
  intros Hk. induction fuel as [|fuel IH]; intros pv text cs Hlen.
  - destruct text; [reflexivity | cbn in Hlen; lia].
  - cbn [starLoop rmatch rest caps]. destruct text as [|c t]; [reflexivity|].
    cbn [skipClass]. destruct (p c) eqn:Hp; [|reflexivity].
    cbn [rest length]. replace (length t <? S (length t)) with true
      by (symmetry; apply Nat.ltb_lt; lia).
    cbn [length] in Hlen. rewrite IH by lia.
    destruct (k (MState (fst (skipClass p (Some c) t)) (snd (skipClass p (Some c) t)) cs))
      eqn:E; [reflexivity|].
    now apply Hk.
Qed.

Lemma star_class (p : N -> bool) (k : mstate -> option mstate) (pv : option N)
    (text : str) (cs : list (nat * str)) :
  (forall pv c t cs,
      p c = true ->
      k (MState (fst (skipClass p (Some c) t)) (snd (skipClass p (Some c) t)) cs) = None ->
      k (MState pv (c :: t) cs) = None) ->
  rmatch (Star (Chr p)) k (MState pv text cs)
  = k (MState (fst (skipClass p pv text)) (snd (skipClass p pv text)) cs).
Proof.
  intros Hk. cbn [rmatch rest]. now apply starLoop_class.
Qed.

Lemma plus_class (p : N -> bool) (k : mstate -> option mstate) (pv : option N)
    (text : str) (cs : list (nat * str)) :
  (forall pv c t cs,
      p c = true ->
      k (MState (fst (skipClass p (Some c) t)) (snd (skipClass p (Some c) t)) cs) = None ->
      k (MState pv (c :: t) cs) = None) ->
  rmatch (Plus (Chr p)) k (MState pv text cs)
  = match text with
    | c :: t =>
        if p c
        then k (MState (fst (skipClass p (Some c) t)) (snd (skipClass p (Some c) t)) cs)
        else None
    | [] => None
    end.
Proof.
  intros Hk. unfold Plus. cbn [rmatch rest caps].
  destruct text as [|c t]; [reflexivity|]. destruct (p c); [|reflexivity].
  change (starLoop (rmatch (Chr p)) k (length (rest (MState (Some c) t cs)))
            (MState (Some c) t cs))
    with (rmatch (Star (Chr p)) k (MState (Some c) t cs)).
  now apply star_class.
Qed.

Lemma lit_code (code : str) (k : mstate -> option mstate) :
  forall pv text cs,
  rmatch (Lit eqUnitCI code) k (MState pv text cs)
  = match matchCode code pv text with
    | Some (pv', t') => k (MState pv' t' cs)
    | None => None
    end.
Proof.
  induction code as [|c code IH]; intros pv text cs; [reflexivity|].
  cbn [Lit rmatch matchCode rest caps]. destruct text as [|x t]; [reflexivity|].
  destruct (eqUnitCI c x); [apply IH | reflexivity].
Qed.

Lemma matchCode_length (code : str) :
  forall pv text pv' t',
  matchCode code pv text = Some (pv', t') -> length text = length code + length t'.
Proof.
  induction code as [|c code IH]; intros pv text pv' t' H.
  - cbn in H. now inversion H.
  - cbn [matchCode] in H. destruct text as [|x t]; [discriminate|].
    destruct (eqUnitCI c x); [|discriminate].
    apply IH in H. cbn [length]. lia.
Qed.

(** *** What the classes of the pattern exclude *)

Lemma space_range (c : N) : isSpace c = true -> (c <= 32 \/ 160 <= c)%N.
Proof.
  unfold isSpace. intros H.
  repeat (apply orb_true_iff in H as [H|H]);
    try (apply N.eqb_eq in H; lia);
    apply andb_true_iff in H as [H1 H2]; apply N.leb_le in H1, H2; lia.
Qed.

Lemma word_range (c : N) : isWordChar c = true -> (48 <= c <= 122)%N.
Proof.
  unfold isWordChar, isDigit. intros H.
  repeat (apply orb_true_iff in H as [H|H]);
    try (apply N.eqb_eq in H; lia);
    apply andb_true_iff in H as [H1 H2]; apply N.leb_le in H1, H2; lia.
Qed.

Lemma upperAscii_range (c : N) :
  (upperAscii c = c \/ (97 <= c <= 122 /\ upperAscii c = c - 32))%N.
Proof.
  unfold upperAscii. destruct ((97 <=? c)%N && (c <=? 122)%N) eqn:E; [right | now left].
  apply andb_true_iff in E as [H1 H2]. apply N.leb_le in H1, H2. now split.
Qed.

Lemma space_is_not_x (c : N) : isSpace c = true -> isX c = false.
Proof.
  intros H. apply space_range in H. unfold isX, eqUnitCI. apply N.eqb_neq.
  change (upperAscii 120) with 88%N.
  destruct (upperAscii_range c) as [->|[Hr ->]]; lia.
Qed.

Lemma digit_is_not_x (c : N) : isDigit c = true -> isX c = false.
Proof.
  unfold isDigit. intros H. apply andb_true_iff in H as [H1 H2].
  apply N.leb_le in H1, H2. unfold isX, eqUnitCI. apply N.eqb_neq.
  change (upperAscii 120) with 88%N.
  destruct (upperAscii_range c) as [->|[Hr ->]]; lia.
Qed.

Lemma space_is_not_digit (c : N) : isSpace c = true -> isDigit c = false.
Proof.
  intros H. destruct (isDigit c) eqn:E; [|reflexivity].
  apply digit_not_space in E as [E _]. congruence.
Qed.

Lemma space_is_not_code_start (c0 x : N) :
  isWordChar c0 = true -> isSpace x = true -> eqUnitCI c0 x = false.
Proof.
  intros Hw Hs. apply word_range in Hw. apply space_range in Hs.
  unfold eqUnitCI. apply N.eqb_neq.
  destruct (upperAscii_range x) as [->|[Hx ->]];
    destruct (upperAscii_range c0) as [->|[Hc ->]]; lia.
Qed.

Lemma skipClass_stop (p : N -> bool) (pv : option N) (c : N) (t : str) :
  p c = false -> skipClass p pv (c :: t) = (pv, c :: t).
Proof. intros H. cbn [skipClass]. now rewrite H. Qed.

Lemma rmatch_seq (r1 r2 : regex) (k : mstate -> option mstate) (s : mstate) :
  rmatch (Seq r1 r2) k s = rmatch r1 (rmatch r2 k) s.
Proof. reflexivity. Qed.

Lemma rmatch_chr (p : N -> bool) (k : mstate -> option mstate) (pv : option N)
    (text : str) (cs : list (nat * str)) :
  rmatch (Chr p) k (MState pv text cs)
  = match text with
    | c :: t => if p c then k (MState (Some c) t cs) else None
    | [] => None
    end.
Proof. reflexivity. Qed.

Lemma rmatch_wordb (k : mstate -> option mstate) (pv : option N) (text : str)
    (cs : list (nat * str)) :
  rmatch WordB k (MState pv text cs)
  = if atBoundary pv text then k (MState pv text cs) else None.
Proof. reflexivity. Qed.

(** A captured run of a class: behind the run, with the run as the capture.
    The continuation either fails wherever the class goes on or never fails. *)
Lemma group_run (n : nat) (p : N -> bool) (K : mstate -> option mstate) (pv : option N)
    (text : str) (cs : list (nat * str)) :
  (forall pv c t cs', p c = true -> K (MState pv (c :: t) cs') = None)
  \/ (forall s, K s <> None) ->
  rmatch (Group n (Plus (Chr p))) K (MState pv text cs)
  = match text with
    | c :: t =>
        if p c
        then K (MState (fst (skipClass p (Some c) t)) (snd (skipClass p (Some c) t))
                  ((n, takeWhile p text) :: cs))
        else None
    | [] => None
    end.
Proof.
  intros HK. cbn [rmatch]. rewrite plus_class.
  - destruct text as [|c t]; [reflexivity|]. destruct (p c) eqn:Hp; [|reflexivity].
    cbn [prev rest caps]. do 3 f_equal.
    rewrite skipClass_text.
    replace (dropWhile p t) with (dropWhile p (c :: t)) by (cbn [dropWhile]; now rewrite Hp).
    f_equal. apply firstn_takeWhile.
  - intros pv' c t cs' Hp Hnone. cbn [prev rest caps] in *.
    destruct HK as [HK|HK]; [now apply HK | now apply HK in Hnone].
Qed.

(** The optional group behind the code. *)
Lemma after_group (k : mstate -> option mstate) (pv : option N) (text : str)
    (cs : list (nat * str)) :
  acceptAll k ->
  rmatch (Opt (seqs [Star (Chr isSpace); Chr (eqUnitCI 120); Star (Chr isSpace);
                     Group 3 (Plus (Chr isDigit))])) k (MState pv text cs)
  = Some match multiplierAfter pv text with
         | Some (ds, (p', t')) => MState p' t' ((3, ds) :: cs)
         | None => MState pv text cs
         end.
Proof.
  intros Hk. unfold Opt, seqs. cbn [fold_right].
  change (rmatch (Alt ?a Eps) k ?s)
    with (match rmatch a k s with Some res => Some res | None => k s end).
  assert (K3 : forall pv c t cs',
             isSpace c = true ->
             rmatch (Seq (Group 3 (Plus (Chr isDigit))) Eps) k (MState pv (c :: t) cs') = None).
  { intros pv' c t cs' Hc. rewrite rmatch_seq, group_run.
    - now rewrite (space_is_not_digit c Hc).
    - right. intros s. change (rmatch Eps k s) with (k s). rewrite Hk. discriminate. }
  assert (K1 : forall pv c t cs',
             isSpace c = true ->
             rmatch (Seq (Chr (eqUnitCI 120))
                       (Seq (Star (Chr isSpace)) (Seq (Group 3 (Plus (Chr isDigit))) Eps)))
               k (MState pv (c :: t) cs') = None).
  { intros pv' c t cs' Hc. rewrite rmatch_seq, rmatch_chr.
    change (eqUnitCI 120 c) with (isX c). now rewrite (space_is_not_x c Hc). }
  rewrite rmatch_seq, star_class by (intros; now apply K1).
  unfold multiplierAfter.
  destruct (skipClass isSpace pv text) as [p1 t1]. cbn [fst snd].
  rewrite rmatch_seq, rmatch_chr.
  destruct t1 as [|x t2]; [now rewrite Hk|].
  change (eqUnitCI 120 x) with (isX x).
  destruct (isX x); [|now rewrite Hk].
  rewrite rmatch_seq, star_class by (intros; now apply K3).
  destruct (skipClass isSpace (Some x) t2) as [p2 t3]. cbn [fst snd].
  rewrite rmatch_seq, group_run
    by (right; intros s; change (rmatch Eps k s) with (k s); rewrite Hk; discriminate).
  destruct t3 as [|d t4]; [now rewrite Hk|].
  cbn [takeWhile skipClass]. destruct (isDigit d); [|now rewrite Hk].
  change (rmatch Eps k ?s) with (k s). rewrite Hk.
  now destruct (skipClass isDigit (Some d) t4).
Qed.

Lemma rmatch_group (n : nat) (r : regex) (k : mstate -> option mstate) (s : mstate) :
  rmatch (Group n r) k s
  = rmatch r
      (fun s' => k (MState (prev s') (rest s')
                      ((n, firstn (length (rest s) - length (rest s')) (rest s)) :: caps s')))
      s.
Proof. reflexivity. Qed.

(** The code as a whole word, then the optional group behind it. *)
Lemma code_part (code : str) (k : mstate -> option mstate) (pv : option N) (text : str)
    (cs : list (nat * str)) :
  acceptAll k ->
  rmatch (seqs [WordB; Group 2 (Lit eqUnitCI code); WordB;
                Opt (seqs [Star (Chr isSpace); Chr (eqUnitCI 120); Star (Chr isSpace);
                           Group 3 (Plus (Chr isDigit))])]) k (MState pv text cs)
  = match wholeWord code pv text with
    | Some (p, t) =>
        Some match multiplierAfter p t with
             | Some (ds, (p', t')) =>
                 MState p' t' ((3, ds) :: (2, firstn (length code) text) :: cs)
             | None => MState p t ((2, firstn (length code) text) :: cs)
             end
    | None => None
    end.
Proof.
  intros Hk.
  change (seqs [WordB; Group 2 (Lit eqUnitCI code); WordB; ?a])
    with (Seq WordB (Seq (Group 2 (Lit eqUnitCI code)) (Seq WordB (Seq a Eps)))).
  rewrite rmatch_seq, rmatch_wordb. unfold wholeWord.
  destruct (atBoundary pv text); [|reflexivity].
  rewrite rmatch_seq, rmatch_group, lit_code.
  destruct (matchCode code pv text) as [[p t]|] eqn:E; [|reflexivity].
  cbn [prev rest caps]. rewrite rmatch_seq, rmatch_wordb.
  destruct (atBoundary p t); [|reflexivity].
  rewrite rmatch_seq, after_group by (intros s; apply Hk).
  apply matchCode_length in E.
  replace (length text - length t) with (length code) by lia. reflexivity.
Qed.

(** The group before the code: digits, spaces, [x], spaces. *)
Lemma pre_group (K : mstate -> option mstate) (pv : option N) (text : str)
    (cs : list (nat * str)) :
  (forall pv c t cs', isSpace c = true -> K (MState pv (c :: t) cs') = None) ->
  rmatch (seqs [Group 1 (Plus (Chr isDigit)); Star (Chr isSpace);
                Chr (eqUnitCI 120); Star (Chr isSpace)]) K (MState pv text cs)
  = match multiplierBefore pv text with
    | Some (ds, (p, t)) => K (MState p t ((1, ds) :: cs))
    | None => None
    end.
Proof.
  intros HK.
  change (seqs [Group 1 (Plus (Chr isDigit)); Star (Chr isSpace);
                Chr (eqUnitCI 120); Star (Chr isSpace)])
    with (Seq (Group 1 (Plus (Chr isDigit)))
            (Seq (Star (Chr isSpace))
               (Seq (Chr (eqUnitCI 120)) (Seq (Star (Chr isSpace)) Eps)))).
  assert (K3 : forall pv c t cs',
             isSpace c = true -> rmatch Eps K (MState pv (c :: t) cs') = None)
    by (intros; now apply HK).
  assert (K2 : forall pv c t cs',
             isSpace c = true ->
             rmatch (Seq (Chr (eqUnitCI 120)) (Seq (Star (Chr isSpace)) Eps)) K
               (MState pv (c :: t) cs') = None).
  { intros pv' c t cs' Hc. rewrite rmatch_seq, rmatch_chr.
    change (eqUnitCI 120 c) with (isX c). now rewrite (space_is_not_x c Hc). }
  assert (K1 : forall pv d t cs',
             isDigit d = true ->
             rmatch (Seq (Star (Chr isSpace))
                       (Seq (Chr (eqUnitCI 120)) (Seq (Star (Chr isSpace)) Eps))) K
               (MState pv (d :: t) cs') = None).
  { intros pv' d t cs' Hd. rewrite rmatch_seq, star_class by (intros; now apply K2).
    destruct (digit_not_space d Hd) as [Hs _]. rewrite (skipClass_stop _ _ _ _ Hs).
    cbn [fst snd]. rewrite rmatch_seq, rmatch_chr.
    change (eqUnitCI 120 d) with (isX d). now rewrite (digit_is_not_x d Hd). }
  rewrite rmatch_seq, group_run by (left; intros; now apply K1).
  unfold multiplierBefore.
  destruct text as [|c t]; [reflexivity|].
  cbn [takeWhile skipClass]. destruct (isDigit c); [|reflexivity].
  destruct (skipClass isDigit (Some c) t) as [p1 t1]. cbn [fst snd].
  rewrite rmatch_seq, star_class by (intros; now apply K2).
  destruct (skipClass isSpace p1 t1) as [p2 t2]. cbn [fst snd].
  rewrite rmatch_seq, rmatch_chr.
  destruct t2 as [|x t3]; [reflexivity|].
  change (eqUnitCI 120 x) with (isX x). destruct (isX x); [|reflexivity].
  rewrite rmatch_seq, star_class by (intros; now apply K3).
  now destruct (skipClass isSpace (Some x) t3).
Qed.

Lemma wholeWord_not_at_space (code : str) (pv : option N) (c : N) (t : str) :
  startsWithWordChar code = true -> isSpace c = true -> wholeWord code pv (c :: t) = None.
Proof.
  intros Hcode Hc. unfold wholeWord. destruct code as [|c0 code]; [discriminate|].
  cbn [matchCode]. cbn in Hcode. rewrite (space_is_not_code_start c0 c Hcode Hc).
  now destruct (atBoundary pv (c :: t)).
Qed.

(** The pattern at one position of the text: it matches exactly where an
    occurrence starts, ends where the scan resumes, and its captures 1 and
    3 are the two multipliers of the occurrence. *)
Lemma pattern_at (code : str) (pv : option N) (text : str) :
  startsWithWordChar code = true ->
  match occurrenceAt code pv text with
  | Some o =>
      exists cs,
        rmatch (treatmentPattern code) Some (MState pv text [])
        = Some (MState (fst (resume o)) (snd (resume o)) cs)
        /\ capture 1 cs = before o /\ capture 3 cs = after o
  | None => rmatch (treatmentPattern code) Some (MState pv text []) = None
  end.
Proof.
  intros Hcode.
  set (A := Opt (seqs [Star (Chr isSpace); Chr (eqUnitCI 120); Star (Chr isSpace);
                       Group 3 (Plus (Chr isDigit))])).
  set (W := seqs [WordB; Group 2 (Lit eqUnitCI code); WordB; A]).
  set (G := seqs [Group 1 (Plus (Chr isDigit)); Star (Chr isSpace);
                  Chr (eqUnitCI 120); Star (Chr isSpace)]).
  assert (HW : forall pv text cs,
             rmatch W Some (MState pv text cs)
             = match wholeWord code pv text with
               | Some (p, t) =>
                   Some match multiplierAfter p t with
                        | Some (ds, (p', t')) =>
                            MState p' t' ((3, ds) :: (2, firstn (length code) text) :: cs)
                        | None => MState p t ((2, firstn (length code) text) :: cs)
                        end
               | None => None
               end)
    by (intros; apply code_part; intros s; reflexivity).
  change (rmatch (treatmentPattern code) Some (MState pv text []))
    with (match rmatch G (rmatch W Some) (MState pv text []) with
          | Some res => Some res
          | None => rmatch W Some (MState pv text [])
          end).
  unfold G. rewrite pre_group
    by (intros pv' c t cs' Hc; rewrite HW; now rewrite wholeWord_not_at_space).
  unfold occurrenceAt.
  destruct (multiplierBefore pv text) as [[ds [p t]]|].
  - rewrite HW. destruct (wholeWord code p t) as [[p2 t2]|].
    + destruct (multiplierAfter p2 t2) as [[da [p3 t3]]|];
        eexists; (split; [reflexivity | split; reflexivity]).
    + rewrite HW. destruct (wholeWord code pv text) as [[p2 t2]|]; [|reflexivity].
      destruct (multiplierAfter p2 t2) as [[da [p3 t3]]|];
        eexists; (split; [reflexivity | split; reflexivity]).
  - rewrite HW. destruct (wholeWord code pv text) as [[p2 t2]|]; [|reflexivity].
    destruct (multiplierAfter p2 t2) as [[da [p3 t3]]|];
      eexists; (split; [reflexivity | split; reflexivity]).
Qed.

(** *** An occurrence takes something *)

Lemma multiplierBefore_length (pv : option N) (text : str) (ds : str) (p : option N) (t : str) :
  multiplierBefore pv text = Some (ds, (p, t)) -> length t <= length text.
Proof.
  unfold multiplierBefore. destruct (takeWhile isDigit text); [discriminate|].
  pose proof (skipClass_length isDigit text pv) as H1.
  destruct (skipClass isDigit pv text) as [p1 t1]. cbn [snd] in H1.
  pose proof (skipClass_length isSpace t1 p1) as H2.
  destruct (skipClass isSpace p1 t1) as [p2 t2]. cbn [snd] in H2.
  destruct t2 as [|x t3]; [discriminate|]. destruct (isX x); [|discriminate].
  pose proof (skipClass_length isSpace t3 (Some x)) as H3.
  intros H. inversion H as [[Hd Hs]]. rewrite Hs in H3. cbn [snd length] in *. lia.
Qed.

Lemma multiplierAfter_length (pv : option N) (text : str) (ds : str) (p : option N) (t : str) :
  multiplierAfter pv text = Some (ds, (p, t)) -> length t <= length text.
Proof.
  unfold multiplierAfter.
  pose proof (skipClass_length isSpace text pv) as H1.
  destruct (skipClass isSpace pv text) as [p1 t1]. cbn [snd] in H1.
  destruct t1 as [|x t2]; [discriminate|]. destruct (isX x); [|discriminate].
  pose proof (skipClass_length isSpace t2 (Some x)) as H2.
  destruct (skipClass isSpace (Some x) t2) as [p2 t3]. cbn [snd] in H2.
  destruct (takeWhile isDigit t3); [discriminate|].
  pose proof (skipClass_length isDigit t3 p2) as H3.
  intros H. inversion H as [[Hd Hs]]. rewrite Hs in H3. cbn [snd length] in *. lia.
Qed.

Lemma wholeWord_length (code : str) (pv : option N) (text : str) (p : option N) (t : str) :
  startsWithWordChar code = true ->
  wholeWord code pv text = Some (p, t) -> length t < length text.
Proof.
  intros Hcode. unfold wholeWord. destruct (atBoundary pv text); [|discriminate].
  destruct (matchCode code pv text) as [[p' t']|] eqn:E; [|discriminate].
  destruct (atBoundary p' t'); [|discriminate].
  intros H. inversion H. subst. apply matchCode_length in E.
  destruct code; [discriminate|]. cbn [length] in E. lia.
Qed.

Lemma occurrenceAt_length (code : str) (pv : option N) (text : str) (o : occurrence) :
  startsWithWordChar code = true ->
  occurrenceAt code pv text = Some o -> length (snd (resume o)) < length text.
Proof.
  intros Hcode. unfold occurrenceAt.
  assert (Hafter : forall b p t,
             length t < length text ->
             match multiplierAfter p t with
             | Some (ds, st) => Some {| before := b; after := Some ds; resume := st |}
             | None => Some {| before := b; after := None; resume := (p, t) |}
             end = Some o ->
             length (snd (resume o)) < length text).
  { intros b p t Hlt H.
    destruct (multiplierAfter p t) as [[da [p3 t3]]|] eqn:E; inversion H; cbn [resume snd].
    - apply multiplierAfter_length in E. lia.
    - exact Hlt. }
  destruct (multiplierBefore pv text) as [[ds [p t]]|] eqn:Eb.
  - apply multiplierBefore_length in Eb.
    destruct (wholeWord code p t) as [[p2 t2]|] eqn:Ew.
    + apply (wholeWord_length code _ _ _ _ Hcode) in Ew. apply Hafter. lia.
    + destruct (wholeWord code pv text) as [[p2 t2]|] eqn:Ew'; [|discriminate].
      apply (wholeWord_length code _ _ _ _ Hcode) in Ew'. now apply Hafter.
  - destruct (wholeWord code pv text) as [[p2 t2]|] eqn:Ew'; [|discriminate].
    apply (wholeWord_length code _ _ _ _ Hcode) in Ew'. now apply Hafter.
Qed.

(** *** The matches of the pattern are the occurrences of the scan *)

Lemma search_next (code : str) (text : str) :
  startsWithWordChar code = true ->
  forall pv,
  match nextOccurrence code pv text with
  | Some o =>
      exists f,
        search (treatmentPattern code) pv text = Some f
        /\ prev (final f) = fst (resume o)
        /\ rest (final f) = snd (resume o)
        /\ capture 1 (caps (final f)) = before o
        /\ capture 3 (caps (final f)) = after o
        /\ matched f <> []
  | None => search (treatmentPattern code) pv text = None
  end.
Proof.
  intros Hcode.
  assert (Hhere : forall pv text o,
             occurrenceAt code pv text = Some o ->
             exists f,
               search (treatmentPattern code) pv text = Some f
               /\ prev (final f) = fst (resume o)
               /\ rest (final f) = snd (resume o)
               /\ capture 1 (caps (final f)) = before o
               /\ capture 3 (caps (final f)) = after o
               /\ matched f <> []).
  { intros pv' text' o E.
    pose proof (pattern_at code pv' text' Hcode) as H. rewrite E in H.
    destruct H as (cs & H & H1 & H3).
    pose proof (occurrenceAt_length code pv' text' o Hcode E) as Hlen.
    eexists. split.
    - destruct text'; cbn [search]; rewrite H; reflexivity.
    - cbn [final prev rest caps matched]. repeat split; try assumption.
      destruct text' as [|c t]; [cbn in Hlen; lia|].
      cbn [length] in *.
      replace (S (length t) - length (snd (resume o)))
        with (S (length t - length (snd (resume o)))) by lia.
      discriminate. }
  induction text as [|c t IH]; intros pv.
  - cbn [nextOccurrence]. destruct (occurrenceAt code pv []) as [o|] eqn:E.
    + now apply Hhere.
    + pose proof (pattern_at code pv [] Hcode) as H. rewrite E in H.
      cbn [search]. now rewrite H.
  - cbn [nextOccurrence]. destruct (occurrenceAt code pv (c :: t)) as [o|] eqn:E.
    + now apply Hhere.
    + pose proof (pattern_at code pv (c :: t) Hcode) as H. rewrite E in H.
      cbn [search]. rewrite H. specialize (IH (Some c)).
      destruct (nextOccurrence code (Some c) t) as [o|].
      * destruct IH as (f & -> & H'). eexists. split; [reflexivity | exact H'].
      * now rewrite IH.
Qed.

Lemma matchAll_occurrences (code : str) :
  startsWithWordChar code = true ->
  forall fuel pv text,
  map (fun f => multiplierText (capture 1 (caps (final f))) (capture 3 (caps (final f))))
    (matchAllFrom fuel (treatmentPattern code) pv text)
  = map (fun o => multiplierText (before o) (after o)) (occurrencesFrom fuel code pv text).
Proof.
  intros Hcode. induction fuel as [|fuel IH]; intros pv text; [reflexivity|].
  cbn [matchAllFrom occurrencesFrom].
  pose proof (search_next code text Hcode pv) as H.
  destruct (nextOccurrence code pv text) as [o|].
  - destruct H as (f & -> & Hp & Hr & H1 & H3 & Hm).
    cbn [map]. rewrite H1, H3. f_equal.
    destruct (matched f) as [|m ms]; [congruence|].
    rewrite Hp, Hr. apply IH.
  - now rewrite H.
Qed.

Lemma fold_left_map {A B C : Type} (f : A -> C -> A) (g : B -> C) (l : list B) :
  forall a, fold_left f (map g l) a = fold_left (fun a b => f a (g b)) l a.
Proof. induction l as [|b l IH]; intros a; [reflexivity|]. cbn. apply IH. Qed.

(** C3, amended. The count is the sum, over the successive matches found
    from left to right, each resuming behind the previous one, of the
    multiplier of the match: the number written before the code and
    followed by an [x], else the number written after the code behind an
    [x], else 1; spaces may stand on both sides of the [x], the code is
    matched as a whole word whatever the letter case.  So 2x W4t counts 2,
    W4t x 3 counts 3, W4t alone counts 1, and several occurrences are
    summed. *)
Theorem count_is_sum_of_multipliers (text code : str) :
  startsWithWordChar code = true ->
  getTreatmentCount text code = countByScanning text code
  /\ getTreatmentCount (js "2x W4t") (js "w4t") = 2%float
  /\ getTreatmentCount (js "W4t x 3") (js "w4t") = 3%float
  /\ getTreatmentCount (js "W4t") (js "w4t") = 1%float
  /\ getTreatmentCount (js "2x W4t, W4t x 3, W4t") (js "w4t") = 6%float.
Proof.
  intros Hcode. split; [|vm_compute; repeat split; reflexivity].
  unfold getTreatmentCount, countByScanning, matchAll.
  set (matches := matchAllFrom (S (length text)) (treatmentPattern code) None text).
  transitivity
    (fold_left (fun total s => (total + parseInt s)%float)
       (map (fun f => multiplierText (capture 1 (caps (final f))) (capture 3 (caps (final f))))
          matches) 0%float).
  - rewrite fold_left_map. now destruct matches.
  - subst matches. rewrite (matchAll_occurrences code Hcode), fold_left_map. reflexivity.
Qed.

Lemma count_is_sum_of_multipliers_witness :
  getTreatmentCount (js "3x KU, ku") (js "ku") = countByScanning (js "3x KU, ku") (js "ku")
  /\ getTreatmentCount (js "2x W4t") (js "w4t") = 2%float
  /\ getTreatmentCount (js "W4t x 3") (js "w4t") = 3%float
  /\ getTreatmentCount (js "W4t") (js "w4t") = 1%float
  /\ getTreatmentCount (js "2x W4t, W4t x 3, W4t") (js "w4t") = 6%float.
Proof.
  apply (count_is_sum_of_multipliers (js "3x KU, ku") (js "ku")). reflexivity.
Defined.


(** ** Crown reduction: the highest counted code only *)

(** C2, as stated, fails: in the cell 0x W4t, W2t the code W4t occurs, and
    with it the lower-ranked W2t, yet the count of W4t is 0 and the row is
    billed the W2t price. *)
Lemma present_code_with_multiplier_zero_is_not_billed :
  let cell := js "0x W4t, W2t" in
  length (occurrencesOf (js "w4t") cell) = 1
  /\ length (occurrencesOf (js "w2t") cell) = 1
  /\ getTreatmentCount cell (js "w4t") = 0%float
  /\ getTreatmentCount cell (js "w2t") = 1%float
  /\ rowPrice toLowerCaseLatin noOptions 0 1 [js "40"; cell] = 800%float.
Proof. vm_compute. repeat split; reflexivity. Qed.

(** *** Sums of multipliers *)

Lemma sum_nonNegative (l : list float) :
  (forall x, In x l -> isNonNegative (Prim2SF x)) ->
  forall acc, isNonNegative (Prim2SF acc) ->
  isNonNegative (Prim2SF (fold_left PrimFloat.add l acc))
  /\ (isPositive (Prim2SF (fold_left PrimFloat.add l acc))
      <-> isPositive (Prim2SF acc) \/ exists x, In x l /\ isPositive (Prim2SF x)).
Proof.
  induction l as [|y l IH]; intros Hl acc Hacc.
  - cbn. split; [exact Hacc|]. split; [now left | intros [H|(x & [] & _)]; exact H].
  - cbn [fold_left].
    destruct (add_nonNegative acc y Hacc (Hl y (or_introl eq_refl))) as [Hn Hp].
    destruct (IH (fun x Hx => Hl x (or_intror Hx)) (acc + y)%float Hn) as [IHn IHp].
    split; [exact IHn|]. rewrite IHp, Hp. split.
    + intros [[H|H]|(x & Hx & H)].
      * now left.
      * right. exists y. split; [now left | exact H].
      * right. exists x. split; [now right | exact H].
    + intros [H|(x & [<-|Hx] & H)].
      * left. now left.
      * left. now right.
      * right. now exists x.
Qed.

Lemma takeWhile_digitRun (text : str) :
  takeWhile isDigit text <> [] -> digitRun (takeWhile isDigit text).
Proof. intros H. split; [exact H | apply takeWhile_forallb]. Qed.

Lemma multiplierBefore_digits (pv : option N) (text ds : str) (st : option N * str) :
  multiplierBefore pv text = Some (ds, st) -> digitRun ds.
Proof.
  unfold multiplierBefore.
  destruct (takeWhile isDigit text) as [|d more] eqn:E; [discriminate|].
  destruct (skipClass isDigit pv text) as [p1 t1].
  destruct (skipClass isSpace p1 t1) as [p2 [|x t3]]; [discriminate|].
  destruct (isX x); [|discriminate].
  intros H. inversion H. subst ds. rewrite <- E. apply takeWhile_digitRun. now rewrite E.
Qed.

Lemma multiplierAfter_digits (pv : option N) (text ds : str) (st : option N * str) :
  multiplierAfter pv text = Some (ds, st) -> digitRun ds.
Proof.
  unfold multiplierAfter.
  destruct (skipClass isSpace pv text) as [p1 [|x t2]]; [discriminate|].
  destruct (isX x); [|discriminate].
  destruct (skipClass isSpace (Some x) t2) as [p2 t3].
  destruct (takeWhile isDigit t3) as [|d more] eqn:E; [discriminate|].
  intros H. inversion H. subst ds. rewrite <- E. apply takeWhile_digitRun. now rewrite E.
Qed.

Lemma multiplierText_digits (b a : option str) :
  (forall ds, b = Some ds -> digitRun ds) ->
  (forall ds, a = Some ds -> digitRun ds) ->
  digitRun (multiplierText b a).
Proof.
  intros Hb Ha. unfold multiplierText, orElse.
  destruct b as [[|c s]|].
  - destruct (Hb [] eq_refl) as [H _]. congruence.
  - exact (Hb (c :: s) eq_refl).
  - destruct a as [[|c s]|].
    + destruct (Ha [] eq_refl) as [H _]. congruence.
    + exact (Ha (c :: s) eq_refl).
    + split; [discriminate | reflexivity].
Qed.

Lemma occurrenceAt_digits (code : str) (pv : option N) (text : str) (o : occurrence) :
  occurrenceAt code pv text = Some o -> digitRun (multiplierText (before o) (after o)).
Proof.
  unfold occurrenceAt. intros H. apply multiplierText_digits.
  - intros ds Hb.
    destruct (multiplierBefore pv text) as [[ds' [p t]]|] eqn:E.
    + pose proof (multiplierBefore_digits pv text ds' (p, t) E) as Hd.
      destruct (wholeWord code p t) as [[p' t']|].
      * destruct (multiplierAfter p' t') as [[da st]|]; inversion H; subst o;
          cbn [before] in Hb; inversion Hb; now subst.
      * destruct (wholeWord code pv text) as [[p' t']|]; [|discriminate].
        destruct (multiplierAfter p' t') as [[da st]|]; inversion H; subst o;
          cbn [before] in Hb; discriminate.
    + destruct (wholeWord code pv text) as [[p' t']|]; [|discriminate].
      destruct (multiplierAfter p' t') as [[da st]|]; inversion H; subst o;
        cbn [before] in Hb; discriminate.
  - intros ds Ha.
    assert (Hafter : forall b p t,
               match multiplierAfter p t with
               | Some (ds0, st) => Some {| before := b; after := Some ds0; resume := st |}
               | None => Some {| before := b; after := None; resume := (p, t) |}
               end = Some o -> digitRun ds).
    { intros b p t Ho. destruct (multiplierAfter p t) as [[da st]|] eqn:E;
        inversion Ho; subst o; cbn [after] in Ha; [|discriminate].
      inversion Ha. subst da. exact (multiplierAfter_digits p t ds st E). }
    destruct (multiplierBefore pv text) as [[ds' [p t]]|].
    + destruct (wholeWord code p t) as [[p' t']|]; [exact (Hafter _ _ _ H)|].
      destruct (wholeWord code pv text) as [[p' t']|]; [exact (Hafter _ _ _ H) | discriminate].
    + destruct (wholeWord code pv text) as [[p' t']|]; [exact (Hafter _ _ _ H) | discriminate].
Qed.

Lemma nextOccurrence_digits (code : str) (text : str) :
  forall pv o, nextOccurrence code pv text = Some o ->
  digitRun (multiplierText (before o) (after o)).
Proof.
  induction text as [|c t IH]; intros pv o; cbn [nextOccurrence];
    destruct (occurrenceAt code pv _) as [o'|] eqn:E.
  - intros H. inversion H. subst o'. exact (occurrenceAt_digits _ _ _ _ E).
  - discriminate.
  - intros H. inversion H. subst o'. exact (occurrenceAt_digits _ _ _ _ E).
  - apply IH.
Qed.

Lemma occurrences_digits (code : str) (fuel : nat) :
  forall pv text o, In o (occurrencesFrom fuel code pv text) ->
  digitRun (multiplierText (before o) (after o)).
Proof.
  induction fuel as [|fuel IH]; intros pv text o; cbn [occurrencesFrom]; [contradiction|].
  destruct (nextOccurrence code pv text) as [o'|] eqn:E; [|contradiction].
  intros [<-|H]; [exact (nextOccurrence_digits _ _ _ _ E) | exact (IH _ _ _ H)].
Qed.

(** The multiplier of an occurrence is a whole number that is not negative. *)
Lemma multiplierOf_nonNegative (code : str) (fuel : nat) (pv : option N) (text : str)
    (o : occurrence) :
  In o (occurrencesFrom fuel code pv text) -> isNonNegative (Prim2SF (multiplierOf o)).
Proof.
  intros H. destruct (occurrences_digits code fuel pv text o H) as [Hne Hd].
  unfold multiplierOf. destruct (parseInt_digits _ Hne Hd) as [-> Hz].
  now apply floatOfZ_nonNegative.
Qed.

(** The count of a code is positive exactly when the code occurs with a
    positive multiplier. *)
Lemma count_positive (text code : str) :
  (0 <? countByScanning text code)%float = true
  <-> exists o, In o (occurrencesOf code text) /\ (0 <? multiplierOf o)%float = true.
Proof.
  unfold countByScanning. fold (occurrencesOf code text).
  rewrite <- (fold_left_map PrimFloat.add multiplierOf).
  destruct (sum_nonNegative (map multiplierOf (occurrencesOf code text))) with (acc := 0%float)
    as [_ H].
  - intros x Hx. apply in_map_iff in Hx as (o & <- & Ho).
    exact (multiplierOf_nonNegative _ _ _ _ _ Ho).
  - exact I.
  - rewrite positive_iff, H. split.
    + intros [[]|(x & Hx & Hp)]. apply in_map_iff in Hx as (o & <- & Ho).
      exists o. split; [exact Ho | now apply positive_iff].
    + intros (o & Ho & Hp). right. exists (multiplierOf o).
      split; [now apply in_map | now apply positive_iff].
Qed.

Lemma getTreatmentCount_scan (text code : str) :
  startsWithWordChar code = true ->
  getTreatmentCount text code = countByScanning text code.
Proof.
  intros Hcode. unfold getTreatmentCount, countByScanning, matchAll.
  set (matches := matchAllFrom (S (length text)) (treatmentPattern code) None text).
  transitivity
    (fold_left (fun total s => (total + parseInt s)%float)
       (map (fun f => multiplierText (capture 1 (caps (final f))) (capture 3 (caps (final f))))
          matches) 0%float).
  - rewrite fold_left_map. now destruct matches.
  - subst matches. rewrite (matchAll_occurrences code Hcode), fold_left_map. reflexivity.
Qed.

(** C2, amended. The crown reduction step bills one code at most, the
    highest-ranked one whose count is positive: w4tPrice times the W4t
    count, else w2tPrice times the W2t count, else wePrice times the WE
    count, added to the compartment part (then KU).  The count is the sum
    of the multipliers of the occurrences that the scan finds in the cell;
    it is positive exactly when the code occurs with a positive multiplier,
    so a code that does not occur, or occurs with the multiplier 0 only, is
    passed over.  A code that ranks below the billed one contributes
    nothing: the row price does not depend on its price. *)
Theorem crown_bills_highest_counted_code (toLowerCase : str -> str)
    (options : ProcessingOptions) (c t : nat) (row : list str) :
  let treatCell := cellAt row t in
  let base := addCsPrice options (cellAt row c) (toLowerCase treatCell) 0%float in
  let count := fun code => countByScanning treatCell code in
  let counted := fun code => (0 <? count code)%float in
  rowPrice toLowerCase options c t row
  = addKuPrice options treatCell
      (if counted (js "w4t")
       then (base + orDefault (w4tPrice options) 1200 * count (js "w4t"))%float
       else if counted (js "w2t")
       then (base + orDefault (w2tPrice options) 800 * count (js "w2t"))%float
       else if counted (js "we")
       then (base + orDefault (wePrice options) 800 * count (js "we"))%float
       else base)
  /\ (forall code,
        counted code = true
        <-> exists o, In o (occurrencesOf code treatCell)
                      /\ (0 <? multiplierOf o)%float = true)
  /\ (counted (js "w4t") = true ->
      forall w2t we,
        rowPrice toLowerCase (withLowerCrownPrices options w2t we) c t row
        = rowPrice toLowerCase options c t row)
  /\ (counted (js "w4t") = false -> counted (js "w2t") = true ->
      forall we,
        rowPrice toLowerCase (withLowerCrownPrices options (w2tPrice options) we) c t row
        = rowPrice toLowerCase options c t row).
Proof.
  intros treatCell base count counted.
  assert (E4 : getTreatmentCount treatCell (js "w4t") = count (js "w4t"))
    by now apply getTreatmentCount_scan.
  assert (E2 : getTreatmentCount treatCell (js "w2t") = count (js "w2t"))
    by now apply getTreatmentCount_scan.
  assert (Ee : getTreatmentCount treatCell (js "we") = count (js "we"))
    by now apply getTreatmentCount_scan.
  split; [|split; [|split]].
  - unfold rowPrice, addCrownPrice. fold treatCell. fold base.
    rewrite E4, E2, Ee. reflexivity.
  - intros code. apply count_positive.
  - intros H4 w2t we. unfold rowPrice, addCrownPrice.
    fold treatCell. rewrite E4. fold (counted (js "w4t")). rewrite H4. reflexivity.
  - intros H4 H2 we. unfold rowPrice, addCrownPrice.
    fold treatCell. rewrite E4, E2.
    fold (counted (js "w4t")). fold (counted (js "w2t")). rewrite H4, H2. reflexivity.
Qed.

Lemma crown_bills_highest_counted_code_witness :
  rowPrice toLowerCaseLatin (withLowerCrownPrices noOptions (Some 5%float) (Some 7%float))
    0 1 [js "40"; js "W2t, 2x W4t"]
  = rowPrice toLowerCaseLatin noOptions 0 1 [js "40"; js "W2t, 2x W4t"].
Proof.
  destruct (crown_bills_highest_counted_code toLowerCaseLatin noOptions 0 1
              [js "40"; js "W2t, 2x W4t"]) as (_ & _ & H & _).
  apply H. vm_compute. reflexivity.
Defined.

(** A cell with both W2t and W4t is billed the W4t price alone. *)
Example w2t_beside_w4t_is_not_billed :
  rowPrice toLowerCaseLatin noOptions 0 1 [js "40"; js "W2t, 2x W4t"] = 2400%float.
Proof. vm_compute. reflexivity. Qed.

(** ** Merging

    A list of one table is returned as it is; merging moves rows from one
    table to another and loses none; in its result no table can be merged
    with the one before it, so that merging once more changes nothing. *)

Section Merging.

Variable toLowerCase : str -> str.

Lemma withRows_same (t : ExtractedTable) : withRows t (rows t) = t.
Proof. now destruct t. Qed.

(** X1. Merging a list of one table returns the list as it is. *)
Theorem merging_one_table_is_identity (t : ExtractedTable) :
  mergeCompatibleTables toLowerCase [t] = [t].
Proof. cbn. now rewrite withRows_same. Qed.

Lemma fold_mergeStep_rows (others : list ExtractedTable) :
  forall merged cur,
  let '(merged', cur') := fold_left (mergeStep toLowerCase) others (merged, cur) in
  concat (map rows merged') ++ rows cur'
  = concat (map rows merged) ++ rows cur ++ concat (map rows others).
Proof.
  induction others as [|next others IH]; intros merged cur.
  - cbn. now rewrite app_nil_r.
  - cbn [fold_left mergeStep].
    destruct (compatible toLowerCase cur next).
    + specialize (IH merged (withRows cur (rows cur ++ rows next))).
      destruct (fold_left _ _ _) as [merged' cur']. rewrite IH. cbn. now rewrite <- app_assoc.
    + specialize (IH (merged ++ [cur]) (withRows next (rows next))).
      destruct (fold_left _ _ _) as [merged' cur']. rewrite IH. cbn.
      rewrite map_app, concat_app. cbn. now rewrite app_nil_r, <- app_assoc.
Qed.

(** X2. The rows of the merged tables, read table after table, are the
    rows of the given tables, read table after table. *)
Theorem merging_keeps_every_row_in_order (tables : list ExtractedTable) :
  concat (map rows (mergeCompatibleTables toLowerCase tables)) = concat (map rows tables).
Proof.
  destruct tables as [|first others]; [reflexivity|].
  unfold mergeCompatibleTables.
  pose proof (fold_mergeStep_rows others [] (withRows first (rows first))) as H.
  destruct (fold_left _ _ _) as [merged cur].
  rewrite map_app, concat_app. cbn. rewrite app_nil_r. exact H.
Qed.

Lemma compatible_withRows_l (a b : ExtractedTable) rs :
  compatible toLowerCase (withRows a rs) b = compatible toLowerCase a b.
Proof. reflexivity. Qed.

Lemma compatible_withRows_r (a b : ExtractedTable) rs :
  compatible toLowerCase a (withRows b rs) = compatible toLowerCase a b.
Proof. reflexivity. Qed.

Lemma separated_snoc (l : list ExtractedTable) :
  forall a b,
  separated toLowerCase (l ++ [a]) = true ->
  compatible toLowerCase a b = false ->
  separated toLowerCase ((l ++ [a]) ++ [b]) = true.
Proof.
  induction l as [|c l IH]; intros a b Hs Hc.
  - cbn. now rewrite Hc.
  - destruct l as [|d l].
    + cbn in *. rewrite Hc. apply andb_true_iff in Hs as [-> _]. reflexivity.
    + cbn [app separated] in *. apply andb_true_iff in Hs as [-> Hs]. cbn [andb].
      apply (IH a b Hs Hc).
Qed.

Lemma separated_last_rows (l : list ExtractedTable) :
  forall a rs,
  separated toLowerCase (l ++ [a]) = true ->
  separated toLowerCase (l ++ [withRows a rs]) = true.
Proof.
  induction l as [|c l IH]; intros a rs Hs; [reflexivity|].
  destruct l as [|d l].
  - cbn in *. now rewrite compatible_withRows_r.
  - cbn [app separated] in *. apply andb_true_iff in Hs as [-> Hs]. cbn [andb].
    apply (IH a rs Hs).
Qed.

Lemma fold_mergeStep_separated (others : list ExtractedTable) :
  forall merged cur,
  separated toLowerCase (merged ++ [cur]) = true ->
  let '(merged', cur') := fold_left (mergeStep toLowerCase) others (merged, cur) in
  separated toLowerCase (merged' ++ [cur']) = true.
Proof.
  induction others as [|next others IH]; intros merged cur Hs; [exact Hs|].
  cbn [fold_left mergeStep].
  destruct (compatible toLowerCase cur next) eqn:Hc.
  - apply IH. now apply separated_last_rows.
  - apply IH. apply separated_snoc; [exact Hs|]. now rewrite compatible_withRows_r.
Qed.

Lemma fold_mergeStep_on_separated (others : list ExtractedTable) :
  forall merged cur,
  separated toLowerCase (cur :: others) = true ->
  let '(merged', cur') := fold_left (mergeStep toLowerCase) others (merged, cur) in
  merged' ++ [cur'] = merged ++ cur :: others.
Proof.
  induction others as [|next others IH]; intros merged cur Hs; [reflexivity|].
  cbn [fold_left mergeStep]. cbn [separated] in Hs.
  apply andb_true_iff in Hs as [Hc Hs]. apply negb_true_iff in Hc. rewrite Hc.
  rewrite withRows_same.
  specialize (IH (merged ++ [cur]) next Hs).
  destruct (fold_left _ _ _) as [merged' cur']. rewrite IH. now rewrite <- app_assoc.
Qed.

(** X3. No table of the merged list is compatible with the one before
    it, and merging the merged list returns it as it is. *)
Theorem merging_is_idempotent (tables : list ExtractedTable) :
  separated toLowerCase (mergeCompatibleTables toLowerCase tables) = true
  /\ mergeCompatibleTables toLowerCase (mergeCompatibleTables toLowerCase tables)
     = mergeCompatibleTables toLowerCase tables.
Proof.
  assert (Hsep : separated toLowerCase (mergeCompatibleTables toLowerCase tables) = true).
  { destruct tables as [|first others]; [reflexivity|].
    unfold mergeCompatibleTables.
    pose proof (fold_mergeStep_separated others [] (withRows first (rows first)) eq_refl) as H.
    now destruct (fold_left _ _ _) as [merged cur]. }
  split; [exact Hsep|].
  destruct (mergeCompatibleTables toLowerCase tables) as [|first others]; [reflexivity|].
  unfold mergeCompatibleTables. rewrite withRows_same.
  pose proof (fold_mergeStep_on_separated others [] first Hsep) as H.
  now destruct (fold_left _ _ _) as [merged cur].
Qed.

End Merging.

(** ** Renumbering

    Unless the ordinals are to be preserved, the rows that survive the
    final cleanup are numbered 1, 2, ... in their order, where the first
    cell looked like a number; a first cell of another shape is left as
    it is. *)

Lemma nth_error_indexed_from {A : Type} (l : list A) :
  forall start i x,
  nth_error l i = Some x ->
  nth_error (combine (seq start (length l)) l) i = Some (start + i, x).
Proof.
  induction l as [|a l IH]; intros start [|i] x H; try discriminate.
  - cbn in *. rewrite Nat.add_0_r. congruence.
  - cbn in *. rewrite (IH (S start) i x H). f_equal. f_equal. lia.
Qed.

(** X4. Without [preserveLp], the rows with a non-blank cell behind the
    first are kept, and the row at position [i] of them gets the ordinal
    [i + 1] where its first cell looked like a number, and is left as it is
    otherwise. *)
Theorem surviving_rows_are_renumbered (options : ProcessingOptions)
    (newRows : list (list str)) :
  isTrue (preserveLp options) = false ->
  let kept := filter hasContent newRows in
  let out := finalCleanup options newRows in
  length out = length kept
  /\ forall i firstCell others,
     nth_error kept i = Some (firstCell :: others) ->
     nth_error out i
     = Some (if numeralShaped firstCell
             then decimal (N.of_nat (i + 1)) :: others
             else firstCell :: others).
Proof.
  intros Hp kept out. subst out. unfold finalCleanup. fold kept. rewrite Hp. cbn [negb andb].
  destruct kept as [|r kept'] eqn:E; [split; [reflexivity|]; intros [|i]; discriminate|].
  rewrite <- E. replace (0 <? length kept) with true by now rewrite E.
  split.
  - unfold indexed. rewrite length_map, length_combine, length_seq. lia.
  - intros i firstCell others H. unfold indexed.
    rewrite nth_error_map, (nth_error_indexed_from kept 0 i _ H). cbn [option_map renumberRow].
    unfold numeralShaped. now destruct (truthy firstCell && _).
Qed.

Lemma surviving_rows_are_renumbered_witness :
  let newRows :=
    [[js "7"; js "Dąb"]; [js "8"; js " "]; [js "a"; js "Lipa"]; [js "12."; js "Klon"]] in
  length (finalCleanup noOptions newRows) = 3
  /\ nth_error (finalCleanup noOptions newRows) 2 = Some [js "3"; js "Klon"].
Proof.
  intros newRows.
  destruct (surviving_rows_are_renumbered noOptions newRows eq_refl) as [Hl Hn].
  split; [exact Hl|].
  exact (Hn 2 (js "12.") [js "Klon"] eq_refl).
Defined.

(** ** The price schedule

    A row with the treatment CS and a whole circumference between 0 and
    1000 is priced by the compartment that holds the circumference, and
    is priced 0 beyond the last compartment. *)

Lemma map_eq_pointwise {A B : Type} (f g : A -> B) (l : list A) :
  map f l = map g l -> forall x, In x l -> f x = g x.
Proof.
  induction l as [|a l IH]; intros H x []; cbn in H; injection H as H1 H2.
  - now subst.
  - now apply IH.
Qed.

(** X5. With the default options, the row of a whole circumference from
    0 to 1000 and of the treatment CS has the price that the schedule gives
    to the circumference, 0 above the last compartment. *)
Theorem sanitary_cut_is_priced_by_tier (cm : Z) :
  (0 <= cm <= 1000)%Z ->
  rowPrice toLowerCaseLatin noOptions 0 1 [zDecimal cm; js "CS"] = floatOfZ (priceByTable cm).
Proof.
  intros H.
  apply (map_eq_pointwise
           (fun cm => rowPrice toLowerCaseLatin noOptions 0 1 [zDecimal cm; js "CS"])
           (fun cm => floatOfZ (priceByTable cm))
           (map Z.of_nat (seq 0 1001))).
  - vm_compute. reflexivity.
  - apply in_map_iff. exists (Z.to_nat cm). split; [lia|]. apply in_seq. lia.
Qed.

Lemma sanitary_cut_is_priced_by_tier_witness :
  rowPrice toLowerCaseLatin noOptions 0 1 [js "151"; js "CS"] = 848%float.
Proof.
  apply (sanitary_cut_is_priced_by_tier 151). lia.
Defined.

(** ** Tables and titles

    Processing gives one table for each merged table, under the same
    title. *)

(** X6. The processed tables are as many as the merged tables, under
    the same titles in the same order. *)
Theorem processing_keeps_the_titles (toLowerCase : str -> str)
    (rawTables : list ExtractedTable) (options : ProcessingOptions) :
  map title (processedTables (processTablesWithPricing toLowerCase rawTables options))
  = map title (mergeCompatibleTables toLowerCase rawTables).
Proof.
  rewrite processTablesWithPricing_unfold. cbn [processedTables].
  rewrite map_map. apply map_ext. intros table. unfold processTable.
  destruct (classifyColumns toLowerCase table) as [[c|] [t|]]; try reflexivity.
  now destruct (fold_left _ _ _) as [[tn tb] newRows].
Qed.

(** ** The two roles of a column *)

Section Roles.

Variable toLowerCase : str -> str.
Variable options : ProcessingOptions.

Lemma resolveConflict_distinct (s : selection) (c t : nat) :
  resolveConflict s = (Some c, Some t) -> c <> t.
Proof.
  unfold resolveConflict.
  destruct (bestCircIdx s) as [i|]; [|discriminate].
  destruct (bestTreatIdx s) as [j|]; cbn [sameIndex].
  - destruct (Nat.eqb i j) eqn:E.
    + destruct (maxCircScore s <=? maxTreatScore s)%Z; discriminate.
    + intros H. inversion H. subst. now apply Nat.eqb_neq.
  - discriminate.
Qed.

(** X7. The two resolved columns are never the same column.  When one
    column has the best score for both roles, the role with the lower
    score is dropped, the circumference on a tie, and the table is
    returned unpriced: rows filtered, headers and totals untouched. *)
Theorem one_column_never_serves_both_roles (tot : float * float) (table : ExtractedTable) :
  let s := selectBest (scoreColumns toLowerCase table) in
  (forall c t, classifyColumns toLowerCase table = (Some c, Some t) -> c <> t)
  /\ (forall i,
        bestCircIdx s = Some i -> bestTreatIdx s = Some i ->
        processTable toLowerCase options tot table
        = (withRows table
             (rowsToProcess toLowerCase options
                (if (maxCircScore s <=? maxTreatScore s)%Z then Some i else None) table),
           tot)).
Proof.
  intros s. split.
  - intros c t. apply resolveConflict_distinct.
  - intros i Hc Ht.
    assert (E : classifyColumns toLowerCase table
                = if (maxCircScore s <=? maxTreatScore s)%Z
                  then (None, Some i) else (Some i, None)).
    { unfold classifyColumns, resolveConflict. fold s. rewrite Hc, Ht.
      cbn [sameIndex]. now rewrite Nat.eqb_refl. }
    destruct (processTable_unresolved toLowerCase options tot table) as [-> _].
    + rewrite E. destruct (maxCircScore s <=? maxTreatScore s)%Z; [now left | now right].
    + rewrite E. now destruct (maxCircScore s <=? maxTreatScore s)%Z.
Qed.

End Roles.

Lemma one_column_never_serves_both_roles_witness :
  processTable toLowerCaseLatin noOptions zeroTotals conflictTable
  = (withRows conflictTable (rows conflictTable), zeroTotals).
Proof.
  destruct (one_column_never_serves_both_roles toLowerCaseLatin noOptions zeroTotals
              conflictTable) as [_ H].
  apply (H 0); vm_compute; reflexivity.
Defined.

(** ** Tables that are not priced *)

(** X8. When every merged table lacks a resolved column, both totals are
    0 and every table is returned with its rows filtered and nothing
    else changed. *)
Theorem unresolved_tables_price_nothing (toLowerCase : str -> str)
    (rawTables : list ExtractedTable) (options : ProcessingOptions) :
  (forall table, In table (mergeCompatibleTables toLowerCase rawTables) ->
     fst (classifyColumns toLowerCase table) = None
     \/ snd (classifyColumns toLowerCase table) = None) ->
  processTablesWithPricing toLowerCase rawTables options
  = {| processedTables :=
         map (fun table =>
                withRows table
                  (rowsToProcess toLowerCase options
                     (snd (classifyColumns toLowerCase table)) table))
             (mergeCompatibleTables toLowerCase rawTables);
       totals := {| totalNetto := 0; totalBrutto := 0 |} |}.
Proof.
  intros H. rewrite processTablesWithPricing_unfold.
  assert (E : flat_map (fun table => pricedNets (annotatedRows toLowerCase options table))
                (mergeCompatibleTables toLowerCase rawTables) = []).
  { induction (mergeCompatibleTables toLowerCase rawTables) as [|table l IH]; [reflexivity|].
    cbn [flat_map].
    destruct (processTable_unresolved toLowerCase options zeroTotals table) as [_ ->];
      [apply H; now left|].
    apply IH. intros t Ht. apply H. now right. }
  rewrite E. f_equal.
  apply map_ext_in. intros table Ht.
  now destruct (processTable_unresolved toLowerCase options zeroTotals table (H table Ht))
    as [-> _].
Qed.

Lemma unresolved_tables_price_nothing_witness :
  processTablesWithPricing toLowerCaseLatin [plainTable] noOptions
  = {| processedTables := [plainTable];
       totals := {| totalNetto := 0; totalBrutto := 0 |} |}.
Proof.
  apply (unresolved_tables_price_nothing toLowerCaseLatin [plainTable] noOptions).
  intros table [<-|[]]. left. vm_compute. reflexivity.
Defined.

(** ** A repeated header line *)

Lemma ones_ratio (k : nat) : 1 <= k <= 4096 -> headerLikeRatio (ones k) = true.
Proof.
  intros H.
  assert (A : forallb (fun k => headerLikeRatio (ones k)) (seq 1 4096) = true)
    by (vm_compute; reflexivity).
  rewrite forallb_forall in A. apply A. apply in_seq. lia.
Qed.

Lemma str_eqb_refl (s : str) : str_eqb s s = true.
Proof. unfold str_eqb. now destruct (list_eq_dec N.eq_dec s s). Qed.

Section HeaderLine.

Variable toLowerCase : str -> str.

Variables row referenceHeaders : list str.
Hypothesis same :
  map (normalizeText toLowerCase) row = map (normalizeText toLowerCase) referenceHeaders.

Lemma same_cell (i : nat) :
  normalizeText toLowerCase (cellAt row i)
  = normalizeText toLowerCase (cellAt referenceHeaders i).
Proof.
  unfold cellAt.
  rewrite <- (map_nth (normalizeText toLowerCase) row [] i).
  rewrite <- (map_nth (normalizeText toLowerCase) referenceHeaders [] i).
  now rewrite same.
Qed.

Lemma fold_compareColumn_same (l : list nat) :
  forall k,
  fold_left (compareColumn toLowerCase referenceHeaders row) l (ones k, ones k)
  = (ones (k + length (filter (hasText toLowerCase referenceHeaders) l)),
     ones (k + length (filter (hasText toLowerCase referenceHeaders) l))).
Proof.
  induction l as [|i l IH]; intros k.
  - cbn. now rewrite Nat.add_0_r.
  - cbn [fold_left filter]. unfold compareColumn at 2. rewrite same_cell.
    fold (hasText toLowerCase referenceHeaders i).
    destruct (hasText toLowerCase referenceHeaders i); cbn [negb andb].
    + rewrite str_eqb_refl. change ((ones k + 1)%float) with (ones (S k)).
      rewrite IH. cbn [length]. rewrite Nat.add_succ_r. reflexivity.
    + apply IH.
Qed.

Hypothesis someText :
  exists h, In h referenceHeaders /\ normalizeText toLowerCase h <> [].
Hypothesis fewColumns : length referenceHeaders <= 4096.

Lemma same_length : length row = length referenceHeaders.
Proof.
  rewrite <- (length_map (normalizeText toLowerCase) row), same. apply length_map.
Qed.

Lemma count_hasText :
  1 <= length (filter (hasText toLowerCase referenceHeaders)
                 (seq 0 (length referenceHeaders))) <= 4096.
Proof.
  split.
  - destruct someText as (h & Hin & Hh).
    apply (In_nth _ _ []) in Hin as (i & Hi & E).
    assert (Hf : In i (filter (hasText toLowerCase referenceHeaders)
                        (seq 0 (length referenceHeaders)))).
    { apply filter_In. split; [apply in_seq; split; [apply Nat.le_0_l | exact Hi]|].
      assert (G : truthy (normalizeText toLowerCase h) = true)
        by now destruct (normalizeText toLowerCase h).
      rewrite <- E in G. exact G. }
    destruct (filter (hasText toLowerCase referenceHeaders)
                (seq 0 (length referenceHeaders))); [contradiction | cbn; lia].
  - pose proof (filter_length_le (hasText toLowerCase referenceHeaders)
                  (seq 0 (length referenceHeaders))) as H.
    rewrite length_seq in H. lia.
Qed.

Lemma isHeaderRow_same : isHeaderRow toLowerCase row referenceHeaders = true.
Proof.
  unfold isHeaderRow.
  destruct (3 <=? _); [reflexivity|].
  destruct (_ && _); [reflexivity|].
  destruct someText as (h & Hin & _).
  replace (0 <? length referenceHeaders) with true
    by (destruct referenceHeaders; [contradiction | reflexivity]).
  rewrite same_length, Nat.min_id.
  pose proof (fold_compareColumn_same (seq 0 (length referenceHeaders)) 0) as F.
  change (ones 0) with 0%float in F. cbn [Nat.add] in F. rewrite F.
  apply (ones_ratio _ count_hasText).
Qed.

End HeaderLine.

(** X9. A row that repeats the header line, letter case, white space and
    the marks . , ; : apart, is a header row, and is not among the rows
    that are priced; at least one header must have text, and the proof
    covers up to 4096 headers. *)
Theorem repeated_header_line_is_dropped (toLowerCase : str -> str)
    (options : ProcessingOptions) (bestTreatIdx : option nat) (table : ExtractedTable)
    (row : list str) :
  map (normalizeText toLowerCase) row = map (normalizeText toLowerCase) (headers table) ->
  (exists h, In h (headers table) /\ normalizeText toLowerCase h <> []) ->
  length (headers table) <= 4096 ->
  isHeaderRow toLowerCase row (headers table) = true
  /\ ~ In row (rowsToProcess toLowerCase options bestTreatIdx table).
Proof.
  intros Hs Ht Hl.
  pose proof (isHeaderRow_same toLowerCase row (headers table) Hs Ht Hl) as H.
  split; [exact H|]. intros Hin.
  apply rowsToProcess_origin in Hin as [_ Hin]. congruence.
Qed.

Lemma repeated_header_line_is_dropped_witness :
  isHeaderRow toLowerCaseLatin [js "LP."; js " gatunek"; js "Obwód:"; js "ZABIEGI"]
    (headers oakTable) = true
  /\ ~ In [js "LP."; js " gatunek"; js "Obwód:"; js "ZABIEGI"]
        (rowsToProcess toLowerCaseLatin noOptions (Some 3) oakTable).
Proof.
  apply (repeated_header_line_is_dropped toLowerCaseLatin noOptions (Some 3) oakTable).
  - vm_compute. reflexivity.
  - exists (js "Lp"). split; [now left | vm_compute; discriminate].
  - vm_compute. lia.
Defined.

(** ** Where merged tables come from *)

Section MergedTables.

Variable toLowerCase : str -> str.

Lemma fold_mergeStep_labels (others : list ExtractedTable) :
  forall merged cur (given : list ExtractedTable),
  (forall t', In t' (merged ++ [cur]) -> exists t, In t given /\ sameLabels t' t) ->
  (forall t, In t others -> In t given) ->
  let '(merged', cur') := fold_left (mergeStep toLowerCase) others (merged, cur) in
  (forall t', In t' (merged' ++ [cur']) -> exists t, In t given /\ sameLabels t' t)
  /\ length merged' + 1 <= length merged + 1 + length others.
Proof.
  induction others as [|next others IH]; intros merged cur given Hm Ho.
  - cbn. split; [exact Hm | lia].
  - cbn [fold_left mergeStep].
    destruct (compatible toLowerCase cur next).
    + specialize (IH merged (withRows cur (rows cur ++ rows next)) given).
      destruct (fold_left _ _ _) as [merged' cur'].
      destruct IH as [IH1 IH2].
      * intros t' Ht'. apply in_app_or in Ht' as [Ht'|[<-|[]]].
        -- apply Hm. apply in_or_app. now left.
        -- destruct (Hm cur) as (t & Ht & Hl); [apply in_or_app; right; now left|].
           exists t. split; [exact Ht | exact Hl].
      * intros t Ht. apply Ho. now right.
      * split; [exact IH1 | cbn [length]; lia].
    + specialize (IH (merged ++ [cur]) (withRows next (rows next)) given).
      destruct (fold_left _ _ _) as [merged' cur'].
      destruct IH as [IH1 IH2].
      * intros t' Ht'. apply in_app_or in Ht' as [Ht'|[<-|[]]].
        -- now apply Hm.
        -- exists next. split; [apply Ho; now left | now split].
      * intros t Ht. apply Ho. now right.
      * split; [exact IH1|]. rewrite length_app in IH2. cbn [length] in *. lia.
Qed.

Lemma fold_mergeStep_first (others : list ExtractedTable) (first : ExtractedTable) :
  forall merged cur,
  (exists t' rest, merged ++ [cur] = t' :: rest /\ sameLabels t' first) ->
  let '(merged', cur') := fold_left (mergeStep toLowerCase) others (merged, cur) in
  exists t' rest, merged' ++ [cur'] = t' :: rest /\ sameLabels t' first.
Proof.
  induction others as [|next others IH]; intros merged cur H; [exact H|].
  cbn [fold_left mergeStep].
  destruct (compatible toLowerCase cur next); apply IH.
  - destruct H as (t' & rest & E & Hl). destruct merged as [|m merged].
    + cbn in E. inversion E. subst t' rest.
      exists (withRows cur (rows cur ++ rows next)), []. split; [reflexivity | exact Hl].
    + cbn in E. inversion E. subst t'.
      exists m, (merged ++ [withRows cur (rows cur ++ rows next)]).
      split; [reflexivity | exact Hl].
  - destruct H as (t' & rest & E & Hl). rewrite E.
    exists t', (rest ++ [withRows next (rows next)]). split; [reflexivity | exact Hl].
Qed.

(** X10. Merging gives no more tables than it was given, none only for
    none; each merged table has the title and the headers of a given
    table, the first one those of the first given table. *)
Theorem merged_tables_come_from_given_tables (tables : list ExtractedTable) :
  length (mergeCompatibleTables toLowerCase tables) <= length tables
  /\ (mergeCompatibleTables toLowerCase tables = [] <-> tables = [])
  /\ (forall t', In t' (mergeCompatibleTables toLowerCase tables) ->
        exists t, In t tables /\ title t' = title t /\ headers t' = headers t)
  /\ (forall first others, tables = first :: others ->
        exists t' rest, mergeCompatibleTables toLowerCase tables = t' :: rest
                        /\ title t' = title first /\ headers t' = headers first).
Proof.
  destruct tables as [|first others].
  - cbn. repeat split; try lia; try contradiction; discriminate.
  - unfold mergeCompatibleTables.
    pose proof (fold_mergeStep_labels others [] (withRows first (rows first))
                  (first :: others)) as H.
    pose proof (fold_mergeStep_first others first [] (withRows first (rows first))) as F.
    destruct (fold_left _ _ _) as [merged cur].
    destruct H as [H1 H2].
    + intros t' [<-|[]]. exists first. split; [now left | now split].
    + intros t Ht. now right.
    + repeat split.
      * rewrite length_app. cbn [length] in *. lia.
      * intros E. now destruct merged.
      * discriminate.
      * exact H1.
      * intros f o E. inversion E. subst f o.
        destruct F as (t' & rest & E' & Hl1 & Hl2).
        -- exists (withRows first (rows first)), []. split; [reflexivity | now split].
        -- exists t', rest. now split.
Qed.

End MergedTables.

(** ** Rows that are removed *)

Section RemovedRows.

Variable toLowerCase : str -> str.
Variable options : ProcessingOptions.

Lemma rowsToProcess_not_uo (t : nat) (table : ExtractedTable) (row : list str) :
  isTrue (removeUoRows options) = true ->
  In row (rowsToProcess toLowerCase options (Some t) table) ->
  isUoRow toLowerCase t row = false.
Proof.
  unfold rowsToProcess. intros -> H. apply filter_In in H as [_ H].
  now apply negb_true_iff.
Qed.

Lemma cellAt_tl (row : list str) (t : nat) : cellAt row (S t) = cellAt (tl row) t.
Proof. unfold cellAt. destruct row; [now destruct t | reflexivity]. Qed.

Lemma isUoRow_tl (t : nat) (a b : list str) :
  tl a = tl b -> isUoRow toLowerCase (S t) a = isUoRow toLowerCase (S t) b.
Proof. intros H. unfold isUoRow. now rewrite !cellAt_tl, H. Qed.

Lemma isUoRow_app (t : nat) (row extra : list str) :
  t < length row -> isUoRow toLowerCase t (row ++ extra) = isUoRow toLowerCase t row.
Proof. intros H. unfold isUoRow, cellAt. now rewrite app_nth1. Qed.

(** X11. With [removeUoRows] and a resolved treatment column, every
    output row comes from a row whose treatment cell is not Uo; the output
    row itself has no Uo there when the table is unpriced, and in a priced
    table when the column is neither the first one nor a price cell. *)
Theorem uo_rows_are_removed (tot : float * float) (table : ExtractedTable)
    (t : nat) (row' : list str) :
  isTrue (removeUoRows options) = true ->
  snd (classifyColumns toLowerCase table) = Some t ->
  In row' (rows (fst (processTable toLowerCase options tot table))) ->
  (exists row,
     In row (rows table) /\ isUoRow toLowerCase t row = false
     /\ (row' = row
         \/ exists n g, length row' = length row + 2 /\ tl row' = tl (row ++ [n; g])))
  /\ (fst (classifyColumns toLowerCase table) = None -> isUoRow toLowerCase t row' = false)
  /\ (0 < t -> t + 2 < length row' -> isUoRow toLowerCase t row' = false).
Proof.
  intros Hu Ht Hin.
  destruct (classifyColumns toLowerCase table) as [[c|] bt] eqn:E; cbn [snd fst] in *; subst bt.
  - rewrite (processTable_resolved toLowerCase options tot table c t E) in Hin.
    cbn [fst rows] in Hin. unfold annotatedRows in Hin. rewrite E in Hin.
    apply finalCleanup_origin in Hin as (cells & Hcells & Hrow').
    apply annotate_origin in Hcells as (row & n & g & Hrow & ->).
    pose proof (rowsToProcess_not_uo t table row Hu Hrow) as Hnot.
    apply rowsToProcess_origin in Hrow as [Hrow _].
    assert (Hshape : length row' = length row + 2 /\ tl row' = tl (row ++ [n; g])).
    { destruct Hrow' as [->|(k & x & rest & E' & ->)].
      - split; [|reflexivity]. rewrite length_app. reflexivity.
      - rewrite E'. cbn [tl length]. split; [|reflexivity].
        apply (f_equal (@length str)) in E'. rewrite length_app in E'.
        cbn [length] in E'. lia. }
    split; [|split].
    + exists row. split; [exact Hrow|]. split; [exact Hnot|]. right. now exists n, g.
    + discriminate.
    + intros Hpos Hlen. destruct Hshape as [Hl Htl].
      destruct t as [|t]; [lia|].
      rewrite (isUoRow_tl t row' (row ++ [n; g]) Htl).
      rewrite isUoRow_app by lia. exact Hnot.
  - destruct (processTable_unresolved toLowerCase options tot table) as [Hp _];
      [rewrite E; now left|].
    rewrite Hp, E in Hin. cbn [fst snd rows withRows] in Hin.
    pose proof (rowsToProcess_not_uo t table row' Hu Hin) as Hnot.
    apply rowsToProcess_origin in Hin as [Hrow _].
    split; [|split].
    + exists row'. split; [exact Hrow|]. split; [exact Hnot | now left].
    + intros _. exact Hnot.
    + intros _ _. exact Hnot.
Qed.

(** X12. With [removeZeroPriceRows], every row of a priced table is a
    retained row of strictly positive net price followed by its two
    formatted prices, its first cell possibly renumbered. *)
Theorem zero_price_rows_are_removed (tot : float * float) (table : ExtractedTable)
    (c t : nat) (row' : list str) :
  isTrue (removeZeroPriceRows options) = true ->
  classifyColumns toLowerCase table = (Some c, Some t) ->
  In row' (rows (fst (processTable toLowerCase options tot table))) ->
  exists row,
    In row (rowsToProcess toLowerCase options (Some t) table)
    /\ (0 <? rowPrice toLowerCase options c t row)%float = true
    /\ let net := rowPrice toLowerCase options c t row in
       let prices := [formatPrice net; formatPrice (net * (1 + VAT_RATE))%float] in
       row' = row ++ prices
       \/ exists k first rest, row = first :: rest /\ row' = decimal k :: rest ++ prices.
Proof.
  intros Hz Hc Hin.
  rewrite (processTable_resolved toLowerCase options tot table c t Hc) in Hin.
  cbn [fst rows] in Hin. unfold annotatedRows in Hin. rewrite Hc in Hin.
  apply finalCleanup_origin in Hin as (cells & Hcells & Hrow').
  apply in_map_iff in Hcells as ([cells' net] & Hfst & Hcells). cbn [fst] in Hfst. subst cells'.
  apply in_flat_map in Hcells as (row & Hrow & Ha).
  unfold annotate in Ha. rewrite Hz in Ha.
  destruct (0 <? rowPrice toLowerCase options c t row)%float eqn:Hp; [|contradiction].
  destruct Ha as [Ha|[]]. inversion Ha as [[Hcells Hnet]]. clear Ha.
  exists row. split; [exact Hrow|]. split; [exact Hp|].
  cbv zeta. change (grossOf ?x) with (x * (1 + VAT_RATE))%float in Hcells.
  destruct Hrow' as [->|(k & x & rest & E' & ->)].
  - left. now rewrite <- Hcells.
  - right. destruct row as [|first rest0].
    + rewrite (rowPrice_nil toLowerCase options) in Hp. discriminate.
    + rewrite <- Hcells in E'. cbn [app] in E'. inversion E'. subst x rest.
      now exists k, first, rest0.
Qed.

Lemma length_flat_map_annotate (c t : nat) (rs : list (list str)) :
  length (flat_map (annotate toLowerCase options c t) rs) <= length rs.
Proof.
  induction rs as [|row rs IH]; [reflexivity|].
  cbn [flat_map]. rewrite length_app. unfold annotate at 1.
  destruct (0 <? _)%float; [cbn; lia|].
  destruct (isTrue _); cbn; lia.
Qed.

Lemma length_finalCleanup (newRows : list (list str)) :
  length (finalCleanup options newRows) <= length newRows.
Proof.
  unfold finalCleanup. pose proof (filter_length_le hasContent newRows) as H.
  destruct (_ && _); [|exact H].
  unfold indexed. rewrite length_map, length_combine, length_seq. lia.
Qed.

Lemma length_rowsToProcess (bt : option nat) (table : ExtractedTable) :
  length (rowsToProcess toLowerCase options bt table) <= length (rows table).
Proof.
  unfold rowsToProcess, dropHeaderRows.
  pose proof (filter_length_le (fun row => negb (isHeaderRow toLowerCase row (headers table)))
                (rows table)) as H.
  destruct bt as [t|]; [|exact H].
  destruct (isTrue _); [|exact H].
  etransitivity; [apply filter_length_le | exact H].
Qed.

Lemma length_processTable (tot : float * float) (table : ExtractedTable) :
  length (rows (fst (processTable toLowerCase options tot table))) <= length (rows table).
Proof.
  destruct (classifyColumns toLowerCase table) as [[c|] [t|]] eqn:E.
  - rewrite (processTable_resolved toLowerCase options tot table c t E).
    cbn [fst rows]. unfold annotatedRows. rewrite E.
    etransitivity; [apply length_finalCleanup|]. rewrite length_map.
    etransitivity; [apply length_flat_map_annotate | apply length_rowsToProcess].
  - destruct (processTable_unresolved toLowerCase options tot table) as [-> _];
      [rewrite E; now right | apply length_rowsToProcess].
  - destruct (processTable_unresolved toLowerCase options tot table) as [-> _];
      [rewrite E; now left | apply length_rowsToProcess].
  - destruct (processTable_unresolved toLowerCase options tot table) as [-> _];
      [rewrite E; now left | apply length_rowsToProcess].
Qed.

(** X13. Processing adds no row: the processed tables have together at
    most as many rows as the raw tables, and each at most as many as the
    merged table it was made from. *)
Theorem processing_never_adds_rows (rawTables : list ExtractedTable) :
  let out := processedTables (processTablesWithPricing toLowerCase rawTables options) in
  length (concat (map rows out)) <= length (concat (map rows rawTables))
  /\ Forall2 (fun table' table => length (rows table') <= length (rows table))
       out (mergeCompatibleTables toLowerCase rawTables).
Proof.
  intros out. subst out. rewrite processTablesWithPricing_unfold. cbn [processedTables].
  assert (F : forall l,
            Forall2 (fun table' table => length (rows table') <= length (rows table))
              (map (fun table => fst (processTable toLowerCase options zeroTotals table)) l) l).
  { induction l as [|table l IH]; constructor; [apply length_processTable | exact IH]. }
  split; [|apply F].
  assert (M : concat (map rows (mergeCompatibleTables toLowerCase rawTables))
              = concat (map rows rawTables)).
  { destruct rawTables as [|first others]; [reflexivity|].
    unfold mergeCompatibleTables.
    pose proof (fold_mergeStep_rows toLowerCase others [] (withRows first (rows first))) as H.
    destruct (fold_left _ _ _) as [merged cur].
    rewrite map_app, concat_app. cbn. rewrite app_nil_r. exact H. }
  rewrite <- M. clear M.
  induction (mergeCompatibleTables toLowerCase rawTables) as [|table l IH]; [reflexivity|].
  cbn [map concat]. rewrite !length_app.
  pose proof (length_processTable zeroTotals table). lia.
Qed.

End RemovedRows.

Lemma uo_rows_are_removed_witness :
  let row' := [js "1"; js "Dąb"; js "120"; js "CS"; js "792"; js "855.36"] in
  (exists row,
     In row (rows mixedTable) /\ isUoRow toLowerCaseLatin 3 row = false
     /\ (row' = row
         \/ exists n g, length row' = length row + 2 /\ tl row' = tl (row ++ [n; g])))
  /\ (fst (classifyColumns toLowerCaseLatin mixedTable) = None ->
      isUoRow toLowerCaseLatin 3 row' = false)
  /\ (0 < 3 -> 3 + 2 < length row' -> isUoRow toLowerCaseLatin 3 row' = false).
Proof.
  apply (uo_rows_are_removed toLowerCaseLatin cleaningOptions zeroTotals mixedTable 3).
  - reflexivity.
  - vm_compute. reflexivity.
  - vm_compute. left. reflexivity.
Defined.

Lemma zero_price_rows_are_removed_witness :
  exists row,
    In row (rowsToProcess toLowerCaseLatin cleaningOptions (Some 3) mixedTable)
    /\ (0 <? rowPrice toLowerCaseLatin cleaningOptions 2 3 row)%float = true
    /\ let net := rowPrice toLowerCaseLatin cleaningOptions 2 3 row in
       let prices := [formatPrice net; formatPrice (net * (1 + VAT_RATE))%float] in
       [js "1"; js "Dąb"; js "120"; js "CS"; js "792"; js "855.36"] = row ++ prices
       \/ exists k first rest,
            row = first :: rest
            /\ [js "1"; js "Dąb"; js "120"; js "CS"; js "792"; js "855.36"]
               = decimal k :: rest ++ prices.
Proof.
  apply (zero_price_rows_are_removed toLowerCaseLatin cleaningOptions zeroTotals mixedTable 2 3).
  - reflexivity.
  - vm_compute. reflexivity.
  - vm_compute. left. reflexivity.
Defined.

(** ** The settings of the application at the start *)

Section SameOptions.

Variable toLowerCase : str -> str.
Variables o1 o2 : ProcessingOptions.
Hypothesis sameUo : isTrue (removeUoRows o1) = isTrue (removeUoRows o2).
Hypothesis sameZero : isTrue (removeZeroPriceRows o1) = isTrue (removeZeroPriceRows o2).
Hypothesis sameLp : isTrue (preserveLp o1) = isTrue (preserveLp o2).
Hypothesis samePrice :
  forall c t row, rowPrice toLowerCase o1 c t row = rowPrice toLowerCase o2 c t row.

Lemma processTable_same (tot : float * float) (table : ExtractedTable) :
  processTable toLowerCase o1 tot table = processTable toLowerCase o2 tot table.
Proof.
  unfold processTable.
  assert (R : forall bt, rowsToProcess toLowerCase o1 bt table
                         = rowsToProcess toLowerCase o2 bt table).
  { intros bt. unfold rowsToProcess. now rewrite sameUo. }
  assert (F : forall newRows, finalCleanup o1 newRows = finalCleanup o2 newRows).
  { intros newRows. unfold finalCleanup. now rewrite sameLp. }
  destruct (classifyColumns toLowerCase table) as [[c|] [t|]]; rewrite R; try reflexivity.
  rewrite (fold_left_ext_in (priceRow toLowerCase o1 c t) (priceRow toLowerCase o2 c t)).
  - destruct (fold_left _ _ _) as [[tn tb] newRows]. now rewrite F.
  - intros [[tn tb] newRows] row _. unfold priceRow. now rewrite samePrice, sameZero.
Qed.

Lemma processTablesWithPricing_same (rawTables : list ExtractedTable) :
  processTablesWithPricing toLowerCase rawTables o1
  = processTablesWithPricing toLowerCase rawTables o2.
Proof.
  unfold processTablesWithPricing, processTables.
  rewrite (fold_left_ext_in
             (fun st table =>
                let '(t', tot') := processTable toLowerCase o1 (snd st) table in
                (fst st ++ [t'], tot'))
             (fun st table =>
                let '(t', tot') := processTable toLowerCase o2 (snd st) table in
                (fst st ++ [t'], tot'))); [reflexivity|].
  intros st table _. now rewrite processTable_same.
Qed.

End SameOptions.

Lemma default_price_is_whole (t : PricingTier) :
  In t DEFAULT_PRICING_SCHEDULE -> ceil (price t * 1) = price t.
Proof.
  intros H. repeat (destruct H as [<-|H]; [vm_compute; reflexivity|]). contradiction.
Qed.

Lemma addCsPrice_initial (removeUo removeZero preserve : bool) (circCell tLower : str)
    (p : float) :
  addCsPrice (optionsOf (withSwitches removeUo removeZero preserve)) circCell tLower p
  = addCsPrice (flagsOnly removeUo removeZero preserve) circCell tLower p.
Proof.
  unfold addCsPrice.
  destruct (0 <? csFamilyTreatmentCount tLower)%float; [|reflexivity].
  destruct (search numberPattern None circCell) as [m|]; [|reflexivity].
  destruct (findIndex _ _) as [tierIndex|]; [|reflexivity].
  destruct (nth_error DEFAULT_PRICING_SCHEDULE tierIndex) as [t|] eqn:E; [|reflexivity].
  cbn [customCsPrices csMultiplier optionsOf withSwitches flagsOnly sCustomCsPrices
       sCsMultiplier initialSettings].
  rewrite nth_error_map, E. cbn [option_map].
  now rewrite (default_price_is_whole t (nth_error_In _ _ E)).
Qed.

(** X14. The options that the application passes with its initial prices
    give the same result as options made of the three switches alone. *)
Theorem initial_prices_are_the_defaults (toLowerCase : str -> str)
    (rawTables : list ExtractedTable) (removeUo removeZero preserve : bool) :
  processTablesWithPricing toLowerCase rawTables
    (optionsOf (withSwitches removeUo removeZero preserve))
  = processTablesWithPricing toLowerCase rawTables (flagsOnly removeUo removeZero preserve).
Proof.
  apply processTablesWithPricing_same; try reflexivity.
  intros c t row. unfold rowPrice. rewrite addCsPrice_initial. reflexivity.
Qed.

(** ** Totals recalculated from the cells *)

Section Recalculation.

Variable toLowerCase : str -> str.

Lemma findIndexFrom_shift {A : Type} (p : A -> bool) (l : list A) :
  forall s, findIndexFrom p l (S s) = option_map S (findIndexFrom p l s).
Proof.
  induction l as [|x l IH]; intros s; [reflexivity|].
  cbn [findIndexFrom]. destruct (p x); [reflexivity | apply IH].
Qed.

Lemma findIndex_cons {A : Type} (p : A -> bool) (x : A) (l : list A) :
  findIndex p (x :: l) = if p x then Some 0 else option_map S (findIndex p l).
Proof. unfold findIndex. cbn [findIndexFrom]. now rewrite findIndexFrom_shift. Qed.

(** Removing an element other than the first hit moves the hit by at most
    one place, to where the same element stands. *)
Lemma findIndex_removeAt {A : Type} (p : A -> bool) (l : list A) :
  forall j,
  findIndex p l <> Some j ->
  match findIndex p l with
  | Some i => findIndex p (removeAt j l) = Some (if i <? j then i else i - 1)
  | None => findIndex p (removeAt j l) = None
  end.
Proof.
  induction l as [|x l IH]; intros j H.
  - unfold removeAt. now destruct j.
  - rewrite findIndex_cons in *. destruct j as [|j].
    + unfold removeAt. cbn [firstn skipn app].
      destruct (p x); [congruence|].
      destruct (findIndex p l) as [i|]; cbn [option_map]; [|reflexivity].
      cbn. now rewrite Nat.sub_0_r.
    + change (removeAt (S j) (x :: l)) with (x :: removeAt j l).
      rewrite findIndex_cons. destruct (p x); [reflexivity|].
      specialize (IH j).
      destruct (findIndex p l) as [i|]; cbn [option_map] in *.
      * rewrite IH by congruence. cbn [option_map]. f_equal.
        change (S i <? S j) with (i <? j).
        destruct (i <? j) eqn:E; [reflexivity|].
        apply Nat.ltb_ge in E.
        assert (i <> j) by congruence. lia.
      * now rewrite IH.
Qed.

Lemma nth_error_removeAt {A : Type} (l : list A) :
  forall j i, j < length l -> i <> j ->
  nth_error (removeAt j l) (if i <? j then i else i - 1) = nth_error l i.
Proof.
  induction l as [|x l IH]; intros j i Hj Hi; [cbn in Hj; lia|].
  destruct j as [|j].
  - unfold removeAt. cbn [firstn skipn app].
    destruct i as [|i]; [congruence|]. cbn. now rewrite Nat.sub_0_r.
  - change (removeAt (S j) (x :: l)) with (x :: removeAt j l).
    destruct i as [|i]; [reflexivity|].
    change (S i <? S j) with (i <? j).
    cbn [length] in Hj. specialize (IH j i ltac:(lia) ltac:(congruence)).
    destruct (i <? j) eqn:E; [exact IH|].
    apply Nat.ltb_ge in E. destruct i as [|i]; [lia|].
    cbn [Nat.sub] in *. rewrite Nat.sub_0_r in *. exact IH.
Qed.

Lemma addColumn_deleteColumn (label : str) (acc : float) (table : ExtractedTable) (j : nat) :
  findIndex (fun h => includes (toLowerCase h) label) (headers table) <> Some j ->
  (forall row, In row (rows table) -> j < length row) ->
  addColumn toLowerCase label acc (deleteColumn j table) = addColumn toLowerCase label acc table.
Proof.
  intros Hj Hrows. unfold addColumn. cbn [headers rows deleteColumn].
  pose proof (findIndex_removeAt (fun h => includes (toLowerCase h) label) (headers table) j Hj)
    as F.
  destruct (findIndex _ (headers table)) as [i|]; rewrite F; [|reflexivity].
  assert (Hi : i <> j) by congruence.
  revert acc. induction (rows table) as [|row rs IH]; intros acc; [reflexivity|].
  cbn [map fold_left].
  rewrite nth_error_removeAt; [|apply Hrows; now left | exact Hi].
  apply IH. intros r Hr. apply Hrows. now right.
Qed.

(** X15. Deleting a column that is neither of the two price columns
    leaves the recalculated totals as they were, provided every row of
    the table reaches the deleted column. *)
Theorem deleting_another_column_keeps_the_totals (tables tables' : list ExtractedTable)
    (tableIndex colIndex : nat) (table : ExtractedTable) :
  nth_error tables tableIndex = Some table ->
  findIndex (fun h => includes (toLowerCase h) (js "[netto]")) (headers table)
    <> Some colIndex ->
  findIndex (fun h => includes (toLowerCase h) (js "[brutto]")) (headers table)
    <> Some colIndex ->
  (forall row, In row (rows table) -> colIndex < length row) ->
  handleDeleteColumn tableIndex colIndex tables = Some tables' ->
  recalculateTotals toLowerCase tables' = recalculateTotals toLowerCase tables.
Proof.
  intros Ht Hn Hg Hrows Hd.
  unfold handleDeleteColumn, replaceTable in Hd. rewrite Ht in Hd. inversion Hd. clear Hd.
  unfold recalculateTotals.
  rewrite <- (firstn_skipn tableIndex tables) at 3.
  assert (Hs : skipn tableIndex tables = table :: skipn (S tableIndex) tables).
  { clear -Ht. revert tableIndex Ht. induction tables as [|x l IH]; intros [|k] Ht;
      try discriminate.
    - cbn in Ht. inversion Ht. reflexivity.
    - cbn in Ht. cbn [skipn]. now apply IH. }
  rewrite Hs, !fold_left_app. cbn [fold_left].
  destruct (fold_left _ (firstn tableIndex tables) _) as [net gross].
  now rewrite !addColumn_deleteColumn.
Qed.

Lemma renameHeaders_nil (c t : nat) : renameHeaders toLowerCase c t [] = [].
Proof. unfold renameHeaders, relabelHeaders, renameAt. now destruct c, t. Qed.

Lemma addColumn_no_headers (label : str) (acc : float) (table : ExtractedTable) :
  headers table = [] -> addColumn toLowerCase label acc table = acc.
Proof. intros H. unfold addColumn. now rewrite H. Qed.

Lemma processTable_no_headers (options : ProcessingOptions) (table : ExtractedTable) :
  headers table = [] ->
  headers (fst (processTable toLowerCase options zeroTotals table)) = [].
Proof.
  intros H.
  destruct (classifyColumns toLowerCase table) as [[c|] [t|]] eqn:Ec.
  - rewrite (processTable_resolved toLowerCase options zeroTotals table c t Ec).
    cbn [fst headers]. rewrite H. apply renameHeaders_nil.
  - destruct (processTable_unresolved toLowerCase options zeroTotals table) as [-> _];
      [rewrite Ec; now right | exact H].
  - destruct (processTable_unresolved toLowerCase options zeroTotals table) as [-> _];
      [rewrite Ec; now left | exact H].
  - destruct (processTable_unresolved toLowerCase options zeroTotals table) as [-> _];
      [rewrite Ec; now left | exact H].
Qed.

(** X16. For raw tables without headers the recalculated totals of the
    processed tables are 0, whatever was priced: the price cells of such
    tables stand under no header. *)
Theorem headerless_tables_are_left_out_of_recalculation (options : ProcessingOptions)
    (rawTables : list ExtractedTable) :
  (forall table, In table rawTables -> headers table = []) ->
  recalculateTotals toLowerCase
    (processedTables (processTablesWithPricing toLowerCase rawTables options))
  = {| totalNetto := 0; totalBrutto := 0 |}.
Proof.
  intros H. rewrite processTablesWithPricing_unfold. cbn [processedTables].
  assert (Hm : forall table, In table (mergeCompatibleTables toLowerCase rawTables) ->
                 headers table = []).
  { intros t' Ht'. destruct rawTables as [|first others]; [contradiction|].
    unfold mergeCompatibleTables in Ht'.
    pose proof (fold_mergeStep_labels toLowerCase others [] (withRows first (rows first))
                  (first :: others)) as L.
    destruct (fold_left _ _ _) as [merged cur].
    destruct L as [L _].
    - intros t0 [<-|[]]. exists first. split; [now left | now split].
    - intros t0 Ht0. now right.
    - destruct (L t' Ht') as (t0 & Hin & _ & ->). now apply H. }
  unfold recalculateTotals.
  assert (E : forall l acc,
            (forall table, In table l -> headers table = []) ->
            fold_left
              (fun '(net, gross) table =>
                 (addColumn toLowerCase (js "[netto]") net table,
                  addColumn toLowerCase (js "[brutto]") gross table))
              (map (fun table => fst (processTable toLowerCase options zeroTotals table)) l)
              acc = acc).
  { induction l as [|table l IH]; intros [net gross] Hl; [reflexivity|].
    cbn [map fold_left]. cbv beta iota.
    rewrite !(addColumn_no_headers _ _ _
                (processTable_no_headers options table (Hl table (or_introl eq_refl)))).
    apply IH. intros t Ht. apply Hl. now right. }
  now rewrite E.
Qed.

End Recalculation.

Lemma deleting_another_column_keeps_the_totals_witness :
  let tables := processedTables (processTablesWithPricing toLowerCaseLatin [oakTable] noOptions) in
  recalculateTotals toLowerCaseLatin (map (deleteColumn 1) tables)
  = recalculateTotals toLowerCaseLatin tables.
Proof.
  intros tables.
  apply (deleting_another_column_keeps_the_totals toLowerCaseLatin tables
           (map (deleteColumn 1) tables) 0 1
           (fst (processTable toLowerCaseLatin noOptions zeroTotals oakTable))).
  - vm_compute. reflexivity.
  - vm_compute. discriminate.
  - vm_compute. discriminate.
  - intros row Hrow. vm_compute in Hrow. destruct Hrow as [<-|[]]. vm_compute. lia.
  - vm_compute. reflexivity.
Defined.

Lemma headerless_tables_are_left_out_of_recalculation_witness :
  recalculateTotals toLowerCaseLatin
    (processedTables (processTablesWithPricing toLowerCaseLatin [bareTable] noOptions))
  = {| totalNetto := 0; totalBrutto := 0 |}
  /\ totals (processTablesWithPricing toLowerCaseLatin [bareTable] noOptions)
     = {| totalNetto := 1992; totalBrutto := 2151.36 |}.
Proof.
  split.
  - apply (headerless_tables_are_left_out_of_recalculation toLowerCaseLatin noOptions
             [bareTable]).
    intros table [<-|[]]. reflexivity.
  - vm_compute. reflexivity.
Defined.

(** ** Totals on the page *)

Lemma rmatch_threeDigits (k : mstate -> option mstate) (p : option N) (text : str)
    (cs : list (nat * str)) :
  forallb isDigit text = true ->
  rmatch (Group 1 threeDigits) k (MState p text cs)
  = match text with
    | a :: b :: c :: t => k (MState (Some c) t ((1, [a; b; c]) :: cs))
    | _ => None
    end.
Proof.
  intros H. destruct text as [|a [|b [|c t]]]; cbn [forallb] in H.
  - reflexivity.
  - cbn. now destruct (isDigit a).
  - cbn. destruct (isDigit a); [|reflexivity]. now destruct (isDigit b).
  - apply andb_true_iff in H as [Ha H]. apply andb_true_iff in H as [Hb H].
    apply andb_true_iff in H as [Hc H].
    cbn [rmatch threeDigits seqs fold_right rest prev caps]. rewrite Ha, Hb, Hc.
    cbn [rest prev caps length]. f_equal. f_equal. f_equal.
    replace (S (S (S (length t))) - length t) with 3 by lia. reflexivity.
Qed.

Lemma starLoop_threeDigits (fuel : nat) :
  forall (p : option N) (text : str) (cs : list (nat * str)),
  forallb isDigit text = true ->
  length text <= fuel ->
  isSome (starLoop (rmatch (Group 1 threeDigits)) noDigitFollows fuel (MState p text cs))
  = multipleOfThree (length text).
Proof.
  induction fuel as [|fuel IH]; intros p text cs Hd Hl.
  - destruct text; [reflexivity | cbn in Hl; lia].
  - cbn [starLoop]. rewrite rmatch_threeDigits by exact Hd.
    destruct text as [|a [|b [|c t]]].
    + reflexivity.
    + cbn [forallb] in Hd. apply andb_true_iff in Hd as [Ha _].
      cbn. now rewrite Ha.
    + cbn [forallb] in Hd. apply andb_true_iff in Hd as [Ha _].
      cbn. now rewrite Ha.
    + cbn [rest length]. replace (length t <? S (S (S (length t)))) with true
        by (symmetry; apply Nat.ltb_lt; lia).
      assert (Hd' : forallb isDigit t = true).
      { cbn [forallb] in Hd. now repeat (apply andb_true_iff in Hd as [_ Hd]). }
      specialize (IH (Some c) t ((1, [a; b; c]) :: cs) Hd' ltac:(cbn in Hl; lia)).
      cbn [multipleOfThree]. rewrite <- IH.
      destruct (starLoop _ _ fuel _) as [res|]; [reflexivity|].
      cbn [isSome] in IH. cbn [noDigitFollows rest].
      cbn [forallb] in Hd. apply andb_true_iff in Hd as [Ha _]. now rewrite Ha.
Qed.

Lemma digit_is_word (d : N) : isDigit d = true -> isWordChar d = true.
Proof. unfold isWordChar. intros ->. now rewrite orb_true_r. Qed.

Lemma groupingPoint_digits (d : N) (text : str) :
  isDigit d = true -> forallb isDigit text = true ->
  groupingPoint (Some d) text = (0 <? length text) && multipleOfThree (length text).
Proof.
  intros Hd Ht. unfold groupingPoint.
  destruct text as [|a t]; cbn [isWordAt hd_error]; rewrite (digit_is_word d Hd);
    [reflexivity|].
  assert (Ha : isDigit a = true) by (cbn [forallb] in Ht; now apply andb_true_iff in Ht).
  rewrite (digit_is_word a Ha). cbn [xorb negb andb].
  change (rmatch (Plus (Group 1 threeDigits)) noDigitFollows (MState (Some d) (a :: t) []))
    with (rmatch (Group 1 threeDigits) (rmatch (Star (Group 1 threeDigits)) noDigitFollows)
            (MState (Some d) (a :: t) [])).
  rewrite rmatch_threeDigits by exact Ht.
  destruct t as [|b [|c t]].
  - reflexivity.
  - reflexivity.
  - change (rmatch (Star (Group 1 threeDigits)) noDigitFollows
              (MState (Some c) t [(1, [a; b; c])]))
      with (starLoop (rmatch (Group 1 threeDigits)) noDigitFollows (length t)
              (MState (Some c) t [(1, [a; b; c])])).
    assert (Ht' : forallb isDigit t = true).
    { cbn [forallb] in Ht. now repeat (apply andb_true_iff in Ht as [_ Ht]). }
    rewrite (starLoop_threeDigits (length t) (Some c) t _ Ht' (le_n _)).
    reflexivity.
Qed.

Lemma groupingPoint_start (text : str) :
  forallb isDigit text = true -> groupingPoint None text = false.
Proof.
  intros Ht. unfold groupingPoint. destruct text as [|a t]; [reflexivity|].
  assert (Ha : isDigit a = true) by (cbn [forallb] in Ht; now apply andb_true_iff in Ht).
  cbn [isWordAt hd_error]. now rewrite (digit_is_word a Ha).
Qed.

Lemma insertWhere_digits (text : str) :
  forall d, isDigit d = true -> forallb isDigit text = true ->
  d :: insertWhere groupingPoint (js " ") (Some d) text = spaced (d :: text).
Proof.
  induction text as [|a t IH]; intros d Hd Ht.
  - cbn [insertWhere spaced length]. rewrite groupingPoint_digits by assumption. reflexivity.
  - cbn [insertWhere]. rewrite groupingPoint_digits by assumption.
    cbn [forallb] in Ht. apply andb_true_iff in Ht as [Ha Ht].
    rewrite (IH a Ha Ht). reflexivity.
Qed.

Lemma group_digits (digits : str) :
  forallb isDigit digits = true ->
  insertWhere groupingPoint (js " ") None digits = spaced digits.
Proof.
  intros H. destruct digits as [|d t]; [reflexivity|].
  cbn [insertWhere]. rewrite groupingPoint_start by exact H. cbn [app].
  cbn [forallb] in H. apply andb_true_iff in H as [Hd Ht].
  now apply insertWhere_digits.
Qed.

Lemma splitOn_no_separator (sep : N) (s : str) :
  forallb (fun c => negb (c =? sep)%N) s = true -> splitOn sep s = [s].
Proof.
  induction s as [|c t IH]; intros H; [reflexivity|].
  cbn [forallb] in H. apply andb_true_iff in H as [Hc Ht].
  cbn [splitOn]. apply negb_true_iff in Hc. now rewrite Hc, (IH Ht).
Qed.

Lemma splitOn_app (sep : N) (a b : str) :
  forallb (fun c => negb (c =? sep)%N) a = true ->
  splitOn sep (a ++ sep :: b) = a :: splitOn sep b.
Proof.
  induction a as [|c t IH]; intros H.
  - cbn [app splitOn]. now rewrite N.eqb_refl.
  - cbn [forallb] in H. apply andb_true_iff in H as [Hc Ht].
    cbn [app splitOn]. apply negb_true_iff in Hc. now rewrite Hc, (IH Ht).
Qed.

Lemma digit_is_no_dot (s : str) :
  forallb isDigit s = true -> forallb (fun c => negb (c =? 46)%N) s = true.
Proof.
  intros H. rewrite forallb_forall in *. intros c Hc. specialize (H c Hc).
  unfold isDigit in H. apply negb_true_iff, N.eqb_neq. intros ->. discriminate.
Qed.

(** X17. A total whose two-decimal text is a run of digits, with or
    without a point and decimals behind it, is written with a space
    behind each digit that a positive multiple of three digits follows
    before the point; point and decimals are unchanged. *)
Theorem total_is_written_in_groups_of_three (num : float) (whole rest : str) :
  forallb isDigit whole = true ->
  rest = [] \/ (exists decimals, rest = js "." ++ decimals /\ forallb isDigit decimals = true) ->
  formatPrice num = whole ++ rest ->
  formatNumberWithSpaces num = spaced whole ++ rest.
Proof.
  intros Hw Hr E. unfold formatNumberWithSpaces. fold (formatPrice num). rewrite E.
  destruct Hr as [->|(decimals & -> & Hd)].
  - rewrite !app_nil_r, splitOn_no_separator by now apply digit_is_no_dot.
    cbn [join]. now apply group_digits.
  - change (js ".") with [46%N]. cbn [app].
    rewrite splitOn_app by now apply digit_is_no_dot.
    rewrite splitOn_no_separator by now apply digit_is_no_dot.
    cbn [join]. rewrite group_digits by exact Hw.
    destruct (spaced whole); reflexivity.
Qed.

Lemma total_is_written_in_groups_of_three_witness :
  formatNumberWithSpaces 1234567.5 = js "1 234 567.50".
Proof.
  apply (total_is_written_in_groups_of_three 1234567.5 (js "1234567") (js ".50")).
  - reflexivity.
  - right. exists (js "50"). split; reflexivity.
  - vm_compute. reflexivity.
Defined.

(** ** Price cells read back *)

Lemma allFrom_spec (p : Z -> bool) (k : nat) :
  forall lo, allFrom k lo p = true ->
  forall c, (lo <= c < lo + 2 ^ Z.of_nat k)%Z -> p c = true.
Proof.
  induction k as [|k IH]; intros lo A c H.
  - cbn in *. now replace c with lo by lia.
  - cbn [allFrom] in A. apply andb_true_iff in A as [A1 A2].
    rewrite Nat2Z.inj_succ, Z.pow_succ_r in H by lia.
    destruct (Z.lt_ge_cases c (lo + 2 ^ Z.of_nat k)).
    + apply (IH lo A1). lia.
    + apply (IH _ A2). lia.
Qed.

Lemma readsBack_sweep : allFrom 14 0 readsBack = true.
Proof. vm_cast_no_check (eq_refl true). Qed.

(** X18. A whole net price below 16384 is written as its digits, and
    is read back from its cell as it is; its gross price is read back
    from its cell rounded to two decimals. *)
Theorem whole_prices_read_back (n : Z) :
  (0 <= n < 16384)%Z ->
  let net := floatOfZ n in
  formatPrice net = zDecimal n
  /\ parseCell (formatPrice net) = net
  /\ parseCell (formatPrice (grossOf net)) = roundTo2 (grossOf net).
Proof.
  intros H net.
  assert (H' : (0 <= n < 0 + 2 ^ Z.of_nat 14)%Z) by (change (Z.of_nat 14) with 14%Z; lia).
  pose proof (allFrom_spec readsBack 14 0 readsBack_sweep n H') as R.
  unfold readsBack in R. fold net in R.
  apply andb_true_iff in R as [R H3]. apply andb_true_iff in R as [H1 H2].
  repeat split.
  - unfold str_eqb in H1. now destruct (list_eq_dec _ _ _).
  - now apply FloatAxioms.Leibniz.eqb_spec.
  - now apply FloatAxioms.Leibniz.eqb_spec.
Qed.

Lemma whole_prices_read_back_witness :
  formatPrice 792 = js "792"
  /\ parseCell (formatPrice 792) = 792%float
  /\ parseCell (formatPrice (grossOf 792)) = 855.36%float.
Proof.
  apply (whole_prices_read_back 792). lia.
Defined.

(** ** Column widths of the exported document *)

Lemma sameFloats_eq (a : list float) :
  forall b, sameFloats a b = true -> a = b.
Proof.
  induction a as [|x a IH]; intros [|y b] H; try discriminate; [reflexivity|].
  cbn [sameFloats] in H. apply andb_true_iff in H as [H1 H2].
  apply FloatAxioms.Leibniz.eqb_spec in H1. subst. f_equal. now apply IH.
Qed.

Lemma widths_sweep : forallb widthsAsShared (seq 1 1024) = true.
Proof. vm_cast_no_check (eq_refl true). Qed.

Lemma sum_repeat (x : Z) (n : nat) :
  fold_right Z.add 0%Z (repeat x n) = (x * Z.of_nat n)%Z.
Proof. induction n as [|n IH]; [cbn; lia|]. cbn [repeat fold_right]. rewrite IH. lia. Qed.

(** X19. For 1 to 1024 columns other than 6 the widths are one per
    column, equal shares of 15400 rounded down and the rest in the last
    one: non-negative, adding up to 15400.  For 6 columns seven widths are
    returned, the last one 0; for no column, none. *)
Theorem column_widths_fill_the_page (colCount : nat) :
  (1 <= colCount <= 1024 ->
   colCount <> 6 ->
   getColumnWidths colCount = map floatOfZ (sharedWidths colCount)
   /\ length (sharedWidths colCount) = colCount
   /\ fold_right Z.add 0%Z (sharedWidths colCount) = 15400%Z
   /\ Forall (fun w => (0 <= w)%Z) (sharedWidths colCount))
  /\ getColumnWidths 6 = [770; 5390; 2310; 2310; 2310; 2310; 0]%float
  /\ getColumnWidths 0 = [].
Proof.
  split; [|split; vm_compute; reflexivity].
  intros H H6. repeat split.
  - pose proof widths_sweep as S. rewrite forallb_forall in S.
    specialize (S colCount ltac:(apply in_seq; lia)).
    unfold widthsAsShared in S. apply orb_true_iff in S as [S|S].
    + apply Nat.eqb_eq in S. contradiction.
    + now apply sameFloats_eq.
  - unfold sharedWidths. rewrite length_app, repeat_length. cbn. lia.
  - unfold sharedWidths. rewrite fold_right_app. cbn [fold_right].
    generalize (15400 / Z.of_nat colCount)%Z as share. intros share.
    assert (G : forall l a, fold_right Z.add a l = (fold_right Z.add 0 l + a)%Z).
    { induction l as [|x l IH]; intros a; cbn [fold_right]; [lia|]. rewrite IH. lia. }
    rewrite G, sum_repeat. lia.
  - unfold sharedWidths. apply Forall_app. split.
    + apply Forall_forall. intros w Hw. apply repeat_spec in Hw. subst w.
      apply Z.div_pos; lia.
    + constructor; [|constructor].
      pose proof (Z.mul_div_le 15400 (Z.of_nat colCount) ltac:(lia)) as D.
      assert (P : (0 <= 15400 / Z.of_nat colCount)%Z) by (apply Z.div_pos; lia).
      nia.
Qed.

Lemma column_widths_fill_the_page_witness :
  getColumnWidths 9 = [1711; 1711; 1711; 1711; 1711; 1711; 1711; 1711; 1712]%float
  /\ length (sharedWidths 9) = 9
  /\ fold_right Z.add 0%Z (sharedWidths 9) = 15400%Z
  /\ Forall (fun w => (0 <= w)%Z) (sharedWidths 9).
Proof.
  destruct (column_widths_fill_the_page 9) as [H _].
  apply H; [lia | discriminate].
Defined.

(** ** Resolved columns exist *)

Section Bounds.

Variable toLowerCase : str -> str.

Lemma In_addKey (keys : list nat) (idx k : nat) :
  In k (addKey keys idx) -> In k keys \/ k = idx.
Proof.
  unfold addKey. destruct (existsb _ keys); [now left|].
  intros H. apply in_app_or in H as [H|[<-|[]]]; [now left | now right].
Qed.

Lemma keys_of_headers (hs : list str) :
  forall s m k,
  In k (map fst (fold_left (scoreHeader toLowerCase) (combine (seq s (length hs)) hs) m)) ->
  In k (map fst m) \/ s <= k < s + length hs.
Proof.
  induction hs as [|h hs IH]; intros s m k H; [now left|].
  cbn [length seq combine fold_left] in H. apply IH in H as [H|H].
  - rewrite keys_scoreHeader in H. apply In_addKey in H as [H| ->]; [now left|].
    right. cbn [length]. lia.
  - right. cbn [length]. lia.
Qed.

Lemma keys_of_row (row : list str) :
  forall s m k,
  In k (map fst (fold_left (scoreCell toLowerCase) (combine (seq s (length row)) row) m)) ->
  In k (map fst m)
  \/ exists cell, s <= k /\ nth_error row (k - s) = Some cell /\ truthy cell = true.
Proof.
  induction row as [|c row IH]; intros s m k H; [now left|].
  cbn [length seq combine fold_left] in H. apply IH in H as [H|(cell & Hk & Hn & Ht)].
  - rewrite keys_scoreCell in H. destruct (truthy c) eqn:Hc; [|now left].
    apply In_addKey in H as [H| ->]; [now left|].
    right. exists c. rewrite Nat.sub_diag. now repeat split.
  - right. exists cell. split; [lia|]. split; [|exact Ht].
    replace (k - s) with (S (k - S s)) by lia. exact Hn.
Qed.

Lemma keys_of_rows (rs : list (list str)) :
  forall m k,
  In k (map fst (fold_left (fun m row => fold_left (scoreCell toLowerCase) (indexed row) m)
                   rs m)) ->
  In k (map fst m)
  \/ exists row cell, In row rs /\ nth_error row k = Some cell /\ truthy cell = true.
Proof.
  induction rs as [|row rs IH]; intros m k H; [now left|].
  cbn [fold_left] in H. apply IH in H as [H|(r & cell & Hr & Hn & Ht)].
  - unfold indexed in H. apply keys_of_row in H as [H|(cell & _ & Hn & Ht)]; [now left|].
    right. exists row, cell. rewrite Nat.sub_0_r in Hn. split; [now left | now split].
  - right. exists r, cell. split; [now right | now split].
Qed.

Lemma keys_of_scoreColumns (table : ExtractedTable) (k : nat) :
  In k (map fst (scoreColumns toLowerCase table)) -> columnExists table k.
Proof.
  unfold scoreColumns, columnExists. intros H.
  apply keys_of_rows in H as [H|H]; [|now right].
  left. destruct (0 <? length (headers table)); [|contradiction].
  unfold indexed in H. apply keys_of_headers in H as [[]|H]. lia.
Qed.

Lemma firstMaximum_key (f : score -> Z) (m : columnScoresT) (i : nat) :
  firstMaximum f m (Some i) -> In i (map fst m).
Proof.
  intros (pre & sc & post & -> & _). rewrite map_app. apply in_or_app. right. now left.
Qed.

(** X20. A resolved column exists in the table: it stands under a
    header or holds a non-empty cell of some row. *)
Theorem resolved_columns_exist (table : ExtractedTable) (i : nat) :
  fst (classifyColumns toLowerCase table) = Some i
  \/ snd (classifyColumns toLowerCase table) = Some i ->
  columnExists table i.
Proof.
  intros H. apply keys_of_scoreColumns.
  destruct (selectBest_firstMaximum (scoreColumns toLowerCase table)) as [Hc Ht].
  unfold classifyColumns, resolveConflict in H.
  destruct (bestCircIdx (selectBest (scoreColumns toLowerCase table))) as [c|] eqn:Ec.
  - destruct (sameIndex _ _).
    + destruct (_ <=? _)%Z; cbn [fst snd] in H; destruct H as [H|H]; try discriminate.
      * rewrite H in Ht. now apply (firstMaximum_key treat).
      * inversion H. subst. now apply (firstMaximum_key circ).
    + cbn [fst snd] in H. destruct H as [H|H].
      * inversion H. subst. now apply (firstMaximum_key circ).
      * rewrite H in Ht. now apply (firstMaximum_key treat).
  - cbn [fst snd] in H. destruct H as [H|H]; [discriminate|].
    rewrite H in Ht. now apply (firstMaximum_key treat).
Qed.

End Bounds.

Lemma resolved_columns_exist_witness : columnExists staggeredTable 1.
Proof.
  apply (resolved_columns_exist toLowerCaseLatin staggeredTable 1).
  left. vm_compute. reflexivity.
Defined.

(** ** Headers and rows stay aligned *)

Section Alignment.

Variable toLowerCase : str -> str.
Variable options : ProcessingOptions.

Lemma length_relabelHeaders (c t : nat) (hs : list str) :
  length (relabelHeaders toLowerCase c t hs) = length hs.
Proof. now rewrite relabelHeaders_pointwise, mapWithIndexFrom_length. Qed.

(** X21. When a table has headers and each of its rows has as many
    cells as there are headers, the same holds of the processed table,
    whose header list is the same or two labels longer. *)
Theorem headers_and_rows_stay_aligned (tot : float * float) (table : ExtractedTable) :
  headers table <> [] ->
  (forall row, In row (rows table) -> length row = length (headers table)) ->
  let out := fst (processTable toLowerCase options tot table) in
  (forall row', In row' (rows out) -> length row' = length (headers out))
  /\ (length (headers out) = length (headers table)
      \/ length (headers out) = length (headers table) + 2).
Proof.
  intros Hh Hrows out. subst out.
  destruct (classifyColumns toLowerCase table) as [[c|] [t|]] eqn:E.
  - rewrite (processTable_resolved toLowerCase options tot table c t E).
    cbn [fst rows headers].
    assert (L : length (renameHeaders toLowerCase c t (headers table))
                = length (headers table) + 2).
    { rewrite renameHeaders_shape, length_app, length_relabelHeaders.
      destruct (headers table); [contradiction | reflexivity]. }
    split; [|now right].
    intros row' H. unfold annotatedRows in H. rewrite E in H.
    apply finalCleanup_origin in H as (cells & Hcells & Hrow').
    apply annotate_origin in Hcells as (row & n & g & Hrow & ->).
    apply rowsToProcess_origin in Hrow as [Hrow _].
    rewrite L, <- (Hrows row Hrow).
    destruct Hrow' as [->|(k & x & rest & E' & ->)].
    + rewrite length_app. reflexivity.
    + apply (f_equal (@length str)) in E'. rewrite length_app in E'.
      cbn [length] in *. lia.
  - destruct (processTable_unresolved toLowerCase options tot table) as [-> _];
      [rewrite E; now right|].
    cbn [fst rows headers withRows]. split; [|now left].
    intros row' H. apply rowsToProcess_origin in H as [H _]. now apply Hrows.
  - destruct (processTable_unresolved toLowerCase options tot table) as [-> _];
      [rewrite E; now left|].
    cbn [fst rows headers withRows]. split; [|now left].
    intros row' H. apply rowsToProcess_origin in H as [H _]. now apply Hrows.
  - destruct (processTable_unresolved toLowerCase options tot table) as [-> _];
      [rewrite E; now left|].
    cbn [fst rows headers withRows]. split; [|now left].
    intros row' H. apply rowsToProcess_origin in H as [H _]. now apply Hrows.
Qed.

End Alignment.

Lemma headers_and_rows_stay_aligned_witness :
  let out := fst (processTable toLowerCaseLatin noOptions zeroTotals mixedTable) in
  (forall row', In row' (rows out) -> length row' = length (headers out))
  /\ (length (headers out) = length (headers mixedTable)
      \/ length (headers out) = length (headers mixedTable) + 2).
Proof.
  apply (headers_and_rows_stay_aligned toLowerCaseLatin noOptions zeroTotals mixedTable).
  - discriminate.
  - intros row Hrow. vm_compute in Hrow.
    destruct Hrow as [<-|[<-|[<-|[]]]]; reflexivity.
Defined.

(** ** The name of the exported file *)

(** *** Patterns of one code unit *)

Lemma unitPattern_chr (p : N -> bool) : unitPattern (Chr p) p.
Proof. intros k pv text cs. reflexivity. Qed.

Lemma unitPattern_alt (r1 r2 : regex) (c1 c2 : N -> bool) :
  unitPattern r1 c1 -> unitPattern r2 c2 ->
  unitPattern (Alt r1 r2) (fun c => c1 c || c2 c).
Proof.
  intros H1 H2 k pv text cs. cbn [rmatch]. rewrite H1, H2.
  destruct text as [|c t]; [reflexivity|].
  destruct (c1 c), (c2 c); cbn [orb]; try reflexivity.
  - now destruct (k _).
  - now destruct (k _).
Qed.

Lemma unitPattern_oneOf (a : N) (s : str) : unitPattern (oneOf (a :: s)) (memberOf (a :: s)).
Proof.
  revert a. induction s as [|b s IH]; intros a.
  - intros k pv text cs. cbn [oneOf rmatch rest caps]. destruct text as [|c t]; [reflexivity|].
    unfold memberOf, eqUnit. cbn [existsb]. now rewrite orb_false_r.
  - change (oneOf (a :: b :: s)) with (Alt (Chr (eqUnit a)) (oneOf (b :: s))).
    intros k pv text cs.
    rewrite (unitPattern_alt _ _ _ _ (unitPattern_chr (eqUnit a)) (IH b)).
    destruct text as [|c t]; reflexivity.
Qed.

Section UnitPattern.

Variable r : regex.
Variable cls : N -> bool.
Hypothesis unit : unitPattern r cls.
Variable f : str -> str.

Lemma search_unit (text : str) :
  forall pv,
  search r pv text
  = match dropWhile (fun c => negb (cls c)) text with
    | c :: t => Some (Found (takeWhile (fun c => negb (cls c)) text) [c] (MState (Some c) t []))
    | [] => None
    end.
Proof.
  induction text as [|c t IH]; intros pv.
  - rewrite search_unfold, unit. reflexivity.
  - rewrite search_unfold, unit. cbn [dropWhile takeWhile].
    destruct (cls c); cbn [negb].
    + cbn [rest length]. f_equal. f_equal.
      replace (S (length t) - length t) with 1 by lia. reflexivity.
    + rewrite IH. now destruct (dropWhile _ t).
Qed.

Lemma replaceAll_unit (fuel : nat) :
  forall text pv, length text < fuel ->
  replaceAllFrom fuel r f pv text = flat_map (fun c => if cls c then f [c] else [c]) text.
Proof.
  induction fuel as [|fuel IH]; intros text pv Hl; [lia|].
  cbn [replaceAllFrom]. rewrite search_unit.
  induction text as [|c t IHt].
  - reflexivity.
  - cbn [dropWhile takeWhile flat_map]. destruct (cls c) eqn:Hc; cbn [negb].
    + cbn [skipped matched final rest prev app].
      rewrite IH by (cbn [length] in Hl; lia). reflexivity.
    + cbn [length] in Hl. specialize (IHt ltac:(lia)).
      destruct (dropWhile (fun c => negb (cls c)) t) as [|d t'] eqn:Ed.
      * cbn [app]. f_equal. exact IHt.
      * cbn [skipped matched final rest prev app] in *. f_equal. exact IHt.
Qed.

End UnitPattern.

(** *** Patterns of a run of code units *)

Lemma collapse_run (cls : N -> bool) (rep : str) (text : str) :
  collapse cls rep true text = collapse cls rep false (dropWhile cls text).
Proof.
  induction text as [|c t IH]; [reflexivity|].
  cbn [collapse dropWhile]. destruct (cls c) eqn:Hc.
  - exact IH.
  - cbn [collapse]. now rewrite Hc.
Qed.

Lemma plus_top (cls : N -> bool) (pv : option N) (text : str) :
  rmatch (Plus (Chr cls)) Some (MState pv text [])
  = match text with
    | c :: t =>
        if cls c
        then Some (MState (fst (skipClass cls (Some c) t)) (dropWhile cls t) [])
        else None
    | [] => None
    end.
Proof.
  rewrite plus_class by (intros; discriminate).
  destruct text as [|c t]; [reflexivity|]. now rewrite skipClass_text.
Qed.

Lemma replaceAll_runs (cls : N -> bool) (rep : str) (fuel : nat) :
  forall text pv, length text < fuel ->
  replaceAllFrom fuel (Plus (Chr cls)) (fun _ => rep) pv text = collapse cls rep false text.
Proof.
  induction fuel as [|fuel IH]; intros text pv Hl; [lia|].
  revert pv. induction text as [|c t IHt]; intros pv.
  - cbn [replaceAllFrom]. rewrite search_unfold, plus_top. reflexivity.
  - cbn [replaceAllFrom]. rewrite search_unfold, plus_top. cbn [collapse].
    destruct (cls c) eqn:Hc.
    + cbn [skipped matched final rest prev app length].
      pose proof (dropWhile_length cls t) as Hd.
      destruct (firstn _ _) eqn:Ef.
      * exfalso. apply (f_equal (@length N)) in Ef.
        rewrite length_firstn in Ef. cbn [length] in *. lia.
      * rewrite collapse_run. cbn [app]. f_equal.
        apply IH. cbn [length] in Hl. lia.
    + cbn [length] in Hl. specialize (IHt ltac:(lia) (Some c)).
      cbn [replaceAllFrom] in IHt.
      destruct (search (Plus (Chr cls)) (Some c) t) as [m|].
      * cbn [skipped matched final app]. f_equal. exact IHt.
      * f_equal. exact IHt.
Qed.

Lemma collapse_nothing (cls : N -> bool) (text : str) :
  forall b, collapse cls [] b text = filter (fun c => negb (cls c)) text.
Proof.
  induction text as [|c t IH]; intros b; [reflexivity|].
  cbn [collapse filter]. destruct (cls c); cbn [negb].
  - destruct b; cbn [app]; apply IH.
  - f_equal. apply IH.
Qed.

(** Two or more hyphens. *)
Lemma hyphens_top (pv : option N) (text : str) :
  rmatch (Seq (Chr isHyphen) (Plus (Chr isHyphen))) Some (MState pv text [])
  = match text with
    | c :: d :: t =>
        if isHyphen c && isHyphen d
        then Some (MState (fst (skipClass isHyphen (Some d) t)) (dropWhile isHyphen t) [])
        else None
    | _ => None
    end.
Proof.
  rewrite rmatch_seq, rmatch_chr. destruct text as [|c t]; [reflexivity|].
  destruct (isHyphen c); [|now destruct t]. rewrite plus_top.
  destruct t as [|d t]; [reflexivity|]. reflexivity.
Qed.

Lemma isHyphen_eq (c : N) : isHyphen c = true -> c = 45%N.
Proof. unfold isHyphen. apply N.eqb_eq. Qed.

Lemma replaceAll_hyphens (fuel : nat) :
  forall text pv, length text < fuel ->
  replaceAllFrom fuel (Seq (Chr isHyphen) (Plus (Chr isHyphen))) (fun _ => js "-") pv text
  = collapse isHyphen (js "-") false text.
Proof.
  induction fuel as [|fuel IH]; intros text pv Hl; [lia|].
  revert pv. induction text as [|c t IHt]; intros pv.
  - cbn [replaceAllFrom]. rewrite search_unfold, hyphens_top. reflexivity.
  - cbn [replaceAllFrom]. rewrite search_unfold, hyphens_top. cbn [collapse].
    cbn [length] in Hl. specialize (IHt ltac:(lia) (Some c)).
    cbn [replaceAllFrom] in IHt.
    destruct (isHyphen c) eqn:Hc; cbn [andb].
    + pose proof (isHyphen_eq c Hc) as Ec. subst c.
      change (js "-") with [45%N]. cbn [app].
      destruct t as [|d t].
      * rewrite search_unfold, hyphens_top. reflexivity.
      * destruct (isHyphen d) eqn:Hd.
        -- cbn [skipped matched final rest prev app length].
           pose proof (dropWhile_length isHyphen t) as Hdl.
           destruct (firstn _ _) eqn:Ef.
           ++ exfalso. apply (f_equal (@length N)) in Ef.
              rewrite length_firstn in Ef. cbn [length] in *. lia.
           ++ cbn [collapse]. rewrite Hd. cbn [app]. rewrite collapse_run.
              f_equal. apply IH. cbn [length] in Hl. lia.
        -- rewrite collapse_run. cbn [dropWhile]. rewrite Hd.
           destruct (search _ (Some 45%N) (d :: t)) as [m|].
           ++ cbn [skipped matched final app]. f_equal. exact IHt.
           ++ f_equal. exact IHt.
    + assert (E : match t with
                  | [] => None
                  | d :: t0 =>
                      if false
                      then Some (MState (fst (skipClass isHyphen (Some d) t0))
                                   (dropWhile isHyphen t0) [])
                      else None
                  end = @None mstate) by now destruct t.
      rewrite E.
      destruct (search _ (Some c) t) as [m|].
      * cbn [skipped matched final app]. f_equal. exact IHt.
      * f_equal. exact IHt.
Qed.

(** *** Anchored patterns *)

Lemma search_bol_later (r : regex) (text : str) :
  forall c, search (Seq Bol r) (Some c) text = None.
Proof.
  induction text as [|d t IH]; intros c; rewrite search_unfold; cbn [rmatch prev].
  - reflexivity.
  - now rewrite IH.
Qed.

Lemma strip_start (text : str) :
  replaceFirst (seqs [Bol; Plus (Chr isHyphen)]) text = dropWhile isHyphen text.
Proof.
  unfold replaceFirst. rewrite search_unfold.
  change (rmatch (seqs [Bol; Plus (Chr isHyphen)]) Some (MState None text []))
    with (rmatch (Plus (Chr isHyphen)) (rmatch Eps Some) (MState None text [])).
  rewrite plus_class by (intros ? ? ? ? _ H; cbn in H; discriminate).
  destruct text as [|c t]; [reflexivity|].
  cbn [dropWhile]. destruct (isHyphen c).
  - cbn [rmatch skipped final rest app]. now rewrite skipClass_text.
  - change (seqs [Bol; Plus (Chr isHyphen)]) with (Seq Bol (Seq (Plus (Chr isHyphen)) Eps)).
    now rewrite search_bol_later.
Qed.

Lemma dropWhile_nil_forallb (p : N -> bool) (text : str) :
  match dropWhile p text with [] => forallb p text = true | _ :: _ => forallb p text = false end.
Proof.
  induction text as [|c t IH]; [reflexivity|].
  cbn [dropWhile forallb]. destruct (p c); [exact IH | reflexivity].
Qed.

Lemma end_top (pv : option N) (text : str) :
  rmatch (seqs [Plus (Chr isHyphen); Eol]) Some (MState pv text [])
  = match text with
    | c :: t =>
        if forallb isHyphen (c :: t)
        then Some (MState (fst (skipClass isHyphen (Some c) t)) [] [])
        else None
    | [] => None
    end.
Proof.
  change (seqs [Plus (Chr isHyphen); Eol]) with (Seq (Plus (Chr isHyphen)) (Seq Eol Eps)).
  rewrite rmatch_seq, plus_class.
  - destruct text as [|c t]; [reflexivity|]. cbn [forallb].
    destruct (isHyphen c); [|reflexivity]. cbn [andb rmatch rest].
    rewrite skipClass_text. pose proof (dropWhile_nil_forallb isHyphen t) as H.
    destruct (dropWhile isHyphen t); now rewrite H.
  - intros pv' c t cs _ _. reflexivity.
Qed.

Lemma strip_end_from (text : str) :
  forall pv,
  match search (seqs [Plus (Chr isHyphen); Eol]) pv text with
  | Some m => skipped m ++ rest (final m)
  | None => text
  end = stripEnd isHyphen text.
Proof.
  induction text as [|c t IH]; intros pv; rewrite search_unfold, end_top; [reflexivity|].
  cbn [stripEnd]. destruct (forallb isHyphen (c :: t)); [reflexivity|].
  specialize (IH (Some c)). destruct (search _ (Some c) t) as [m|].
  - cbn [skipped final app]. now f_equal.
  - now f_equal.
Qed.

Lemma strip_end (text : str) :
  replaceFirst (seqs [Plus (Chr isHyphen); Eol]) text = stripEnd isHyphen text.
Proof. apply strip_end_from. Qed.

(** *** The shape of a slug *)

Lemma transliterate_table :
  forallb (fun x => noUnderscore (transliterate [x])) slugFrom = true.
Proof. vm_compute. reflexivity. Qed.

Lemma transliterate_member (c : N) :
  memberOf slugFrom c = true -> noUnderscore (transliterate [c]) = true.
Proof.
  intros H. unfold memberOf in H. apply existsb_exists in H as (x & Hx & E).
  apply N.eqb_eq in E. subst x.
  exact (proj1 (forallb_forall _ _) transliterate_table c Hx).
Qed.

Lemma noUnderscore_app (a b : str) :
  noUnderscore (a ++ b) = noUnderscore a && noUnderscore b.
Proof. apply forallb_app. Qed.

Lemma transliterated_noUnderscore (s : str) :
  noUnderscore (flat_map (fun c => if memberOf slugFrom c then transliterate [c] else [c]) s)
  = true.
Proof.
  induction s as [|c s IH]; [reflexivity|].
  cbn [flat_map]. rewrite noUnderscore_app, IH, andb_true_r.
  destruct (memberOf slugFrom c) eqn:E; [now apply transliterate_member|].
  unfold noUnderscore. cbn [forallb]. rewrite andb_true_r.
  destruct (c =? 95)%N eqn:E95; [|reflexivity].
  apply N.eqb_eq in E95. subst c. vm_compute in E. discriminate.
Qed.

Lemma ampersand_noUnderscore (s : str) :
  noUnderscore s = true ->
  noUnderscore (flat_map (fun c => if isAmpersand c then js "-and-" else [c]) s) = true.
Proof.
  induction s as [|c s IH]; intros H; [reflexivity|].
  unfold noUnderscore in H. cbn [forallb] in H. apply andb_true_iff in H as [Hc Hs].
  cbn [flat_map]. rewrite noUnderscore_app, (IH Hs), andb_true_r.
  destruct (isAmpersand c); [reflexivity|].
  unfold noUnderscore. cbn [forallb]. now rewrite Hc.
Qed.

Lemma kept_units (s : str) :
  noUnderscore s = true ->
  forallb slugUnit (filter (fun c => negb (notWordOrHyphen c)) s) = true.
Proof.
  induction s as [|c s IH]; intros H; [reflexivity|].
  unfold noUnderscore in H. cbn [forallb] in H. apply andb_true_iff in H as [Hc Hs].
  cbn [filter]. unfold notWordOrHyphen at 1. rewrite negb_involutive.
  destruct (isWordChar c || isHyphen c) eqn:E; [|now apply IH].
  cbn [forallb]. rewrite (IH Hs), andb_true_r.
  unfold slugUnit. rewrite Hc, andb_true_r. exact E.
Qed.

Lemma collapse_units (text : str) :
  forall b,
  forallb slugUnit text = true ->
  forallb slugUnit (collapse isHyphen (js "-") b text) = true.
Proof.
  induction text as [|c t IH]; intros b H; [reflexivity|].
  cbn [forallb] in H. apply andb_true_iff in H as [Hc Ht].
  cbn [collapse]. destruct (isHyphen c).
  - rewrite forallb_app, (IH true Ht), andb_true_r. now destruct b.
  - cbn [forallb]. now rewrite Hc, (IH false Ht).
Qed.

Lemma noDouble_cons (c d : N) (t : str) :
  noDoubleHyphen (c :: d :: t)
  = negb (isHyphen c && isHyphen d) && noDoubleHyphen (d :: t).
Proof. reflexivity. Qed.

Lemma collapse_noDouble (text : str) :
  forall b,
  noDoubleHyphen (collapse isHyphen (js "-") b text) = true
  /\ (b = true -> startsWithHyphen (collapse isHyphen (js "-") b text) = false).
Proof.
  change (js "-") with [45%N].
  induction text as [|c t IH]; intros b; [now split|].
  cbn [collapse]. destruct (isHyphen c) eqn:Hc.
  - destruct (IH true) as [H1 H2]. specialize (H2 eq_refl). destruct b; cbn [app].
    + now split.
    + split; [|discriminate].
      destruct (collapse isHyphen [45%N] true t) as [|d t'] eqn:E; [reflexivity|].
      rewrite noDouble_cons. cbn [startsWithHyphen] in H2. rewrite H2, andb_false_r.
      exact H1.
  - destruct (IH false) as [H1 _]. split.
    + destruct (collapse isHyphen [45%N] false t) as [|d t'] eqn:E; [reflexivity|].
      rewrite noDouble_cons. now rewrite Hc.
    + intros _. cbn [startsWithHyphen]. exact Hc.
Qed.

Lemma noDouble_tail (c : N) (t : str) :
  noDoubleHyphen (c :: t) = true -> noDoubleHyphen t = true.
Proof.
  destruct t as [|d t]; [reflexivity|]. rewrite noDouble_cons.
  intros H. now apply andb_true_iff in H.
Qed.

Lemma dropWhile_keeps (text : str) :
  forallb slugUnit text = true -> noDoubleHyphen text = true ->
  forallb slugUnit (dropWhile isHyphen text) = true
  /\ noDoubleHyphen (dropWhile isHyphen text) = true
  /\ startsWithHyphen (dropWhile isHyphen text) = false.
Proof.
  induction text as [|c t IH]; intros Hu Hd; [now repeat split|].
  cbn [dropWhile]. destruct (isHyphen c) eqn:Hc.
  - apply IH; [cbn [forallb] in Hu; now apply andb_true_iff in Hu | now apply noDouble_tail in Hd].
  - now repeat split.
Qed.

Lemma stripEnd_nil (text : str) :
  stripEnd isHyphen text = [] -> forallb isHyphen text = true.
Proof.
  destruct text as [|c t]; [reflexivity|]. cbn [stripEnd].
  destruct (forallb isHyphen (c :: t)); [reflexivity | discriminate].
Qed.

Lemma stripEnd_keeps (text : str) :
  forallb slugUnit text = true -> noDoubleHyphen text = true ->
  forallb slugUnit (stripEnd isHyphen text) = true
  /\ noDoubleHyphen (stripEnd isHyphen text) = true
  /\ startsWithHyphen (stripEnd isHyphen text) = startsWithHyphen text
     && negb (forallb isHyphen text)
  /\ startsWithHyphen (rev (stripEnd isHyphen text)) = false.
Proof.
  induction text as [|c t IH]; intros Hu Hd; [now repeat split|].
  cbn [forallb] in Hu. apply andb_true_iff in Hu as [Hc Ht].
  specialize (IH Ht (noDouble_tail c t Hd)). destruct IH as (I1 & I2 & I3 & I4).
  cbn [stripEnd]. destruct (forallb isHyphen (c :: t)) eqn:Ea.
  - repeat split. cbn [startsWithHyphen negb]. now rewrite andb_false_r.
  - repeat split.
    + cbn [forallb]. now rewrite Hc, I1.
    + destruct (stripEnd isHyphen t) as [|d t'] eqn:E; [reflexivity|].
      rewrite noDouble_cons, I2, andb_true_r.
      destruct t as [|d0 t0]; [discriminate|].
      cbn [stripEnd] in E. destruct (forallb isHyphen (d0 :: t0)); [discriminate|].
      inversion E. subst d0. rewrite noDouble_cons in Hd.
      now apply andb_true_iff in Hd.
    + cbn [startsWithHyphen negb]. now rewrite andb_true_r.
    + cbn [rev]. destruct (rev (stripEnd isHyphen t)) as [|d t'] eqn:E.
      * cbn [app startsWithHyphen].
        assert (E' : stripEnd isHyphen t = []).
        { apply (f_equal (@rev N)) in E. now rewrite rev_involutive in E. }
        apply stripEnd_nil in E'. cbn [forallb] in Ea. rewrite E', andb_true_r in Ea.
        exact Ea.
      * cbn [app startsWithHyphen]. exact I4.
Qed.

Lemma noDouble_includes (s : str) :
  noDoubleHyphen s = true -> includes s (js "--") = false.
Proof.
  induction s as [|c t IH]; intros H; [reflexivity|].
  cbn [includes]. rewrite (IH (noDouble_tail c t H)), orb_false_r.
  change (js "--") with [45%N; 45%N]. cbn [startsWith].
  destruct t as [|d t]; [now rewrite andb_false_r|].
  rewrite noDouble_cons in H. apply andb_true_iff in H as [H _].
  unfold isHyphen in H. rewrite andb_true_r.
  rewrite (N.eqb_sym 45 c), (N.eqb_sym 45 d). now apply negb_true_iff.
Qed.

Lemma startsWithHyphen_spec (s : str) : startsWith (js "-") s = startsWithHyphen s.
Proof.
  change (js "-") with [45%N]. destruct s as [|c t]; [reflexivity|].
  cbn [startsWith startsWithHyphen]. unfold isHyphen.
  now rewrite andb_true_r, N.eqb_sym.
Qed.

(** X22. The slug of an empty text is [document]; every slug is made of
    Basic Latin letters, digits and hyphens only, neither starts nor ends
    with a hyphen and has no two hyphens side by side. *)
Theorem slug_is_safe_in_a_file_name (toLowerCase : str -> str) (text : str) :
  let slug := slugify toLowerCase text in
  (text = [] -> slug = js "document")
  /\ forallb slugUnit slug = true
  /\ startsWith (js "-") slug = false
  /\ endsWith slug (js "-") = false
  /\ includes slug (js "--") = false.
Proof.
  intros slug. subst slug. unfold slugify.
  destruct text as [|c0 t0]; cbn [truthy negb].
  { repeat split; vm_compute; reflexivity. }
  split; [discriminate|].
  set (s0 := toLowerCase (c0 :: t0)).
  unfold replaceAll.
  rewrite (replaceAll_runs isSpace (js "-")) by lia.
  set (s1 := collapse isSpace (js "-") false s0).
  rewrite (replaceAll_unit (oneOf slugFrom) (memberOf slugFrom)
             (unitPattern_oneOf _ _) transliterate) by lia.
  set (s2 := flat_map _ s1).
  rewrite (replaceAll_unit (Chr isAmpersand) isAmpersand (unitPattern_chr _)) by lia.
  set (s3 := flat_map _ s2).
  rewrite (replaceAll_runs notWordOrHyphen []) by lia.
  rewrite collapse_nothing.
  set (s4 := filter _ s3).
  rewrite replaceAll_hyphens by lia.
  set (s5 := collapse isHyphen (js "-") false s4).
  rewrite strip_start, strip_end.
  assert (U4 : forallb slugUnit s4 = true).
  { apply kept_units, ampersand_noUnderscore, transliterated_noUnderscore. }
  assert (U5 : forallb slugUnit s5 = true) by now apply collapse_units.
  destruct (collapse_noDouble s4 false) as [D5 _]. fold s5 in D5.
  destruct (dropWhile_keeps s5 U5 D5) as (U6 & D6 & H6).
  destruct (stripEnd_keeps _ U6 D6) as (U7 & D7 & H7 & E7).
  repeat split.
  - exact U7.
  - rewrite startsWithHyphen_spec, H7, H6. reflexivity.
  - unfold endsWith. change (rev (js "-")) with (js "-").
    now rewrite startsWithHyphen_spec.
  - now apply noDouble_includes.
Qed.

Example slug_of_a_place_name :
  slugify toLowerCaseLatin (js "Cmentarz komunalny, ul. Malczewskiego 1/3 & Łódź")
  = js "cmentarz-komunalny-ul-malczewskiego-1-3-and-lodz".
Proof. vm_compute. reflexivity. Qed.

(** ** The title and the place of the document *)

Lemma search_run (cls : N -> bool) (text : str) :
  forall pv,
  search (Plus (Chr cls)) pv text
  = match dropWhile (fun c => negb (cls c)) text with
    | c :: t =>
        Some (Found (takeWhile (fun c => negb (cls c)) text) (c :: takeWhile cls t)
                (MState (fst (skipClass cls (Some c) t)) (dropWhile cls t) []))
    | [] => None
    end.
Proof.
  induction text as [|c t IH]; intros pv; rewrite search_unfold, plus_top; [reflexivity|].
  cbn [dropWhile takeWhile]. destruct (cls c) eqn:Hc; cbn [negb].
  - cbn [rest]. f_equal. f_equal.
    pose proof (dropWhile_length cls t) as Hd. cbn [length].
    replace (S (length t) - length (dropWhile cls t))
      with (S (length t - length (dropWhile cls t))) by lia.
    cbn [firstn]. now rewrite firstn_takeWhile.
  - rewrite IH. now destruct (dropWhile _ t).
Qed.

Lemma word_head (w : str) :
  isWord w = true -> exists c t, w = c :: t /\ isSpace c = false.
Proof.
  unfold isWord. destruct w as [|c t]; [discriminate|]. cbn [truthy forallb andb].
  intros H. apply andb_true_iff in H as [H _]. exists c, t. split; [reflexivity|].
  now apply negb_true_iff.
Qed.

Lemma word_takeWhile (w rest : str) :
  forallb (fun c => negb (isSpace c)) w = true ->
  takeWhile (fun c => negb (isSpace c)) (w ++ 32%N :: rest) = w
  /\ dropWhile (fun c => negb (isSpace c)) (w ++ 32%N :: rest) = 32%N :: rest.
Proof.
  induction w as [|c t IH]; intros H.
  - now split.
  - cbn [forallb] in H. apply andb_true_iff in H as [Hc Ht].
    cbn [app takeWhile dropWhile]. rewrite Hc. destruct (IH Ht) as [-> ->]. now split.
Qed.

Lemma word_alone (w : str) :
  forallb (fun c => negb (isSpace c)) w = true ->
  dropWhile (fun c => negb (isSpace c)) w = [].
Proof.
  induction w as [|c t IH]; intros H; [reflexivity|].
  cbn [forallb] in H. apply andb_true_iff in H as [Hc Ht].
  cbn [dropWhile]. rewrite Hc. now apply IH.
Qed.

Lemma join_cons (sep w : str) (l : list str) :
  l <> [] -> join sep (w :: l) = w ++ sep ++ join sep l.
Proof. destruct l; [contradiction | reflexivity]. Qed.

Lemma join_words_head (w : str) (l : list str) :
  isWord w = true ->
  exists c t, join (js " ") (w :: l) = c :: t /\ isSpace c = false.
Proof.
  intros H. destruct (word_head w H) as (c & t & -> & Hc).
  destruct l as [|w2 l]; [now exists c, t|].
  rewrite join_cons by discriminate. cbn [app]. now eexists c, _.
Qed.

Lemma splitFrom_words (l : list str) :
  forall w fuel pv,
  forallb isWord (w :: l) = true ->
  length (join (js " ") (w :: l)) < fuel ->
  splitFrom fuel (Plus (Chr isSpace)) pv [] (join (js " ") (w :: l)) = w :: l.
Proof.
  induction l as [|w2 l IH]; intros w fuel pv H Hl.
  - destruct fuel as [|fuel]; [lia|]. cbn [join splitFrom].
    cbn [forallb] in H. rewrite andb_true_r in H. unfold isWord in H.
    apply andb_true_iff in H as [_ H].
    rewrite search_run, (word_alone w H). now rewrite app_nil_l.
  - destruct fuel as [|fuel]; [lia|].
    cbn [forallb] in H. apply andb_true_iff in H as [Hw H].
    rewrite join_cons in * by discriminate.
    change (js " ") with [32%N] in *. cbn [app] in *.
    cbn [splitFrom]. rewrite search_run.
    unfold isWord in Hw. apply andb_true_iff in Hw as [_ Hw].
    destruct (word_takeWhile w (join [32%N] (w2 :: l)) Hw) as [-> ->].
    assert (H2 : isWord w2 = true) by (cbn [forallb] in H; now apply andb_true_iff in H).
    destruct (join_words_head w2 l H2) as (c & t & E & Hc).
    change (js " ") with [32%N] in E. rewrite E.
    cbn [takeWhile dropWhile]. rewrite Hc.
    cbn [matched skipped final rest prev app]. f_equal.
    rewrite <- E. apply IH; [exact H|].
    rewrite length_app in Hl. cbn [length] in Hl. change (js " ") with [32%N]. lia.
Qed.

Lemma split_words (l : list str) :
  l <> [] -> forallb isWord l = true ->
  split (Plus (Chr isSpace)) (join (js " ") l) = l.
Proof.
  intros Hn H. destruct l as [|w l]; [contradiction|].
  destruct (join_words_head w l) as (c & t & E & _);
    [cbn [forallb] in H; now apply andb_true_iff in H|].
  unfold split. rewrite E, <- E. apply splitFrom_words; [exact H | lia].
Qed.

Lemma join_snoc (sep : str) (l : list str) (w : str) :
  l <> [] -> join sep (l ++ [w]) = join sep l ++ sep ++ w.
Proof.
  induction l as [|a l IH]; intros H; [contradiction|].
  destruct l as [|b l]; [reflexivity|].
  change ((a :: b :: l) ++ [w]) with (a :: ((b :: l) ++ [w])).
  rewrite join_cons by (destruct l; discriminate).
  rewrite IH by discriminate. rewrite (join_cons sep a (b :: l)) by discriminate.
  now rewrite <- !app_assoc.
Qed.

Lemma isWord_rev (w : str) : isWord w = true -> isWord (rev w) = true.
Proof.
  unfold isWord. intros H. apply andb_true_iff in H as [H1 H2].
  apply andb_true_iff. split.
  - destruct w as [|c t]; [discriminate|]. cbn [rev]. now destruct (rev t).
  - rewrite forallb_forall in *. intros c Hc. apply H2. now apply in_rev.
Qed.

Lemma join_words_last (l : list str) (w : str) :
  isWord w = true ->
  exists c t, rev (join (js " ") (l ++ [w])) = c :: t /\ isSpace c = false.
Proof.
  intros H. destruct (word_head (rev w) (isWord_rev w H)) as (c & t & E & Hc).
  destruct l as [|a l].
  - cbn [app join]. now exists c, t.
  - rewrite join_snoc by discriminate. rewrite !rev_app_distr, E. cbn [app].
    now eexists c, _.
Qed.

Lemma trim_words (l : list str) :
  l <> [] -> forallb isWord l = true -> trim (join (js " ") l) = join (js " ") l.
Proof.
  intros Hn H. unfold trim, trimEnd.
  destruct l as [|w l]; [contradiction|].
  destruct (join_words_head w l) as (c & t & E & Hc);
    [cbn [forallb] in H; now apply andb_true_iff in H|].
  rewrite E, (trimStart_fixed c t Hc), <- E.
  destruct (exists_last (l := w :: l) ltac:(discriminate)) as (l' & w' & E').
  rewrite E'.
  assert (Hw' : isWord w' = true).
  { rewrite E' in H. rewrite forallb_app in H. apply andb_true_iff in H as [_ H].
    cbn [forallb] in H. now rewrite andb_true_r in H. }
  destruct (join_words_last l' w' Hw') as (c' & t' & E2 & Hc').
  rewrite E2, (trimStart_fixed c' t' Hc'), <- E2. apply rev_involutive.
Qed.

(** X23. A phrase of words written twice, single spaces between the
    words, is cleaned to the phrase written once. *)
Theorem phrase_written_twice_is_kept_once (toLowerCase : str -> str) (words : list str) :
  words <> [] ->
  forallb isWord words = true ->
  cleanDuplicateText toLowerCase (join (js " ") (words ++ words)) = join (js " ") words.
Proof.
  intros Hn H. unfold cleanDuplicateText.
  assert (Hn2 : words ++ words <> []) by (destruct words; [contradiction | discriminate]).
  assert (H2 : forallb isWord (words ++ words) = true) by now rewrite forallb_app, H.
  destruct words as [|w l] eqn:Ew; [contradiction|]. rewrite <- Ew in *.
  destruct (join_words_head w (l ++ words)) as (c & t & E & _);
    [rewrite Ew in H; cbn [forallb] in H; now apply andb_true_iff in H|].
  assert (T : truthy (join (js " ") (words ++ words)) = true).
  { rewrite Ew at 1. cbn [app]. now rewrite E. }
  rewrite T. cbn [negb].
  rewrite (trim_words _ Hn2 H2), (split_words _ Hn2 H2).
  rewrite length_app.
  replace ((length words + length words) / 2) with (length words)
    by (symmetry; replace (length words + length words) with (length words * 2) by lia;
        apply Nat.div_mul; discriminate).
  rewrite firstn_app, firstn_all, Nat.sub_diag, app_nil_r.
  rewrite skipn_app, skipn_all, Nat.sub_diag. cbn [skipn app].
  replace (1 <? length words + length words) with true
    by (symmetry; apply Nat.ltb_lt; rewrite Ew; cbn [length]; lia).
  replace ((length words + length words) mod 2 =? 0) with true.
  - unfold str_eqb at 1. now destruct (list_eq_dec N.eq_dec _ _).
  - symmetry. apply Nat.eqb_eq.
    replace (length words + length words) with (length words * 2) by lia.
    apply Nat.Div0.mod_mul.
Qed.

Lemma phrase_written_twice_is_kept_once_witness :
  cleanDuplicateText toLowerCaseLatin (js "Park Miejski Park Miejski") = js "Park Miejski".
Proof.
  apply (phrase_written_twice_is_kept_once toLowerCaseLatin [js "Park"; js "Miejski"]).
  - discriminate.
  - reflexivity.
Defined.

Lemma includes_refl (s : str) : includes s s = true.
Proof.
  assert (H : startsWith s s = true).
  { induction s as [|c t IH]; [reflexivity|]. cbn [startsWith]. now rewrite N.eqb_refl. }
  destruct s; cbn [includes]; now rewrite H.
Qed.

Lemma includes_nil (s : str) : includes s [] = true.
Proof. now destruct s. Qed.

(** X24. A location of fewer than three code units is never redundant;
    one of three or more is redundant when it is the title itself, and,
    whatever the title, when nothing of it is left once normalized. *)
Theorem location_redundancy_at_the_edges (toLowerCase : str -> str) (title location : str) :
  (length location < 3 -> isLocationRedundant toLowerCase title location = false)
  /\ (3 <= length location ->
      normalizePlace toLowerCase location = [] \/ title = location ->
      isLocationRedundant toLowerCase title location = true).
Proof.
  unfold isLocationRedundant. split.
  - intros H. apply Nat.ltb_lt in H. rewrite H. now rewrite orb_true_r.
  - intros H Hc. apply Nat.ltb_ge in H. rewrite H.
    destruct location as [|c t]; [discriminate|]. cbn [truthy negb orb].
    destruct Hc as [->| ->]; [now rewrite includes_nil | now rewrite includes_refl].
Qed.

Lemma location_redundancy_at_the_edges_witness :
  (length (js "!!!") < 3 ->
   isLocationRedundant toLowerCaseLatin (js "Kosztorys") (js "!!!") = false)
  /\ (3 <= length (js "!!!") ->
      normalizePlace toLowerCaseLatin (js "!!!") = [] \/ js "Kosztorys" = js "!!!" ->
      isLocationRedundant toLowerCaseLatin (js "Kosztorys") (js "!!!") = true).
Proof.
  exact (location_redundancy_at_the_edges toLowerCaseLatin (js "Kosztorys") (js "!!!")).
Defined.

(** ** Fragments under the same headers *)

Lemma sameHeaders_refl (hs : list str) : sameHeaders hs hs = true.
Proof. unfold sameHeaders. now destruct (list_eq_dec (list_eq_dec N.eq_dec) hs hs). Qed.

(** X25. Tables that all have the headers of the first one are merged
    into one table: the first with the rows of all, in order. *)
Theorem fragments_under_the_same_headers_become_one_table (toLowerCase : str -> str)
    (first : ExtractedTable) (others : list ExtractedTable) :
  (forall t, In t others -> headers t = headers first) ->
  mergeCompatibleTables toLowerCase (first :: others)
  = [withRows first (concat (map rows (first :: others)))].
Proof.
  intros H. unfold mergeCompatibleTables.
  assert (F : forall l cur,
            headers cur = headers first ->
            (forall t, In t l -> headers t = headers first) ->
            fold_left (mergeStep toLowerCase) l ([], cur)
            = ([], withRows cur (rows cur ++ concat (map rows l)))).
  { induction l as [|next l IH]; intros cur Hc Hl.
    - cbn. rewrite app_nil_r. now destruct cur.
    - cbn [fold_left mergeStep]. unfold compatible.
      rewrite Hc, (Hl next) by now left. rewrite sameHeaders_refl. cbn [orb].
      rewrite IH; [|exact Hc | intros t Ht; apply Hl; now right].
      cbn [rows withRows map concat title headers]. now rewrite <- app_assoc. }
  rewrite (F others (withRows first (rows first)) eq_refl H). reflexivity.
Qed.

Lemma fragments_under_the_same_headers_become_one_table_witness :
  mergeCompatibleTables toLowerCaseLatin [oakTable; mixedTable]
  = [withRows oakTable (concat (map rows [oakTable; mixedTable]))].
Proof.
  apply (fragments_under_the_same_headers_become_one_table toLowerCaseLatin oakTable
           [mixedTable]).
  intros t [<-|[]]. reflexivity.
Defined.

(** ** The final cleanup done twice *)

Lemma trim_digits (s : str) : forallb isDigit s = true -> trim s = s.
Proof.
  intros H. unfold trim, trimEnd.
  assert (T : forall s, forallb isDigit s = true -> trimStart s = s).
  { intros [|c t] Hs; [reflexivity|]. cbn [forallb] in Hs.
    apply andb_true_iff in Hs as [Hc _]. cbn [trimStart].
    now destruct (digit_not_space c Hc) as [-> _]. }
  rewrite (T s H), T, rev_involutive; [reflexivity|].
  rewrite forallb_forall in *. intros c Hc. apply H. now apply in_rev.
Qed.

Lemma skipClass_all (p : N -> bool) (text : str) :
  forall pv, forallb p text = true -> snd (skipClass p pv text) = [].
Proof.
  induction text as [|c t IH]; intros pv H; [reflexivity|].
  cbn [forallb] in H. apply andb_true_iff in H as [Hc Ht].
  cbn [skipClass]. rewrite Hc. now apply IH.
Qed.

Lemma numeral_digits (s : str) :
  s <> [] -> forallb isDigit s = true -> test numeralPattern s = true.
Proof.
  intros Hn H. unfold test. rewrite search_unfold.
  change (rmatch numeralPattern Some (MState None s []))
    with (rmatch (Plus (Chr (fun c => isDigit c || isDot c))) (rmatch (Seq Eol Eps) Some)
            (MState None s [])).
  rewrite plus_class by (intros; reflexivity).
  destruct s as [|c t]; [contradiction|].
  cbn [forallb] in H. apply andb_true_iff in H as [Hc Ht]. rewrite Hc. cbn [orb].
  rewrite skipClass_all; [reflexivity|].
  rewrite forallb_forall in *. intros d Hd. now rewrite (Ht d Hd).
Qed.

Lemma decimal_numeralShaped (k : N) : numeralShaped (decimal k) = true.
Proof.
  unfold numeralShaped. destruct (decimal_head k) as (d & rest & E & _).
  pose proof (uintDigits_digits (N.to_uint k)) as D. fold (decimal k) in D.
  rewrite (trim_digits _ D), numeral_digits; [|rewrite E; discriminate | exact D].
  now rewrite E.
Qed.

Lemma renumberRow_cons (i : nat) (firstCell : str) (others : list str) :
  renumberRow (i, firstCell :: others)
  = if numeralShaped firstCell then decimal (N.of_nat (i + 1)) :: others
    else firstCell :: others.
Proof. reflexivity. Qed.

Lemma renumberRow_twice (i : nat) (row : list str) :
  renumberRow (i, renumberRow (i, row)) = renumberRow (i, row).
Proof.
  destruct row as [|firstCell others]; [reflexivity|].
  rewrite (renumberRow_cons i firstCell). destruct (numeralShaped firstCell) eqn:E.
  - now rewrite renumberRow_cons, decimal_numeralShaped.
  - now rewrite renumberRow_cons, E.
Qed.

Lemma hasContent_renumberRow (i : nat) (row : list str) :
  hasContent (renumberRow (i, row)) = hasContent row.
Proof.
  unfold renumberRow. destruct row as [|firstCell others]; [reflexivity|].
  now destruct (truthy firstCell && _).
Qed.

Lemma filter_fixed {A : Type} (p : A -> bool) (l : list A) :
  (forall x, In x l -> p x = true) -> filter p l = l.
Proof.
  induction l as [|x l IH]; intros H; [reflexivity|].
  cbn [filter]. rewrite (H x) by now left. f_equal. apply IH. intros y Hy. apply H. now right.
Qed.

Lemma renumber_indexed_twice (l : list (list str)) :
  forall s,
  map renumberRow (combine (seq s (length (map renumberRow (combine (seq s (length l)) l))))
                     (map renumberRow (combine (seq s (length l)) l)))
  = map renumberRow (combine (seq s (length l)) l).
Proof.
  induction l as [|row l IH]; intros s; [reflexivity|].
  cbn [length seq combine map]. rewrite renumberRow_twice. f_equal. apply IH.
Qed.

(** X26. The final cleanup done a second time changes nothing. *)
Theorem final_cleanup_twice_changes_nothing (options : ProcessingOptions)
    (newRows : list (list str)) :
  finalCleanup options (finalCleanup options newRows) = finalCleanup options newRows.
Proof.
  set (kept := filter hasContent newRows).
  assert (K : forall row, In row kept -> hasContent row = true)
    by (intros row H; now apply filter_In in H).
  assert (Hd : finalCleanup options newRows
               = if negb (isTrue (preserveLp options)) && (0 <? length kept)
                 then map renumberRow (indexed kept) else kept) by reflexivity.
  rewrite Hd. destruct (negb (isTrue (preserveLp options)) && (0 <? length kept)) eqn:E.
  - unfold finalCleanup. rewrite filter_fixed.
    + unfold indexed at 1 3. rewrite length_map, length_combine, length_seq, Nat.min_id, E.
      unfold indexed. apply (renumber_indexed_twice kept 0).
    + intros row H. apply in_map_iff in H as ([i r] & <- & H).
      rewrite hasContent_renumberRow. apply K. unfold indexed in H.
      now apply in_combine_r in H.
  - unfold finalCleanup. rewrite (filter_fixed hasContent kept K). now rewrite E.
Qed.
